(** * atv-companion: a shallow embedding of the authenticated-session core

    The development follows the TypeScript sources of the repository.

    Definitions:
    - [Tlv8]       src/support/tlv8.ts        readTlv, writeTlv
    - [Chacha20]   src/support/chacha20.ts    Chacha20Cipher
    - [Types]      src/types.ts               FrameType
    - [Connection] src/protocol/connection.ts FrameType, CompanionConnection:
                                              send, handleData, close
    - [Opack]      src/support/opack.ts       pack, unpack
    - [Srp]        src/auth/srp.ts            SRPAuthHandler, modPow,
                                              computePublicEphemeral
    - [Scanner]    src/scanner/scanner.ts     serviceToDevice, scan,
                                              AppleTVScanner, the pairing flags
    - [Protocol]   src/protocol/protocol.ts   CompanionProtocol
    - [Pairing]    src/protocol/pairing.ts    getPairingData
    - [Crypto]     the interface of the @noble libraries, [Toy] a stand-in
                   for it, [Examples] the concrete inputs of the theorems

    Theorems: [Tlv8Facts], [Chacha20Facts], [ConnectionFacts], [OpackFacts],
    [SrpFacts], [ScannerFacts], [ProtocolFacts].

    Node.js [Buffer]s are lists of bytes, bytes and JavaScript integers are
    values of [Z], a JavaScript exception is the [Throw] outcome of a
    function, and objects that the source mutates are passed explicitly.
    What an object emits is part of the result of the call that emits it.
    The listeners of the ['frame'] and ['error'] events of the connection
    and of the ['error'] events of the protocol are parameters of
    [handleData] and [handleFrame]: an ['error'] that is emitted without a
    listener is thrown by [emit], as an [EventEmitter] does. *)

From Stdlib Require Import String Ascii ZArith List Lia Bool DecimalString.
Import ListNotations.
#[local] Set Warnings "-register-all".
Open Scope Z_scope.

(** ** JavaScript outcomes *)

Inductive js_error : Type :=
| Error (msg : string)
| TypeError (msg : string)
| RangeError (msg : string)
| AuthenticationError (msg : string).

(** The outcome of a call: a returned value or a thrown exception.
    [OutOfFuel] is not an outcome of the program: it marks a run of a
    fuel-bounded loop of the model that was given too little fuel. *)
Inductive outcome (A : Type) : Type :=
| Return (a : A)
| Throw (e : js_error)
| OutOfFuel.

Arguments Return {A} a.
Arguments Throw {A} e.
Arguments OutOfFuel {A}.

Definition bind {A B : Type} (o : outcome A) (k : A -> outcome B) : outcome B :=
  match o with
  | Return a => k a
  | Throw e => Throw e
  | OutOfFuel => OutOfFuel
  end.

Notation "'let*' x ':=' o 'in' k" := (bind o (fun x => k))
  (at level 10, x pattern, o at level 100, k at level 200).

(** ** Node.js buffers *)

Definition Buffer := list Z.

Definition buffer_length (b : Buffer) : Z := Z.of_nat (length b).

(** [b[i]]: [None] stands for [undefined] (index outside the buffer). *)
Definition byte_at (b : Buffer) (i : Z) : option Z :=
  if i <? 0 then None else nth_error b (Z.to_nat i).

(** [b.subarray(start, end)] for non-negative bounds: both bounds are clamped
    to the length of the buffer and an empty range gives an empty buffer. *)
Definition subarray (b : Buffer) (start end_ : Z) : Buffer :=
  firstn (Z.to_nat (end_ - Z.max 0 start)) (skipn (Z.to_nat start) b).

(** [b.subarray(start)] *)
Definition subarray_from (b : Buffer) (start : Z) : Buffer :=
  skipn (Z.to_nat start) b.

(** [Buffer.from([x, ...])]: every entry is reduced to a byte. *)
Definition Buffer_from (l : list Z) : Buffer := map (fun x => x mod 256) l.

(** [Buffer.concat(list)] *)
Definition Buffer_concat (l : list Buffer) : Buffer := concat l.

Definition Buffer_equals (a b : Buffer) : bool :=
  if list_eq_dec Z.eq_dec a b then true else false.

(** The buffers of the program hold bytes. *)
Definition is_bytes (b : Buffer) : Prop := Forall (fun x => 0 <= x < 256) b.

(** [Buffer.alloc(n)] *)
Definition Buffer_alloc (n : Z) : Buffer := repeat 0 (Z.to_nat n).

(** [Buffer.from(s, 'utf-8')] and [b.toString('utf-8')]: a string is kept as
    the sequence of its UTF-8 code units, one [ascii] per byte.  Bytes that
    are no well-formed UTF-8 stay as they are, where [toString] of Node
    puts U+FFFD in their place: a string of the model stands for a
    JavaScript string where it is well-formed. *)
Definition Buffer_from_string (s : string) : Buffer :=
  map (fun c => Z.of_N (N_of_ascii c)) (list_ascii_of_string s).

Definition Buffer_toString (b : Buffer) : string :=
  string_of_list_ascii (map (fun x => ascii_of_N (Z.to_N (x mod 256))) b).

(** A JavaScript number that holds an integer is that integer, provided it
    is representable in binary64.  All integers of magnitude below [2^53]
    are; the result of an arithmetic operation or of [Number(bigint)] is
    rounded to the nearest representable value, ties to even. *)
Definition js_round (z : Z) : Z :=
  let a := Z.abs z in
  if a <? 2 ^ 53 then z
  else
    let e := Z.log2 a - 52 in
    let q := a / 2 ^ e in
    let r := a mod 2 ^ e in
    let half := 2 ^ (e - 1) in
    let q' := if r <? half then q
              else if half <? r then q + 1
              else if Z.even q then q else q + 1 in
    Z.sgn z * (q' * 2 ^ e).

(** [x++] on a number that holds an integer. *)
Definition js_increment (x : Z) : Z := js_round (x + 1).

(** Lower-case hexadecimal, as [toString('hex')] and the uuid package
    print a byte. *)
Definition hex_digit (n : Z) : ascii :=
  if n <? 10 then ascii_of_N (Z.to_N (48 + n))
  else ascii_of_N (Z.to_N (87 + n)).

Definition byteToHex (b : Z) : string :=
  String (hex_digit ((b mod 256) / 16)) (String (hex_digit (b mod 16)) EmptyString).

Fixpoint hex (b : Buffer) : string :=
  match b with
  | [] => EmptyString
  | x :: r => append (byteToHex x) (hex r)
  end.

(** Little-endian and big-endian unsigned integers of [n] bytes. *)
Fixpoint le_bytes (n : nat) (v : Z) : Buffer :=
  match n with
  | O => []
  | S n' => (v mod 256) :: le_bytes n' (v / 256)
  end.

Fixpoint le_value (b : Buffer) : Z :=
  match b with
  | [] => 0
  | x :: r => x + 256 * le_value r
  end.

Definition be_bytes (n : nat) (v : Z) : Buffer := rev (le_bytes n v).

Definition be_value (b : Buffer) : Z := le_value (rev b).

(** ** TLV8 (src/support/tlv8.ts) *)

Module Tlv8.

(** [TlvValue] of src/types.ts *)
Inductive TlvValue : Type :=
| Method | Identifier | Salt | PublicKey | Proof | EncryptedData | SeqNo
| Error_ | BackOff | Certificate | Signature | Permissions | FragmentData
| FragmentLast | Name | Flags.

Definition TlvValue_value (t : TlvValue) : Z :=
  match t with
  | Method => 0x00 | Identifier => 0x01 | Salt => 0x02 | PublicKey => 0x03
  | Proof => 0x04 | EncryptedData => 0x05 | SeqNo => 0x06 | Error_ => 0x07
  | BackOff => 0x08 | Certificate => 0x09 | Signature => 0x0a
  | Permissions => 0x0b | FragmentData => 0x0c | FragmentLast => 0x0d
  | Name => 0x11 | Flags => 0x13
  end.

(** [type TlvData = Map<number, Buffer>]: a JavaScript [Map] keeps its keys
    in insertion order, so it is an association list without repeated
    keys. *)
Definition TlvData := list (Z * Buffer).

Definition well_keyed (m : TlvData) : Prop := NoDup (map fst m).

Fixpoint get (m : TlvData) (tag : Z) : option Buffer :=
  match m with
  | [] => None
  | (k, v) :: r => if k =? tag then Some v else get r tag
  end.

Definition has (m : TlvData) (tag : Z) : bool :=
  match get m tag with
  | Some _ => true
  | None => false
  end.

(** [m.set(tag, v)]: an existing key keeps its position. *)
Fixpoint set (m : TlvData) (tag : Z) (v : Buffer) : TlvData :=
  match m with
  | [] => [(tag, v)]
  | (k, x) :: r => if k =? tag then (k, v) :: r else (k, x) :: set r tag v
  end.

(** The body of the [if (result.has(tag))] statement of [readTlv]. *)
Definition store (result : TlvData) (tag : Z) (value : Buffer) : TlvData :=
  match get result tag with
  | Some existing => set result tag (Buffer_concat [existing; value])
  | None => set result tag value
  end.

(** The [while (pos < data.length)] loop of [readTlv].  When [data[pos + 1]]
    is [undefined] the end of the slice is [NaN], so the slice is empty, and
    [pos] becomes [NaN], so the loop is left. *)
Fixpoint readTlv_loop (fuel : nat) (data : Buffer) (pos : Z) (result : TlvData)
  : TlvData :=
  match fuel with
  | O => result
  | S fuel' =>
      if pos <? buffer_length data then
        match byte_at data pos with
        | None => result
        | Some tag =>
            match byte_at data (pos + 1) with
            | None => store result tag []
            | Some len =>
                let value := subarray data (pos + 2) (pos + 2 + len) in
                readTlv_loop fuel' data (pos + 2 + len) (store result tag value)
            end
        end
      else result
  end.

(** [readTlv] has no [throw]: it returns for every buffer.  Every iteration
    moves [pos] forward by at least two, so [length data] iterations are
    enough (lemma [readTlv_loop_fuel]). *)
Definition readTlv (data : Buffer) : outcome TlvData :=
  Return (readTlv_loop (length data) data 0 []).

(** The [while (remaining > 0 || pos === 0)] loop of [writeTlv]; the result
    is the list of buffers pushed on [chunks]. *)
Fixpoint writeTlv_chunks (fuel : nat) (tag : Z) (valueBuffer : Buffer)
  (pos remaining : Z) : list Buffer :=
  match fuel with
  | O => []
  | S fuel' =>
      if (0 <? remaining) || (pos =? 0) then
        let chunkSize := Z.min remaining 255 in
        let chunk := subarray valueBuffer pos (pos + chunkSize) in
        let pushed :=
          Buffer_from [tag; chunkSize] :: (if 0 <? chunkSize then [chunk] else []) in
        if buffer_length valueBuffer =? 0 then pushed
        else pushed ++
             writeTlv_chunks fuel' tag valueBuffer (pos + chunkSize) (remaining - chunkSize)
      else []
  end.

Definition writeTlv_entry (entry : Z * Buffer) : list Buffer :=
  let '(tag, valueBuffer) := entry in
  writeTlv_chunks (S (length valueBuffer)) tag valueBuffer 0 (buffer_length valueBuffer).

(** [writeTlv] on a [Map]: the entries are visited in insertion order. *)
Definition writeTlv (data : TlvData) : Buffer :=
  Buffer_concat (flat_map writeTlv_entry data).

(** A buffer made of complete triples only. *)
Inductive complete : Buffer -> Prop :=
| complete_nil : complete []
| complete_triple tag len value rest :
    0 <= len -> buffer_length value = len -> complete rest ->
    complete (tag :: len :: value ++ rest).

(** A buffer whose last triple is truncated: after complete triples either a
    single byte is left, or a tag and a length that announces more bytes
    than remain. *)
Inductive truncated : Buffer -> Prop :=
| truncated_header pre tag :
    complete pre -> truncated (pre ++ [tag])
| truncated_value pre tag len value :
    complete pre -> buffer_length value < len ->
    truncated (pre ++ tag :: len :: value).

(** [parses body r r' k]: the reader, started on [body] with the map [r],
    leaves the map [r'] after [k] complete triples. *)
Inductive parses : Buffer -> TlvData -> TlvData -> nat -> Prop :=
| parses_nil r : parses [] r r 0
| parses_triple tag len value rest r r' k :
    0 <= len -> buffer_length value = len ->
    parses rest (store r tag value) r' k ->
    parses (tag :: len :: value ++ rest) r r' (S k).

(** What a tag holds once two buffers were read one after the other. *)
Definition joined (x y : option Buffer) : option Buffer :=
  match x, y with
  | Some a, Some b => Some (a ++ b)
  | Some a, None => Some a
  | None, y => y
  end.

End Tlv8.

(** ** The cryptographic library

    Ed25519, X25519, HKDF-SHA512 and ChaCha20-Poly1305 come from
    @noble/curves, @noble/hashes and @noble/ciphers; they are an interface
    of the development.  A primitive that can throw (wrong key length,
    authentication tag that does not match) has an [outcome]. *)

Class Crypto : Type := {
  (** [chacha20poly1305(key, nonce, aad).encrypt(data)] *)
  chacha20poly1305_encrypt :
    Buffer -> Buffer -> option Buffer -> Buffer -> outcome Buffer;
  (** [chacha20poly1305(key, nonce, aad).decrypt(data)] *)
  chacha20poly1305_decrypt :
    Buffer -> Buffer -> option Buffer -> Buffer -> outcome Buffer;
  (** [ed25519.sign(message, privateKey)] *)
  ed25519_sign : Buffer -> Buffer -> outcome Buffer;
  (** [ed25519.verify(signature, message, publicKey)] *)
  ed25519_verify : Buffer -> Buffer -> Buffer -> outcome bool;
  (** [x25519.getSharedSecret(privateKey, publicKey)] *)
  x25519_getSharedSecret : Buffer -> Buffer -> outcome Buffer;
  (** [hkdf(sha512, ikm, salt, info, 32)] *)
  hkdf_sha512 : Buffer -> Buffer -> Buffer -> Buffer
}.

(** src/support/crypto.ts *)
Definition ed25519Sign `{Crypto} (privateKey message : Buffer) : outcome Buffer :=
  ed25519_sign message privateKey.

Definition ed25519Verify `{Crypto} (publicKey message signature : Buffer) : bool :=
  match ed25519_verify signature message publicKey with
  | Return b => b
  | _ => false
  end.

Definition x25519SharedSecret `{Crypto} (privateKey publicKey : Buffer)
  : outcome Buffer :=
  x25519_getSharedSecret privateKey publicKey.

Definition hkdfExpand `{Crypto} (salt info : string) (sharedSecret : Buffer)
  : Buffer :=
  hkdf_sha512 sharedSecret (Buffer_from_string salt) (Buffer_from_string info).

(** What the theorems about two peers ask of ChaCha20-Poly1305: a sealed
    message opens to its plaintext under the key, nonce and associated data
    it was sealed with; it is longer than the plaintext by the 16 bytes of
    the tag; and opening gives a result. *)
Definition aead_opens `{Crypto} : Prop :=
  forall key nonce aad data sealed,
    chacha20poly1305_encrypt key nonce aad data = Return sealed ->
    chacha20poly1305_decrypt key nonce aad sealed = Return data.

Definition aead_appends_tag `{Crypto} : Prop :=
  forall key nonce aad data sealed,
    chacha20poly1305_encrypt key nonce aad data = Return sealed ->
    buffer_length sealed = buffer_length data + 16.

Definition aead_returns `{Crypto} : Prop :=
  forall key nonce aad data,
    chacha20poly1305_decrypt key nonce aad data <> OutOfFuel.

(** ** Chacha20Cipher (src/support/chacha20.ts) *)

Module Chacha20.

Definition NONCE_LENGTH : Z := 12.
Definition AUTH_TAG_LENGTH : Z := 16.

(** The fields of the class; the two counters are JavaScript numbers. *)
Record Chacha20Cipher : Type := {
  outCounter : Z;
  inCounter : Z;
  nonceLength : Z;
  outKey : Buffer;
  inKey : Buffer
}.

Definition new_Chacha20Cipher (outKey inKey : Buffer) (nonceLength : Z)
  : Chacha20Cipher :=
  {| outCounter := 0; inCounter := 0; nonceLength := nonceLength;
     outKey := outKey; inKey := inKey |}.

Definition new_Chacha20Cipher8byteNonce (outKey inKey : Buffer) : Chacha20Cipher :=
  new_Chacha20Cipher outKey inKey 8.

Definition set_outCounter (c : Chacha20Cipher) (n : Z) : Chacha20Cipher :=
  {| outCounter := n; inCounter := inCounter c; nonceLength := nonceLength c;
     outKey := outKey c; inKey := inKey c |}.

Definition set_inCounter (c : Chacha20Cipher) (n : Z) : Chacha20Cipher :=
  {| outCounter := outCounter c; inCounter := n; nonceLength := nonceLength c;
     outKey := outKey c; inKey := inKey c |}.

(** [nonce.writeBigUInt64LE(BigInt(counter), offset)] on a zeroed buffer of
    [NONCE_LENGTH] bytes; a value outside of 64 bits is a [RangeError]. *)
Definition writeBigUInt64LE_alloc (counter offset : Z) : outcome Buffer :=
  if (0 <=? counter) && (counter <? 2 ^ 64) then
    Return (Buffer_alloc offset ++ le_bytes 8 counter
            ++ Buffer_alloc (NONCE_LENGTH - 8 - offset))
  else Throw (RangeError "ERR_OUT_OF_RANGE").

Definition buildNonce (c : Chacha20Cipher) (counter : Z) : outcome Buffer :=
  if nonceLength c =? NONCE_LENGTH then writeBigUInt64LE_alloc counter 0
  else writeBigUInt64LE_alloc counter 4.

Definition outNonce (c : Chacha20Cipher) : outcome Buffer :=
  buildNonce c (outCounter c).

Definition inNonce (c : Chacha20Cipher) : outcome Buffer :=
  buildNonce c (inCounter c).

Definition padNonce (nonce : Buffer) : Buffer :=
  if NONCE_LENGTH <=? buffer_length nonce then nonce
  else Buffer_alloc (NONCE_LENGTH - buffer_length nonce) ++ nonce.

(** The optional argument [nonce?: Buffer | string]. *)
Inductive nonce_arg : Type :=
| nonce_undefined
| nonce_string (s : string)
| nonce_buffer (b : Buffer).

(** [encrypt] and [decrypt] return the cipher object after the call next to
    the outcome: the counter is advanced before the primitive runs, so it
    stays advanced when the primitive throws. *)
Definition encrypt `{Crypto} (c : Chacha20Cipher) (data : Buffer)
  (nonce : nonce_arg) (aad : option Buffer) : Chacha20Cipher * outcome Buffer :=
  match nonce with
  | nonce_undefined =>
      match outNonce c with
      | Return nonceBuffer =>
          let c' := set_outCounter c (js_increment (outCounter c)) in
          (c', chacha20poly1305_encrypt (outKey c') nonceBuffer aad data)
      | Throw e => (c, Throw e)
      | OutOfFuel => (c, OutOfFuel)
      end
  | nonce_string s =>
      let nonceBuffer := padNonce (Buffer_from_string s) in
      (c, chacha20poly1305_encrypt (outKey c) nonceBuffer aad data)
  | nonce_buffer b =>
      let nonceBuffer := padNonce b in
      (c, chacha20poly1305_encrypt (outKey c) nonceBuffer aad data)
  end.

Definition decrypt `{Crypto} (c : Chacha20Cipher) (data : Buffer)
  (nonce : nonce_arg) (aad : option Buffer) : Chacha20Cipher * outcome Buffer :=
  match nonce with
  | nonce_undefined =>
      match inNonce c with
      | Return nonceBuffer =>
          let c' := set_inCounter c (js_increment (inCounter c)) in
          (c', chacha20poly1305_decrypt (inKey c') nonceBuffer aad data)
      | Throw e => (c, Throw e)
      | OutOfFuel => (c, OutOfFuel)
      end
  | nonce_string s =>
      let nonceBuffer := padNonce (Buffer_from_string s) in
      (c, chacha20poly1305_decrypt (inKey c) nonceBuffer aad data)
  | nonce_buffer b =>
      let nonceBuffer := padNonce b in
      (c, chacha20poly1305_decrypt (inKey c) nonceBuffer aad data)
  end.

(** The counters that a cipher object can hold: integers from 0 up to the
    first one whose successor is not representable. *)
Definition safe_counter (n : Z) : Prop := 0 <= n < 2 ^ 53.

(** A run of calls [encrypt(data, undefined, aad)] on one cipher object,
    one call for each message of the list: the object after the run. *)
Definition encrypt_all `{Crypto} (c : Chacha20Cipher)
  (messages : list (Buffer * option Buffer)) : Chacha20Cipher :=
  fold_left (fun c m => fst (encrypt c (fst m) nonce_undefined (snd m))) messages c.

(** The receiving object [rx] is in step with the sending object [tx]: it
    opens with the key [tx] seals with and, for a call without nonce
    argument, holds the same nonce layout and counter. *)
Definition in_step (tx rx : Chacha20Cipher) (nonce : nonce_arg) : Prop :=
  inKey rx = outKey tx /\
  match nonce with
  | nonce_undefined => nonceLength rx = nonceLength tx /\ inCounter rx = outCounter tx
  | _ => True
  end.

End Chacha20.

(** ** Frame types *)

(** [enum FrameType] of src/types.ts; the transport does not import it. *)
Module Types.

Inductive FrameType : Type :=
| NoOp | PS_Start | PS_Next | PV_Start | PV_Next | U_OPACK | E_OPACK | P_OPACK
| PA_Req | PA_Rsp | SessionData | FamilyIdentityRequest
| FamilyIdentityResponse | FamilyIdentityUpdate.

Definition FrameType_value (t : FrameType) : Z :=
  match t with
  | NoOp => 0x00 | PS_Start => 0x03 | PS_Next => 0x04 | PV_Start => 0x05
  | PV_Next => 0x06 | U_OPACK => 0x07 | E_OPACK => 0x08 | P_OPACK => 0x09
  | PA_Req => 0x0a | PA_Rsp => 0x0b | SessionData => 0x0c
  | FamilyIdentityRequest => 0x0d | FamilyIdentityResponse => 0x0e
  | FamilyIdentityUpdate => 0x0f
  end.

End Types.

(** ** CompanionConnection (src/protocol/connection.ts) *)

Module Connection.

Import Chacha20.

Definition HEADER_LENGTH : Z := 4.

(** [enum FrameType] of connection.ts, the one that [send], [handleData]
    and the protocol layer use. *)
Inductive FrameType : Type :=
| Unknown | NoOp | PS_Start | PS_Next | PV_Start | PV_Next | U_OPACK | E_OPACK
| P_OPACK | PA_Req | PA_Rsp | SessionStartRequest | SessionStartResponse
| SessionData | FamilyIdentityRequest | FamilyIdentityResponse
| FamilyIdentityUpdate.

Definition FrameType_value (t : FrameType) : Z :=
  match t with
  | Unknown => 0 | NoOp => 1 | PS_Start => 3 | PS_Next => 4 | PV_Start => 5
  | PV_Next => 6 | U_OPACK => 7 | E_OPACK => 8 | P_OPACK => 9 | PA_Req => 10
  | PA_Rsp => 11 | SessionStartRequest => 16 | SessionStartResponse => 17
  | SessionData => 18 | FamilyIdentityRequest => 32
  | FamilyIdentityResponse => 33 | FamilyIdentityUpdate => 34
  end.

(** The fields of the class.  A socket is the list of the buffers given to
    [socket.write] so far; [None] is [null]. *)
Record CompanionConnection : Type := {
  socket : option (list Buffer);
  buffer : Buffer;
  chacha : option Chacha20Cipher
}.

Definition enableEncryption (conn : CompanionConnection) (outputKey inputKey : Buffer)
  : CompanionConnection :=
  {| socket := socket conn; buffer := buffer conn;
     chacha := Some (new_Chacha20Cipher outputKey inputKey 12) |}.

(** [header[0] = frameType; header.writeUIntBE(payloadLength, 1, 3)] on
    [Buffer.alloc(HEADER_LENGTH)]; a length that does not fit three bytes is
    a [RangeError]. *)
Definition build_header (frameType : FrameType) (payloadLength : Z)
  : outcome Buffer :=
  if (0 <=? payloadLength) && (payloadLength <? 2 ^ 24) then
    Return (Buffer_from [FrameType_value frameType] ++ be_bytes 3 payloadLength)
  else Throw (RangeError "ERR_OUT_OF_RANGE").

Definition socket_write (conn : CompanionConnection) (written : list Buffer)
  (c : option Chacha20Cipher) (bytes : Buffer) : CompanionConnection :=
  {| socket := Some (written ++ [bytes]); buffer := buffer conn; chacha := c |}.

Definition send `{Crypto} (conn : CompanionConnection) (frameType : FrameType)
  (data : Buffer) : CompanionConnection * outcome unit :=
  match socket conn with
  | None => (conn, Throw (Error "Not connected"))
  | Some written =>
      let payloadLength := buffer_length data in
      let payloadLength :=
        match chacha conn with
        | Some _ =>
            if 0 <? payloadLength then payloadLength + AUTH_TAG_LENGTH
            else payloadLength
        | None => payloadLength
        end in
      match build_header frameType payloadLength with
      | Return header =>
          match chacha conn with
          | Some c =>
              if 0 <? buffer_length data then
                let (c', sealed) := encrypt c data nonce_undefined (Some header) in
                let conn' := {| socket := socket conn; buffer := buffer conn;
                                chacha := Some c' |} in
                match sealed with
                | Return payload =>
                    (socket_write conn written (Some c')
                       (Buffer_concat [header; payload]), Return tt)
                | Throw e => (conn', Throw e)
                | OutOfFuel => (conn', OutOfFuel)
                end
              else
                (socket_write conn written (Some c)
                   (Buffer_concat [header; data]), Return tt)
          | None =>
              (socket_write conn written None
                 (Buffer_concat [header; data]), Return tt)
          end
      | Throw e => (conn, Throw e)
      | OutOfFuel => (conn, OutOfFuel)
      end
  end.

(** What the connection emits to its listeners, in the order of the calls
    of [emit]: [frame] for ['frame'], [error] for ['error']. *)
Inductive event : Type :=
| frame (frameType : Z) (data : Buffer)
| error (e : js_error).

Definition set_buffer (conn : CompanionConnection) (b : Buffer)
  (c : option Chacha20Cipher) : CompanionConnection :=
  {| socket := socket conn; buffer := b; chacha := c |}.

(** The first statement of the [try] block of [handleData]: the payload is
    decrypted when the connection has keys and the payload is not empty;
    the cipher object after it, next to the outcome. *)
Definition frame_payload `{Crypto} (c : option Chacha20Cipher) (header payload : Buffer)
  : option Chacha20Cipher * outcome Buffer :=
  match c with
  | Some c =>
      if 0 <? buffer_length payload then
        let (c', opened) := decrypt c payload nonce_undefined (Some header) in
        (Some c', opened)
      else (Some c, Return payload)
  | None => (None, Return payload)
  end.

Section Listeners.

(** The listeners of the connection act on a state [L] of their own.
    [on_frame] is what [emit('frame', frameType, payload)] runs: the
    listeners of ['frame'] in the order of their registration, up to the
    first that throws.  [on_error] is the same for ['error']; [None] is an
    object without a listener of ['error'], on which [emit('error', err)]
    throws [err], as an [EventEmitter] does.  The listeners do not call
    the methods of the connection. *)
Context `{Crypto} {L : Type}.
Variable on_frame : L -> Z -> Buffer -> L * outcome unit.
Variable on_error : option (L -> js_error -> L * outcome unit).

(** The [catch] block of [handleData]; what it catches is an [Error]. *)
Definition error_emitted (l : L) (e : js_error) : L * outcome unit :=
  match on_error with
  | Some listener => listener l e
  | None => (l, Throw e)
  end.

(** The rest of the [try] statement, given the outcome of its first
    statement: [emit('frame', ...)] is inside of [try], so that what a
    listener of ['frame'] throws goes to the [catch] block as well. *)
Definition frame_emitted (l : L) (frameType : Z) (opened : outcome Buffer)
  : L * outcome unit :=
  match opened with
  | Return payload =>
      let (l', returned) := on_frame l frameType payload in
      match returned with
      | Throw e => error_emitted l' e
      | _ => (l', returned)
      end
  | Throw e => error_emitted l e
  | OutOfFuel => (l, OutOfFuel)
  end.

(** The [while (this.buffer.length >= HEADER_LENGTH)] loop of [handleData].
    [this.buffer.readUIntBE(1, 3)] is in range, the buffer has four bytes
    or more; [header[0]] is the first of its four bytes.  The frame is
    taken from the buffer before the [try] statement, and the counter of
    the cipher moves inside of [decrypt]: both stay so when the statement
    throws, which ends the loop and the call. *)
Fixpoint handleData_loop (fuel : nat) (conn : CompanionConnection) (l : L)
  : CompanionConnection * L * outcome unit :=
  match fuel with
  | O => (conn, l, Return tt)
  | S fuel' =>
      if HEADER_LENGTH <=? buffer_length (buffer conn) then
        let payloadLength := HEADER_LENGTH + be_value (subarray (buffer conn) 1 4) in
        if buffer_length (buffer conn) <? payloadLength then (conn, l, Return tt)
        else
          let header := subarray (buffer conn) 0 HEADER_LENGTH in
          let payload := subarray (buffer conn) HEADER_LENGTH payloadLength in
          let rest := subarray_from (buffer conn) payloadLength in
          let frameType := nth 0 header 0 in
          let (c', opened) := frame_payload (chacha conn) header payload in
          let conn' := set_buffer conn rest c' in
          let (l', returned) := frame_emitted l frameType opened in
          match returned with
          | Return _ => handleData_loop fuel' conn' l'
          | _ => (conn', l', returned)
          end
      else (conn, l, Return tt)
  end.

(** [handleData(data)]: the connection and the state of the listeners
    after the call, and [Throw e] when the call ended by throwing [e].  A
    frame takes four bytes or more from the buffer, so the loop makes no
    more turns than the buffer has bytes (lemma [handleData_loop_fuel]). *)
Definition handleData (conn : CompanionConnection) (data : Buffer) (l : L)
  : CompanionConnection * L * outcome unit :=
  let conn := set_buffer conn (Buffer_concat [buffer conn; data]) (chacha conn) in
  handleData_loop (length (buffer conn)) conn l.

End Listeners.

(** Listeners that keep what they are given, and return.  [listening]
    tells whether a listener of ['error'] is registered; the classes of
    the repository register none. *)
Definition frame_recorded (emitted : list event) (frameType : Z) (payload : Buffer)
  : list event * outcome unit :=
  (emitted ++ [frame frameType payload], Return tt).

Definition error_recorded (listening : bool)
  : option (list event -> js_error -> list event * outcome unit) :=
  if listening then Some (fun emitted e => (emitted ++ [error e], Return tt))
  else None.

(** [handleData(data)] on a connection with such listeners: the events
    emitted by the call, in their order, next to its result. *)
Definition handleData_events `{Crypto} (listening : bool) (conn : CompanionConnection)
  (data : Buffer) : CompanionConnection * list event * outcome unit :=
  handleData frame_recorded (error_recorded listening) conn data [].

(** A buffer that holds no complete frame: less than a header, or less
    than the header announces. *)
Definition incomplete (b : Buffer) : Prop :=
  buffer_length b < HEADER_LENGTH \/
  buffer_length b < HEADER_LENGTH + be_value (subarray b 1 4).

(** A sender and a receiver at the two ends of a connection: both without
    keys, or the cipher object of the receiver in step with that of the
    sender. *)
Definition peers (tx rx : CompanionConnection) : Prop :=
  match chacha tx, chacha rx with
  | None, None => True
  | Some c, Some d => in_step c d nonce_undefined
  | _, _ => False
  end.

(** [close()] *)
Definition close (conn : CompanionConnection) : CompanionConnection :=
  match socket conn with
  | Some _ => {| socket := None; buffer := buffer conn; chacha := chacha conn |}
  | None => conn
  end.

End Connection.


(** ** OPACK (src/support/opack.ts) *)

Module Opack.

(** The JavaScript values that [pack] receives and [unpack] builds.

    - a number that holds an integer is [VInt]; any other number is
      [VFloat] with its binary64 bit pattern ([NaN] as [0x7ff8000000000000]);
    - [VSizedInt] is an instance of the class [SizedInt];
    - [VUuid] is a [Uint8Array] that carries a [uuid] property, [VBytes] any
      other [Uint8Array] or [Buffer];
    - [VDict] is a plain object, its entries in the order of
      [Object.entries].  An object that [unpack] built after it read the
      key [__proto__] keeps the prototype it was given as the entry under
      that key; the statements about [pack] and [unpack] together are
      about objects without it ([plain]);
    - [VUnsupported] is everything else ([Set], [Map], functions, ...). *)
Inductive value : Type :=
| VUndefined
| VNull
| VBool (b : bool)
| VDate
| VUuid (bytes : Buffer)
| VSizedInt (value_ : Z) (size : Z)
| VInt (n : Z)
| VFloat (bits : Z)
| VString (s : string)
| VBytes (b : Buffer)
| VArray (items : list value)
| VDict (entries : list (string * value))
| VUnsupported.

(** *** pack *)

(** [buf.writeUInt8], [writeUInt16LE], [writeUInt32LE], [writeUIntLE] and
    [writeBigUInt64LE]: a value outside of the range is a [RangeError]. *)
Definition writeUIntLE (n : nat) (v : Z) : outcome Buffer :=
  if (0 <=? v) && (v <? 2 ^ (8 * Z.of_nat n)) then Return (le_bytes n v)
  else Throw (RangeError "ERR_OUT_OF_RANGE").

Definition packInteger (value_ : Z) (sizeHint : option Z) : outcome Buffer :=
  let no_hint := match sizeHint with None => true | Some s => s =? 0 end in
  let hint_is k := match sizeHint with Some s => s =? k | None => false end in
  if (value_ <? 0x28) && no_hint then
    Return (Buffer_from [value_ + 8])
  else if ((value_ <=? 0xff) && no_hint) || hint_is 1 then
    let* buf := writeUIntLE 1 value_ in Return (0x30 :: buf)
  else if ((value_ <=? 0xffff) && no_hint) || hint_is 2 then
    let* buf := writeUIntLE 2 value_ in Return (0x31 :: buf)
  else if ((value_ <=? 0xffffffff) && no_hint) || hint_is 4 then
    let* buf := writeUIntLE 4 value_ in Return (0x32 :: buf)
  else
    let* buf := writeUIntLE 8 value_ in Return (0x33 :: buf).

Definition packString (data : string) : outcome Buffer :=
  let encoded := Buffer_from_string data in
  let len := buffer_length encoded in
  if len <=? 0x20 then
    Return (Buffer_concat [Buffer_from [0x40 + len]; encoded])
  else if len <=? 0xff then
    let* header := writeUIntLE 1 len in Return (Buffer_concat [0x61 :: header; encoded])
  else if len <=? 0xffff then
    let* header := writeUIntLE 2 len in Return (Buffer_concat [0x62 :: header; encoded])
  else if len <=? 0xffffff then
    let* header := writeUIntLE 3 len in Return (Buffer_concat [0x63 :: header; encoded])
  else
    let* header := writeUIntLE 4 len in Return (Buffer_concat [0x64 :: header; encoded]).

Definition packBytes (data : Buffer) : outcome Buffer :=
  let len := buffer_length data in
  if len <=? 0x20 then
    Return (Buffer_concat [Buffer_from [0x70 + len]; data])
  else if len <=? 0xff then
    let* header := writeUIntLE 1 len in Return (Buffer_concat [0x91 :: header; data])
  else if len <=? 0xffff then
    let* header := writeUIntLE 2 len in Return (Buffer_concat [0x92 :: header; data])
  else if len <=? 0xffffffff then
    let* header := writeUIntLE 4 len in Return (Buffer_concat [0x93 :: header; data])
  else
    let* header := writeUIntLE 8 len in Return (Buffer_concat [0x94 :: header; data]).

(** [objectList.findIndex((buf) => buf.equals(packedBytes))]; [None] is -1. *)
Fixpoint findIndex (objectList : list Buffer) (packedBytes : Buffer) : option Z :=
  match objectList with
  | [] => None
  | buf :: rest =>
      if Buffer_equals buf packedBytes then Some 0
      else option_map Z.succ (findIndex rest packedBytes)
  end.

(** The "object reference deduplication" that ends [packInternal]: the
    bytes to return and the object list after the call. *)
Definition deduplicate (packedBytes : Buffer) (objectList : list Buffer)
  : Buffer * list Buffer :=
  match findIndex objectList packedBytes with
  | Some existingIndex =>
      if existingIndex <? 0x21 then (Buffer_from [0xa0 + existingIndex], objectList)
      else if existingIndex <=? 0xff then (0xc1 :: le_bytes 1 existingIndex, objectList)
      else if existingIndex <=? 0xffff then (0xc2 :: le_bytes 2 existingIndex, objectList)
      else if existingIndex <=? 0xffffffff then
        (0xc3 :: le_bytes 4 existingIndex, objectList)
      else (packedBytes, objectList)
  | None =>
      if 1 <? buffer_length packedBytes then (packedBytes, objectList ++ [packedBytes])
      else (packedBytes, objectList)
  end.

(** [data.map((item) => packInternal(item, objectList))] followed by the
    concatenation of the items; the object list is shared by the calls. *)
Definition pack_items {A : Type}
  (packInternal : A -> list Buffer -> outcome (Buffer * list Buffer))
  : list A -> list Buffer -> outcome (Buffer * list Buffer) :=
  fix go (data : list A) (objectList : list Buffer) :=
    match data with
    | [] => Return ([], objectList)
    | item :: rest =>
        let* (packed, objectList) := packInternal item objectList in
        let* (items, objectList) := go rest objectList in
        Return (packed ++ items, objectList)
    end.

Definition packArray {A : Type}
  (packInternal : A -> list Buffer -> outcome (Buffer * list Buffer))
  (data : list A) (objectList : list Buffer) : outcome (Buffer * list Buffer) :=
  let count := Z.min (Z.of_nat (length data)) 0xf in
  let header := Buffer_from [0xd0 + count] in
  let* (items, objectList) := pack_items packInternal data objectList in
  let result := Buffer_concat [header; items] in
  if 0xf <=? Z.of_nat (length data) then
    Return (Buffer_concat [result; Buffer_from [0x03]], objectList)
  else Return (result, objectList).

Fixpoint packInternal (data : value) (objectList : list Buffer)
  : outcome (Buffer * list Buffer) :=
  let* (packedBytes, objectList) :=
    match data with
    | VNull | VUndefined => Return (Buffer_from [0x04], objectList)
    | VBool b => Return (Buffer_from [if b then 0x01 else 0x02], objectList)
    | VDate => Throw (TypeError "Packing datetime objects is not supported")
    | VUuid bytes => Return (Buffer_concat [Buffer_from [0x05]; bytes], objectList)
    | VSizedInt value_ size =>
        let* packedBytes := packInteger value_ (Some size) in
        Return (packedBytes, objectList)
    | VInt n =>
        let* packedBytes := packInteger n None in Return (packedBytes, objectList)
    | VFloat bits => Return (0x36 :: le_bytes 8 bits, objectList)
    | VString s =>
        let* packedBytes := packString s in Return (packedBytes, objectList)
    | VBytes b =>
        let* packedBytes := packBytes b in Return (packedBytes, objectList)
    | VArray items => packArray packInternal items objectList
    | VDict entries =>
        (* packDict *)
        let count := Z.min (Z.of_nat (length entries)) 0xf in
        let header := Buffer_from [0xe0 + count] in
        let* (items, objectList) :=
          pack_items
            (fun (entry : string * value) objectList =>
               (* packInternal(key, objectList) on a string *)
               let* (key, objectList) :=
                 (let* packedBytes := packString (fst entry) in
                  Return (deduplicate packedBytes objectList)) in
               let* (val, objectList) := packInternal (snd entry) objectList in
               Return (key ++ val, objectList))
            entries objectList in
        let result := Buffer_concat [header; items] in
        if 0xf <=? Z.of_nat (length entries) then
          Return (Buffer_concat [result; Buffer_from [0x03]], objectList)
        else Return (result, objectList)
    | VUnsupported => Throw (TypeError "Unsupported type")
    end in
  Return (deduplicate packedBytes objectList).

Definition pack (data : value) : outcome Buffer :=
  let* (packedBytes, _) := packInternal data [] in Return packedBytes.

(** The object list that [pack] has built when it returns. *)
Definition pack_objectList (data : value) : outcome (list Buffer) :=
  let* (_, objectList) := packInternal data [] in Return objectList.

(** *** unpack *)

(** [data.readUInt8(offset)], [readUInt16LE], [readUIntLE], [readUInt32LE]
    and [readBigUInt64LE]: reading past the end is a [RangeError]. *)
Definition readUIntLE (data : Buffer) (offset : Z) (n : Z) : outcome Z :=
  if offset + n <=? buffer_length data then
    Return (le_value (subarray data offset (offset + n)))
  else Throw (RangeError "ERR_OUT_OF_RANGE").

(** The number read by [readDoubleLE] from a binary64 bit pattern. *)
Definition number_of_binary64 (bits : Z) : value :=
  let sign := if Z.testbit bits 63 then -1 else 1 in
  let e := Z.land (Z.shiftr bits 52) 0x7ff in
  let f := Z.land bits (2 ^ 52 - 1) in
  if e =? 0x7ff then
    if f =? 0 then VFloat bits else VFloat 0x7ff8000000000000
  else if e =? 0 then
    if f =? 0 then VInt 0 else VFloat bits
  else
    let m := 2 ^ 52 + f in
    if 1075 <=? e then VInt (sign * (m * 2 ^ (e - 1075)))
    else if m mod 2 ^ (1075 - e) =? 0 then VInt (sign * (m / 2 ^ (1075 - e)))
    else VFloat bits.

(** The number read by [readFloatLE] from a binary32 bit pattern. *)
Definition number_of_binary32 (bits : Z) : value :=
  let s := if Z.testbit bits 31 then 1 else 0 in
  let sign := if Z.testbit bits 31 then -1 else 1 in
  let e := Z.land (Z.shiftr bits 23) 0xff in
  let f := Z.land bits (2 ^ 23 - 1) in
  let binary64 e64 f52 := Z.shiftl s 63 + Z.shiftl e64 52 + f52 in
  if e =? 0xff then
    if f =? 0 then VFloat (binary64 0x7ff 0) else VFloat 0x7ff8000000000000
  else if e =? 0 then
    if f =? 0 then VInt 0
    else
      let k := Z.log2 f in
      VFloat (binary64 (k - 149 + 1023) ((f - 2 ^ k) * 2 ^ (52 - k)))
  else
    let m := 2 ^ 23 + f in
    if 150 <=? e then VInt (sign * (m * 2 ^ (e - 150)))
    else if m mod 2 ^ (150 - e) =? 0 then VInt (sign * (m / 2 ^ (150 - e)))
    else VFloat (binary64 (e - 127 + 1023) (f * 2 ^ 29)).

(** [objectList.includes(value)] for a value that the decoder has just
    built.  Strings, numbers, booleans, [null] and [undefined] are compared
    by value; a new [Buffer], [SizedInt], array or object is equal to no
    element of the list. *)
Definition same_primitive (a b : value) : bool :=
  match a, b with
  | VUndefined, VUndefined => true
  | VNull, VNull => true
  | VBool x, VBool y => Bool.eqb x y
  | VInt x, VInt y => x =? y
  | VFloat x, VFloat y => x =? y
  | VString x, VString y => String.eqb x y
  | _, _ => false
  end.

Definition includes (objectList : list value) (v : value) : bool :=
  existsb (same_primitive v) objectList.

(** [objectList[index]] *)
Definition objectList_at (objectList : list value) (index : Z) : value :=
  if index <? 0 then VUndefined else nth (Z.to_nat index) objectList VUndefined.

(** [objectList.includes(objectList[index])]: an element of the list is
    found in it; an index outside of the list gives [undefined]. *)
Definition includes_at (objectList : list value) (index : Z) : bool :=
  if (0 <=? index) && (index <? Z.of_nat (length objectList)) then true
  else includes objectList VUndefined.

(** [output[key] = val] on a plain object, for a key that makes an own
    property: a key that is present keeps its place, a new key comes last.
    (JavaScript lists keys that are array indices first; equality of
    objects does not depend on the order.) *)
Fixpoint dict_set (output : list (string * value)) (key : string) (val : value)
  : list (string * value) :=
  match output with
  | [] => [(key, val)]
  | (k, v) :: rest =>
      if String.eqb k key then (k, val) :: rest else (k, v) :: dict_set rest key val
  end.

(** [output[key] = val] in [unpackInternal], where the key comes from the
    wire.  The key [__proto__] makes no own property: the assignment sets
    the prototype of [output] when [val] is an object or [null], and does
    nothing for any other [val].  The prototype that was set is kept as the
    entry under that key. *)
Definition object_set (output : list (string * value)) (key : string) (val : value)
  : list (string * value) :=
  if String.eqb key "__proto__" then
    match val with
    | VNull | VDate | VUuid _ | VSizedInt _ _ | VBytes _ | VArray _ | VDict _ =>
        dict_set output key val
    | _ => output
    end
  else dict_set output key val.

Section Unpack.

(** [String(x)] for the numbers whose string form needs the number-to-string
    algorithm of ECMAScript (numbers that are no integers and integers from
    [10^21] on); the rest of [String(x)] is [js_String].  For a plain object
    it is the [toString] of [Object.prototype], which the objects have
    that hold no [toString] of their own and have not been given another
    prototype. *)
Variable number_toString : value -> string.

Fixpoint js_String (v : value) : string :=
  let number n :=
    if Z.abs n <? 10 ^ 21 then DecimalString.NilZero.string_of_int (Z.to_int n)
    else number_toString (VInt n) in
  let fix strings (l : list value) : list string :=
    match l with
    | [] => []
    | x :: rest =>
        match x with
        | VNull | VUndefined => EmptyString
        | _ => js_String x
        end :: strings rest
    end in
  match v with
  | VUndefined => "undefined"
  | VNull => "null"
  | VBool b => if b then "true" else "false"
  | VDate => number_toString VDate
  | VUuid bytes => String.concat "," (map number bytes)
  | VSizedInt value_ _ => number value_
  | VInt n => number n
  | VFloat bits => number_toString (VFloat bits)
  | VString s => s
  | VBytes b => Buffer_toString b
  | VArray items => String.concat "," (strings items)
  | VDict _ => "[object Object]"
  | VUnsupported => "[object Object]"
  end.

(** The state of a run of [unpackInternal]: the value, the remaining bytes
    and the object list after the call. *)
Definition unpacked : Type := (value * Buffer * list value)%type.

(** The end of [unpackInternal] for a value built by this call. *)
Definition finish (v : value) (remaining : Buffer) (addToObjectList : bool)
  (objectList : list value) : outcome unpacked :=
  if addToObjectList && negb (includes objectList v) then
    Return (v, remaining, objectList ++ [v])
  else Return (v, remaining, objectList).

(** The end of [unpackInternal] for an object reference. *)
Definition finish_reference (index : Z) (remaining : Buffer)
  (objectList : list value) : outcome unpacked :=
  let v := objectList_at objectList index in
  if negb (includes_at objectList index) then
    Return (v, remaining, objectList ++ [v])
  else Return (v, remaining, objectList).

(** The loops of the array and map branches, over the recursive call
    [unpackInternal(ptr, objectList)].  The two [while] loops stop at the
    terminator byte; [bound] limits their turns in the model. *)
Section Loops.

Variable unpackInternal : Buffer -> list value -> outcome unpacked.

(** [for (let i = 0; i < count; i++)] of the array branch *)
Fixpoint array_for (count : nat) (ptr : Buffer) (objectList : list value)
  (output : list value) : outcome (list value * Buffer * list value) :=
  match count with
  | O => Return (output, ptr, objectList)
  | S count' =>
      let* (item, rest, objectList) := unpackInternal ptr objectList in
      array_for count' rest objectList (output ++ [item])
  end.

(** [while (ptr[0] !== 0x03)] of the array branch *)
Fixpoint array_while (bound : nat) (ptr : Buffer) (objectList : list value)
  (output : list value) : outcome (list value * Buffer * list value) :=
  match bound with
  | O => OutOfFuel
  | S bound' =>
      if match byte_at ptr 0 with Some 0x03 => true | _ => false end then
        Return (output, subarray_from ptr 1, objectList)
      else
        let* (item, rest, objectList) := unpackInternal ptr objectList in
        array_while bound' rest objectList (output ++ [item])
  end.

(** [for (let i = 0; i < count; i++)] of the map branch *)
Fixpoint dict_for (count : nat) (ptr : Buffer) (objectList : list value)
  (output : list (string * value))
  : outcome (list (string * value) * Buffer * list value) :=
  match count with
  | O => Return (output, ptr, objectList)
  | S count' =>
      let* (key, rest1, objectList) := unpackInternal ptr objectList in
      let* (val, rest2, objectList) := unpackInternal rest1 objectList in
      dict_for count' rest2 objectList (object_set output (js_String key) val)
  end.

(** [while (ptr[0] !== 0x03)] of the map branch *)
Fixpoint dict_while (bound : nat) (ptr : Buffer) (objectList : list value)
  (output : list (string * value))
  : outcome (list (string * value) * Buffer * list value) :=
  match bound with
  | O => OutOfFuel
  | S bound' =>
      if match byte_at ptr 0 with Some 0x03 => true | _ => false end then
        Return (output, subarray_from ptr 1, objectList)
      else
        let* (key, rest1, objectList) := unpackInternal ptr objectList in
        let* (val, rest2, objectList) := unpackInternal rest1 objectList in
        dict_while bound' rest2 objectList (object_set output (js_String key) val)
  end.

End Loops.

Fixpoint unpackInternal (fuel : nat) (data : Buffer) (objectList : list value)
  : outcome unpacked :=
  match fuel with
  | O => OutOfFuel
  | S fuel' =>
      match byte_at data 0 with
      | None => Throw (TypeError "Unknown OPACK tag")
      | Some tag =>
          if tag =? 0x01 then finish (VBool true) (subarray_from data 1) false objectList
          else if tag =? 0x02 then
            finish (VBool false) (subarray_from data 1) false objectList
          else if tag =? 0x04 then finish VNull (subarray_from data 1) false objectList
          else if tag =? 0x05 then
            finish (VString (hex (subarray data 1 17))) (subarray_from data 17)
              true objectList
          else if tag =? 0x06 then
            let* n := readUIntLE data 1 8 in
            finish (VInt (js_round n)) (subarray_from data 9) true objectList
          else if (0x08 <=? tag) && (tag <=? 0x2f) then
            finish (VInt (tag - 8)) (subarray_from data 1) false objectList
          else if tag =? 0x35 then
            let* bits := readUIntLE data 1 4 in
            finish (number_of_binary32 bits) (subarray_from data 5) true objectList
          else if tag =? 0x36 then
            let* bits := readUIntLE data 1 8 in
            finish (number_of_binary64 bits) (subarray_from data 9) true objectList
          else if Z.land tag 0xf0 =? 0x30 then
            let numBytes := Z.shiftl 1 (Z.land tag 0xf) in
            let* intValue :=
              if numBytes =? 1 then readUIntLE data 1 1
              else if numBytes =? 2 then readUIntLE data 1 2
              else if numBytes =? 4 then readUIntLE data 1 4
              else let* n := readUIntLE data 1 8 in Return (js_round n) in
            finish (VSizedInt intValue numBytes) (subarray_from data (1 + numBytes))
              true objectList
          else if (0x40 <=? tag) && (tag <=? 0x60) then
            let len := tag - 0x40 in
            finish (VString (Buffer_toString (subarray data 1 (1 + len))))
              (subarray_from data (1 + len)) true objectList
          else if (0x60 <? tag) && (tag <=? 0x64) then
            let numBytes := Z.land tag 0xf in
            let* len :=
              if numBytes =? 1 then readUIntLE data 1 1
              else if numBytes =? 2 then readUIntLE data 1 2
              else if numBytes =? 3 then readUIntLE data 1 3
              else readUIntLE data 1 4 in
            finish
              (VString (Buffer_toString
                          (subarray data (1 + numBytes) (1 + numBytes + len))))
              (subarray_from data (1 + numBytes + len)) true objectList
          else if (0x70 <=? tag) && (tag <=? 0x90) then
            let len := tag - 0x70 in
            finish (VBytes (subarray data 1 (1 + len)))
              (subarray_from data (1 + len)) true objectList
          else if (0x91 <=? tag) && (tag <=? 0x94) then
            let numBytes := Z.shiftl 1 (Z.land tag 0xf - 1) in
            let* len :=
              if numBytes =? 1 then readUIntLE data 1 1
              else if numBytes =? 2 then readUIntLE data 1 2
              else if numBytes =? 4 then readUIntLE data 1 4
              else let* n := readUIntLE data 1 8 in Return (js_round n) in
            finish (VBytes (subarray data (1 + numBytes) (1 + numBytes + len)))
              (subarray_from data (1 + numBytes + len)) true objectList
          else if Z.land tag 0xf0 =? 0xd0 then
            let count := Z.land tag 0xf in
            let ptr := subarray_from data 1 in
            let* (output, ptr, objectList) :=
              if count =? 0xf then
                array_while (unpackInternal fuel') fuel' ptr objectList []
              else array_for (unpackInternal fuel') (Z.to_nat count) ptr objectList [] in
            finish (VArray output) ptr false objectList
          else if Z.land tag 0xe0 =? 0xe0 then
            let count := Z.land tag 0xf in
            let ptr := subarray_from data 1 in
            let* (output, ptr, objectList) :=
              if count =? 0xf then
                dict_while (unpackInternal fuel') fuel' ptr objectList []
              else dict_for (unpackInternal fuel') (Z.to_nat count) ptr objectList [] in
            finish (VDict output) ptr false objectList
          else if (0xa0 <=? tag) && (tag <=? 0xc0) then
            let index := tag - 0xa0 in
            finish_reference index (subarray_from data 1) objectList
          else if (0xc1 <=? tag) && (tag <=? 0xc4) then
            let numBytes := tag - 0xc0 in
            let* index :=
              if numBytes =? 1 then readUIntLE data 1 1
              else if numBytes =? 2 then readUIntLE data 1 2
              else if numBytes =? 3 then readUIntLE data 1 3
              else readUIntLE data 1 4 in
            finish_reference index (subarray_from data (1 + numBytes)) objectList
          else Throw (TypeError "Unknown OPACK tag")
      end
  end.

(** Every call of [unpackInternal] reads at least the tag byte before it
    calls itself on the rest, so a fuel above the length of the data is not
    used up. *)
Definition unpack_fuel (data : Buffer) : nat := S (S (length data)).

Definition unpack (data : Buffer) : outcome (value * Buffer) :=
  let* (v, remaining, _) := unpackInternal (unpack_fuel data) data [] in
  Return (v, remaining).

(** The object list that [unpack] has built when it returns. *)
Definition unpack_objectList (data : Buffer) : outcome (list value) :=
  let* (_, _, objectList) := unpackInternal (unpack_fuel data) data [] in
  Return objectList.

End Unpack.

(** *** Equality up to integer width

    [normalize] of the round-trip test (tests/support/opack.test.ts): a
    [SizedInt] is replaced by its [valueOf()], at every depth. *)
Fixpoint normalize (v : value) : value :=
  match v with
  | VSizedInt value_ _ => VInt value_
  | VArray items => VArray (map normalize items)
  | VDict entries => VDict (map (fun e => (fst e, normalize (snd e))) entries)
  | _ => v
  end.

Fixpoint value_eqb (a b : value) {struct a} : bool :=
  let fix all2 (l : list value) (r : list value) {struct l} : bool :=
    match l, r with
    | [], [] => true
    | x :: l', y :: r' => value_eqb x y && all2 l' r'
    | _, _ => false
    end in
  let fix entries2 (l : list (string * value)) (r : list (string * value))
        {struct l} : bool :=
    match l, r with
    | [], [] => true
    | (k, x) :: l', (k', y) :: r' => String.eqb k k' && value_eqb x y && entries2 l' r'
    | _, _ => false
    end in
  match a, b with
  | VUndefined, VUndefined => true
  | VNull, VNull => true
  | VBool x, VBool y => Bool.eqb x y
  | VDate, VDate => true
  | VUuid x, VUuid y => Buffer_equals x y
  | VSizedInt x s, VSizedInt y t => (x =? y) && (s =? t)
  | VInt x, VInt y => x =? y
  | VFloat x, VFloat y => x =? y
  | VString x, VString y => String.eqb x y
  | VBytes x, VBytes y => Buffer_equals x y
  | VArray x, VArray y => all2 x y
  | VDict x, VDict y => entries2 x y
  | VUnsupported, VUnsupported => true
  | _, _ => false
  end.

(** Two values are equal up to integer width when they are equal once
    every [SizedInt] is read as its number. *)
Definition equal_up_to_width (a b : value) : bool :=
  value_eqb (normalize a) (normalize b).

(** The values of the supported type set: [null], booleans, unsigned
    integers of at most 64 bits, other numbers, [SizedInt] carriers of 1,
    2, 4 or 8 bytes whose value fits, strings, byte strings, arrays and
    string-keyed maps of supported values. *)
Fixpoint supported (v : value) : bool :=
  match v with
  | VNull | VBool _ | VFloat _ | VString _ | VBytes _ => true
  | VInt n => (0 <=? n) && (n <? 2 ^ 64)
  | VSizedInt value_ size =>
      ((size =? 1) || (size =? 2) || (size =? 4) || (size =? 8))
      && (0 <=? value_) && (value_ <? 2 ^ (8 * size))
  | VArray items => forallb supported items
  | VDict entries => forallb (fun e => supported (snd e)) entries
  | _ => false
  end.

(** The scalar values among them; a number is there with the integer or
    the bit pattern that represents it. *)
Definition scalar (v : value) : bool :=
  match v with
  | VNull | VBool _ => true
  | VInt n => (0 <=? n) && (n <? 2 ^ 64) && (js_round n =? n)
  | VSizedInt value_ size =>
      ((size =? 1) || (size =? 2) || (size =? 4) || (size =? 8))
      && (0 <=? value_) && (value_ <? 2 ^ (8 * size)) && (js_round value_ =? value_)
  | VFloat bits =>
      (0 <=? bits) && (bits <? 2 ^ 64) && value_eqb (number_of_binary64 bits) (VFloat bits)
  | VString s => Z.of_nat (String.length s) <? 2 ^ 32
  | VBytes b => buffer_length b <? 2 ^ 32
  | _ => false
  end.

(** *** Fuel

    [advances data o]: the outcome [o] of a call on [data] is not
    [OutOfFuel], and what it leaves to read is shorter than [data]. *)
Definition advances {A : Type} (data : Buffer) (o : outcome (A * Buffer * list value))
  : Prop :=
  match o with
  | Return (_, remaining, _) =>
      (length remaining < length data)%nat /\ is_bytes remaining
  | Throw _ => True
  | OutOfFuel => False
  end.

(** *** The encoding without back-references

    [encoding v] is what the branches of [packInternal] write for [v] when
    the deduplication at its end finds no earlier encoding: the bytes of
    [packInteger], [packString] and [packBytes] for the scalars, and for an
    array or a map the header byte, the encodings of the items (for a map
    key and value in turn) and, from fifteen items on, the terminator. *)
Definition written (o : outcome Buffer) : Buffer :=
  match o with
  | Return b => b
  | _ => []
  end.

Definition container (tag : Z) (count : nat) (items : Buffer) : Buffer :=
  (tag + Z.min (Z.of_nat count) 0xf) :: items
  ++ (if 0xf <=? Z.of_nat count then [0x03] else []).

Fixpoint encoding (v : value) : Buffer :=
  match v with
  | VNull | VUndefined => [0x04]
  | VBool b => [if b then 0x01 else 0x02]
  | VDate => []
  | VUuid bytes => 0x05 :: bytes
  | VSizedInt value_ size => written (packInteger value_ (Some size))
  | VInt n => written (packInteger n None)
  | VFloat bits => 0x36 :: le_bytes 8 bits
  | VString s => written (packString s)
  | VBytes b => written (packBytes b)
  | VArray items => container 0xd0 (length items) (concat (map encoding items))
  | VDict entries =>
      container 0xe0 (length entries)
        (concat (map (fun e => written (packString (fst e)) ++ encoding (snd e)) entries))
  | VUnsupported => []
  end.

(** The encodings of more than one byte in [v], in the order in which
    [packInternal] comes to the end of them: items before their array or
    map, a key before its value. *)
Definition indexed (b : Buffer) : list Buffer :=
  if 1 <? buffer_length b then [b] else [].

Fixpoint node_encodings (v : value) : list Buffer :=
  match v with
  | VArray items => concat (map node_encodings items) ++ indexed (encoding v)
  | VDict entries =>
      concat (map (fun e => indexed (written (packString (fst e)))
                            ++ node_encodings (snd e)) entries)
      ++ indexed (encoding v)
  | _ => indexed (encoding v)
  end.

(** The values that are written without loss: the scalars of [scalar], and
    arrays and maps of such values; the keys of a map differ from each
    other and are shorter than [2^32] bytes.  A key [__proto__] is left
    out: for it [output[key] = val] on a plain object sets the prototype
    and adds no entry. *)
Fixpoint distinct (keys : list string) : bool :=
  match keys with
  | [] => true
  | k :: rest => negb (existsb (String.eqb k) rest) && distinct rest
  end.

Fixpoint plain (v : value) : bool :=
  match v with
  | VArray items => forallb plain items
  | VDict entries =>
      forallb (fun e => (Z.of_nat (String.length (fst e)) <? 2 ^ 32)
                        && negb (String.eqb (fst e) "__proto__")
                        && plain (snd e))
        entries
      && distinct (map fst entries)
  | _ => scalar v
  end.

(** What [unpack] makes of [encoding v]: an integer from 40 on comes back
    as a [SizedInt] of the width it was written in. *)
Fixpoint decoded (v : value) : value :=
  match v with
  | VInt n =>
      if n <? 0x28 then VInt n
      else if n <=? 0xff then VSizedInt n 1
      else if n <=? 0xffff then VSizedInt n 2
      else if n <=? 0xffffffff then VSizedInt n 4
      else VSizedInt n 8
  | VArray items => VArray (map decoded items)
  | VDict entries => VDict (map (fun e => (fst e, decoded (snd e))) entries)
  | _ => v
  end.

(** The number of values and keys in [v]. *)
Fixpoint size (v : value) : nat :=
  match v with
  | VArray items => S (list_sum (map size items))
  | VDict entries => S (list_sum (map (fun e => S (size (snd e))) entries))
  | _ => 1
  end.

(** The bytes of one entry of a map: the key, then the value. *)
Definition entry_encoding (e : string * value) : Buffer :=
  written (packString (fst e)) ++ encoding (snd e).

(** *** What the two directions do on one value *)

Section Reads.

Variable number_toString : value -> string.

(** [codec v e v']: [packInternal] writes [e] for [v], up to the
    deduplication at its end; [e] is the encoding of [v], it does not start
    with the terminator, and [unpackInternal] reads [v'] from it. *)
Definition codec (v : value) (e : Buffer) (v' : value) : Prop :=
  (forall ol, packInternal v ol = Return (deduplicate e ol)) /\
  encoding v = e /\
  (exists add, forall fuel rest ol,
      unpackInternal number_toString (S fuel) (e ++ rest) ol = finish v' rest add ol) /\
  (exists t r, e = t :: r /\ t <> 0x03).

(** [decodes v]: the encoding of [v] does not start with the terminator, and
    [unpackInternal] reads [decoded v] from it, whatever follows it and
    whatever the object list holds. *)
Definition decodes (v : value) : Prop :=
  (exists t r, encoding v = t :: r /\ t <> 0x03) /\
  forall fuel rest ol,
    (size v < fuel)%nat ->
    exists ol', unpackInternal number_toString fuel (encoding v ++ rest) ol
                = Return (decoded v, rest, ol').

(** An entry of a map that is read back: a key below [2^32] bytes that
    makes an own property, and a value that is read back. *)
Definition entry_decodes (e : string * value) : Prop :=
  Z.of_nat (String.length (fst e)) < 2 ^ 32 /\ fst e <> "__proto__"%string /\
  decodes (snd e).

End Reads.

(** The buffers that the deduplication puts on the object list. *)
Definition long (b : Buffer) : Prop := 1 < buffer_length b.

(** [packs v]: on an object list of such buffers that holds none of the
    encodings in [v], and when these differ from each other, [packInternal]
    writes [encoding v] and appends them. *)
Definition packs (v : value) : Prop :=
  forall objectList,
    Forall long objectList ->
    NoDup (objectList ++ node_encodings v) ->
    packInternal v objectList = Return (encoding v, objectList ++ node_encodings v).

End Opack.

(** ** SRPAuthHandler (src/auth/srp.ts) *)

Module Srp.

Import Chacha20.

(** [v4()] of the uuid package, from the 16 random bytes it draws: the
    version and variant bits are set and the bytes are printed in the
    8-4-4-4-12 form of RFC 4122. *)
Definition uuidv4 (rnds : Buffer) : string :=
  let byte i := nth i rnds 0 mod 256 in
  let b6 := Z.lor (Z.land (byte 6%nat) 0x0f) 0x40 in
  let b8 := Z.lor (Z.land (byte 8%nat) 0x3f) 0x80 in
  let dash := String "-"%char EmptyString in
  append (hex [byte 0%nat; byte 1%nat; byte 2%nat; byte 3%nat])
  (append dash (append (hex [byte 4%nat; byte 5%nat])
  (append dash (append (hex [b6; byte 7%nat])
  (append dash (append (hex [b8; byte 9%nat])
  (append dash (hex [byte 10%nat; byte 11%nat; byte 12%nat; byte 13%nat;
                     byte 14%nat; byte 15%nat])))))))).

(** [interface HapCredentials] (src/auth/credentials.ts) *)
Record HapCredentials : Type := {
  ltpk : Buffer;
  ltsk : Buffer;
  atvId : Buffer;
  clientId : Buffer
}.

Record KeyPair : Type := {
  privateKey : Buffer;
  publicKey : Buffer
}.

Record SrpSession : Type := {
  key : Buffer;   (* Buffer.from(srpSession.key, 'hex') *)
  proof : Buffer  (* Buffer.from(srpSession.proof, 'hex') *)
}.

(** The fields of the handler; [None] is [null].  The SRP client object
    and the PIN are used by [step1] and [step2] only, which run the
    js-srp6a library and leave their result in [srpSession]. *)
Record SRPAuthHandler : Type := {
  pairingId : Buffer;
  signingKey : option KeyPair;
  verifyKey : option KeyPair;
  srpSession : option SrpSession;
  sessionKey : option Buffer;
  sharedSecret : option Buffer
}.

(** [constructor()]: [this.pairingId = Buffer.from(uuidv4())]. *)
Definition new_SRPAuthHandler (rnds : Buffer) : SRPAuthHandler :=
  {| pairingId := Buffer_from_string (uuidv4 rnds);
     signingKey := None; verifyKey := None; srpSession := None;
     sessionKey := None; sharedSecret := None |}.

(** [initialize()], given the two key pairs it generates. *)
Definition initialize (h : SRPAuthHandler) (signing verify : KeyPair)
  : SRPAuthHandler * (Buffer * Buffer) :=
  ({| pairingId := pairingId h; signingKey := Some signing;
      verifyKey := Some verify; srpSession := srpSession h;
      sessionKey := sessionKey h; sharedSecret := sharedSecret h |},
   (publicKey signing, publicKey verify)).

(** The assignment [this.srpSession = await this.srpClient.deriveSession(...)]
    of [step2], given the session that the library derives. *)
Definition set_srpSession (h : SRPAuthHandler) (session : SrpSession)
  : SRPAuthHandler :=
  {| pairingId := pairingId h; signingKey := signingKey h;
     verifyKey := verifyKey h; srpSession := Some session;
     sessionKey := sessionKey h; sharedSecret := sharedSecret h |}.

Definition set_sessionKey (h : SRPAuthHandler) (k : Buffer) : SRPAuthHandler :=
  {| pairingId := pairingId h; signingKey := signingKey h;
     verifyKey := verifyKey h; srpSession := srpSession h;
     sessionKey := Some k; sharedSecret := sharedSecret h |}.

Definition set_sharedSecret (h : SRPAuthHandler) (s : Buffer) : SRPAuthHandler :=
  {| pairingId := pairingId h; signingKey := signingKey h;
     verifyKey := verifyKey h; srpSession := srpSession h;
     sessionKey := sessionKey h; sharedSecret := Some s |}.

Definition tlv_get (m : Tlv8.TlvData) (t : Tlv8.TlvValue) : option Buffer :=
  Tlv8.get m (Tlv8.TlvValue_value t).




(** The part of [verify1] that follows the key exchange. *)
Definition verify1_response `{Crypto} (credentials : HapCredentials)
  (sessionPubKey encrypted : Buffer) (verifyKey : KeyPair) (sharedSecret : Buffer)
  : outcome Buffer :=
  let sessionKey :=
    hkdfExpand "Pair-Verify-Encrypt-Salt" "Pair-Verify-Encrypt-Info" sharedSecret in
  let chacha := new_Chacha20Cipher8byteNonce sessionKey sessionKey in
  let (chacha, decrypted) := decrypt chacha encrypted (nonce_string "PV-Msg02") None in
  let* decryptedBytes := decrypted in
  let* decryptedTlv := Tlv8.readTlv decryptedBytes in
  match tlv_get decryptedTlv Tlv8.Identifier, tlv_get decryptedTlv Tlv8.Signature with
  | Some identifier, Some signature =>
      if negb (Buffer_equals identifier (atvId credentials)) then
        Throw (AuthenticationError "Incorrect device response")
      else
        let info := Buffer_concat [sessionPubKey; identifier; publicKey verifyKey] in
        if negb (ed25519Verify (ltpk credentials) info signature) then
          Throw (AuthenticationError "Signature verification failed")
        else
          let deviceInfo :=
            Buffer_concat [publicKey verifyKey; clientId credentials; sessionPubKey] in
          let* deviceSignature := ed25519Sign (ltsk credentials) deviceInfo in
          let tlv :=
            Tlv8.writeTlv
              [(Tlv8.TlvValue_value Tlv8.Identifier, clientId credentials);
               (Tlv8.TlvValue_value Tlv8.Signature, deviceSignature)] in
          snd (encrypt chacha tlv (nonce_string "PV-Msg03") None)
  | _, _ => Throw (AuthenticationError "Missing identifier or signature in response")
  end.

Definition verify1 `{Crypto} (h : SRPAuthHandler) (credentials : HapCredentials)
  (sessionPubKey encrypted : Buffer) : SRPAuthHandler * outcome Buffer :=
  match verifyKey h with
  | None => (h, Throw (Error "Keys not initialized"))
  | Some vk =>
      match x25519SharedSecret (privateKey vk) sessionPubKey with
      | Return shared =>
          (set_sharedSecret h shared,
           verify1_response credentials sessionPubKey encrypted vk shared)
      | Throw e => (h, Throw e)
      | OutOfFuel => (h, OutOfFuel)
      end
  end.

Definition verify2 `{Crypto} (h : SRPAuthHandler) (salt outputInfo inputInfo : string)
  : outcome (Buffer * Buffer) :=
  match sharedSecret h with
  | None => Throw (Error "Shared secret not established")
  | Some s => Return (hkdfExpand salt outputInfo s, hkdfExpand salt inputInfo s)
  end.

Definition step3 `{Crypto} (h : SRPAuthHandler) (name : option string)
  (additionalData : option Tlv8.TlvData) : SRPAuthHandler * outcome Buffer :=
  match srpSession h, signingKey h with
  | Some session, Some signing =>
      let sessionKeyBytes := key session in
      let iosDeviceX :=
        hkdfExpand "Pair-Setup-Controller-Sign-Salt"
          "Pair-Setup-Controller-Sign-Info" sessionKeyBytes in
      let sessionKey :=
        hkdfExpand "Pair-Setup-Encrypt-Salt" "Pair-Setup-Encrypt-Info"
          sessionKeyBytes in
      (set_sessionKey h sessionKey,
       let deviceInfo :=
         Buffer_concat [iosDeviceX; pairingId h; publicKey signing] in
       let* deviceSignature := ed25519Sign (privateKey signing) deviceInfo in
       let tlv : Tlv8.TlvData :=
         [(Tlv8.TlvValue_value Tlv8.Identifier, pairingId h);
          (Tlv8.TlvValue_value Tlv8.PublicKey, publicKey signing);
          (Tlv8.TlvValue_value Tlv8.Signature, deviceSignature)] in
       let* tlv :=
         match name with
         | Some (String c rest) =>
             let* packed :=
               Opack.pack (Opack.VDict [("name"%string, Opack.VString (String c rest))]) in
             Return (Tlv8.set tlv (Tlv8.TlvValue_value Tlv8.Name) packed)
         | _ => Return tlv
         end in
       let tlv :=
         match additionalData with
         | Some entries =>
             fold_left (fun m entry => Tlv8.set m (fst entry) (snd entry)) entries tlv
         | None => tlv
         end in
       let chacha := new_Chacha20Cipher8byteNonce sessionKey sessionKey in
       snd (encrypt chacha (Tlv8.writeTlv tlv) (nonce_string "PS-Msg05") None))
  | _, _ => (h, Throw (Error "SRP session not established"))
  end.

Definition step4 `{Crypto} (h : SRPAuthHandler) (encryptedData : Buffer)
  : outcome HapCredentials :=
  match sessionKey h, signingKey h with
  | Some key, Some signing =>
      let chacha := new_Chacha20Cipher8byteNonce key key in
      let* decryptedTlvBytes :=
        snd (decrypt chacha encryptedData (nonce_string "PS-Msg06") None) in
      if buffer_length decryptedTlvBytes =? 0 then
        Throw (AuthenticationError "Data decrypt failed")
      else
        let* decryptedTlv := Tlv8.readTlv decryptedTlvBytes in
        match tlv_get decryptedTlv Tlv8.Identifier,
              tlv_get decryptedTlv Tlv8.PublicKey with
        | Some atvIdentifier, Some atvPubKey =>
            Return {| ltpk := atvPubKey; ltsk := privateKey signing;
                      atvId := atvIdentifier; clientId := pairingId h |}
        | _, _ =>
            Throw (AuthenticationError "Missing identifier or public key in response")
        end
  | _, _ => Throw (Error "Session key not established")
  end.

(** A handler made by the constructor: [pairingId] is [readonly], so every
    later state of the object carries the identifier chosen there. *)
Definition constructed (h : SRPAuthHandler) : Prop :=
  exists rnds, pairingId h = pairingId (new_SRPAuthHandler rnds).

(** [modPow(base, exp, mod)] on [bigint]s: [%] is the remainder of the
    truncating division, [/] the truncating division, and [x % 0n] is a
    [RangeError].  The loop halves [exp], so it makes one turn for each bit
    of [exp]. *)
Fixpoint modPow_loop (fuel : nat) (result base exp mod_ : Z) : outcome Z :=
  match fuel with
  | O => OutOfFuel
  | S fuel' =>
      if 0 <? exp then
        let result :=
          if Z.rem exp 2 =? 1 then Z.rem (result * base) mod_ else result in
        modPow_loop fuel' result (Z.rem (base * base) mod_) (Z.quot exp 2) mod_
      else Return result
  end.

Definition modPow (base exp mod_ : Z) : outcome Z :=
  if mod_ =? 0 then Throw (RangeError "Division by zero")
  else modPow_loop (S (S (Z.to_nat (Z.log2 exp)))) 1 (Z.rem base mod_) exp mod_.

(** [BigInt('0x' + s)] for a string of hexadecimal digits, in either case;
    without digits or with any other character the conversion fails (a
    [SyntaxError], kept here as an [Error]; white space around the literal,
    which the conversion would skip, is not written by [toString('hex')]). *)
Definition hex_digit_value (c : ascii) : option Z :=
  let n := Z.of_N (N_of_ascii c) in
  if (48 <=? n) && (n <=? 57) then Some (n - 48)
  else if (97 <=? n) && (n <=? 102) then Some (n - 87)
  else if (65 <=? n) && (n <=? 70) then Some (n - 55)
  else None.

Fixpoint hex_value (s : string) (acc : Z) : option Z :=
  match s with
  | EmptyString => Some acc
  | String c rest =>
      match hex_digit_value c with
      | Some d => hex_value rest (16 * acc + d)
      | None => None
      end
  end.

Definition BigInt_hex (s : string) : outcome Z :=
  match hex_value s 0 with
  | Some n =>
      if (String.length s =? 0)%nat
      then Throw (Error "SyntaxError: Cannot convert 0x to a BigInt")
      else Return n
  | None => Throw (Error "SyntaxError: Cannot convert to a BigInt")
  end.

(** [n.toString(16)] on a [bigint] that is not negative, and
    [s.padStart(targetLength, '0')]. *)
Fixpoint toString16_loop (fuel : nat) (n : Z) (acc : string) : string :=
  match fuel with
  | O => acc
  | S fuel' =>
      if n <? 16 then String (hex_digit n) acc
      else toString16_loop fuel' (n / 16) (String (hex_digit (n mod 16)) acc)
  end.

Definition toString16 (n : Z) : string :=
  toString16_loop (S (Z.to_nat (Z.log2 n))) n EmptyString.

Fixpoint zeros (n : nat) : string :=
  match n with
  | O => EmptyString
  | S n' => String "0"%char (zeros n')
  end.

Definition padStart (targetLength : nat) (s : string) : string :=
  append (zeros (targetLength - String.length s)) s.

(** The SRP group of 3072 bits (RFC 5054). *)
Definition N_HEX : string :=
  "FFFFFFFFFFFFFFFFC90FDAA22168C234C4C6628B80DC1CD129024E088A67CC74020BBEA63B139B22514A08798E3404DDEF9519B3CD3A431B302B0A6DF25F14374FE1356D6D51C245E485B576625E7EC6F44C42E9A637ED6B0BFF5CB6F406B7EDEE386BFB5A899FA5AE9F24117C4B1FE649286651ECE45B3DC2007CB8A163BF0598DA48361C55D39A69163FA8FD24CF5F83655D23DCA3AD961C62F356208552BB9ED529077096966D670C354E4ABC9804F1746C08CA18217C32905E462E36CE3BE39E772C180E86039B2783A2EC07A28FB5C55DF06F4C52C9DE2BCBF6955817183995497CEA956AE515D2261898FA051015728E5A8AAAC42DAD33170D04507A33A85521ABDF1CBA64ECFB850458DBEF0A8AEA71575D060C7DB3970F85A6E1E4C7ABF5AE8CDB0933D71E8C94E04A25619DCEE3D2261AD2EE6BF12FFA06D98A0864D87602733EC86A64521F2B18177B200CBBE117577A615D6C770988C0BAD946E208E24FA074E5AB3143DB5BFCE0FD108E4B82D120A93AD2CAFFFFFFFFFFFFFFFF".

Definition N : Z :=
  match hex_value N_HEX 0 with Some n => n | None => 0 end.

Definition G : Z := 5.

(** [computePublicEphemeral(secretHex)]: [A = g^a mod N], as 768
    hexadecimal digits. *)
Definition computePublicEphemeral (secretHex : string) : outcome string :=
  let* a := BigInt_hex secretHex in
  let* A := modPow G a N in
  Return (padStart 768 (toString16 A)).

End Srp.

(** ** The scanner (src/scanner/scanner.ts) *)

Module Scanner.

(** [interface AppleTVDevice]; [None] is [undefined]. *)
Record AppleTVDevice : Type := {
  name : string;
  host : string;
  port : Z;
  model : option string;
  identifier : option string;
  properties : list (string * string)
}.

(** A [Service] of bonjour-service, as far as the scanner reads it.  The
    values of the TXT record are kept as [String(value)] prints them. *)
Record Service : Type := {
  service_name : string;
  addresses : option (list string);
  service_port : Z;
  txt : option (list (string * string))
}.

Definition PAIRING_DISABLED_MASK : Z := 0x02.
Definition PAIRING_WITH_PIN_SUPPORTED_MASK : Z := 0x200.

(** [properties.key] and [properties[key] = value] on a
    [Record<string, string>]. *)
Fixpoint lookup (properties : list (string * string)) (key : string) : option string :=
  match properties with
  | [] => None
  | (k, v) :: rest => if String.eqb k key then Some v else lookup rest key
  end.

Fixpoint assign (properties : list (string * string)) (key value_ : string)
  : list (string * string) :=
  match properties with
  | [] => [(key, value_)]
  | (k, v) :: rest =>
      if String.eqb k key then (k, value_) :: rest else (k, v) :: assign rest key value_
  end.

(** A string is truthy when it is not empty. *)
Definition truthy (s : option string) : bool :=
  match s with
  | Some (String _ _) => true
  | _ => false
  end.

Definition parseModel (rpmd : option string) : option string := rpmd.

Definition parseIdentifier (serviceName : string) (properties : list (string * string))
  : string :=
  match lookup properties "rpHA" with
  | Some (String c rest) => String c rest
  | _ => serviceName
  end.

(** [addr.includes('.')] and [addr.startsWith('169.254')] *)
Fixpoint includes_dot (addr : string) : bool :=
  match addr with
  | EmptyString => false
  | String c rest => Ascii.eqb c "."%char || includes_dot rest
  end.

Definition is_ipv4 (addr : string) : bool :=
  includes_dot addr && negb (String.prefix "169.254" addr).

(** [serviceToDevice]: [None] is [null].  An address that [find] returns
    contains a dot, so it is not the empty string. *)
Definition serviceToDevice (service : Service) : option AppleTVDevice :=
  let addresses := match addresses service with Some l => l | None => [] end in
  match find is_ipv4 addresses with
  | None => None
  | Some ipv4 =>
      let properties :=
        match txt service with
        | Some entries =>
            fold_left (fun properties entry => assign properties (fst entry) (snd entry))
              entries []
        | None => []
        end in
      Some {| name := service_name service;
              host := ipv4;
              port := service_port service;
              model := parseModel (lookup properties "rpmd");
              identifier := Some (parseIdentifier (service_name service) properties);
              properties := properties |}
  end.

(** What the mDNS browser reports while a scan runs. *)
Inductive browser_event : Type :=
| up (service : Service)
| down (service : Service).

(** [d.identifier === device.identifier] *)
Definition same_identifier (d device : AppleTVDevice) : bool :=
  match identifier d, identifier device with
  | Some a, Some b => String.eqb a b
  | None, None => true
  | _, _ => false
  end.

(** The listener that [scan] puts on ['device'], which the scanner emits
    for every service that comes up and has a usable address. *)
Definition scan_on_device (devices : list AppleTVDevice) (device : AppleTVDevice)
  : list AppleTVDevice :=
  if existsb (fun d => same_identifier d device) devices then devices
  else devices ++ [device].

(** [scan(options)]: the array it resolves to, given the events that the
    browser reported before the timeout. *)
Definition scan (events : list browser_event) : list AppleTVDevice :=
  fold_left
    (fun devices event =>
       match event with
       | up service =>
           match serviceToDevice service with
           | Some device => scan_on_device devices device
           | None => devices
           end
       | down _ => devices
       end)
    events [].

Section Flags.

(** [parseInt(s, 16)]: [None] is [NaN] or an infinity, which [&] reads as
    zero like [NaN]. *)
Variable parseInt16 : string -> option Z.

(** [x & mask]: both sides as 32-bit integers. *)
Definition bitand (x : option Z) (mask : Z) : Z :=
  let int32 n := (n + 2 ^ 31) mod 2 ^ 32 - 2 ^ 31 in
  match x with
  | Some n => int32 (Z.land (n mod 2 ^ 32) (mask mod 2 ^ 32))
  | None => 0
  end.

(** [device.properties.rpFl || device.properties.rpfl || '0x0'] *)
Definition flagsStr (device : AppleTVDevice) : string :=
  match lookup (properties device) "rpFl" with
  | Some (String c rest) => String c rest
  | _ =>
      match lookup (properties device) "rpfl" with
      | Some (String c rest) => String c rest
      | _ => "0x0"
      end
  end.

Definition supportsPairing (device : AppleTVDevice) : bool :=
  let flags := parseInt16 (flagsStr device) in
  if negb (bitand flags PAIRING_DISABLED_MASK =? 0) then false
  else negb (bitand flags PAIRING_WITH_PIN_SUPPORTED_MASK =? 0).

Definition isPairingDisabled (device : AppleTVDevice) : bool :=
  let flags := parseInt16 (flagsStr device) in
  negb (bitand flags PAIRING_DISABLED_MASK =? 0).

End Flags.

(** *** AppleTVScanner

    The fields of the class: [browser] is set between [start] and [stop];
    [devices] is a [Map], its entries in the order of their insertion, the
    key of an entry the [identifier] of its device ([None] is
    [undefined]). *)
Record AppleTVScanner : Type := {
  browser : bool;
  devices : list (option string * AppleTVDevice)
}.

(** Equality of the keys of the [Map]. *)
Definition key_eqb (a b : option string) : bool :=
  match a, b with
  | Some x, Some y => String.eqb x y
  | None, None => true
  | _, _ => false
  end.

Fixpoint devices_set (m : list (option string * AppleTVDevice)) (key : option string)
  (device : AppleTVDevice) : list (option string * AppleTVDevice) :=
  match m with
  | [] => [(key, device)]
  | (k, d) :: rest =>
      if key_eqb k key then (k, device) :: rest
      else (k, d) :: devices_set rest key device
  end.

Definition devices_delete (m : list (option string * AppleTVDevice))
  (key : option string) : list (option string * AppleTVDevice) :=
  filter (fun entry => negb (key_eqb (fst entry) key)) m.

(** [emit('device', device)] and [emit('deviceRemoved', device)] *)
Inductive scanner_event : Type :=
| device_found (device : AppleTVDevice)
| device_removed (device : AppleTVDevice).

Definition start (s : AppleTVScanner) : AppleTVScanner :=
  if browser s then s else {| browser := true; devices := [] |}.

Definition stop (s : AppleTVScanner) : AppleTVScanner :=
  {| browser := false; devices := devices s |}.

(** The listeners that [start] puts on the browser. *)
Definition on_up (s : AppleTVScanner) (service : Service)
  : AppleTVScanner * list scanner_event :=
  match serviceToDevice service with
  | Some device =>
      ({| browser := browser s;
          devices := devices_set (devices s) (identifier device) device |},
       [device_found device])
  | None => (s, [])
  end.

Definition on_down (s : AppleTVScanner) (service : Service)
  : AppleTVScanner * list scanner_event :=
  match serviceToDevice service with
  | Some device =>
      ({| browser := browser s;
          devices := devices_delete (devices s) (identifier device) |},
       [device_removed device])
  | None => (s, [])
  end.

Definition getDevices (s : AppleTVScanner) : list AppleTVDevice :=
  map snd (devices s).

(** The scanner after the browser has reported [events]. *)
Definition reported (events : list browser_event) (s : AppleTVScanner)
  : AppleTVScanner :=
  fold_left
    (fun s event =>
       match event with
       | up service => fst (on_up s service)
       | down service => fst (on_down s service)
       end)
    events s.

(** The device that an event of the browser is about, if it has a usable
    address. *)
Definition event_device (event : browser_event) : option AppleTVDevice :=
  match event with
  | up service | down service => serviceToDevice service
  end.

End Scanner.

(** ** CompanionProtocol (src/protocol/protocol.ts) *)

Module Protocol.

Import Chacha20 Connection Opack.

Definition AUTH_FRAMES : list FrameType := [PS_Start; PS_Next; PV_Start; PV_Next].
Definition OPACK_FRAMES : list FrameType := [U_OPACK; E_OPACK; P_OPACK].

Definition DEFAULT_TIMEOUT : Z := 5000.

Inductive MessageType : Type := Event | Request | Response.

Definition MessageType_value (t : MessageType) : Z :=
  match t with
  | Event => 1 | Request => 2 | Response => 3
  end.

(** [frames.includes(frameType)], the frame type a number. *)
Definition includes_frame (frames : list FrameType) (frameType : Z) : bool :=
  existsb (fun f => FrameType_value f =? frameType) frames.

(** [data[key]] and [key in data], for the keys of the protocol ([_t],
    [_x], [_i], [_c], [_em], [_pd]): an object has them when it holds an
    entry for them, or when an object on its prototype chain does; a
    [Buffer], an array and a [SizedInt] have none of them, and neither has
    [Object.prototype].  The prototype of an object that [unpack] built is
    [Object.prototype], unless [unpack] read the key [__proto__] for it:
    the assignment [output['__proto__'] = value] makes an object [value]
    the prototype.  It is the entry under that key here. *)
Fixpoint property (data : value) (key : string) : value :=
  match data with
  | VDict entries =>
      match find (fun e => String.eqb (fst e) key) entries with
      | Some e => snd e
      | None =>
          (fix inherited (l : list (string * value)) : value :=
             match l with
             | [] => VUndefined
             | (k, prototype) :: rest =>
                 if String.eqb k "__proto__" then property prototype key
                 else inherited rest
             end) entries
      end
  | _ => VUndefined
  end.

Fixpoint has_property (data : value) (key : string) : bool :=
  match data with
  | VDict entries =>
      existsb (fun e => String.eqb (fst e) key) entries
      || (fix inherited (l : list (string * value)) : bool :=
            match l with
            | [] => false
            | (k, prototype) :: rest =>
                if String.eqb k "__proto__" then has_property prototype key
                else inherited rest
            end) entries
  | _ => false
  end.

(** [typeof v === 'object' && v !== null], for the values that [unpack]
    builds and the objects that [pack] accepts. *)
Definition is_object (v : value) : bool :=
  match v with
  | VDate | VUuid _ | VSizedInt _ _ | VBytes _ | VArray _ | VDict _ => true
  | _ => false
  end.

(** [Map<FrameIdType, PendingRequest>]: the entries in the order of their
    insertion.  A pending request is the [resolve], the [reject] and the
    timer of one promise; it is known by the number of that promise. *)
Definition PendingRequest : Type := nat.

Fixpoint Map_get (m : list (Z * PendingRequest)) (key : Z) : option PendingRequest :=
  match m with
  | [] => None
  | (k, v) :: rest => if k =? key then Some v else Map_get rest key
  end.

Fixpoint Map_set (m : list (Z * PendingRequest)) (key : Z) (val : PendingRequest)
  : list (Z * PendingRequest) :=
  match m with
  | [] => [(key, val)]
  | (k, v) :: rest =>
      if k =? key then (k, val) :: rest else (k, v) :: Map_set rest key val
  end.

Definition Map_delete (m : list (Z * PendingRequest)) (key : Z)
  : list (Z * PendingRequest) :=
  filter (fun entry => negb (fst entry =? key)) m.

(** The fields of the class; [promises] counts the promises that
    [exchangeGenericOpack] has created, they are numbered in that order. *)
Record CompanionProtocol : Type := {
  connection : CompanionConnection;
  xid : Z;
  queues : list (Z * PendingRequest);
  isStarted : bool;
  promises : nat
}.

(** What a method does besides changing the fields: settle a promise, set
    or clear its timer, emit an event to the listeners that are there:
    [emit_event] is ['event'] and [emit_error] is ['error'] of the protocol,
    [emit_connection_error] is ['error'] of its connection.  The listeners
    return, and do not call the methods of the object. *)
Inductive effect : Type :=
| resolve (promise : PendingRequest) (data : value)
| reject (promise : PendingRequest) (e : js_error)
| setTimeout (promise : PendingRequest) (ms : Z)
| clearTimeout (promise : PendingRequest)
| emit_event (name content : value)
| emit_error (e : js_error)
| emit_connection_error (e : js_error).

Definition set_connection (p : CompanionProtocol) (conn : CompanionConnection)
  : CompanionProtocol :=
  {| connection := conn; xid := xid p; queues := queues p;
     isStarted := isStarted p; promises := promises p |}.

Definition set_xid (p : CompanionProtocol) (x : Z) : CompanionProtocol :=
  {| connection := connection p; xid := x; queues := queues p;
     isStarted := isStarted p; promises := promises p |}.

Definition set_queues (p : CompanionProtocol) (q : list (Z * PendingRequest))
  : CompanionProtocol :=
  {| connection := connection p; xid := xid p; queues := q;
     isStarted := isStarted p; promises := promises p |}.

(** [this.connection.send(frameType, opackPack(data))] *)
Definition send_packed `{Crypto} (conn : CompanionConnection) (frameType : FrameType)
  (data : value) : CompanionConnection * outcome unit :=
  match pack data with
  | Return packed => send conn frameType packed
  | Throw e => (conn, Throw e)
  | OutOfFuel => (conn, OutOfFuel)
  end.

(** [exchangeGenericOpack]: the executor of the new promise sets the
    timer, enters the request under [identifier] and sends the frame; an
    exception of the executor rejects the promise.  The result holds the
    number of the promise that is returned. *)
Definition exchangeGenericOpack `{Crypto} (p : CompanionProtocol)
  (frameType : FrameType) (data : value) (identifier : Z) (timeout : Z)
  : CompanionProtocol * list effect * PendingRequest :=
  let promise := promises p in
  let (conn, sent) := send_packed (connection p) frameType data in
  ({| connection := conn; xid := xid p;
      queues := Map_set (queues p) identifier promise;
      isStarted := isStarted p; promises := S promise |},
   setTimeout promise timeout
     :: match sent with
        | Throw e => [reject promise e]
        | _ => []
        end,
   promise).

(** [exchangeAuth]: the answer to a [*_Start] frame comes as [*_Next]. *)
Definition exchangeAuth `{Crypto} (p : CompanionProtocol) (frameType : FrameType)
  (data : list (string * value)) (timeout : Z)
  : CompanionProtocol * list effect * PendingRequest :=
  let identifier :=
    match frameType with
    | PS_Start => PS_Next
    | PV_Start => PV_Next
    | _ => frameType
    end in
  exchangeGenericOpack p frameType (VDict data) (FrameType_value identifier) timeout.

(** [exchangeOpack]: [data._x = this.xid] on the object of the caller. *)
Definition exchangeOpack `{Crypto} (p : CompanionProtocol) (frameType : FrameType)
  (data : list (string * value)) (timeout : Z)
  : CompanionProtocol * list effect * PendingRequest :=
  let data := dict_set data "_x" (VInt (xid p)) in
  let identifier := xid p in
  let p := set_xid p (js_increment (xid p)) in
  exchangeGenericOpack p frameType (VDict data) identifier timeout.

Definition sendOpack `{Crypto} (p : CompanionProtocol) (frameType : FrameType)
  (data : list (string * value)) : CompanionProtocol * outcome unit :=
  let (data, p) :=
    if negb (has_property (VDict data) "_x") then
      (dict_set data "_x" (VInt (xid p)), set_xid p (js_increment (xid p)))
    else (data, p) in
  let (conn, sent) := send_packed (connection p) frameType (VDict data) in
  (set_connection p conn, sent).

Definition handleAuth (p : CompanionProtocol) (frameType : Z) (data : value)
  : CompanionProtocol * list effect :=
  match Map_get (queues p) frameType with
  | Some pending =>
      (set_queues p (Map_delete (queues p) frameType),
       [clearTimeout pending; resolve pending data])
  | None => (p, [])
  end.

Section Frames.

(** What the methods take from outside of the class:
    - [opackUnpack] is [unpack] of opack.ts, as the module imports it;
    - [number_toString] is [String(x)] for the numbers that have no
      decimal form here, as for [Opack.unpack];
    - [object_toNumber] is [Number(x)] for the values that need the
      conversion of an object or of a string to a number.  The result of
      [Number] is [Some n] for the integer [n], and [None] for every other
      number: the program compares it with integers only;
    - [object_toString] is the conversion of an object to a string in a
      template literal, which calls the [toString] that the object has or
      inherits and throws a [TypeError] when there is none to call;
    - [listening] tells whether a listener of the ['error'] events of the
      protocol is registered, [connection_listening] the same for the
      connection.  The classes of the repository register none. *)
Variable opackUnpack : Buffer -> outcome (value * Buffer).
Variable number_toString : value -> string.
Variable object_toNumber : value -> outcome (option Z).
Variable object_toString : value -> outcome string.
Variable listening : bool.
Variable connection_listening : bool.

Definition Number (v : value) : outcome (option Z) :=
  match v with
  | VUndefined => Return None
  | VNull => Return (Some 0)
  | VBool b => Return (Some (if b then 1 else 0))
  | VInt n => Return (Some n)
  | VSizedInt value_ _ => Return (Some value_)
  | VFloat bits =>
      match number_of_binary64 bits with
      | VInt n => Return (Some n)
      | _ => Return None
      end
  | _ => object_toNumber v
  end.

(** The value [v] in a template literal. *)
Definition template (v : value) : outcome string :=
  match v with
  | VUndefined | VNull | VBool _ | VInt _ | VFloat _ | VString _ =>
      Return (js_String number_toString v)
  | _ => object_toString v
  end.

(** [handleOpack]; the third component is [Throw e] when a conversion
    threw.  The entry has left the queue and its timer is cleared before
    the message of the rejection is made. *)
Definition handleOpack (p : CompanionProtocol) (data : value)
  : CompanionProtocol * list effect * outcome unit :=
  match Number (property data "_t") with
  | Return (Some 1) =>
      (p, [emit_event (property data "_i") (property data "_c")], Return tt)
  | Return (Some 3) =>
      match Number (property data "_x") with
      | Return (Some xid_) =>
          match Map_get (queues p) xid_ with
          | Some pending =>
              let p' := set_queues p (Map_delete (queues p) xid_) in
              if has_property data "_em" then
                match template (property data "_em") with
                | Return message =>
                    (p', [clearTimeout pending;
                          reject pending (Error (append "Command failed: " message))],
                     Return tt)
                | Throw e => (p', [clearTimeout pending], Throw e)
                | OutOfFuel => (p', [clearTimeout pending], OutOfFuel)
                end
              else (p', [clearTimeout pending; resolve pending data], Return tt)
          | None => (p, [], Return tt)
          end
      | Return None => (p, [], Return tt)
      | Throw e => (p, [], Throw e)
      | OutOfFuel => (p, [], OutOfFuel)
      end
  | Return _ => (p, [], Return tt)
  | Throw e => (p, [], Throw e)
  | OutOfFuel => (p, [], OutOfFuel)
  end.

(** The [try] block of [handleFrame]. *)
Definition handleFrame_try (p : CompanionProtocol) (frameType : Z) (data : Buffer)
  : CompanionProtocol * list effect * outcome unit :=
  match opackUnpack data with
  | Return (opackData, _) =>
      if negb (is_object opackData) then (p, [], Return tt)
      else if includes_frame AUTH_FRAMES frameType then
        let (p', effects) := handleAuth p frameType opackData in
        (p', effects, Return tt)
      else handleOpack p opackData
  | Throw e => (p, [], Throw e)
  | OutOfFuel => (p, [], OutOfFuel)
  end.

(** [handleFrame], the listener of the ['frame'] event of the connection.
    What is thrown inside of its [try] block goes to [emit('error', err)],
    which gives it to the listeners of ['error'] or, without one, throws
    it on to the caller of [handleFrame]. *)
Definition handleFrame (p : CompanionProtocol) (frameType : Z) (data : Buffer)
  : CompanionProtocol * list effect * outcome unit :=
  if negb (includes_frame OPACK_FRAMES frameType)
     && negb (includes_frame AUTH_FRAMES frameType) then (p, [], Return tt)
  else
    let '(p', effects, returned) := handleFrame_try p frameType data in
    match returned with
    | Throw e =>
        if listening then (p', effects ++ [emit_error e], Return tt)
        else (p', effects, Throw e)
    | _ => (p', effects, returned)
    end.

(** The wiring of the constructors: the socket gives its data to
    [handleData] of the connection, whose listener of ['frame'] is
    [handleFrame].  The state of the listeners is the protocol object with
    the effects so far. *)
Definition frame_listener (state : CompanionProtocol * list effect)
  (frameType : Z) (data : Buffer) : CompanionProtocol * list effect * outcome unit :=
  let '(p, effects, returned) := handleFrame (fst state) frameType data in
  (p, snd state ++ effects, returned).

Definition error_listener
  : option (CompanionProtocol * list effect -> js_error
            -> CompanionProtocol * list effect * outcome unit) :=
  if connection_listening then
    Some (fun state e => (fst state, snd state ++ [emit_connection_error e], Return tt))
  else None.

(** [this.handleData(data)], the listener of the ['data'] event of the
    socket: the object and the effects after the call, and [Throw e] when
    the call ended by throwing [e]. *)
Definition socket_data `{Crypto} (p : CompanionProtocol) (data : Buffer)
  : CompanionProtocol * list effect * outcome unit :=
  let '(conn, state, returned) :=
    handleData frame_listener error_listener (connection p) data (p, []) in
  (set_connection (fst state) conn, snd state, returned).

(** The callback of the timer that [exchangeGenericOpack] has set. *)
Definition timer_fires (p : CompanionProtocol) (identifier : Z)
  (promise : PendingRequest) (timeout : Z) : CompanionProtocol * list effect :=
  (set_queues p (Map_delete (queues p) identifier),
   [reject promise
      (Error (append "Timeout waiting for response ("
                (append (js_String number_toString (VInt timeout)) "ms)")))]).

End Frames.

(** [start()] up to its first [await]; what follows are calls of the
    connection and, with credentials, of [exchangeAuth]. *)
Definition start (p : CompanionProtocol) : CompanionProtocol * outcome unit :=
  if isStarted p then (p, Throw (Error "Already started"))
  else
    ({| connection := connection p; xid := xid p; queues := queues p;
        isStarted := true; promises := promises p |}, Return tt).

(** [stop()] *)
Definition stop (p : CompanionProtocol) : CompanionProtocol * list effect :=
  ({| connection := close (connection p); xid := xid p; queues := [];
      isStarted := false; promises := promises p |},
   flat_map (fun entry => [clearTimeout (snd entry);
                           reject (snd entry) (Error "Protocol stopped")])
     (queues p)).

(** [getPairingData] of the class; the byte strings that [unpack] builds
    are [Buffer]s. *)
Definition getPairingData (message : value) : outcome Tlv8.TlvData :=
  match property message "_pd" with
  | VBytes pd => Tlv8.readTlv pd
  | _ => Throw (Error "No pairing data in message")
  end.

(** *** Runs

    The calls that reach an object of the class: from its user, from the
    socket of its connection and from the timers it has set.
    [call_connection conn] is a call that reaches the connection and not
    the protocol, and leaves the connection as [conn]: [connect],
    [enableEncryption], the ['close'] event of the socket.  A run keeps
    what the calls did, the promise and the [xid] of every
    [exchangeOpack], and the promise of every [exchangeAuth]. *)
Inductive call : Type :=
| call_start
| call_exchangeAuth (frameType : FrameType) (data : list (string * value)) (timeout : Z)
| call_exchangeOpack (frameType : FrameType) (data : list (string * value)) (timeout : Z)
| call_sendOpack (frameType : FrameType) (data : list (string * value))
| call_socket_data (data : Buffer)
| call_timer (identifier : Z) (promise : PendingRequest) (timeout : Z)
| call_connection (conn : CompanionConnection)
| call_stop.

Record history : Type := {
  effects : list effect;
  requests : list (PendingRequest * Z);
  auths : list PendingRequest
}.

(** The promises that a list of effects resolves. *)
Definition resolved (done : list effect) : list PendingRequest :=
  flat_map (fun e => match e with resolve promise _ => [promise] | _ => [] end) done.

Section Runs.

Context `{Crypto}.
Variable opackUnpack : Buffer -> outcome (value * Buffer).
Variable number_toString : value -> string.
Variable object_toNumber : value -> outcome (option Z).
Variable object_toString : value -> outcome string.
Variable listening : bool.
Variable connection_listening : bool.

(** One call.  A call of the socket that ends by throwing leaves the
    object as it is at that point; the run goes on from there. *)
Definition step (state : CompanionProtocol * history) (c : call)
  : CompanionProtocol * history :=
  let (p, h) := state in
  match c with
  | call_start => (fst (start p), h)
  | call_connection conn => (set_connection p conn, h)
  | call_exchangeAuth frameType data timeout =>
      let '(p', done, promise) := exchangeAuth p frameType data timeout in
      (p', {| effects := effects h ++ done; requests := requests h;
              auths := auths h ++ [promise] |})
  | call_exchangeOpack frameType data timeout =>
      let '(p', done, promise) := exchangeOpack p frameType data timeout in
      (p', {| effects := effects h ++ done;
              requests := requests h ++ [(promise, xid p)]; auths := auths h |})
  | call_sendOpack frameType data =>
      (fst (sendOpack p frameType data), h)
  | call_socket_data data =>
      let '(p', done, _) :=
        socket_data opackUnpack number_toString object_toNumber object_toString
          listening connection_listening p data in
      (p', {| effects := effects h ++ done; requests := requests h; auths := auths h |})
  | call_timer identifier promise timeout =>
      let (p', done) := timer_fires number_toString p identifier promise timeout in
      (p', {| effects := effects h ++ done; requests := requests h; auths := auths h |})
  | call_stop =>
      let (p', done) := stop p in
      (p', {| effects := effects h ++ done; requests := requests h; auths := auths h |})
  end.

Definition run (calls : list call) (p : CompanionProtocol) : CompanionProtocol * history :=
  fold_left step calls (p, {| effects := []; requests := []; auths := [] |}).

(** [answers data x]: the message [data] is a response to the request
    with the [xid] [x], and reports no error. *)
Definition answers (data : value) (x : Z) : Prop :=
  is_object data = true /\
  Number object_toNumber (property data "_t") = Return (Some 3) /\
  Number object_toNumber (property data "_x") = Return (Some x) /\
  has_property data "_em" = false.

(** [drains p p' done]: a call that led from [p] to [p'] with the effects
    [done] made no request: it left [xid] where it was or moved it up, took
    entries out of the queue and added none, and resolved no promise but
    one that it took out of the queue, with a response to the [xid] under
    which it was entered if that is above the frame type values. *)
Definition drains (p p' : CompanionProtocol) (done : list effect) : Prop :=
  xid p <= xid p' /\ promises p' = promises p /\
  (exists keep, queues p' = filter keep (queues p)) /\
  NoDup (resolved done) /\
  forall q data, In (resolve q data) done ->
    In q (map snd (queues p)) /\ ~ In q (map snd (queues p')) /\
    forall k, In (k, q) (queues p) -> k <= 34 \/ answers data k.

(** What a run keeps true of an object that started with an [xid] above
    the frame type values: the entries of the queue belong to requests of
    the history, under their [xid] or under a frame type; the promises of
    the history are the first [promises p] and differ from each other, the
    [xid]s differ from each other and lie below [xid p]; no promise is
    resolved twice, a resolved promise has left the queue, and the promise
    of an [exchangeOpack] was resolved with a response to its [xid]. *)
Record invariant (p : CompanionProtocol) (h : history) : Prop := {
  queue_registered :
    forall k q, In (k, q) (queues p) ->
      In (q, k) (requests h) \/ (In q (auths h) /\ k <= 34);
  queue_keys : NoDup (map fst (queues p));
  queue_promises : NoDup (map snd (queues p));
  request_xids : forall q k, In (q, k) (requests h) -> 34 < k < xid p;
  xids_distinct : NoDup (map snd (requests h));
  promises_distinct : NoDup (map fst (requests h) ++ auths h);
  promises_created :
    forall q, In q (map fst (requests h) ++ auths h) -> (q < promises p)%nat;
  resolved_once : NoDup (resolved (effects h));
  resolved_left :
    forall q, In q (resolved (effects h)) ->
      In q (map fst (requests h) ++ auths h) /\ ~ In q (map snd (queues p));
  resolved_answered :
    forall q data, In (resolve q data) (effects h) ->
      In q (auths h) \/ exists x, In (q, x) (requests h) /\ answers data x
}.

End Runs.

End Protocol.

(** ** Pairing (src/protocol/pairing.ts) *)

Module Pairing.

Import Opack Protocol.

Definition PAIRING_DATA_KEY : string := "_pd".

(** [!v] is [negb (truthy v)]. *)
Definition truthy (v : value) : bool :=
  match v with
  | VUndefined | VNull => false
  | VBool b => b
  | VInt n => negb (n =? 0)
  | VFloat bits =>
      match number_of_binary64 bits with
      | VInt n => negb (n =? 0)
      | VFloat b => negb (b =? 0x7ff8000000000000)
      | _ => true
      end
  | VString s => negb (String.eqb s "")
  | _ => true
  end.

(** [typeof v], for the values that [unpack] builds. *)
Definition js_typeof (v : value) : string :=
  match v with
  | VUndefined => "undefined"
  | VBool _ => "boolean"
  | VInt _ | VFloat _ => "number"
  | VString _ => "string"
  | _ => "object"
  end.

(** [getPairingData]; the byte strings that [unpack] builds are
    [Buffer]s. *)
Definition getPairingData (message : value) : outcome Tlv8.TlvData :=
  let pairingData := property message PAIRING_DATA_KEY in
  if negb (truthy pairingData) then
    Throw (AuthenticationError "No pairing data in message")
  else
    match pairingData with
    | VBytes pd =>
        let* tlv := Tlv8.readTlv pd in
        match Tlv8.get tlv (Tlv8.TlvValue_value Tlv8.Error_) with
        | Some code =>
            Throw (AuthenticationError (append "Authentication error: " (hex code)))
        | None => Return tlv
        end
    | _ =>
        Throw (AuthenticationError
                 (append "Pairing data has unexpected type: " (js_typeof pairingData)))
    end.

End Pairing.

(** ** A stand-in for the cryptographic library

    [Toy.crypto] has the types of the primitives and none of their
    security; it serves to run the model on concrete inputs.  Sealing
    appends sixteen zero bytes, opening checks and removes them, a
    signature is the key followed by the message, and the public key of a
    key is the key itself. *)

Module Toy.

Definition tag16 : Buffer := repeat 0 16.

Definition seal (key nonce : Buffer) (aad : option Buffer) (data : Buffer)
  : outcome Buffer :=
  Return (data ++ tag16).

Definition open (key nonce : Buffer) (aad : option Buffer) (data : Buffer)
  : outcome Buffer :=
  let n := (length data - 16)%nat in
  if Buffer_equals (skipn n data) tag16 then Return (firstn n data)
  else Throw (Error "invalid tag").

Definition crypto : Crypto :=
  {| chacha20poly1305_encrypt := seal;
     chacha20poly1305_decrypt := open;
     ed25519_sign := fun message privateKey => Return (privateKey ++ message);
     ed25519_verify := fun signature message publicKey =>
                         Return (Buffer_equals signature (publicKey ++ message));
     x25519_getSharedSecret := fun privateKey publicKey =>
                                 Return (privateKey ++ publicKey);
     hkdf_sha512 := fun ikm salt info => firstn 32 (ikm ++ salt ++ info ++ repeat 0 32) |}.





End Toy.

(** ** Concrete inputs

    The values at which the model is run in the theorems below. *)

Module Examples.

Import Chacha20 Connection Opack Srp.

(** A connected transport with keys installed. *)
Definition keyed_connection : CompanionConnection :=
  enableEncryption {| socket := Some []; buffer := []; chacha := None |}
    (repeat 0x6b 32) (repeat 0x6c 32).


(** [[["ab"], "cd", "cd"]] *)
Definition nested_array : value :=
  VArray [VArray [VString "ab"]; VString "cd"; VString "cd"].

Definition nested_array_packed : Buffer :=
  [0xd3; 0xd1; 0x42; 0x61; 0x62; 0x42; 0x63; 0x64; 0xa2].

(** What [unpack] makes of it. *)
Definition nested_array_unpacked : value :=
  VArray [VArray [VString "ab"]; VString "cd"; VUndefined].


(** A paired device and a client, for the stand-in library. *)
Definition device_id : Buffer := [0x41; 0x54; 0x56].
Definition device_ltpk : Buffer := [0x07; 0x07].
Definition device_eph_pub : Buffer := [0x09].
Definition client_eph : KeyPair := {| privateKey := [0x05]; publicKey := [0x05] |}.
Definition client_signing : KeyPair := {| privateKey := [0x03]; publicKey := [0x03] |}.

Definition credentials : HapCredentials :=
  {| ltpk := device_ltpk; ltsk := [0x03]; atvId := device_id;
     clientId := pairingId (new_SRPAuthHandler (repeat 0 16)) |}.

Definition verifying_handler : SRPAuthHandler :=
  fst (initialize (new_SRPAuthHandler (repeat 0 16)) client_signing client_eph).

(** The device's signature over [device_eph_pub || device_id || client_eph_pub]. *)
Definition device_signature : Buffer :=
  device_ltpk ++ device_eph_pub ++ device_id ++ publicKey client_eph.

Definition device_response (signature : Buffer) : Buffer :=
  Tlv8.writeTlv [(0x01, device_id); (0x0a, signature)] ++ Toy.tag16.





(** A handler after [step3], and the device's M6 payload. *)
Definition pairing_handler : SRPAuthHandler :=
  fst (@step3 Toy.crypto
         (set_srpSession
            (fst (initialize (new_SRPAuthHandler (repeat 0 16)) client_signing client_eph))
            {| key := [0x0b]; proof := [0x0c] |})
         None None).

Definition device_m6 : Buffer :=
  Tlv8.writeTlv [(0x01, device_id); (0x03, device_ltpk)] ++ Toy.tag16.

(** A handler before [step3], and the message that [step3] makes of it. *)
Definition pairing_start : SRPAuthHandler :=
  set_srpSession
    (fst (initialize (new_SRPAuthHandler (repeat 0 16)) client_signing client_eph))
    {| key := [0x0b]; proof := [0x0c] |}.

Definition pairing_m5 : Buffer :=
  match snd (@step3 Toy.crypto pairing_start None None) with
  | Return sealed => sealed
  | _ => []
  end.

(** The handler after [verify1] on the device's response, and the message
    that [verify1] returns. *)
Definition verified_handler : SRPAuthHandler :=
  fst (@verify1 Toy.crypto verifying_handler credentials device_eph_pub
         (device_response device_signature)).

Definition client_m3 : Buffer :=
  match snd (@verify1 Toy.crypto verifying_handler credentials device_eph_pub
               (device_response device_signature)) with
  | Return sealed => sealed
  | _ => []
  end.


(** The two ends of a connection with keys: a client with an empty queue,
    and the connection of the device. *)
Definition client : Protocol.CompanionProtocol :=
  {| Protocol.connection :=
       enableEncryption {| socket := Some []; buffer := []; chacha := None |}
         (repeat 0x6c 32) (repeat 0x6b 32);
     Protocol.xid := 1234; Protocol.queues := []; Protocol.isStarted := true;
     Protocol.promises := 0 |}.

Definition device : CompanionConnection := keyed_connection.

(** The bytes that [connection.send(frameType, pack(message))] gives to
    the socket. *)
Definition sent_bytes `{Crypto} (conn : CompanionConnection) (frameType : FrameType)
  (message : value) : Buffer :=
  match socket (fst (Protocol.send_packed conn frameType message)) with
  | Some written => last written []
  | None => []
  end.

(** An event, a request, a response to it and an answer of the pair
    verification. *)
Definition volume_event : list (string * value) :=
  [("_i"%string, VString "_iMC"); ("_t"%string, VInt 1);
   ("_c"%string, VDict [("_mcF"%string, VInt 300)]); ("_x"%string, VInt 77)].

Definition launch_command : list (string * value) :=
  [("_i"%string, VString "_launchApp"); ("_t"%string, VInt 2);
   ("_c"%string, VDict [("_bundleID"%string, VString "com.apple.TVMusic")])].

Definition launch_response : list (string * value) :=
  [("_c"%string, VDict []); ("_t"%string, VInt 3); ("_x"%string, VInt 1234)].


Definition inherited_response : list (string * value) :=
  [("__proto__"%string, VDict [("_t"%string, VInt 3); ("_x"%string, VInt 1234)])].

Definition rejected_frame : Buffer := [8; 0; 0; 2; 0x41; 0x42].



End Examples.

(** * Facts about buffers *)

Lemma buffer_length_app (a b : Buffer) :
  buffer_length (a ++ b) = buffer_length a + buffer_length b.
Proof. unfold buffer_length. rewrite length_app. lia. Qed.

Lemma buffer_length_nonneg (b : Buffer) : 0 <= buffer_length b.
Proof. unfold buffer_length. lia. Qed.

Lemma byte_at_app_r (pre suf : Buffer) (i : Z) :
  0 <= i -> byte_at (pre ++ suf) (buffer_length pre + i) = byte_at suf i.
Proof.
  intros Hi. unfold byte_at, buffer_length.
  destruct (Z.ltb_spec (Z.of_nat (length pre) + i) 0); [lia|].
  destruct (Z.ltb_spec i 0); [lia|].
  replace (Z.to_nat (Z.of_nat (length pre) + i)) with (length pre + Z.to_nat i)%nat by lia.
  rewrite nth_error_app2 by lia. f_equal. lia.
Qed.

Lemma skipn_app_r {A : Type} (pre suf : list A) (n : nat) :
  skipn (length pre + n) (pre ++ suf) = skipn n suf.
Proof.
  rewrite skipn_app. rewrite skipn_all2 by lia.
  simpl. f_equal. lia.
Qed.

Lemma subarray_app_r (pre suf : Buffer) (a b : Z) :
  0 <= a ->
  subarray (pre ++ suf) (buffer_length pre + a) (buffer_length pre + b) = subarray suf a b.
Proof.
  intros Ha. unfold subarray, buffer_length.
  replace (Z.to_nat (Z.of_nat (length pre) + a)) with (length pre + Z.to_nat a)%nat by lia.
  rewrite skipn_app_r. f_equal. lia.
Qed.

Lemma subarray_exact (value rest : Buffer) :
  subarray (value ++ rest) 0 (buffer_length value) = value.
Proof.
  unfold subarray, buffer_length. cbn [Z.to_nat skipn Z.max Z.compare].
  replace (Z.to_nat (Z.of_nat (length value) - 0)) with (length value + 0)%nat by lia.
  rewrite firstn_app_2. simpl. apply app_nil_r.
Qed.

Lemma subarray_all (value : Buffer) (n : Z) :
  buffer_length value <= n -> subarray value 0 n = value.
Proof.
  intros. unfold subarray, buffer_length in *. cbn [Z.to_nat skipn Z.max Z.compare].
  apply firstn_all2. lia.
Qed.

Lemma subarray_from_split (v : Buffer) (pos n : Z) :
  0 <= pos -> 0 <= n ->
  subarray v pos (pos + n) ++ subarray_from v (pos + n) = subarray_from v pos.
Proof.
  intros Hp Hn. unfold subarray, subarray_from.
  replace (Z.to_nat (pos + n - Z.max 0 pos)) with (Z.to_nat n) by lia.
  replace (Z.to_nat (pos + n)) with (Z.to_nat n + Z.to_nat pos)%nat by lia.
  rewrite <- skipn_skipn. apply firstn_skipn.
Qed.

Lemma subarray_length (v : Buffer) (pos n : Z) :
  0 <= pos -> 0 <= n -> pos + n <= buffer_length v ->
  buffer_length (subarray v pos (pos + n)) = n.
Proof.
  intros Hp Hn Hle. unfold subarray, buffer_length in *.
  rewrite length_firstn, length_skipn. lia.
Qed.

Lemma subarray_to_end (v : Buffer) (pos n : Z) :
  0 <= pos -> buffer_length v <= pos + n ->
  subarray v pos (pos + n) = subarray_from v pos.
Proof.
  intros Hp Hle. unfold subarray, subarray_from, buffer_length in *.
  apply firstn_all2. rewrite length_skipn. lia.
Qed.

Lemma byte_at_0 (x : Z) (l : Buffer) : byte_at (x :: l) 0 = Some x.
Proof. reflexivity. Qed.

Lemma byte_at_1 (x y : Z) (l : Buffer) : byte_at (x :: y :: l) 1 = Some y.
Proof. reflexivity. Qed.

Lemma subarray_skip2 (x y : Z) (l : Buffer) (n : Z) :
  subarray (x :: y :: l) 2 (2 + n) = subarray l 0 n.
Proof.
  change (x :: y :: l) with ([x; y] ++ l).
  change 2 with (buffer_length [x; y]).
  replace (buffer_length [x; y]) with (buffer_length [x; y] + 0) at 1 by lia.
  apply subarray_app_r. lia.
Qed.

Lemma le_value_le_bytes (n : nat) : forall v,
  le_value (le_bytes n v) = v mod 2 ^ (8 * Z.of_nat n).
Proof.
  induction n as [|n IH]; intros v.
  - simpl. now rewrite Z.mod_1_r.
  - cbn [le_bytes le_value]. rewrite IH.
    replace (8 * Z.of_nat (S n)) with (8 + 8 * Z.of_nat n) by lia.
    rewrite Z.pow_add_r by lia. change (2 ^ 8) with 256.
    rewrite Z.rem_mul_r by lia. reflexivity.
Qed.

Lemma be_value_be_bytes (n : nat) (v : Z) :
  0 <= v < 2 ^ (8 * Z.of_nat n) -> be_value (be_bytes n v) = v.
Proof.
  intros Hv. unfold be_value, be_bytes. rewrite rev_involutive, le_value_le_bytes.
  now apply Z.mod_small.
Qed.

Lemma length_le_bytes (n : nat) : forall v, length (le_bytes n v) = n.
Proof. induction n; intros v; simpl; auto. Qed.

Lemma length_be_bytes (n : nat) (v : Z) : length (be_bytes n v) = n.
Proof. unfold be_bytes. now rewrite length_rev, length_le_bytes. Qed.

Lemma subarray_tail3 (x : Z) (l : Buffer) :
  length l = 3%nat -> subarray (x :: l) 1 4 = l.
Proof.
  destruct l as [|a [|b [|c [|d l]]]]; try discriminate. reflexivity.
Qed.


Lemma length_Buffer_from_string (s : string) :
  buffer_length (Buffer_from_string s) = Z.of_nat (String.length s).
Proof.
  unfold buffer_length, Buffer_from_string. rewrite length_map. f_equal.
  induction s; simpl; auto.
Qed.

Lemma Buffer_equals_eq (a b : Buffer) : Buffer_equals a b = true -> a = b.
Proof. unfold Buffer_equals. destruct (list_eq_dec Z.eq_dec a b); [auto|discriminate]. Qed.

Lemma is_bytes_skipn (b : Buffer) (n : nat) : is_bytes b -> is_bytes (skipn n b).
Proof.
  unfold is_bytes. revert b. induction n; intros b Hb; simpl; [exact Hb|].
  destruct b; [constructor|]. inversion Hb; auto.
Qed.

Lemma is_bytes_firstn (b : Buffer) (n : nat) : is_bytes b -> is_bytes (firstn n b).
Proof.
  unfold is_bytes. revert b. induction n; intros b Hb; simpl; [constructor|].
  destruct b; [constructor|]. inversion Hb; subst. constructor; auto.
Qed.

Lemma is_bytes_subarray (b : Buffer) (i j : Z) : is_bytes b -> is_bytes (subarray b i j).
Proof. intros Hb. unfold subarray. now apply is_bytes_firstn, is_bytes_skipn. Qed.

Lemma le_value_nonneg (b : Buffer) : is_bytes b -> 0 <= le_value b.
Proof.
  induction 1 as [|x b Hx Hb IH]; cbn [le_value]; lia.
Qed.

Lemma Buffer_toString_from_string (s : string) :
  Buffer_toString (Buffer_from_string s) = s.
Proof.
  unfold Buffer_toString, Buffer_from_string. rewrite map_map.
  induction s as [|c s IH]; cbn [list_ascii_of_string map string_of_list_ascii].
  - reflexivity.
  - rewrite IH. f_equal.
    assert (Hc : (N_of_ascii c < 256)%N) by apply N_ascii_bounded.
    rewrite Z.mod_small by lia. rewrite N2Z.id. apply ascii_N_embedding.
Qed.

Lemma length_le_bytes' (n : nat) (v : Z) : buffer_length (le_bytes n v) = Z.of_nat n.
Proof. unfold buffer_length. now rewrite length_le_bytes. Qed.

Lemma subarray_from_all (b : Buffer) (k : Z) :
  buffer_length b <= k -> subarray_from b k = [].
Proof.
  intros Hk. unfold subarray_from, buffer_length in *. apply skipn_all2. lia.
Qed.

Lemma subarray_cons (x : Z) (b : Buffer) (i j : Z) :
  0 <= i -> subarray (x :: b) (1 + i) (1 + j) = subarray b i j.
Proof.
  intros Hi. unfold subarray.
  replace (Z.to_nat (1 + i)) with (S (Z.to_nat i)) by lia. cbn [skipn].
  f_equal. lia.
Qed.

Lemma subarray_from_cons (x : Z) (b : Buffer) (i : Z) :
  0 <= i -> subarray_from (x :: b) (1 + i) = subarray_from b i.
Proof.
  intros Hi. unfold subarray_from.
  replace (Z.to_nat (1 + i)) with (S (Z.to_nat i)) by lia. reflexivity.
Qed.

Lemma subarray_app_l (a b : Buffer) :
  subarray (a ++ b) 0 (buffer_length a) = a.
Proof. apply subarray_exact. Qed.

Lemma subarray_from_app (a b : Buffer) :
  subarray_from (a ++ b) (buffer_length a) = b.
Proof.
  unfold subarray_from, buffer_length. rewrite Nat2Z.id.
  rewrite skipn_app, skipn_all, Nat.sub_diag. reflexivity.
Qed.

Lemma Buffer_equals_refl (b : Buffer) : Buffer_equals b b = true.
Proof. unfold Buffer_equals. destruct (list_eq_dec Z.eq_dec b b); congruence. Qed.

Lemma app_same_length {A : Type} (a a' b b' : list A) :
  length a = length a' -> a ++ b = a' ++ b' -> a = a' /\ b = b'.
Proof.
  revert a'. induction a as [|x a IH]; intros [|x' a'] Hl He; try discriminate.
  - split; [reflexivity|exact He].
  - simpl in He. injection He as -> He. injection Hl as Hl.
    destruct (IH _ Hl He) as [-> ->]. split; reflexivity.
Qed.

Lemma Return_inj {A : Type} (a b : A) : Return a = Return b -> a = b.
Proof. intros E. now injection E. Qed.

Lemma le_bytes_inj (n : nat) (v w : Z) :
  0 <= v < 2 ^ (8 * Z.of_nat n) -> 0 <= w < 2 ^ (8 * Z.of_nat n) ->
  le_bytes n v = le_bytes n w -> v = w.
Proof.
  intros Hv Hw He.
  rewrite <- (Z.mod_small v (2 ^ (8 * Z.of_nat n))) by assumption.
  rewrite <- (Z.mod_small w (2 ^ (8 * Z.of_nat n))) by assumption.
  rewrite <- !le_value_le_bytes. now rewrite He.
Qed.

(** Facts about the stand-in library *)

Lemma Toy_open_seal (key nonce : Buffer) (aad : option Buffer) (data : Buffer) :
  Toy.open key nonce aad (data ++ Toy.tag16) = Return data.
Proof.
  unfold Toy.open. rewrite length_app.
  replace (length data + length Toy.tag16 - 16)%nat with (length data + 0)%nat
    by (unfold Toy.tag16; rewrite repeat_length; lia).
  rewrite skipn_app_r, firstn_app_2. cbn [skipn firstn].
  rewrite app_nil_r, Buffer_equals_refl. reflexivity.
Qed.

Lemma Toy_aead_opens : @aead_opens Toy.crypto.
Proof.
  intros key nonce aad data sealed Hs. cbn in Hs. unfold Toy.seal in Hs.
  apply Return_inj in Hs. subst sealed. apply Toy_open_seal.
Qed.

Lemma Toy_aead_appends_tag : @aead_appends_tag Toy.crypto.
Proof.
  intros key nonce aad data sealed Hs. cbn in Hs. unfold Toy.seal in Hs.
  apply Return_inj in Hs. subst sealed. rewrite buffer_length_app. reflexivity.
Qed.

Lemma Toy_aead_returns : @aead_returns Toy.crypto.
Proof.
  intros key nonce aad data. cbn. unfold Toy.open.
  destruct (Buffer_equals _ _); discriminate.
Qed.

Lemma subarray_within (a b : Buffer) (i j : Z) :
  j <= buffer_length a -> subarray (a ++ b) i j = subarray a i j.
Proof.
  intros Hj. unfold subarray, buffer_length in *.
  rewrite skipn_app, firstn_app.
  replace (firstn (Z.to_nat (j - Z.max 0 i) - length (skipn (Z.to_nat i) a))
             (skipn (Z.to_nat i - length a) b)) with (@nil Z).
  - apply app_nil_r.
  - symmetry. replace (Z.to_nat (j - Z.max 0 i) - length (skipn (Z.to_nat i) a))%nat
      with 0%nat; [reflexivity|]. rewrite length_skipn. lia.
Qed.

Lemma subarray_from_within (a b : Buffer) (k : Z) :
  k <= buffer_length a -> subarray_from (a ++ b) k = subarray_from a k ++ b.
Proof.
  intros Hk. unfold subarray_from, buffer_length in *. rewrite skipn_app.
  replace (Z.to_nat k - length a)%nat with 0%nat by lia. reflexivity.
Qed.

Lemma be_value_nonneg (b : Buffer) : is_bytes b -> 0 <= be_value b.
Proof.
  intros Hb. unfold be_value. apply le_value_nonneg.
  unfold is_bytes in *. apply Forall_rev. exact Hb.
Qed.

Lemma is_bytes_app (a b : Buffer) : is_bytes a -> is_bytes b -> is_bytes (a ++ b).
Proof. unfold is_bytes. intros. apply Forall_app. now split. Qed.

Lemma is_bytes_subarray_from (b : Buffer) (k : Z) : is_bytes b -> is_bytes (subarray_from b k).
Proof. intros Hb. unfold subarray_from. now apply is_bytes_skipn. Qed.

Lemma length_subarray_from (b : Buffer) (k : Z) :
  0 <= k <= buffer_length b -> buffer_length (subarray_from b k) = buffer_length b - k.
Proof.
  intros Hk. unfold subarray_from, buffer_length in *. rewrite length_skipn. lia.
Qed.

(** Lists. *)
Lemma NoDup_map_filter {A B : Type} (f : A -> B) (keep : A -> bool) (l : list A) :
  NoDup (map f l) -> NoDup (map f (filter keep l)).
Proof.
  induction l as [|a l IH]; cbn [map filter]; intros Hnd; [constructor|].
  inversion Hnd as [|? ? Hnotin Hrest]; subst.
  destruct (keep a); cbn [map]; [|auto].
  constructor; [|auto]. intros Hin. apply Hnotin.
  apply in_map_iff in Hin. destruct Hin as (x & <- & Hx).
  apply filter_In in Hx. apply in_map. tauto.
Qed.

Lemma filter_all {A : Type} (l : list A) : l = filter (fun _ => true) l.
Proof. induction l as [|a l IH]; cbn [filter]; congruence. Qed.

Lemma filter_none {A : Type} (l : list A) : [] = filter (fun _ => false) l.
Proof. induction l as [|a l IH]; cbn [filter]; congruence. Qed.

(** * TLV8 *)

Module Tlv8Facts.
Import Tlv8.

Lemma get_set_same (m : TlvData) (tag : Z) (v : Buffer) :
  get (set m tag v) tag = Some v.
Proof.
  induction m as [|[k x] m IH]; simpl.
  - rewrite Z.eqb_refl. reflexivity.
  - destruct (Z.eqb_spec k tag) as [->|Hne]; simpl.
    + rewrite Z.eqb_refl. reflexivity.
    + destruct (Z.eqb_spec k tag); [contradiction|]. exact IH.
Qed.

Lemma set_set (m : TlvData) (tag : Z) (a b : Buffer) :
  set (set m tag a) tag b = set m tag b.
Proof.
  induction m as [|[k x] m IH]; simpl.
  - rewrite Z.eqb_refl. reflexivity.
  - destruct (Z.eqb_spec k tag) as [->|Hne]; simpl.
    + rewrite Z.eqb_refl. reflexivity.
    + destruct (Z.eqb_spec k tag); [contradiction|]. now rewrite IH.
Qed.

Lemma set_fresh (m : TlvData) (tag : Z) (v : Buffer) :
  get m tag = None -> set m tag v = m ++ [(tag, v)].
Proof.
  induction m as [|[k x] m IH]; simpl; intros Hget.
  - reflexivity.
  - destruct (Z.eqb_spec k tag); [discriminate|]. now rewrite IH.
Qed.

Lemma get_app_fresh (m : TlvData) (k tag : Z) (v : Buffer) :
  k <> tag -> get m tag = None -> get (m ++ [(k, v)]) tag = None.
Proof.
  intros Hne. induction m as [|[k' x] m IH]; simpl; intros Hget.
  - destruct (Z.eqb_spec k tag); [contradiction|reflexivity].
  - destruct (Z.eqb_spec k' tag); [discriminate|]. auto.
Qed.

Lemma store_fresh (m : TlvData) (tag : Z) (v : Buffer) :
  get m tag = None -> store m tag v = m ++ [(tag, v)].
Proof. intros Hget. unfold store. rewrite Hget. now apply set_fresh. Qed.

Lemma store_store (m : TlvData) (tag : Z) (a b : Buffer) :
  store (store m tag a) tag b = store m tag (a ++ b).
Proof.
  unfold store at 2 3. destruct (get m tag) as [existing|] eqn:Hget.
  - unfold store. rewrite get_set_same, set_set. unfold Buffer_concat. simpl.
    now rewrite !app_nil_r, app_assoc.
  - unfold store. rewrite get_set_same, set_set. unfold Buffer_concat. simpl.
    now rewrite app_nil_r.
Qed.

Lemma parses_app a b r r1 r2 k1 k2 :
  parses a r r1 k1 -> parses b r1 r2 k2 -> parses (a ++ b) r r2 (k1 + k2).
Proof.
  intros Ha. revert b r2 k2. induction Ha; intros b r2 k2 Hb; simpl.
  - exact Hb.
  - rewrite <- app_assoc. apply parses_triple; auto.
Qed.

Lemma parses_count body r r' k : parses body r r' k -> (2 * k <= length body)%nat.
Proof.
  induction 1; simpl; [lia|]. rewrite length_app. lia.
Qed.

Lemma complete_parses body :
  complete body -> forall r, exists r' k, parses body r r' k.
Proof.
  induction 1 as [|tag len value rest Hlen Hval Hrest IH]; intros r.
  - exists r, 0%nat. constructor.
  - destruct (IH (store r tag value)) as (r' & k & Hp).
    exists r', (S k). now apply parses_triple.
Qed.

Lemma parses_complete body r r' k : parses body r r' k -> complete body.
Proof. induction 1; constructor; auto. Qed.

Lemma readTlv_loop_S fuel data pos r :
  readTlv_loop (S fuel) data pos r =
  if pos <? buffer_length data then
    match byte_at data pos with
    | None => r
    | Some tag =>
        match byte_at data (pos + 1) with
        | None => store r tag []
        | Some len =>
            readTlv_loop fuel data (pos + 2 + len)
              (store r tag (subarray data (pos + 2) (pos + 2 + len)))
        end
    end
  else r.
Proof. reflexivity. Qed.

(** One turn of the loop on a complete triple. *)
Lemma readTlv_loop_triple fuel pre tag len value rest r :
  0 <= len -> buffer_length value = len ->
  readTlv_loop (S fuel) (pre ++ tag :: len :: value ++ rest) (buffer_length pre) r
  = readTlv_loop fuel (pre ++ tag :: len :: value ++ rest)
      (buffer_length pre + 2 + len) (store r tag value).
Proof.
  intros Hlen Hval. rewrite readTlv_loop_S.
  pose proof (buffer_length_nonneg pre) as Hpre.
  rewrite buffer_length_app.
  assert (Hl : 2 <= buffer_length (tag :: len :: value ++ rest)).
  { unfold buffer_length. simpl. lia. }
  destruct (Z.ltb_spec (buffer_length pre)
              (buffer_length pre + buffer_length (tag :: len :: value ++ rest))); [|lia].
  replace (byte_at (pre ++ tag :: len :: value ++ rest) (buffer_length pre))
    with (byte_at (pre ++ tag :: len :: value ++ rest) (buffer_length pre + 0))
    by (f_equal; lia).
  rewrite !byte_at_app_r by lia. rewrite byte_at_0, byte_at_1.
  replace (buffer_length pre + 2 + len) with (buffer_length pre + (2 + len)) by lia.
  rewrite subarray_app_r by lia.
  rewrite subarray_skip2, <- Hval, subarray_exact. reflexivity.
Qed.

Lemma readTlv_loop_parses body r r' k :
  parses body r r' k ->
  forall n pre suf,
    readTlv_loop (k + n) (pre ++ body ++ suf) (buffer_length pre) r
    = readTlv_loop n (pre ++ body ++ suf) (buffer_length pre + buffer_length body) r'.
Proof.
  induction 1 as [r|tag len value rest r r' k Hlen Hval Hp IH]; intros n pre suf.
  - replace (buffer_length pre + buffer_length []) with (buffer_length pre)
      by (unfold buffer_length; simpl; lia).
    reflexivity.
  - cbn [Nat.add]. cbn [app]. rewrite <- app_assoc.
    rewrite readTlv_loop_triple by assumption.
    specialize (IH n (pre ++ tag :: len :: value) suf).
    replace ((pre ++ tag :: len :: value) ++ rest ++ suf)
      with (pre ++ tag :: len :: value ++ rest ++ suf) in IH
      by (rewrite <- app_assoc; reflexivity).
    replace (buffer_length (pre ++ tag :: len :: value))
      with (buffer_length pre + 2 + len) in IH
      by (rewrite buffer_length_app; unfold buffer_length in *; simpl; lia).
    rewrite IH. f_equal.
    unfold buffer_length in *. simpl.
    rewrite length_app. lia.
Qed.

Lemma readTlv_loop_end fuel data pos r :
  buffer_length data <= pos -> readTlv_loop fuel data pos r = r.
Proof.
  intros Hle. destruct fuel; simpl; [reflexivity|].
  destruct (Z.ltb_spec pos (buffer_length data)); [lia|reflexivity].
Qed.

Lemma readTlv_parses body r' k :
  parses body [] r' k -> readTlv body = Return r'.
Proof.
  intros Hp. unfold readTlv. f_equal.
  pose proof (parses_count _ _ _ _ Hp) as Hk.
  pose proof (readTlv_loop_parses _ _ _ _ Hp (length body - k)%nat [] []) as Hloop.
  simpl in Hloop. rewrite app_nil_r in Hloop.
  replace (k + (length body - k))%nat with (length body) in Hloop by lia.
  change (buffer_length []) with 0 in Hloop.
  rewrite Hloop. apply readTlv_loop_end. lia.
Qed.


Lemma writeTlv_chunks_S fuel tag valueBuffer pos remaining :
  writeTlv_chunks (S fuel) tag valueBuffer pos remaining =
  if (0 <? remaining) || (pos =? 0) then
    let chunkSize := Z.min remaining 255 in
    let chunk := subarray valueBuffer pos (pos + chunkSize) in
    let pushed :=
      Buffer_from [tag; chunkSize] :: (if 0 <? chunkSize then [chunk] else []) in
    if buffer_length valueBuffer =? 0 then pushed
    else pushed ++
         writeTlv_chunks fuel tag valueBuffer (pos + chunkSize) (remaining - chunkSize)
  else [].
Proof. reflexivity. Qed.

Lemma writeTlv_chunks_done fuel tag valueBuffer pos :
  pos <> 0 -> writeTlv_chunks fuel tag valueBuffer pos 0 = [].
Proof.
  intros Hpos. destruct fuel; [reflexivity|]. rewrite writeTlv_chunks_S.
  destruct (Z.eqb_spec pos 0); [contradiction|]. reflexivity.
Qed.

Lemma parses_chunks fuel : forall tag v pos r,
  0 <= tag <= 255 -> 0 <= pos ->
  (0 < buffer_length v - pos \/ pos = 0 /\ buffer_length v = 0) ->
  (Z.to_nat (buffer_length v - pos) < fuel)%nat ->
  exists k,
    parses (Buffer_concat (writeTlv_chunks fuel tag v pos (buffer_length v - pos)))
      r (store r tag (subarray_from v pos)) k.
Proof.
  induction fuel as [|fuel IH]; intros tag v pos r Htag Hpos Hcond Hfuel; [lia|].
  rewrite writeTlv_chunks_S.
  set (remaining := buffer_length v - pos) in *.
  assert (Hmod : tag mod 256 = tag) by (apply Z.mod_small; lia).
  destruct (Z.eqb_spec (buffer_length v) 0) as [Hempty|Hnonempty].
  - (* the empty value: one triple of length 0 *)
    assert (pos = 0) by (unfold remaining in *; lia). subst pos.
    assert (Hrem : remaining = 0) by (unfold remaining; lia).
    rewrite Hrem. cbn -[Z.modulo]. rewrite Hmod.
    assert (v = []) by (destruct v; [reflexivity|discriminate]). subst v.
    exists 1%nat. apply (parses_triple tag 0 [] []); [lia|reflexivity|constructor].
  - assert (Hrem : 0 < remaining).
    { destruct Hcond as [?|[_ ?]]; [assumption|contradiction]. }
    destruct (Z.ltb_spec 0 remaining); [|lia]. cbn [orb].
    cbv zeta.
    set (chunkSize := Z.min remaining 255).
    assert (Hcs : 1 <= chunkSize <= 255) by (unfold chunkSize; lia).
    destruct (Z.ltb_spec 0 chunkSize); [|lia].
    set (chunk := subarray v pos (pos + chunkSize)).
    assert (Hchunk : buffer_length chunk = chunkSize).
    { apply subarray_length; unfold chunkSize, remaining in *; lia. }
    assert (Hhdr : Buffer_from [tag; chunkSize] = [tag; chunkSize]).
    { unfold Buffer_from. simpl map. rewrite Hmod.
      rewrite (Z.mod_small chunkSize) by lia. reflexivity. }
    rewrite Hhdr.
    unfold Buffer_concat. rewrite concat_app.
    change (concat [[tag; chunkSize]; chunk]) with (tag :: chunkSize :: chunk ++ []).
    rewrite app_nil_r.
    destruct (Z.eq_dec (remaining - chunkSize) 0) as [Hlast|Hmore].
    + rewrite Hlast, writeTlv_chunks_done by lia.
      cbn [concat]. rewrite app_nil_r.
      exists 1%nat.
      replace (subarray_from v pos) with chunk.
      * replace (tag :: chunkSize :: chunk) with (tag :: chunkSize :: chunk ++ [])
          by (now rewrite app_nil_r).
        apply parses_triple; [lia|assumption|constructor].
      * unfold chunk. apply subarray_to_end; unfold remaining in *; lia.
    + assert (Hc : 0 < buffer_length v - (pos + chunkSize)
                   \/ pos + chunkSize = 0 /\ buffer_length v = 0).
      { left. unfold chunkSize, remaining in *. lia. }
      assert (Hf : (Z.to_nat (buffer_length v - (pos + chunkSize)) < fuel)%nat).
      { unfold chunkSize, remaining in *. lia. }
      assert (Hp : 0 <= pos + chunkSize) by lia.
      destruct (IH tag v (pos + chunkSize) (store r tag chunk) Htag Hp Hc Hf)
        as (k & Hk).
      exists (S k).
      replace (buffer_length v - (pos + chunkSize)) with (remaining - chunkSize)
        in Hk by (unfold remaining; lia).
      rewrite store_store in Hk.
      unfold chunk in Hk at 2. rewrite subarray_from_split in Hk by lia.
      cbn [app]. apply parses_triple; [lia|assumption|].
      exact Hk.
Qed.

Lemma get_None_In (m : TlvData) (tag : Z) :
  ~ In tag (map fst m) -> get m tag = None.
Proof.
  induction m as [|[k v] m IH]; simpl; intros Hnot; [reflexivity|].
  destruct (Z.eqb_spec k tag); [tauto|]. apply IH. tauto.
Qed.

Lemma parses_writeTlv (M : TlvData) : forall r,
  well_keyed M ->
  (forall tag, In tag (map fst M) -> 0 <= tag <= 255 /\ get r tag = None) ->
  exists k, parses (writeTlv M) r (r ++ M) k.
Proof.
  induction M as [|[tag v] M IH]; intros r Hnodup Htags.
  - exists 0%nat. rewrite app_nil_r. constructor.
  - unfold writeTlv, Buffer_concat. cbn [flat_map]. rewrite concat_app.
    inversion Hnodup as [|? ? Hnotin Hnodup']; subst.
    destruct (Htags tag (or_introl eq_refl)) as [Htag Hfresh].
    destruct (parses_chunks (S (length v)) tag v 0 r) as (k1 & Hk1); try lia.
    { pose proof (buffer_length_nonneg v). lia. }
    { unfold buffer_length. lia. }
    rewrite Z.sub_0_r in Hk1.
    change (subarray_from v 0) with v in Hk1.
    rewrite store_fresh in Hk1 by assumption.
    destruct (IH (r ++ [(tag, v)]) Hnodup') as (k2 & Hk2).
    { intros t Ht. destruct (Htags t (or_intror Ht)) as [Hr Hg]. split; [exact Hr|].
      apply get_app_fresh; [|exact Hg]. intros ->. contradiction. }
    exists (k1 + k2)%nat. rewrite <- app_assoc in Hk2.
    exact (parses_app _ _ _ _ _ _ _ Hk1 Hk2).
Qed.

(** C3.  For every TLV map [M] whose tags are bytes, reading what
    [writeTlv] wrote gives [M] back, entry for entry and in the same order:
    a value of more than 255 bytes is written as consecutive chunks of its
    tag and put together again by the reader.  No bound on the size of [M]
    is needed. *)
Theorem readTlv_writeTlv (M : Tlv8.TlvData) :
  Tlv8.well_keyed M ->
  (forall tag, In tag (map fst M) -> 0 <= tag <= 255) ->
  Tlv8.readTlv (Tlv8.writeTlv M) = Return M.
Proof.
  intros Hkeys Htags.
  destruct (parses_writeTlv M [] Hkeys) as (k & Hk).
  - intros tag Hin. split; [auto|reflexivity].
  - exact (readTlv_parses _ _ _ Hk).
Qed.

Lemma readTlv_writeTlv_witness :
  Tlv8.readTlv
    (Tlv8.writeTlv [(0x0a, [0x31; 0x32; 0x33]); (0x02, repeat 0x31 256); (0x06, [])])
  = Return [(0x0a, [0x31; 0x32; 0x33]); (0x02, repeat 0x31 256); (0x06, [])].
Proof.
  apply (readTlv_writeTlv
           [(0x0a, [0x31; 0x32; 0x33]); (0x02, repeat 0x31 256); (0x06, [])]).
  - unfold Tlv8.well_keyed. cbn [map fst].
    repeat constructor; cbn [In]; intros Hin;
      repeat (destruct Hin as [Hin|Hin]; [discriminate|]); exact Hin.
  - cbn [map fst In]. intros tag Hin.
    repeat (destruct Hin as [<-|Hin]; [lia|]). destruct Hin.
Defined.

(** The scenarios of tests/support/tlv8.test.ts. *)
Example writeTlv_single_key :
  Tlv8.writeTlv [(10, [0x31; 0x32; 0x33])] = [0x0a; 0x03; 0x31; 0x32; 0x33].
Proof. reflexivity. Qed.

Example writeTlv_large_key :
  Tlv8.writeTlv [(2, repeat 0x31 256)]
  = [0x02; 0xff] ++ repeat 0x31 255 ++ [0x02; 0x01; 0x31].
Proof. vm_compute. reflexivity. Qed.

Example readTlv_large_key :
  Tlv8.readTlv ([0x02; 0xff] ++ repeat 0x31 255 ++ [0x02; 0x01; 0x31])
  = Return [(2, repeat 0x31 256)].
Proof. vm_compute. reflexivity. Qed.


Lemma byte_at_Some_In (data : Buffer) (i x : Z) : byte_at data i = Some x -> In x data.
Proof.
  unfold byte_at. destruct (i <? 0); [discriminate|]. apply nth_error_In.
Qed.

(** The fuel given by [readTlv] is never used up: on a buffer of bytes the
    loop gives the same map for every fuel that covers the bytes left. *)
Lemma readTlv_loop_fuel f1 : forall f2 data pos r,
  Forall (fun x => 0 <= x) data ->
  (Z.to_nat (buffer_length data - pos) <= f1)%nat ->
  (Z.to_nat (buffer_length data - pos) <= f2)%nat ->
  readTlv_loop f1 data pos r = readTlv_loop f2 data pos r.
Proof.
  induction f1 as [|f1 IH]; intros f2 data pos r Hbytes H1 H2.
  - rewrite (readTlv_loop_end f2) by lia. reflexivity.
  - destruct f2 as [|f2].
    + rewrite (readTlv_loop_end (S f1)) by lia. reflexivity.
    + rewrite !readTlv_loop_S.
      destruct (Z.ltb_spec pos (buffer_length data)); [|reflexivity].
      destruct (byte_at data pos) as [tag|]; [|reflexivity].
      destruct (byte_at data (pos + 1)) as [len|] eqn:Hlen; [|reflexivity].
      assert (0 <= len).
      { apply byte_at_Some_In in Hlen.
        rewrite Forall_forall in Hbytes. now apply Hbytes. }
      apply IH; [assumption|lia|lia].
Qed.

Lemma complete_readTlv pre :
  complete pre -> exists m k, parses pre [] m k /\ readTlv pre = Return m.
Proof.
  intros Hc. destruct (complete_parses pre Hc []) as (m & k & Hp).
  exists m, k. split; [exact Hp|]. exact (readTlv_parses _ _ _ Hp).
Qed.

Lemma readTlv_after_complete pre suf m k :
  parses pre [] m k ->
  (0 < length suf)%nat ->
  readTlv (pre ++ suf)
  = Return (readTlv_loop (S (length pre + length suf - S k)) (pre ++ suf)
              (buffer_length pre) m).
Proof.
  intros Hp Hsuf. unfold readTlv. f_equal.
  pose proof (parses_count _ _ _ _ Hp) as Hk.
  pose proof (readTlv_loop_parses _ _ _ _ Hp
                (S (length pre + length suf - S k)) [] suf) as Hloop.
  cbn [app] in Hloop. change (buffer_length []) with 0 in Hloop.
  rewrite Z.add_0_l in Hloop. rewrite <- Hloop. f_equal.
  rewrite length_app. lia.
Qed.

(** C8, as amended.  On a buffer whose last triple is truncated [readTlv]
    does not fail.  It returns the map of the complete triples before it, in
    which the tag of the truncated triple receives the value bytes that are
    present: none when only the tag byte is left, the bytes that remain
    when the announced length is longer than the rest of the buffer. *)
Theorem readTlv_truncated (data : Buffer) :
  Tlv8.truncated data ->
  exists pre tag value m,
    Tlv8.complete pre /\
    Tlv8.readTlv pre = Return m /\
    (data = pre ++ [tag] /\ value = []
     \/ exists len, data = pre ++ tag :: len :: value /\ buffer_length value < len) /\
    Tlv8.readTlv data = Return (Tlv8.store m tag value).
Proof.
  intros Htrunc. destruct Htrunc as [pre tag Hpre|pre tag len value Hpre Hlen].
  - destruct (complete_readTlv pre Hpre) as (m & k & Hp & Hread).
    exists pre, tag, [], m. repeat split; auto.
    rewrite (readTlv_after_complete pre [tag] m k Hp) by (simpl; lia).
    f_equal. rewrite readTlv_loop_S.
    pose proof (buffer_length_nonneg pre).
    rewrite buffer_length_app. change (buffer_length [tag]) with 1.
    destruct (Z.ltb_spec (buffer_length pre) (buffer_length pre + 1)); [|lia].
    replace (byte_at (pre ++ [tag]) (buffer_length pre))
      with (byte_at (pre ++ [tag]) (buffer_length pre + 0)) by (f_equal; lia).
    rewrite !byte_at_app_r by lia. reflexivity.
  - destruct (complete_readTlv pre Hpre) as (m & k & Hp & Hread).
    exists pre, tag, value, m. repeat split; auto.
    { right. exists len. auto. }
    rewrite (readTlv_after_complete pre (tag :: len :: value) m k Hp) by (simpl; lia).
    f_equal. rewrite readTlv_loop_S.
    pose proof (buffer_length_nonneg pre). pose proof (buffer_length_nonneg value).
    rewrite buffer_length_app.
    assert (Hl : buffer_length (tag :: len :: value) = 2 + buffer_length value).
    { unfold buffer_length. cbn [length]. lia. }
    rewrite Hl.
    destruct (Z.ltb_spec (buffer_length pre)
                (buffer_length pre + (2 + buffer_length value))); [|lia].
    replace (byte_at (pre ++ tag :: len :: value) (buffer_length pre))
      with (byte_at (pre ++ tag :: len :: value) (buffer_length pre + 0))
      by (f_equal; lia).
    rewrite !byte_at_app_r by lia. rewrite byte_at_0, byte_at_1.
    replace (buffer_length pre + 2 + len) with (buffer_length pre + (2 + len)) by lia.
    rewrite subarray_app_r by lia.
    rewrite subarray_skip2, subarray_all by lia.
    apply readTlv_loop_end. rewrite buffer_length_app, Hl. lia.
Qed.

Lemma readTlv_truncated_witness :
  exists pre tag value m,
    Tlv8.complete pre /\
    Tlv8.readTlv pre = Return m /\
    ([0x06; 0x01; 0x03; 0x0a; 0x40; 0xaa; 0xbb] = pre ++ [tag] /\ value = []
     \/ exists len, [0x06; 0x01; 0x03; 0x0a; 0x40; 0xaa; 0xbb] = pre ++ tag :: len :: value
                    /\ buffer_length value < len) /\
    Tlv8.readTlv [0x06; 0x01; 0x03; 0x0a; 0x40; 0xaa; 0xbb]
    = Return (Tlv8.store m tag value).
Proof.
  apply (readTlv_truncated [0x06; 0x01; 0x03; 0x0a; 0x40; 0xaa; 0xbb]).
  apply (Tlv8.truncated_value [0x06; 0x01; 0x03] 0x0a 0x40 [0xaa; 0xbb]).
  - apply (Tlv8.complete_triple 0x06 0x01 [0x03] []).
    + lia.
    + reflexivity.
    + constructor.
  - unfold buffer_length. simpl. lia.
Defined.

Lemma readTlv_truncated_returns :
  Tlv8.truncated [0x01] /\
  Tlv8.readTlv [0x01] = Return [(0x01, [])] /\
  Tlv8.truncated [0x01; 0x05; 0xaa] /\
  Tlv8.readTlv [0x01; 0x05; 0xaa] = Return [(0x01, [0xaa])].
Proof.
  split; [|split; [|split]].
  - apply (Tlv8.truncated_header [] 0x01). constructor.
  - reflexivity.
  - apply (Tlv8.truncated_value [] 0x01 0x05 [0xaa]); [constructor|].
    unfold buffer_length. simpl. lia.
  - reflexivity.
Qed.

Lemma get_set_other (m : TlvData) (tag k : Z) (v : Buffer) :
  k <> tag -> get (set m tag v) k = get m k.
Proof.
  intros Hne. induction m as [|[k' x] m IH]; simpl.
  - destruct (Z.eqb_spec tag k); [congruence|reflexivity].
  - destruct (Z.eqb_spec k' tag) as [->|Hne']; simpl.
    + destruct (Z.eqb_spec tag k); [congruence|reflexivity].
    + destruct (Z.eqb_spec k' k); [reflexivity|exact IH].
Qed.

Lemma get_store_same (m : TlvData) (tag : Z) (v : Buffer) :
  get (store m tag v) tag = joined (get m tag) (Some v).
Proof.
  unfold store. destruct (get m tag) as [existing|]; rewrite get_set_same.
  - unfold Buffer_concat. simpl. now rewrite app_nil_r.
  - reflexivity.
Qed.

Lemma get_store_other (m : TlvData) (tag k : Z) (v : Buffer) :
  k <> tag -> get (store m tag v) k = get m k.
Proof.
  intros Hne. unfold store. destruct (get m tag); now apply get_set_other.
Qed.

Lemma joined_assoc x y z : joined (joined x y) z = joined x (joined y z).
Proof.
  destruct x, y, z; simpl; try reflexivity. now rewrite app_assoc.
Qed.

Lemma joined_None_r x : joined x None = x.
Proof. now destruct x. Qed.

Lemma get_store (m : TlvData) (tag k : Z) (v : Buffer) :
  get (store m tag v) k = joined (get m k) (if tag =? k then Some v else None).
Proof.
  destruct (Z.eqb_spec tag k) as [->|Hne].
  - apply get_store_same.
  - rewrite get_store_other by congruence. now rewrite joined_None_r.
Qed.

(** The triples of a buffer add, tag by tag, the same bytes to every map
    the reader starts from. *)
Lemma parses_joined body r r' k :
  parses body r r' k ->
  forall s s' j, parses body s s' j ->
  forall tag, exists d, get r' tag = joined (get r tag) d /\
                        get s' tag = joined (get s tag) d.
Proof.
  induction 1 as [r|tag len value rest r r' k Hlen Hval Hp IH]; intros s s' j Hs t.
  - inversion Hs; subst. exists None. now rewrite !joined_None_r.
  - inversion Hs as [|tag0 len0 value0 rest0 s0 s0' j0 Hlen0 Hval0 Hp0]; subst.
    assert (Hv : value0 = value /\ rest0 = rest).
    { match goal with H : value0 ++ rest0 = value ++ rest |- _ =>
        apply app_same_length in H; [exact H|] end.
      unfold buffer_length in *. lia. }
    destruct Hv as [-> ->].
    destruct (IH _ _ _ Hp0 t) as (d & Hr & Hs').
    exists (joined (if tag =? t then Some value else None) d).
    rewrite Hr, Hs', !get_store, !joined_assoc. split; reflexivity.
Qed.

(** X1.  Reading two buffers of complete triples as one gives, for every
    tag, the bytes the first buffer holds for it followed by the bytes the
    second holds for it: a value that was split over several messages is
    put together by reading their concatenation. *)
Theorem readTlv_app (a b : Buffer) (m1 m2 : TlvData) :
  complete a -> complete b ->
  readTlv a = Return m1 -> readTlv b = Return m2 ->
  exists m,
    readTlv (a ++ b) = Return m /\
    forall tag, get m tag = joined (get m1 tag) (get m2 tag).
Proof.
  intros Ha Hb H1 H2.
  destruct (complete_parses a Ha []) as (r1 & k1 & Hp1).
  destruct (complete_parses b Hb r1) as (r12 & k2 & Hp12).
  destruct (complete_parses b Hb []) as (r2 & k2' & Hp2).
  rewrite (readTlv_parses _ _ _ Hp1) in H1. injection H1 as <-.
  rewrite (readTlv_parses _ _ _ Hp2) in H2. injection H2 as <-.
  exists r12. split.
  - exact (readTlv_parses _ _ _ (parses_app _ _ _ _ _ _ _ Hp1 Hp12)).
  - intros tag. destruct (parses_joined _ _ _ _ Hp12 _ _ _ Hp2 tag) as (d & H12 & Hd).
    simpl in Hd. rewrite H12, Hd. reflexivity.
Qed.

Lemma readTlv_app_witness :
  exists m,
    readTlv ([0x03; 2; 0x61; 0x62; 0x06; 1; 5] ++ [0x03; 1; 0x63]) = Return m /\
    forall tag, get m tag
                = joined (get [(0x03, [0x61; 0x62]); (0x06, [5])] tag)
                         (get [(0x03, [0x63])] tag).
Proof.
  apply (readTlv_app [0x03; 2; 0x61; 0x62; 0x06; 1; 5] [0x03; 1; 0x63]).
  - apply (complete_triple 0x03 2 [0x61; 0x62] [0x06; 1; 5]); [lia|reflexivity|].
    apply (complete_triple 0x06 1 [5] []); [lia|reflexivity|constructor].
  - apply (complete_triple 0x03 1 [0x63] []); [lia|reflexivity|constructor].
  - reflexivity.
  - reflexivity.
Defined.

Lemma get_None_keys (m : TlvData) (tag : Z) :
  get m tag = None -> ~ In tag (map fst m).
Proof.
  induction m as [|[k x] m IH]; simpl; intros Hget; [tauto|].
  destruct (Z.eqb_spec k tag); [discriminate|]. intros [Heq|Hin]; [congruence|].
  now apply IH.
Qed.

Lemma keys_set (m : TlvData) (tag : Z) (v : Buffer) :
  map fst (set m tag v)
  = match get m tag with Some _ => map fst m | None => map fst m ++ [tag] end.
Proof.
  induction m as [|[k x] m IH]; simpl; [reflexivity|].
  destruct (Z.eqb_spec k tag); simpl; [reflexivity|].
  rewrite IH. now destruct (get m tag).
Qed.

Lemma keys_store (m : TlvData) (tag : Z) (v : Buffer) :
  map fst (store m tag v)
  = match get m tag with Some _ => map fst m | None => map fst m ++ [tag] end.
Proof. unfold store. destruct (get m tag) eqn:Hg; rewrite keys_set, Hg; reflexivity. Qed.

(** The maps that the reader builds from bytes: no tag twice, every tag a
    byte. *)
Lemma store_keys_ok (m : TlvData) (tag : Z) (v : Buffer) :
  well_keyed m -> (forall k, In k (map fst m) -> 0 <= k <= 255) ->
  0 <= tag <= 255 ->
  well_keyed (store m tag v) /\
  (forall k, In k (map fst (store m tag v)) -> 0 <= k <= 255).
Proof.
  unfold well_keyed. intros Hnd Hr Ht. rewrite keys_store.
  destruct (get m tag) eqn:Hg; [split; assumption|]. split.
  - apply NoDup_app; [assumption|repeat constructor; simpl; tauto|].
    intros k Hin [<-|[]]. exact (get_None_keys _ _ Hg Hin).
  - intros k Hin. apply in_app_or in Hin as [Hin|[<-|[]]]; auto.
Qed.

Lemma readTlv_loop_keys_ok fuel : forall data pos m,
  is_bytes data ->
  well_keyed m -> (forall k, In k (map fst m) -> 0 <= k <= 255) ->
  well_keyed (readTlv_loop fuel data pos m) /\
  (forall k, In k (map fst (readTlv_loop fuel data pos m)) -> 0 <= k <= 255).
Proof.
  induction fuel as [|fuel IH]; intros data pos m Hbytes Hnd Hr.
  - split; assumption.
  - rewrite readTlv_loop_S.
    destruct (pos <? buffer_length data); [|split; assumption].
    destruct (byte_at data pos) as [tag|] eqn:Htag; [|split; assumption].
    assert (Ht : 0 <= tag <= 255).
    { apply byte_at_Some_In in Htag. unfold is_bytes in Hbytes.
      rewrite Forall_forall in Hbytes. specialize (Hbytes _ Htag). lia. }
    destruct (byte_at data (pos + 1)).
    + destruct (store_keys_ok m tag (subarray data (pos + 2) (pos + 2 + z)) Hnd Hr Ht).
      now apply IH.
    + now apply store_keys_ok.
Qed.

(** X2.  What [readTlv] returns for a buffer of bytes, complete or not, is
    a map that [writeTlv] encodes without loss: writing it and reading the
    result gives the same map again. *)
Theorem readTlv_reencode (data : Buffer) (m : TlvData) :
  is_bytes data ->
  readTlv data = Return m ->
  readTlv (writeTlv m) = Return m.
Proof.
  intros Hbytes Hread. unfold readTlv in Hread. injection Hread as <-.
  destruct (readTlv_loop_keys_ok (length data) data 0 [] Hbytes) as [Hnd Hr].
  - constructor.
  - intros k [].
  - destruct (parses_writeTlv _ [] Hnd) as (k & Hk).
    + intros tag Hin. split; [auto|reflexivity].
    + exact (readTlv_parses _ _ _ Hk).
Qed.

Lemma readTlv_reencode_witness :
  readTlv (writeTlv [(0x06, [1]); (0x03, [0x61; 0x62; 0x63])])
  = Return [(0x06, [1]); (0x03, [0x61; 0x62; 0x63])].
Proof.
  apply (readTlv_reencode [0x06; 1; 1; 0x03; 2; 0x61; 0x62; 0x03; 5; 0x63]).
  - unfold is_bytes. repeat constructor; lia.
  - reflexivity.
Defined.

End Tlv8Facts.

(** * Chacha20Cipher *)

Module Chacha20Facts.
Import Chacha20.

Lemma js_round_safe (z : Z) : Z.abs z < 2 ^ 53 -> js_round z = z.
Proof.
  intros Hz. unfold js_round.
  destruct (Z.ltb_spec (Z.abs z) (2 ^ 53)); [reflexivity|lia].
Qed.

Lemma js_increment_safe (n : Z) : safe_counter n -> js_increment n = n + 1.
Proof.
  unfold safe_counter, js_increment, js_round. intros Hn.
  destruct (Z.ltb_spec (Z.abs (n + 1)) (2 ^ 53)) as [|Hge]; [reflexivity|].
  assert (Hn1 : n + 1 = 2 ^ 53) by lia. rewrite Hn1. reflexivity.
Qed.

(** Past the last safe counter the increment is lost. *)
Lemma js_increment_limit : js_increment (2 ^ 53) = 2 ^ 53.
Proof. reflexivity. Qed.

Lemma buildNonce_safe (c : Chacha20Cipher) (n : Z) :
  0 <= n < 2 ^ 64 -> exists nonce, buildNonce c n = Return nonce.
Proof.
  intros Hn. unfold buildNonce, writeBigUInt64LE_alloc.
  destruct (Z.leb_spec 0 n); [|lia].
  destruct (Z.ltb_spec n (2 ^ 64)); [|lia].
  destruct (nonceLength c =? NONCE_LENGTH); eexists; reflexivity.
Qed.

Lemma buildNonce_fields (c c' : Chacha20Cipher) (n : Z) :
  nonceLength c' = nonceLength c -> buildNonce c' n = buildNonce c n.
Proof. intros Hl. unfold buildNonce. now rewrite Hl. Qed.

Lemma encrypt_counter `{Crypto} (c : Chacha20Cipher) (data : Buffer)
  (aad : option Buffer) (nonce : Buffer) :
  outNonce c = Return nonce ->
  encrypt c data nonce_undefined aad
  = (set_outCounter c (js_increment (outCounter c)),
     chacha20poly1305_encrypt (outKey c) nonce aad data).
Proof. intros Hn. unfold encrypt. rewrite Hn. reflexivity. Qed.

Lemma decrypt_counter `{Crypto} (c : Chacha20Cipher) (data : Buffer)
  (aad : option Buffer) (nonce : Buffer) :
  inNonce c = Return nonce ->
  decrypt c data nonce_undefined aad
  = (set_inCounter c (js_increment (inCounter c)),
     chacha20poly1305_decrypt (inKey c) nonce aad data).
Proof. intros Hn. unfold decrypt. rewrite Hn. reflexivity. Qed.

(** The nonce constructions: the counter in little-endian order, after
    four zero bytes for the 8-byte nonce and before them for the 12-byte
    nonce; a label is right-aligned in twelve bytes. *)
Example buildNonce_8 :
  buildNonce (new_Chacha20Cipher8byteNonce [] []) 1
  = Return [0; 0; 0; 0; 1; 0; 0; 0; 0; 0; 0; 0].
Proof. reflexivity. Qed.

Example buildNonce_12 :
  buildNonce (new_Chacha20Cipher [] [] 12) 1
  = Return [1; 0; 0; 0; 0; 0; 0; 0; 0; 0; 0; 0].
Proof. reflexivity. Qed.

Example padNonce_label :
  padNonce (Buffer_from_string "PS-Msg05")
  = [0; 0; 0; 0; 0x50; 0x53; 0x2d; 0x4d; 0x73; 0x67; 0x30; 0x35].
Proof. reflexivity. Qed.

(** C6.  A call of [encrypt] or [decrypt] without nonce argument, on a
    cipher whose counters are safe integers, uses the nonce built from the
    counter of its direction and leaves that counter greater by exactly
    one; so of two consecutive frames of one direction the second is
    sealed (or opened) with the nonce of the counter that is one greater
    than that of the first. *)
Theorem nonce_counter_increments `{Crypto} (c : Chacha20Cipher)
  (data1 data2 : Buffer) (aad1 aad2 : option Buffer) :
  safe_counter (outCounter c) -> safe_counter (inCounter c) ->
  let sent := fst (encrypt c data1 nonce_undefined aad1) in
  let received := fst (decrypt c data1 nonce_undefined aad1) in
  outCounter sent = outCounter c + 1 /\
  inCounter received = inCounter c + 1 /\
  (exists nonce1 nonce2,
      buildNonce c (outCounter c) = Return nonce1 /\
      buildNonce c (outCounter c + 1) = Return nonce2 /\
      snd (encrypt c data1 nonce_undefined aad1)
      = chacha20poly1305_encrypt (outKey c) nonce1 aad1 data1 /\
      snd (encrypt sent data2 nonce_undefined aad2)
      = chacha20poly1305_encrypt (outKey c) nonce2 aad2 data2) /\
  (exists nonce1 nonce2,
      buildNonce c (inCounter c) = Return nonce1 /\
      buildNonce c (inCounter c + 1) = Return nonce2 /\
      snd (decrypt c data1 nonce_undefined aad1)
      = chacha20poly1305_decrypt (inKey c) nonce1 aad1 data1 /\
      snd (decrypt received data2 nonce_undefined aad2)
      = chacha20poly1305_decrypt (inKey c) nonce2 aad2 data2).
Proof.
  intros Hout Hin.
  destruct (buildNonce_safe c (outCounter c)) as (o1 & Ho1);
    [unfold safe_counter in Hout; lia|].
  destruct (buildNonce_safe c (outCounter c + 1)) as (o2 & Ho2);
    [unfold safe_counter in Hout; lia|].
  destruct (buildNonce_safe c (inCounter c)) as (i1 & Hi1);
    [unfold safe_counter in Hin; lia|].
  destruct (buildNonce_safe c (inCounter c + 1)) as (i2 & Hi2);
    [unfold safe_counter in Hin; lia|].
  rewrite (encrypt_counter c data1 aad1 o1 Ho1).
  rewrite (decrypt_counter c data1 aad1 i1 Hi1).
  cbn [fst snd]. rewrite !js_increment_safe by assumption.
  cbv zeta. cbn [outCounter inCounter set_outCounter set_inCounter].
  repeat split.
  - exists o1, o2. repeat split; auto.
    rewrite (encrypt_counter _ data2 aad2 o2); [reflexivity|].
    unfold outNonce. cbn [outCounter set_outCounter].
    rewrite (buildNonce_fields c) by reflexivity. exact Ho2.
  - exists i1, i2. repeat split; auto.
    rewrite (decrypt_counter _ data2 aad2 i2); [reflexivity|].
    unfold inNonce. cbn [inCounter set_inCounter].
    rewrite (buildNonce_fields c) by reflexivity. exact Hi2.
Qed.

Lemma nonce_counter_increments_witness :
  let c := new_Chacha20Cipher (repeat 0x6b 32) (repeat 0x6b 32) 12 in
  let sent := fst (@encrypt Toy.crypto c [0x74; 0x65; 0x73; 0x74] nonce_undefined None) in
  let received :=
    fst (@decrypt Toy.crypto c [0x74; 0x65; 0x73; 0x74] nonce_undefined None) in
  outCounter sent = outCounter c + 1 /\
  inCounter received = inCounter c + 1 /\
  (exists nonce1 nonce2,
      buildNonce c (outCounter c) = Return nonce1 /\
      buildNonce c (outCounter c + 1) = Return nonce2 /\
      snd (@encrypt Toy.crypto c [0x74; 0x65; 0x73; 0x74] nonce_undefined None)
      = Toy.seal (outKey c) nonce1 None [0x74; 0x65; 0x73; 0x74] /\
      snd (@encrypt Toy.crypto sent [0x01] nonce_undefined None)
      = Toy.seal (outKey c) nonce2 None [0x01]) /\
  (exists nonce1 nonce2,
      buildNonce c (inCounter c) = Return nonce1 /\
      buildNonce c (inCounter c + 1) = Return nonce2 /\
      snd (@decrypt Toy.crypto c [0x74; 0x65; 0x73; 0x74] nonce_undefined None)
      = Toy.open (inKey c) nonce1 None [0x74; 0x65; 0x73; 0x74] /\
      snd (@decrypt Toy.crypto received [0x01] nonce_undefined None)
      = Toy.open (inKey c) nonce2 None [0x01]).
Proof.
  apply (@nonce_counter_increments Toy.crypto
           (new_Chacha20Cipher (repeat 0x6b 32) (repeat 0x6b 32) 12)
           [0x74; 0x65; 0x73; 0x74] [0x01] None None).
  - unfold safe_counter. simpl. lia.
  - unfold safe_counter. simpl. lia.
Defined.

(** C10.  A call of [encrypt] or [decrypt] with an explicit nonce, a string
    label or a buffer, leaves both counters as they were; a call without
    nonce leaves the counter of the other direction as it was. *)
Theorem explicit_nonce_keeps_counters `{Crypto} (c : Chacha20Cipher)
  (data : Buffer) (aad : option Buffer) (label : string) (nonce : Buffer) :
  (outCounter (fst (encrypt c data (nonce_string label) aad)) = outCounter c /\
   inCounter (fst (encrypt c data (nonce_string label) aad)) = inCounter c) /\
  (outCounter (fst (encrypt c data (nonce_buffer nonce) aad)) = outCounter c /\
   inCounter (fst (encrypt c data (nonce_buffer nonce) aad)) = inCounter c) /\
  (outCounter (fst (decrypt c data (nonce_string label) aad)) = outCounter c /\
   inCounter (fst (decrypt c data (nonce_string label) aad)) = inCounter c) /\
  (outCounter (fst (decrypt c data (nonce_buffer nonce) aad)) = outCounter c /\
   inCounter (fst (decrypt c data (nonce_buffer nonce) aad)) = inCounter c) /\
  inCounter (fst (encrypt c data nonce_undefined aad)) = inCounter c /\
  outCounter (fst (decrypt c data nonce_undefined aad)) = outCounter c.
Proof.
  repeat split; try reflexivity.
  - unfold encrypt. destruct (outNonce c); reflexivity.
  - unfold decrypt. destruct (inNonce c); reflexivity.
Qed.

Lemma buildNonce_Return (c : Chacha20Cipher) (n : Z) :
  0 <= n < 2 ^ 64 ->
  buildNonce c n
  = Return (if nonceLength c =? NONCE_LENGTH
            then le_bytes 8 n ++ [0; 0; 0; 0]
            else [0; 0; 0; 0] ++ le_bytes 8 n).
Proof.
  intros Hn. unfold buildNonce, writeBigUInt64LE_alloc.
  destruct (Z.leb_spec 0 n); [|lia].
  destruct (Z.ltb_spec n (2 ^ 64)); [|lia].
  destruct (nonceLength c =? NONCE_LENGTH); reflexivity.
Qed.

(** X3.  The nonce built from a counter has twelve bytes, and counters
    that differ give nonces that differ, for the 8-byte and for the 12-byte
    layout. *)
Theorem buildNonce_injective (c : Chacha20Cipher) (n1 n2 : Z) (nonce : Buffer) :
  0 <= n1 < 2 ^ 64 -> 0 <= n2 < 2 ^ 64 ->
  buildNonce c n1 = Return nonce -> buildNonce c n2 = Return nonce ->
  buffer_length nonce = 12 /\ n1 = n2.
Proof.
  intros H1 H2. rewrite !buildNonce_Return by assumption.
  intros E1 E2. rewrite <- E1 in E2. apply Return_inj in E1, E2.
  rename E2 into E.
  subst nonce.
  destruct (nonceLength c =? NONCE_LENGTH).
  - split.
    + rewrite buffer_length_app, length_le_bytes'. reflexivity.
    + apply app_inv_tail in E. symmetry. now apply (le_bytes_inj 8).
  - split.
    + rewrite buffer_length_app, length_le_bytes'. reflexivity.
    + apply app_inv_head in E. symmetry. now apply (le_bytes_inj 8).
Qed.

Lemma buildNonce_injective_witness :
  buffer_length [0; 0; 0; 0; 7; 0; 0; 0; 0; 0; 0; 0] = 12 /\ 7 = 7.
Proof.
  apply (buildNonce_injective (new_Chacha20Cipher8byteNonce [] []) 7 7).
  - lia.
  - lia.
  - reflexivity.
  - reflexivity.
Defined.

Lemma encrypt_outCounter `{Crypto} (c : Chacha20Cipher) (data : Buffer)
  (aad : option Buffer) :
  safe_counter (outCounter c) ->
  outCounter (fst (encrypt c data nonce_undefined aad)) = outCounter c + 1 /\
  nonceLength (fst (encrypt c data nonce_undefined aad)) = nonceLength c.
Proof.
  intros Hs. destruct (buildNonce_safe c (outCounter c)) as (nonce & Hn).
  { unfold safe_counter in Hs. lia. }
  rewrite (encrypt_counter c data aad nonce Hn). cbn [fst set_outCounter outCounter nonceLength].
  split; [now apply js_increment_safe|reflexivity].
Qed.

Lemma encrypt_all_outCounter `{Crypto} (messages : list (Buffer * option Buffer)) :
  forall c,
  0 <= outCounter c -> outCounter c + Z.of_nat (length messages) <= 2 ^ 53 ->
  outCounter (encrypt_all c messages) = outCounter c + Z.of_nat (length messages) /\
  nonceLength (encrypt_all c messages) = nonceLength c.
Proof.
  induction messages as [|m messages IH]; intros c H0 Hle.
  - simpl. split; [lia|reflexivity].
  - cbn [encrypt_all fold_left]. cbn [length] in Hle.
    destruct (encrypt_outCounter c (fst m) (snd m)) as [Hc Hl].
    { unfold safe_counter. lia. }
    destruct (IH (fst (encrypt c (fst m) nonce_undefined (snd m)))) as [Hc' Hl'];
      [lia|lia|].
    unfold encrypt_all in *. rewrite Hc', Hl', Hc, Hl. split; [cbn [length]; lia|reflexivity].
Qed.

(** X4.  On a cipher object whose out counter is [n], a run of [k]
    encryptions without nonce argument leaves the counter at [n + k], as
    long as that is at most [2^53]; and the nonce that stands ready after
    [i] of them differs from the one after [j] of them when [i < j]: within
    these bounds no nonce is used for two messages. *)
Theorem encrypt_all_fresh_nonces `{Crypto} (c : Chacha20Cipher)
  (messages : list (Buffer * option Buffer)) (i j : nat) :
  0 <= outCounter c ->
  outCounter c + Z.of_nat (length messages) <= 2 ^ 53 ->
  (i < j <= length messages)%nat ->
  outCounter (encrypt_all c (firstn j messages)) = outCounter c + Z.of_nat j /\
  outNonce (encrypt_all c (firstn i messages))
  <> outNonce (encrypt_all c (firstn j messages)).
Proof.
  intros H0 Hle Hij.
  assert (Hat : forall k, (k <= length messages)%nat ->
            outCounter (encrypt_all c (firstn k messages)) = outCounter c + Z.of_nat k /\
            nonceLength (encrypt_all c (firstn k messages)) = nonceLength c).
  { intros k Hk.
    pose proof (encrypt_all_outCounter (firstn k messages) c H0) as Hrun.
    rewrite length_firstn, Nat.min_l in Hrun by exact Hk. apply Hrun. lia. }
  destruct (Hat i) as [Hi Hli]; [lia|]. destruct (Hat j) as [Hj Hlj]; [lia|].
  split; [exact Hj|].
  unfold outNonce. rewrite Hi, Hj.
  rewrite (buildNonce_fields c (encrypt_all c (firstn i messages))) by exact Hli.
  rewrite (buildNonce_fields c (encrypt_all c (firstn j messages))) by exact Hlj.
  intros He.
  assert (E : outCounter c + Z.of_nat i = outCounter c + Z.of_nat j).
  { rewrite !buildNonce_Return in He by lia.
    apply Return_inj in He. rename He into E.
    destruct (nonceLength c =? NONCE_LENGTH).
    - apply app_inv_tail in E. apply (le_bytes_inj 8) in E; [exact E|lia|lia].
    - apply app_inv_head in E. apply (le_bytes_inj 8) in E; [exact E|lia|lia]. }
  lia.
Qed.

Lemma encrypt_all_fresh_nonces_witness :
  outCounter (@encrypt_all Toy.crypto (new_Chacha20Cipher [] [] 12)
                (firstn 2 [([1], None); ([2], None); ([3], None)])) = 0 + Z.of_nat 2 /\
  outNonce (@encrypt_all Toy.crypto (new_Chacha20Cipher [] [] 12)
              (firstn 1 [([1], None); ([2], None); ([3], None)]))
  <> outNonce (@encrypt_all Toy.crypto (new_Chacha20Cipher [] [] 12)
                 (firstn 2 [([1], None); ([2], None); ([3], None)])).
Proof.
  apply (@encrypt_all_fresh_nonces Toy.crypto (new_Chacha20Cipher [] [] 12)
           [([1], None); ([2], None); ([3], None)] 1 2).
  - simpl. lia.
  - simpl. lia.
  - simpl. lia.
Defined.

(** X5.  What one cipher object seals, an object that is in step with it
    opens: [decrypt] returns the plaintext.  After a call pair without
    nonce argument the two objects are in step again, the in counter of
    the receiver equal to the out counter of the sender; a call pair with a
    nonce label or buffer leaves the receiver as it was. *)
Theorem decrypt_encrypt `{Crypto} (tx tx' rx : Chacha20Cipher) (data sealed : Buffer)
  (nonce : nonce_arg) (aad : option Buffer) :
  aead_opens ->
  in_step tx rx nonce ->
  encrypt tx data nonce aad = (tx', Return sealed) ->
  snd (decrypt rx sealed nonce aad) = Return data /\
  in_step tx' (fst (decrypt rx sealed nonce aad)) nonce /\
  match nonce with
  | nonce_undefined => True
  | _ => fst (decrypt rx sealed nonce aad) = rx
  end.
Proof.
  intros Hopens [Hkey Hstep] Hsend. unfold encrypt in Hsend. unfold decrypt, in_step.
  destruct nonce as [|label|b].
  - destruct Hstep as [Hlen Hctr].
    unfold inNonce. rewrite Hctr, (buildNonce_fields tx rx) by exact Hlen.
    unfold outNonce in Hsend.
    destruct (buildNonce tx (outCounter tx)) as [nonceBuffer| |]; try discriminate.
    injection Hsend as <- Hsealed. cbn [fst snd set_inCounter set_outCounter inKey outKey
      nonceLength inCounter outCounter] in *.
    rewrite Hkey. split; [now apply Hopens|]. repeat split; assumption.
  - injection Hsend as <- Hsealed. cbn [fst snd]. rewrite Hkey.
    split; [now apply Hopens|]. repeat split; reflexivity.
  - injection Hsend as <- Hsealed. cbn [fst snd]. rewrite Hkey.
    split; [now apply Hopens|]. repeat split; reflexivity.
Qed.

Lemma decrypt_encrypt_witness :
  snd (@decrypt Toy.crypto (new_Chacha20Cipher [2] [1] 12)
         ([0x74; 0x65; 0x73; 0x74] ++ Toy.tag16) nonce_undefined None)
  = Return [0x74; 0x65; 0x73; 0x74] /\
  in_step (set_outCounter (new_Chacha20Cipher [1] [2] 12) 1)
    (fst (@decrypt Toy.crypto (new_Chacha20Cipher [2] [1] 12)
            ([0x74; 0x65; 0x73; 0x74] ++ Toy.tag16) nonce_undefined None))
    nonce_undefined /\
  True.
Proof.
  apply (@decrypt_encrypt Toy.crypto (new_Chacha20Cipher [1] [2] 12)
           (set_outCounter (new_Chacha20Cipher [1] [2] 12) 1)
           (new_Chacha20Cipher [2] [1] 12) [0x74; 0x65; 0x73; 0x74]).
  - exact Toy_aead_opens.
  - unfold in_step. simpl. repeat split.
  - reflexivity.
Defined.

End Chacha20Facts.

(** * CompanionConnection *)

Module ConnectionFacts.
Import Chacha20 Connection.

Lemma build_header_Return (frameType : FrameType) (payloadLength : Z) (header : Buffer) :
  build_header frameType payloadLength = Return header ->
  buffer_length header = 4 /\
  byte_at header 0 = Some (FrameType_value frameType) /\
  be_value (subarray header 1 4) = payloadLength.
Proof.
  unfold build_header. intros Hh.
  destruct (Z.leb_spec 0 payloadLength); [|discriminate].
  destruct (Z.ltb_spec payloadLength (2 ^ 24)); [|discriminate].
  cbn [andb] in Hh. injection Hh as <-.
  assert (Hft : FrameType_value frameType mod 256 = FrameType_value frameType)
    by (destruct frameType; reflexivity).
  unfold Buffer_from. cbn [map app]. rewrite Hft.
  split; [|split].
  - unfold buffer_length. cbn [length]. rewrite length_be_bytes. reflexivity.
  - reflexivity.
  - rewrite subarray_tail3 by apply length_be_bytes.
    apply be_value_be_bytes. simpl Z.of_nat. lia.
Qed.

(** C5.  When [send] returns, it has written one buffer, header followed
    by payload.  The header has four bytes, the first is the frame type.
    With keys installed and a non-empty plaintext the three-byte big-endian
    length field is the length of the plaintext plus 16 and the payload is
    the ChaCha20-Poly1305 seal of the plaintext under the nonce of the out
    counter, with the header as associated data; otherwise the length field
    is the length of the plaintext and the payload is the plaintext. *)
Theorem send_frame `{Crypto} (conn conn' : CompanionConnection)
  (frameType : FrameType) (data : Buffer) :
  send conn frameType data = (conn', Return tt) ->
  exists written header payload,
    socket conn = Some written /\
    socket conn' = Some (written ++ [header ++ payload]) /\
    buffer_length header = 4 /\
    byte_at header 0 = Some (FrameType_value frameType) /\
    match chacha conn with
    | Some c =>
        if 0 <? buffer_length data then
          be_value (subarray header 1 4) = buffer_length data + 16 /\
          exists nonce,
            outNonce c = Return nonce /\
            chacha20poly1305_encrypt (outKey c) nonce (Some header) data
            = Return payload
        else be_value (subarray header 1 4) = buffer_length data /\ payload = data
    | None => be_value (subarray header 1 4) = buffer_length data /\ payload = data
    end.
Proof.
  unfold send. intros Hsend.
  destruct (socket conn) as [written|] eqn:Hsock; [|discriminate].
  destruct (chacha conn) as [c|] eqn:Hc.
  - destruct (Z.ltb_spec 0 (buffer_length data)) as [Hpos|Hzero].
    + destruct (build_header frameType (buffer_length data + AUTH_TAG_LENGTH))
        as [header| |] eqn:Hh; try discriminate.
      destruct (build_header_Return _ _ _ Hh) as (Hlen & Htype & Hfield).
      unfold encrypt in Hsend.
      destruct (outNonce c) as [nonce| |] eqn:Hn; try discriminate.
      cbn [set_outCounter outKey] in Hsend.
      destruct (chacha20poly1305_encrypt (outKey c) nonce (Some header) data)
        as [payload| |] eqn:Hseal; try discriminate.
      injection Hsend as <-.
      exists written, header, payload. unfold socket_write. cbn [socket].
      unfold Buffer_concat. cbn [concat]. rewrite app_nil_r.
      repeat split; auto. exists nonce. auto.
    + destruct (build_header frameType (buffer_length data)) as [header| |] eqn:Hh;
        try discriminate.
      destruct (build_header_Return _ _ _ Hh) as (Hlen & Htype & Hfield).
      injection Hsend as <-.
      exists written, header, data. unfold socket_write. cbn [socket].
      unfold Buffer_concat. cbn [concat]. rewrite app_nil_r.
      repeat split; auto.
  - destruct (build_header frameType (buffer_length data)) as [header| |] eqn:Hh;
      try discriminate.
    destruct (build_header_Return _ _ _ Hh) as (Hlen & Htype & Hfield).
    injection Hsend as <-.
    exists written, header, data. unfold socket_write. cbn [socket].
    unfold Buffer_concat. cbn [concat]. rewrite app_nil_r.
    repeat split; auto.
Qed.

Lemma send_frame_witness :
  exists written header payload,
    socket Examples.keyed_connection = Some written /\
    socket (fst (@send Toy.crypto Examples.keyed_connection E_OPACK [0x01; 0x02; 0x03]))
    = Some (written ++ [header ++ payload]) /\
    buffer_length header = 4 /\
    byte_at header 0 = Some (FrameType_value E_OPACK) /\
    be_value (subarray header 1 4) = buffer_length [0x01; 0x02; 0x03] + 16 /\
    exists nonce,
      outNonce (new_Chacha20Cipher (repeat 0x6b 32) (repeat 0x6c 32) 12) = Return nonce /\
      Toy.seal (repeat 0x6b 32) nonce (Some header) [0x01; 0x02; 0x03] = Return payload.
Proof.
  apply (@send_frame Toy.crypto Examples.keyed_connection
           (fst (@send Toy.crypto Examples.keyed_connection E_OPACK [0x01; 0x02; 0x03]))
           E_OPACK [0x01; 0x02; 0x03]).
  reflexivity.
Defined.

(** C4, as amended.  In the frame-type encoding of the transport
    (connection.ts) [NoOp] is 0x01 and 0x00 is [Unknown], and the header of
    a [NoOp] frame starts with the byte 0x01; only the [FrameType] of
    src/types.ts, which the transport does not use, has [NoOp = 0x00]. *)
Theorem NoOp_frame_type :
  Connection.FrameType_value Connection.NoOp = 0x01 /\
  Connection.FrameType_value Connection.Unknown = 0x00 /\
  Connection.build_header Connection.NoOp 0 = Return [0x01; 0x00; 0x00; 0x00] /\
  Types.FrameType_value Types.NoOp = 0x00.
Proof. repeat split; reflexivity. Qed.

Lemma NoOp_frame_type_is_not_zero :
  Connection.FrameType_value Connection.NoOp <> 0x00.
Proof. discriminate. Qed.

Import Chacha20Facts.

(** A frame takes at least the four bytes of its header from the buffer. *)
Lemma frame_advances (b : Buffer) :
  is_bytes b ->
  HEADER_LENGTH <= buffer_length b ->
  ~ buffer_length b < HEADER_LENGTH + be_value (subarray b 1 4) ->
  let rest := subarray_from b (HEADER_LENGTH + be_value (subarray b 1 4)) in
  is_bytes rest /\ (length rest + 4 <= length b)%nat /\
  b = subarray b 0 (HEADER_LENGTH + be_value (subarray b 1 4)) ++ rest.
Proof.
  intros Hb H4 Hpl rest.
  pose proof (be_value_nonneg _ (is_bytes_subarray b 1 4 Hb)) as Hv.
  unfold HEADER_LENGTH in *.
  split; [now apply is_bytes_subarray_from|]. split.
  - pose proof (length_subarray_from b (4 + be_value (subarray b 1 4))) as Hl.
    fold rest in Hl. unfold buffer_length in *. lia.
  - subst rest.
    pose proof (subarray_from_split b 0 (4 + be_value (subarray b 1 4))) as Hs.
    rewrite Z.add_0_l in Hs. rewrite Hs by lia. reflexivity.
Qed.

Lemma decrypt_returns `{Crypto} (c : Chacha20Cipher) (data : Buffer)
  (nonce : nonce_arg) (aad : option Buffer) :
  aead_returns -> snd (decrypt c data nonce aad) <> OutOfFuel.
Proof.
  intros Hreturns. unfold decrypt. destruct nonce; cbn [snd]; try apply Hreturns.
  unfold inNonce, buildNonce, writeBigUInt64LE_alloc.
  destruct (nonceLength c =? NONCE_LENGTH);
    destruct ((0 <=? inCounter c) && (inCounter c <? 2 ^ 64)); cbn [snd];
    try apply Hreturns; discriminate.
Qed.

Lemma frame_payload_returns `{Crypto} (c : option Chacha20Cipher)
  (header payload : Buffer) :
  aead_returns -> snd (frame_payload c header payload) <> OutOfFuel.
Proof.
  intros Hreturns. unfold frame_payload. destruct c as [c|]; [|discriminate].
  destruct (0 <? buffer_length payload); [|discriminate].
  pose proof (decrypt_returns c payload nonce_undefined (Some header) Hreturns) as Hd.
  destruct (decrypt c payload nonce_undefined (Some header)) as [c' opened].
  exact Hd.
Qed.

Lemma set_buffer_same (conn : CompanionConnection) :
  set_buffer conn (buffer conn) (chacha conn) = conn.
Proof. now destruct conn. Qed.

Lemma encrypt_Return `{Crypto} (c c' : Chacha20Cipher) (data sealed : Buffer)
  (aad : option Buffer) :
  encrypt c data nonce_undefined aad = (c', Return sealed) ->
  exists nonce,
    outNonce c = Return nonce /\
    c' = set_outCounter c (js_increment (outCounter c)) /\
    chacha20poly1305_encrypt (outKey c) nonce aad data = Return sealed.
Proof.
  unfold encrypt. destruct (outNonce c) as [nonce| |]; try discriminate.
  intros He. injection He as <- Hs. exists nonce. repeat split. exact Hs.
Qed.

(** *** The loop, whatever the listeners *)

Section ListenerFacts.

Context `{Crypto} {L : Type}.
Variable on_frame : L -> Z -> Buffer -> L * outcome unit.
Variable on_error : option (L -> js_error -> L * outcome unit).

Lemma handleData_loop_S (fuel : nat) (conn : CompanionConnection) (l : L) :
  handleData_loop on_frame on_error (S fuel) conn l =
  if HEADER_LENGTH <=? buffer_length (buffer conn) then
    let payloadLength := HEADER_LENGTH + be_value (subarray (buffer conn) 1 4) in
    if buffer_length (buffer conn) <? payloadLength then (conn, l, Return tt)
    else
      let header := subarray (buffer conn) 0 HEADER_LENGTH in
      let payload := subarray (buffer conn) HEADER_LENGTH payloadLength in
      let rest := subarray_from (buffer conn) payloadLength in
      let frameType := nth 0 header 0 in
      let (c', opened) := frame_payload (chacha conn) header payload in
      let conn' := set_buffer conn rest c' in
      let (l', returned) := frame_emitted on_frame on_error l frameType opened in
      match returned with
      | Return _ => handleData_loop on_frame on_error fuel conn' l'
      | _ => (conn', l', returned)
      end
  else (conn, l, Return tt).
Proof. reflexivity. Qed.

Lemma handleData_loop_fuel (f1 : nat) :
  forall f2 conn l,
  is_bytes (buffer conn) ->
  (length (buffer conn) <= f1)%nat -> (length (buffer conn) <= f2)%nat ->
  handleData_loop on_frame on_error f1 conn l
  = handleData_loop on_frame on_error f2 conn l.
Proof.
  induction f1 as [|f1 IH]; intros f2 conn l Hb H1 H2.
  - destruct f2; [reflexivity|]. rewrite handleData_loop_S.
    destruct (Z.leb_spec HEADER_LENGTH (buffer_length (buffer conn))); [|reflexivity].
    unfold HEADER_LENGTH, buffer_length in *. lia.
  - destruct f2 as [|f2].
    + rewrite handleData_loop_S.
      destruct (Z.leb_spec HEADER_LENGTH (buffer_length (buffer conn))); [|reflexivity].
      unfold HEADER_LENGTH, buffer_length in *. lia.
    + rewrite !handleData_loop_S. cbv zeta.
      destruct (Z.leb_spec HEADER_LENGTH (buffer_length (buffer conn))) as [H4|];
        [|reflexivity].
      destruct (Z.ltb_spec (buffer_length (buffer conn))
                  (HEADER_LENGTH + be_value (subarray (buffer conn) 1 4))) as [|Hpl];
        [reflexivity|].
      destruct (frame_advances (buffer conn) Hb H4) as (Hr & Hl & _); [lia|].
      destruct (frame_payload (chacha conn) _ _) as [c' opened].
      destruct (frame_emitted on_frame on_error l _ opened) as [l' [u|e|]];
        try reflexivity.
      apply IH; cbn [set_buffer buffer]; [exact Hr|lia|lia].
Qed.

(** Bytes that arrive behind the buffer do not change what the loop does
    with the frames that are complete without them.  When the loop ends
    by throwing, they stay behind what is left in the buffer. *)
Lemma handleData_loop_app (b : Buffer) (f : nat) :
  is_bytes b ->
  forall conn l,
  is_bytes (buffer conn) -> (length (buffer conn) <= f)%nat ->
  handleData_loop on_frame on_error (f + length b)
    (set_buffer conn (buffer conn ++ b) (chacha conn)) l
  = let '(c1, l1, returned) := handleData_loop on_frame on_error f conn l in
    match returned with
    | Return _ =>
        handleData_loop on_frame on_error (length (buffer c1 ++ b))
          (set_buffer c1 (buffer c1 ++ b) (chacha c1)) l1
    | _ => (set_buffer c1 (buffer c1 ++ b) (chacha c1), l1, returned)
    end.
Proof.
  intros Hbb. induction f as [|f IH]; intros conn l Hb Hf.
  - cbn [handleData_loop]. apply handleData_loop_fuel; cbn [set_buffer buffer].
    + now apply is_bytes_app.
    + rewrite length_app. lia.
    + lia.
  - assert (Hstop : handleData_loop on_frame on_error (S f) conn l
                    = (conn, l, Return tt) ->
              handleData_loop on_frame on_error (S f + length b)
                (set_buffer conn (buffer conn ++ b) (chacha conn)) l
              = (let '(c1, l1, returned) :=
                   handleData_loop on_frame on_error (S f) conn l in
                 match returned with
                 | Return _ =>
                     handleData_loop on_frame on_error (length (buffer c1 ++ b))
                       (set_buffer c1 (buffer c1 ++ b) (chacha c1)) l1
                 | _ => (set_buffer c1 (buffer c1 ++ b) (chacha c1), l1, returned)
                 end)).
    { intros ->. apply handleData_loop_fuel; cbn [set_buffer buffer].
      - now apply is_bytes_app.
      - rewrite length_app. lia.
      - lia. }
    pose proof (handleData_loop_S f conn l) as Hone. cbv zeta in Hone.
    destruct (Z.leb_spec HEADER_LENGTH (buffer_length (buffer conn))) as [H4|];
      [|now apply Hstop].
    destruct (Z.ltb_spec (buffer_length (buffer conn))
                (HEADER_LENGTH + be_value (subarray (buffer conn) 1 4))) as [|Hpl];
      [now apply Hstop|].
    clear Hstop. rewrite Hone. clear Hone.
    destruct (frame_advances (buffer conn) Hb H4) as (Hr & Hl & _); [lia|].
    pose proof (be_value_nonneg _ (is_bytes_subarray (buffer conn) 1 4 Hb)) as Hv.
    change (S f + length b)%nat with (S (f + length b)).
    rewrite handleData_loop_S. cbv zeta. cbn [set_buffer buffer chacha socket].
    unfold HEADER_LENGTH in *.
    rewrite (subarray_within (buffer conn) b 1 4) by lia.
    rewrite (subarray_within (buffer conn) b 0 4) by lia.
    rewrite (subarray_within (buffer conn) b 4 (4 + be_value (subarray (buffer conn) 1 4)))
      by lia.
    rewrite (subarray_from_within (buffer conn) b) by lia.
    rewrite buffer_length_app.
    pose proof (buffer_length_nonneg b) as Hbn.
    destruct (Z.leb_spec 4 (buffer_length (buffer conn) + buffer_length b)); [|lia].
    destruct (Z.ltb_spec (buffer_length (buffer conn) + buffer_length b)
                (4 + be_value (subarray (buffer conn) 1 4))); [lia|].
    destruct (frame_payload (chacha conn) _ _) as [c' opened].
    destruct (frame_emitted on_frame on_error l _ opened) as [l' [u|e|]];
      try reflexivity.
    apply (IH (set_buffer conn
                 (subarray_from (buffer conn)
                    (4 + be_value (subarray (buffer conn) 1 4))) c') l');
      cbn [set_buffer buffer]; [exact Hr|lia].
Qed.

(** What the loop leaves in the buffer is the end of what it found there;
    when it returns, that is no complete frame. *)
Lemma handleData_loop_drains (f : nat) :
  forall conn l,
  is_bytes (buffer conn) -> (length (buffer conn) <= f)%nat ->
  let result := handleData_loop on_frame on_error f conn l in
  (snd result = Return tt -> incomplete (buffer (fst (fst result)))) /\
  socket (fst (fst result)) = socket conn /\
  exists consumed, buffer conn = consumed ++ buffer (fst (fst result)).
Proof.
  induction f as [|f IH]; intros conn l Hb Hf; cbv zeta.
  - cbn [handleData_loop fst snd]. split; [|split; [reflexivity|now exists []]].
    intros _. left. unfold HEADER_LENGTH, buffer_length. lia.
  - rewrite handleData_loop_S. cbv zeta.
    destruct (Z.leb_spec HEADER_LENGTH (buffer_length (buffer conn))) as [H4|].
    2:{ cbn [fst snd]. split; [now left|split; [reflexivity|now exists []]]. }
    destruct (Z.ltb_spec (buffer_length (buffer conn))
                (HEADER_LENGTH + be_value (subarray (buffer conn) 1 4))) as [|Hpl].
    { cbn [fst snd]. split; [now right|split; [reflexivity|now exists []]]. }
    destruct (frame_advances (buffer conn) Hb H4) as (Hr & Hl & Hsplit); [lia|].
    destruct (frame_payload (chacha conn) _ _) as [c' opened].
    destruct (frame_emitted on_frame on_error l _ opened) as [l' returned].
    assert (Hstop : forall o : outcome unit,
              o <> Return tt ->
              (snd (set_buffer conn
                      (subarray_from (buffer conn)
                         (HEADER_LENGTH + be_value (subarray (buffer conn) 1 4))) c',
                    l', o) = Return tt ->
               incomplete
                 (buffer (fst (fst (set_buffer conn
                                      (subarray_from (buffer conn)
                                         (HEADER_LENGTH
                                          + be_value (subarray (buffer conn) 1 4))) c',
                                    l', o))))) /\
              socket (fst (fst (set_buffer conn
                                  (subarray_from (buffer conn)
                                     (HEADER_LENGTH
                                      + be_value (subarray (buffer conn) 1 4))) c',
                                l', o))) = socket conn /\
              exists consumed,
                buffer conn
                = consumed
                  ++ buffer (fst (fst (set_buffer conn
                                         (subarray_from (buffer conn)
                                            (HEADER_LENGTH
                                             + be_value (subarray (buffer conn) 1 4)))
                                         c',
                                       l', o)))).
    { intros o Ho. cbn [fst snd set_buffer buffer socket].
      split; [intros Heq; now contradiction Ho|]. split; [reflexivity|].
      eexists. exact Hsplit. }
    destruct returned as [u|e|]; [|apply Hstop; discriminate|apply Hstop; discriminate].
    destruct (IH (set_buffer conn
                    (subarray_from (buffer conn)
                       (HEADER_LENGTH + be_value (subarray (buffer conn) 1 4))) c') l')
      as (Hi & Hs & consumed & Hc); [exact Hr|cbn [set_buffer buffer]; lia|].
    split; [exact Hi|]. split; [exact Hs|].
    exists (subarray (buffer conn) 0
              (HEADER_LENGTH + be_value (subarray (buffer conn) 1 4)) ++ consumed).
    rewrite <- app_assoc, <- Hc. exact Hsplit.
Qed.

(** A buffer that holds exactly one frame: the loop takes it and stops. *)
Lemma handleData_loop_one_frame (k : nat) (conn : CompanionConnection) (l : L)
  (header payload : Buffer) :
  buffer conn = header ++ payload ->
  buffer_length header = 4 ->
  be_value (subarray header 1 4) = buffer_length payload ->
  handleData_loop on_frame on_error (S (S k)) conn l
  = let (c', opened) := frame_payload (chacha conn) header payload in
    let (l', returned) := frame_emitted on_frame on_error l (nth 0 header 0) opened in
    (set_buffer conn [] c', l', returned).
Proof.
  intros Hbuf Hh Hlen. rewrite handleData_loop_S. cbv zeta. rewrite Hbuf.
  pose proof (buffer_length_nonneg payload) as Hp.
  unfold HEADER_LENGTH.
  rewrite (subarray_within header payload 1 4) by lia.
  rewrite buffer_length_app, Hh, Hlen.
  destruct (Z.leb_spec 4 (4 + buffer_length payload)); [|lia].
  destruct (Z.ltb_spec (4 + buffer_length payload) (4 + buffer_length payload)); [lia|].
  assert (E0 : subarray (header ++ payload) 0 4 = header).
  { rewrite <- Hh. apply subarray_exact. }
  assert (E1 : subarray (header ++ payload) 4 (4 + buffer_length payload) = payload).
  { rewrite <- Hh. replace (buffer_length header) with (buffer_length header + 0) at 1 by lia.
    rewrite subarray_app_r by lia. apply subarray_all. lia. }
  assert (E2 : subarray_from (header ++ payload) (4 + buffer_length payload) = []).
  { apply subarray_from_all. rewrite buffer_length_app. lia. }
  rewrite E0, E1, E2.
  destruct (frame_payload (chacha conn) header payload) as [c' opened].
  destruct (frame_emitted on_frame on_error l (nth 0 header 0) opened)
    as [l' [[]|e|]]; reflexivity.
Qed.

(** The bytes of one [send], given to [handleData] at the other end: the
    frame goes to the listeners with the type and the data that were
    sent. *)
Lemma send_handleData (tx tx' rx : CompanionConnection)
  (frameType : FrameType) (data : Buffer) (written : list Buffer) (bytes : Buffer) :
  aead_opens -> aead_appends_tag ->
  peers tx rx -> buffer rx = [] ->
  send tx frameType data = (tx', Return tt) ->
  socket tx = Some written -> socket tx' = Some (written ++ [bytes]) ->
  exists rx',
    (forall l,
        handleData on_frame on_error rx bytes l
        = let (l', returned) :=
            frame_emitted on_frame on_error l (FrameType_value frameType) (Return data) in
          (rx', l', returned)) /\
    buffer rx' = [] /\ socket rx' = socket rx /\ peers tx' rx'.
Proof.
  intros Hopens Htag Hpeers Hrx Hsend Hsock Hsock'.
  unfold send in Hsend. rewrite Hsock in Hsend.
  destruct (build_header frameType _) as [header| |] eqn:Hheader; try discriminate.
  destruct (build_header_Return _ _ _ Hheader) as (Hh & Hft & Hfield).
  assert (Htype : nth 0 header 0 = FrameType_value frameType).
  { destruct header; [discriminate|]. cbn in Hft. now injection Hft. }
  assert (Hrun : forall payload l,
            be_value (subarray header 1 4) = buffer_length payload ->
            handleData on_frame on_error rx (header ++ payload) l
            = let (c', opened) := frame_payload (chacha rx) header payload in
              let (l', returned) :=
                frame_emitted on_frame on_error l (FrameType_value frameType) opened in
              (set_buffer rx [] c', l', returned)).
  { intros payload l Hpayload. unfold handleData, Buffer_concat. cbn [concat].
    rewrite Hrx, app_nil_r. cbn [app set_buffer buffer].
    replace (length (header ++ payload)) with (S (S (S (S (length payload)))))
      by (rewrite length_app; unfold buffer_length in Hh; lia).
    rewrite (handleData_loop_one_frame _ _ l header payload)
      by (cbn [buffer]; auto).
    unfold set_buffer. cbn [chacha socket buffer]. rewrite Htype.
    destruct (frame_payload (chacha rx) header payload) as [c' opened].
    destruct (frame_emitted on_frame on_error l (FrameType_value frameType) opened).
    reflexivity. }
  unfold peers in *.
  destruct (chacha tx) as [c|] eqn:Hc.
  - destruct (chacha rx) as [d|] eqn:Hd; [|contradiction].
    destruct (Z.ltb_spec 0 (buffer_length data)) as [Hpos|Hzero].
    + destruct (encrypt c data nonce_undefined (Some header)) as [c' sealed] eqn:Henc.
      destruct sealed as [payload| |]; try discriminate.
      injection Hsend as <-. cbn [socket_write socket chacha] in Hsock' |- *.
      injection Hsock' as Hbytes. apply app_inv_head in Hbytes.
      injection Hbytes as <-. unfold Buffer_concat. cbn [concat]. rewrite app_nil_r.
      destruct (encrypt_Return _ _ _ _ _ Henc) as (nonce & Hnonce & -> & Hsealed).
      pose proof (Htag _ _ _ _ _ Hsealed) as Hlen.
      assert (Hfield' : be_value (subarray header 1 4) = buffer_length payload).
      { rewrite Hfield. unfold AUTH_TAG_LENGTH. lia. }
      destruct Hpeers as (Hkey & Hnl & Hctr).
      assert (Hin : inNonce d = Return nonce).
      { unfold inNonce. rewrite Hctr, (buildNonce_fields c d) by exact Hnl. exact Hnonce. }
      exists (set_buffer rx [] (Some (set_inCounter d (js_increment (inCounter d))))).
      split; [|cbn [set_buffer buffer socket chacha]; repeat split; cbn; congruence].
      intros l. rewrite (Hrun payload l Hfield'). unfold frame_payload.
      destruct (Z.ltb_spec 0 (buffer_length payload)); [|lia].
      rewrite (decrypt_counter d payload (Some header) nonce Hin).
      rewrite Hkey, (Hopens _ _ _ _ _ Hsealed). reflexivity.
    + injection Hsend as <-.
      cbn [socket_write socket chacha] in Hsock' |- *.
      injection Hsock' as Hbytes. apply app_inv_head in Hbytes.
      injection Hbytes as <-. unfold Buffer_concat. cbn [concat]. rewrite app_nil_r.
      exists (set_buffer rx [] (Some d)).
      split; [|cbn [set_buffer buffer socket chacha]; repeat split; apply Hpeers].
      intros l. rewrite (Hrun data l Hfield). unfold frame_payload.
      destruct (Z.ltb_spec 0 (buffer_length data)); [lia|]. reflexivity.
  - destruct (chacha rx) as [d|] eqn:Hd; [contradiction|].
    injection Hsend as <-. cbn [socket_write socket chacha] in Hsock' |- *.
    injection Hsock' as Hbytes. apply app_inv_head in Hbytes.
    injection Hbytes as <-. unfold Buffer_concat. cbn [concat]. rewrite app_nil_r.
    exists (set_buffer rx [] None).
    split; [|cbn [set_buffer buffer socket chacha]; repeat split].
    intros l. rewrite (Hrun data l Hfield). reflexivity.
Qed.

(** What the listeners keep of their state, the loop keeps. *)
Lemma handleData_loop_invariant (P : L -> Prop) :
  (forall l frameType payload, P l -> P (fst (on_frame l frameType payload))) ->
  (forall listener l e, on_error = Some listener -> P l -> P (fst (listener l e))) ->
  forall fuel conn l,
    P l -> P (snd (fst (handleData_loop on_frame on_error fuel conn l))).
Proof.
  intros Hframe Herror.
  assert (Hcaught : forall l e, P l -> P (fst (error_emitted on_error l e))).
  { intros l e Hl. unfold error_emitted.
    destruct on_error as [listener|] eqn:Hlistener; [|exact Hl].
    now apply (Herror listener). }
  assert (Hemitted : forall l frameType opened,
            P l -> P (fst (frame_emitted on_frame on_error l frameType opened))).
  { intros l frameType [payload|e|] Hl; unfold frame_emitted; [|now apply Hcaught|exact Hl].
    pose proof (Hframe l frameType payload Hl) as Hl'.
    destruct (on_frame l frameType payload) as [l' [u|e|]]; cbn [fst] in *;
      [exact Hl'|now apply Hcaught|exact Hl']. }
  induction fuel as [|fuel IH]; intros conn l Hl; [exact Hl|].
  rewrite handleData_loop_S. cbv zeta.
  destruct (HEADER_LENGTH <=? buffer_length (buffer conn)); [|exact Hl].
  destruct (buffer_length (buffer conn) <? _); [exact Hl|].
  destruct (frame_payload (chacha conn) _ _) as [c' opened].
  match goal with |- context [frame_emitted on_frame on_error l ?t opened] =>
    pose proof (Hemitted l t opened Hl) as Hl';
    destruct (frame_emitted on_frame on_error l t opened) as [l' [u|e|]]
  end; cbn [fst snd] in *; [now apply IH|exact Hl'|exact Hl'].
Qed.

End ListenerFacts.

(** *** The events of a call *)

(** The events emitted before the loop stay in front of those it emits. *)
Lemma handleData_loop_emitted `{Crypto} (listening : bool) (fuel : nat) :
  forall conn emitted,
  handleData_loop frame_recorded (error_recorded listening) fuel conn emitted
  = let '(conn', events, returned) :=
      handleData_loop frame_recorded (error_recorded listening) fuel conn [] in
    (conn', emitted ++ events, returned).
Proof.
  induction fuel as [|fuel IH]; intros conn emitted.
  - simpl. now rewrite app_nil_r.
  - rewrite !handleData_loop_S. cbv zeta.
    destruct (HEADER_LENGTH <=? buffer_length (buffer conn));
      [|simpl; now rewrite app_nil_r].
    destruct (buffer_length (buffer conn) <? _); [simpl; now rewrite app_nil_r|].
    destruct (frame_payload (chacha conn) _ _) as [c' opened].
    assert (Hstep : forall conn' x,
              handleData_loop frame_recorded (error_recorded listening) fuel conn'
                (emitted ++ [x])
              = (let '(conn'', events, returned) :=
                   handleData_loop frame_recorded (error_recorded listening) fuel conn'
                     ([] ++ [x]) in
                 (conn'', emitted ++ events, returned))).
    { intros conn' x. rewrite (IH conn' (emitted ++ [x])), (IH conn' ([] ++ [x])).
      destruct (handleData_loop frame_recorded (error_recorded listening) fuel conn' [])
        as [[conn'' events] returned].
      now rewrite <- app_assoc. }
    destruct opened as [payload|e|]; cbn [frame_emitted frame_recorded];
      [apply Hstep| |now rewrite app_nil_r].
    unfold error_emitted, error_recorded. destruct listening; [apply Hstep|].
    now rewrite app_nil_r.
Qed.

(** With a listener of ['error'] the loop returns. *)
Lemma handleData_loop_returns `{Crypto} (fuel : nat) :
  aead_returns ->
  forall conn emitted,
  snd (handleData_loop frame_recorded (error_recorded true) fuel conn emitted)
  = Return tt.
Proof.
  intros Hreturns. induction fuel as [|fuel IH]; intros conn emitted; [reflexivity|].
  rewrite handleData_loop_S. cbv zeta.
  destruct (HEADER_LENGTH <=? buffer_length (buffer conn)); [|reflexivity].
  destruct (buffer_length (buffer conn) <? _); [reflexivity|].
  match goal with |- context [frame_payload ?c ?h ?p] =>
    pose proof (frame_payload_returns c h p Hreturns) as Hret;
    destruct (frame_payload c h p) as [c' opened]
  end.
  destruct opened as [payload|e|]; cbn [frame_emitted frame_recorded error_emitted
                                          error_recorded snd] in *;
    [apply IH|apply IH|now contradiction Hret].
Qed.

(** X6.  How the bytes of the stream are cut into calls of [handleData]
    makes no difference as long as the calls return: a call with a chunk
    that returns, followed by a call with the next chunk, emits the same
    events in the same order, and leaves the same connection and result,
    as one call with the two chunks joined.  With a listener of ['error']
    registered every call returns.  Without one, a call throws at the
    first frame that does not open; the joined call then throws the same
    error after the same events, and the second chunk is left behind the
    rest of the buffer. *)
Theorem handleData_chunks `{Crypto} (listening : bool) (conn : CompanionConnection)
  (a b : Buffer) :
  is_bytes (buffer conn) -> is_bytes a -> is_bytes b ->
  handleData_events listening conn (a ++ b)
  = (let '(c1, e1, returned) := handleData_events listening conn a in
     match returned with
     | Return _ =>
         let '(c2, e2, returned) := handleData_events listening c1 b in
         (c2, e1 ++ e2, returned)
     | _ => (set_buffer c1 (buffer c1 ++ b) (chacha c1), e1, returned)
     end)
  /\ (aead_returns -> listening = true ->
      snd (handleData_events listening conn a) = Return tt).
Proof.
  intros Hconn Ha Hb. split.
  - unfold handleData_events, handleData, Buffer_concat.
    cbn [concat]. rewrite !app_nil_r.
    pose proof (handleData_loop_app frame_recorded (error_recorded listening) b
                  (length (buffer conn ++ a)) Hb
                  (set_buffer conn (buffer conn ++ a) (chacha conn)) []) as Happ.
    unfold set_buffer in *. cbn [buffer chacha socket] in *.
    rewrite <- app_assoc in Happ.
    replace (length (buffer conn ++ a ++ b))
      with (length (buffer conn ++ a) + length b)%nat by (rewrite !length_app; lia).
    rewrite Happ; [|now apply is_bytes_app|lia].
    destruct (handleData_loop frame_recorded (error_recorded listening)
                (length (buffer conn ++ a)) _ []) as [[c1 e1] [u|e|]];
      try reflexivity.
    rewrite (handleData_loop_emitted listening _ _ e1).
    match goal with |- context [handleData_loop ?f ?g ?n ?c []] =>
      destruct (handleData_loop f g n c []) as [[c2 e2] returned] end.
    reflexivity.
  - intros Hreturns ->. apply handleData_loop_returns. exact Hreturns.
Qed.

Lemma handleData_chunks_witness :
  let conn :=
    enableEncryption {| socket := None; buffer := []; chacha := None |} [1] [2] in
  @handleData_events Toy.crypto false conn
    ([8; 0; 0; 2; 0x41] ++ [0x42; 1; 0; 0; 0])
  = (let '(c1, e1, returned) :=
       @handleData_events Toy.crypto false conn [8; 0; 0; 2; 0x41] in
     match returned with
     | Return _ =>
         let '(c2, e2, returned) :=
           @handleData_events Toy.crypto false c1 [0x42; 1; 0; 0; 0] in
         (c2, e1 ++ e2, returned)
     | _ => (set_buffer c1 (buffer c1 ++ [0x42; 1; 0; 0; 0]) (chacha c1), e1, returned)
     end)
  /\ (@aead_returns Toy.crypto -> false = true ->
      snd (@handleData_events Toy.crypto false conn [8; 0; 0; 2; 0x41]) = Return tt).
Proof.
  apply (@handleData_chunks Toy.crypto false
           (enableEncryption {| socket := None; buffer := []; chacha := None |} [1] [2])
           [8; 0; 0; 2; 0x41] [0x42; 1; 0; 0; 0]).
  - constructor.
  - unfold is_bytes. repeat constructor; lia.
  - unfold is_bytes. repeat constructor; lia.
Defined.

(** X7.  When [handleData] returns, the buffer of the connection holds no
    complete frame: it is shorter than a header, or shorter than its
    header announces.  What it holds is the end of the bytes received, the
    bytes in front of it were taken as frames; the socket is untouched.
    The last two hold as well when the call throws; and it returns when a
    listener of ['error'] is registered. *)
Theorem handleData_drains `{Crypto} (listening : bool) (conn : CompanionConnection)
  (data : Buffer) :
  aead_returns ->
  is_bytes (buffer conn) -> is_bytes data ->
  (snd (handleData_events listening conn data) = Return tt ->
   incomplete (buffer (fst (fst (handleData_events listening conn data))))) /\
  socket (fst (fst (handleData_events listening conn data))) = socket conn /\
  (exists consumed,
      buffer conn ++ data
      = consumed ++ buffer (fst (fst (handleData_events listening conn data)))) /\
  (listening = true -> snd (handleData_events listening conn data) = Return tt).
Proof.
  intros Hreturns Hb Hd. unfold handleData_events, handleData, Buffer_concat.
  cbn [concat]. rewrite app_nil_r.
  destruct (handleData_loop_drains frame_recorded (error_recorded listening)
              (length (buffer conn ++ data))
              (set_buffer conn (buffer conn ++ data) (chacha conn)) [])
    as (Hi & Hs & Hc).
  - now apply is_bytes_app.
  - cbn [set_buffer buffer]. lia.
  - split; [exact Hi|]. split; [exact Hs|]. split; [exact Hc|].
    intros ->. now apply handleData_loop_returns.
Qed.

Lemma handleData_drains_witness :
  (snd (@handleData_events Toy.crypto true
          {| socket := None; buffer := [8; 0]; chacha := None |}
          [0; 1; 0x41; 8; 0; 0; 5; 0x42]) = Return tt ->
   incomplete
     (buffer (fst (fst (@handleData_events Toy.crypto true
                          {| socket := None; buffer := [8; 0]; chacha := None |}
                          [0; 1; 0x41; 8; 0; 0; 5; 0x42]))))) /\
  socket (fst (fst (@handleData_events Toy.crypto true
                      {| socket := None; buffer := [8; 0]; chacha := None |}
                      [0; 1; 0x41; 8; 0; 0; 5; 0x42]))) = None /\
  (exists consumed,
      [8; 0] ++ [0; 1; 0x41; 8; 0; 0; 5; 0x42]
      = consumed
        ++ buffer (fst (fst (@handleData_events Toy.crypto true
                               {| socket := None; buffer := [8; 0]; chacha := None |}
                               [0; 1; 0x41; 8; 0; 0; 5; 0x42])))) /\
  (true = true ->
   snd (@handleData_events Toy.crypto true
          {| socket := None; buffer := [8; 0]; chacha := None |}
          [0; 1; 0x41; 8; 0; 0; 5; 0x42]) = Return tt).
Proof.
  apply (@handleData_drains Toy.crypto true
           {| socket := None; buffer := [8; 0]; chacha := None |}
           [0; 1; 0x41; 8; 0; 0; 5; 0x42]).
  - exact Toy_aead_returns.
  - unfold is_bytes. repeat constructor; lia.
  - unfold is_bytes. repeat constructor; lia.
Defined.

(** X8.  A frame that [send] wrote arrives: [handleData], called on a
    receiver with an empty buffer with the bytes that a sender at the other
    end of the connection gave to its socket, emits one ['frame'] event
    with the frame type and the data that were sent and returns, leaves
    the buffer empty, and leaves sender and receiver in step for the next
    frame.  This holds without keys and, for a ChaCha20-Poly1305 that
    opens what it sealed and appends a tag of 16 bytes, with keys; with
    and without a listener of ['error']. *)
Theorem handleData_send `{Crypto} (listening : bool) (tx tx' rx : CompanionConnection)
  (frameType : FrameType) (data : Buffer) (written : list Buffer) (bytes : Buffer) :
  aead_opens -> aead_appends_tag ->
  peers tx rx -> buffer rx = [] ->
  send tx frameType data = (tx', Return tt) ->
  socket tx = Some written -> socket tx' = Some (written ++ [bytes]) ->
  snd (fst (handleData_events listening rx bytes))
  = [frame (FrameType_value frameType) data] /\
  snd (handleData_events listening rx bytes) = Return tt /\
  buffer (fst (fst (handleData_events listening rx bytes))) = [] /\
  peers tx' (fst (fst (handleData_events listening rx bytes))).
Proof.
  intros Hopens Htag Hpeers Hrx Hsend Hsock Hsock'.
  destruct (send_handleData frame_recorded (error_recorded listening)
              tx tx' rx frameType data written bytes
              Hopens Htag Hpeers Hrx Hsend Hsock Hsock')
    as (rx' & Hrun & Hbuffer & _ & Hstep).
  unfold handleData_events. rewrite Hrun. cbn [frame_emitted frame_recorded fst snd app].
  repeat split; assumption.
Qed.

Lemma handleData_send_witness :
  snd (fst (@handleData_events Toy.crypto false
              (enableEncryption {| socket := None; buffer := []; chacha := None |}
                 (repeat 0x6c 32) (repeat 0x6b 32))
              ([8; 0; 0; 19] ++ [0x01; 0x02; 0x03] ++ Toy.tag16)))
  = [frame (FrameType_value E_OPACK) [0x01; 0x02; 0x03]] /\
  snd (@handleData_events Toy.crypto false
         (enableEncryption {| socket := None; buffer := []; chacha := None |}
            (repeat 0x6c 32) (repeat 0x6b 32))
         ([8; 0; 0; 19] ++ [0x01; 0x02; 0x03] ++ Toy.tag16)) = Return tt /\
  buffer (fst (fst (@handleData_events Toy.crypto false
                      (enableEncryption {| socket := None; buffer := []; chacha := None |}
                         (repeat 0x6c 32) (repeat 0x6b 32))
                      ([8; 0; 0; 19] ++ [0x01; 0x02; 0x03] ++ Toy.tag16)))) = [] /\
  peers (fst (@send Toy.crypto Examples.keyed_connection E_OPACK [0x01; 0x02; 0x03]))
    (fst (fst (@handleData_events Toy.crypto false
                 (enableEncryption {| socket := None; buffer := []; chacha := None |}
                    (repeat 0x6c 32) (repeat 0x6b 32))
                 ([8; 0; 0; 19] ++ [0x01; 0x02; 0x03] ++ Toy.tag16)))).
Proof.
  apply (@handleData_send Toy.crypto false Examples.keyed_connection
           (fst (@send Toy.crypto Examples.keyed_connection E_OPACK [0x01; 0x02; 0x03]))
           (enableEncryption {| socket := None; buffer := []; chacha := None |}
              (repeat 0x6c 32) (repeat 0x6b 32))
           E_OPACK [0x01; 0x02; 0x03] []).
  - exact Toy_aead_opens.
  - exact Toy_aead_appends_tag.
  - unfold peers, in_step. simpl. repeat split.
  - reflexivity.
  - reflexivity.
  - reflexivity.
  - reflexivity.
Defined.

(** X9.  A frame that does not open is dropped from the buffer, and the in
    counter has advanced by one as for a frame that opens, so that the
    receiver is still in step with a sender that sealed it.  What
    [handleData] does next depends on the listeners of ['error'].  With
    one registered, the frame costs one ['error'] event and nothing else:
    the call goes on with the bytes behind it.  With none, as the classes
    of the repository leave the connection, [emit('error', err)] throws
    the error of the cipher out of [handleData]: no listener is called and
    the bytes behind the frame stay in the buffer, whatever frames they
    hold, until the next call. *)
Theorem handleData_rejected_frame `{Crypto} (conn : CompanionConnection)
  (d d' : Chacha20Cipher) (header payload rest : Buffer) (e : js_error) :
  is_bytes header -> is_bytes payload -> is_bytes rest ->
  buffer conn = [] -> chacha conn = Some d -> safe_counter (inCounter d) ->
  buffer_length header = 4 ->
  0 < buffer_length payload ->
  be_value (subarray header 1 4) = buffer_length payload ->
  decrypt d payload nonce_undefined (Some header) = (d', Throw e) ->
  handleData_events true conn (header ++ payload ++ rest)
  = (let '(conn', emitted, returned) :=
       handleData_events true (set_buffer conn [] (Some d')) rest in
     (conn', error e :: emitted, returned)) /\
  handleData_events false conn (header ++ payload ++ rest)
  = (set_buffer conn rest (Some d'), [], Throw e) /\
  inCounter d' = inCounter d + 1.
Proof.
  intros Hh Hp Hr Hbuf Hd Hsafe Hlen Hpos Hfield Hdec.
  assert (Hrun : forall listening,
            handleData_events listening conn (header ++ payload ++ rest)
            = (let '(c1, l1, returned) :=
                 (let (l', returned) :=
                    error_emitted (error_recorded listening) [] e in
                  (set_buffer conn [] (Some d'), l', returned)) in
               match returned with
               | Return _ =>
                   handleData_loop frame_recorded (error_recorded listening)
                     (length (buffer c1 ++ rest))
                     (set_buffer c1 (buffer c1 ++ rest) (chacha c1)) l1
               | _ => (set_buffer c1 (buffer c1 ++ rest) (chacha c1), l1, returned)
               end)).
  { intros listening. unfold handleData_events, handleData, Buffer_concat.
    cbn [concat]. rewrite Hbuf, app_nil_r. cbn [app set_buffer buffer].
    pose proof (handleData_loop_app frame_recorded (error_recorded listening) rest
                  (length (header ++ payload)) Hr
                  (set_buffer conn (header ++ payload) (chacha conn)) []) as Happ.
    unfold set_buffer in *. cbn [buffer chacha socket] in *.
    rewrite <- app_assoc in Happ.
    replace (length (header ++ payload ++ rest))
      with (length (header ++ payload) + length rest)%nat by (rewrite !length_app; lia).
    rewrite Happ; [|now apply is_bytes_app|lia]. clear Happ.
    assert (Hfuel : length (header ++ payload) = S (S (length payload + 2))).
    { rewrite length_app. unfold buffer_length in Hlen. lia. }
    rewrite Hfuel.
    rewrite (handleData_loop_one_frame _ _ _ _ _ header payload) by (cbn [buffer]; auto).
    cbn [chacha]. rewrite Hd. unfold frame_payload.
    destruct (Z.ltb_spec 0 (buffer_length payload)); [|lia].
    rewrite Hdec. cbn [frame_emitted]. reflexivity. }
  split; [|split].
  - rewrite Hrun. cbn [error_emitted error_recorded set_buffer buffer chacha socket app].
    unfold handleData_events, handleData, Buffer_concat. cbn [concat].
    cbn [set_buffer buffer chacha socket app]. rewrite app_nil_r.
    rewrite (handleData_loop_emitted true _ _ [error e]).
    match goal with |- context [handleData_loop ?f ?g ?n ?c []] =>
      destruct (handleData_loop f g n c []) as [[c2 e2] returned] end.
    reflexivity.
  - rewrite Hrun. reflexivity.
  - unfold decrypt in Hdec. destruct (buildNonce_safe d (inCounter d)) as (nonce & Hn).
    { unfold safe_counter in Hsafe. lia. }
    unfold inNonce in Hdec. rewrite Hn in Hdec. injection Hdec as <- _.
    cbn [set_inCounter inCounter]. now apply js_increment_safe.
Qed.

Lemma handleData_rejected_frame_witness :
  @handleData_events Toy.crypto true
    (enableEncryption {| socket := None; buffer := []; chacha := None |} [1] [2])
    ([8; 0; 0; 2] ++ [0x41; 0x42] ++ [8; 0; 0; 0])
  = (let '(conn', emitted, returned) :=
       @handleData_events Toy.crypto true
         (set_buffer
            (enableEncryption {| socket := None; buffer := []; chacha := None |} [1] [2])
            [] (Some (set_inCounter (new_Chacha20Cipher [1] [2] 12) 1)))
         [8; 0; 0; 0] in
     (conn', error (Error "invalid tag") :: emitted, returned)) /\
  @handleData_events Toy.crypto false
    (enableEncryption {| socket := None; buffer := []; chacha := None |} [1] [2])
    ([8; 0; 0; 2] ++ [0x41; 0x42] ++ [8; 0; 0; 0])
  = (set_buffer
       (enableEncryption {| socket := None; buffer := []; chacha := None |} [1] [2])
       [8; 0; 0; 0] (Some (set_inCounter (new_Chacha20Cipher [1] [2] 12) 1)),
     [], Throw (Error "invalid tag")) /\
  inCounter (set_inCounter (new_Chacha20Cipher [1] [2] 12) 1)
  = inCounter (new_Chacha20Cipher [1] [2] 12) + 1.
Proof.
  apply (@handleData_rejected_frame Toy.crypto
           (enableEncryption {| socket := None; buffer := []; chacha := None |} [1] [2])
           (new_Chacha20Cipher [1] [2] 12)
           (set_inCounter (new_Chacha20Cipher [1] [2] 12) 1)
           [8; 0; 0; 2] [0x41; 0x42] [8; 0; 0; 0] (Error "invalid tag")).
  - unfold is_bytes. repeat constructor; lia.
  - unfold is_bytes. repeat constructor; lia.
  - unfold is_bytes. repeat constructor; lia.
  - reflexivity.
  - reflexivity.
  - unfold safe_counter. simpl. lia.
  - reflexivity.
  - reflexivity.
  - reflexivity.
  - reflexivity.
Defined.

End ConnectionFacts.

(** * OPACK *)

Module OpackFacts.
Import Opack Examples.

Lemma js_round_nonneg (n : Z) : 0 <= n -> 0 <= js_round n.
Proof.
  intros Hn. unfold js_round.
  destruct (Z.abs n <? 2 ^ 53); [exact Hn|].
  rewrite (Z.abs_eq n) by exact Hn.
  set (e := Z.log2 n - 52).
  assert (Hp : 0 <= 2 ^ e) by apply Z.pow_nonneg, Z.le_0_2.
  assert (Hq : 0 <= n / 2 ^ e).
  { destruct (Z.eq_dec (2 ^ e) 0) as [->|]; [now rewrite Z.div_0_r|].
    apply Z.div_pos; lia. }
  assert (Hs : 0 <= Z.sgn n) by (apply Z.sgn_nonneg; exact Hn).
  repeat match goal with |- context [if ?c then _ else _] => destruct c end;
    apply Z.mul_nonneg_nonneg; try apply Z.mul_nonneg_nonneg; lia.
Qed.

Lemma readUIntLE_nonneg (data : Buffer) (offset n v : Z) :
  is_bytes data -> readUIntLE data offset n = Return v -> 0 <= v.
Proof.
  unfold readUIntLE. intros Hb Hr.
  destruct (offset + n <=? buffer_length data); [|discriminate].
  injection Hr as <-. apply le_value_nonneg, is_bytes_subarray, Hb.
Qed.

Lemma readUIntLE_fuel (data : Buffer) (offset n : Z) :
  readUIntLE data offset n <> OutOfFuel.
Proof. unfold readUIntLE. destruct (offset + n <=? buffer_length data); discriminate. Qed.

Lemma advances_subarray_from {A : Type} (a : A) (data : Buffer) (k : Z)
  (objectList : list value) :
  is_bytes data -> data <> [] -> 1 <= k ->
  advances data (Return (a, subarray_from data k, objectList)).
Proof.
  intros Hb Hne Hk. unfold advances, subarray_from. split.
  - rewrite length_skipn. destruct data; [contradiction|]. simpl length. lia.
  - now apply is_bytes_skipn.
Qed.

Section FinishFacts.

Variable number_toString : value -> string.

Lemma advances_finish (v : value) (data : Buffer) (k : Z) (add : bool)
  (objectList : list value) :
  is_bytes data -> data <> [] -> 1 <= k ->
  advances data (finish v (subarray_from data k) add objectList).
Proof.
  intros. unfold finish.
  destruct (add && negb (includes objectList v)); now apply advances_subarray_from.
Qed.

Lemma advances_finish_reference (index : Z) (data : Buffer) (k : Z)
  (objectList : list value) :
  is_bytes data -> data <> [] -> 1 <= k ->
  advances data (finish_reference index (subarray_from data k) objectList).
Proof.
  intros. unfold finish_reference.
  destruct (negb (includes_at objectList index)); now apply advances_subarray_from.
Qed.

End FinishFacts.


Section LoopFacts.

Variable number_toString : value -> string.
Variable rec : Buffer -> list value -> outcome unpacked.
Variable N : nat.
Hypothesis rec_advances :
  forall data objectList,
    is_bytes data -> (length data < N)%nat -> advances data (rec data objectList).

Lemma array_for_advances (count : nat) : forall ptr objectList output,
  is_bytes ptr -> (length ptr < N)%nat ->
  advances (0 :: ptr) (array_for rec count ptr objectList output).
Proof.
  induction count as [|count IH]; intros ptr objectList output Hb Hlen.
  - cbn. split; [lia|exact Hb].
  - cbn [array_for]. pose proof (rec_advances ptr objectList Hb Hlen) as Hrec.
    destruct (rec ptr objectList) as [[[item rest] ol]| |]; cbn [bind advances] in *;
      [|exact I|exact Hrec].
    destruct Hrec as [Hshort Hrest].
    specialize (IH rest ol (output ++ [item]) Hrest ltac:(lia)).
    destruct (array_for rec count rest ol (output ++ [item])) as [[[o r] l]| |];
      cbn [advances length] in *; [|exact I|exact IH].
    split; [lia|tauto].
Qed.

Lemma array_while_advances (bound : nat) : forall ptr objectList output,
  is_bytes ptr -> (length ptr < N)%nat -> (length ptr < bound)%nat ->
  advances (0 :: ptr) (array_while rec bound ptr objectList output).
Proof.
  induction bound as [|bound IH]; intros ptr objectList output Hb Hlen Hbound; [lia|].
  cbn [array_while].
  destruct (match byte_at ptr 0 with Some 3 => true | _ => false end).
  - cbn [advances length]. unfold subarray_from. rewrite length_skipn.
    split; [lia|now apply is_bytes_skipn].
  - pose proof (rec_advances ptr objectList Hb Hlen) as Hrec.
    destruct (rec ptr objectList) as [[[item rest] ol]| |]; cbn [bind advances] in *;
      [|exact I|exact Hrec].
    destruct Hrec as [Hshort Hrest].
    specialize (IH rest ol (output ++ [item]) Hrest ltac:(lia) ltac:(lia)).
    destruct (array_while rec bound rest ol (output ++ [item])) as [[[o r] l]| |];
      cbn [advances length] in *; [|exact I|exact IH].
    split; [lia|tauto].
Qed.

Lemma dict_for_advances (count : nat) : forall ptr objectList output,
  is_bytes ptr -> (length ptr < N)%nat ->
  advances (0 :: ptr) (dict_for number_toString rec count ptr objectList output).
Proof.
  induction count as [|count IH]; intros ptr objectList output Hb Hlen.
  - cbn. split; [lia|exact Hb].
  - cbn [dict_for]. pose proof (rec_advances ptr objectList Hb Hlen) as Hrec.
    destruct (rec ptr objectList) as [[[key rest1] ol1]| |]; cbn [bind advances] in *;
      [|exact I|exact Hrec].
    destruct Hrec as [Hshort1 Hrest1].
    pose proof (rec_advances rest1 ol1 Hrest1 ltac:(lia)) as Hrec2.
    destruct (rec rest1 ol1) as [[[val rest2] ol2]| |]; cbn [bind advances] in *;
      [|exact I|exact Hrec2].
    destruct Hrec2 as [Hshort2 Hrest2].
    specialize (IH rest2 ol2 (object_set output (js_String number_toString key) val)
                  Hrest2 ltac:(lia)).
    destruct (dict_for number_toString rec count rest2 ol2 _) as [[[o r] l]| |];
      cbn [advances length] in *; [|exact I|exact IH].
    split; [lia|tauto].
Qed.

Lemma dict_while_advances (bound : nat) : forall ptr objectList output,
  is_bytes ptr -> (length ptr < N)%nat -> (length ptr < bound)%nat ->
  advances (0 :: ptr) (dict_while number_toString rec bound ptr objectList output).
Proof.
  induction bound as [|bound IH]; intros ptr objectList output Hb Hlen Hbound; [lia|].
  cbn [dict_while].
  destruct (match byte_at ptr 0 with Some 3 => true | _ => false end).
  - cbn [advances length]. unfold subarray_from. rewrite length_skipn.
    split; [lia|now apply is_bytes_skipn].
  - pose proof (rec_advances ptr objectList Hb Hlen) as Hrec.
    destruct (rec ptr objectList) as [[[key rest1] ol1]| |]; cbn [bind advances] in *;
      [|exact I|exact Hrec].
    destruct Hrec as [Hshort1 Hrest1].
    pose proof (rec_advances rest1 ol1 Hrest1 ltac:(lia)) as Hrec2.
    destruct (rec rest1 ol1) as [[[val rest2] ol2]| |]; cbn [bind advances] in *;
      [|exact I|exact Hrec2].
    destruct Hrec2 as [Hshort2 Hrest2].
    specialize (IH rest2 ol2 (object_set output (js_String number_toString key) val)
                  Hrest2 ltac:(lia) ltac:(lia)).
    destruct (dict_while number_toString rec bound rest2 ol2 _) as [[[o r] l]| |];
      cbn [advances length] in *; [|exact I|exact IH].
    split; [lia|tauto].
Qed.

End LoopFacts.

Ltac reflect_tests :=
  repeat match goal with
    | H : andb _ _ = true |- _ => apply andb_true_iff in H; destruct H
    | H : (_ <=? _) = true |- _ => apply Z.leb_le in H
    | H : (_ <? _) = true |- _ => apply Z.ltb_lt in H
    | H : (_ =? _) = true |- _ => apply Z.eqb_eq in H
    end.

Ltac read_cases Hb :=
  repeat match goal with
    | |- context [bind (if ?c then _ else _) _] => destruct c eqn:?
    | |- context [bind (bind (readUIntLE ?d ?o ?n) _) _] =>
        let H := fresh "Hread" in
        destruct (readUIntLE d o n) eqn:H; cbn [bind];
        [apply (readUIntLE_nonneg _ _ _ _ Hb) in H
        |exact I
        |exfalso; exact (readUIntLE_fuel _ _ _ H)]
    | |- context [bind (readUIntLE ?d ?o ?n) _] =>
        let H := fresh "Hread" in
        destruct (readUIntLE d o n) eqn:H; cbn [bind];
        [apply (readUIntLE_nonneg _ _ _ _ Hb) in H
        |exact I
        |exfalso; exact (readUIntLE_fuel _ _ _ H)]
    end.

Section Adequacy.

Variable number_toString : value -> string.

Lemma advances_loop {A : Type} (a : A) (data ptr rest : Buffer)
  (objectList : list value) :
  data <> [] -> ptr = subarray_from data 1 ->
  advances (0 :: ptr) (Return (a, rest, objectList)) ->
  forall v, advances data (finish v rest false objectList).
Proof.
  intros Hne -> [Hlen Hb] v. unfold finish. cbn [andb advances].
  split; [|exact Hb]. unfold subarray_from in Hlen.
  cbn [length] in Hlen. rewrite length_skipn in Hlen.
  destruct data; [contradiction|]. cbn [length Z.to_nat Pos.to_nat Pos.iter_op] in *. lia.
Qed.

(** [unpackInternal] on a buffer of bytes, with more fuel than bytes, does
    not run out of fuel, and leaves less to read than it was given. *)
Lemma unpackInternal_advances (fuel : nat) : forall data objectList,
  is_bytes data -> (length data < fuel)%nat ->
  advances data (unpackInternal number_toString fuel data objectList).
Proof.
  induction fuel as [|fuel IH]; intros data objectList Hb Hfuel; [lia|].
  cbn [unpackInternal].
  destruct (byte_at data 0) as [tag|] eqn:Htag; [|exact I].
  assert (Hne : data <> []) by (intros ->; discriminate).
  assert (Hptr : is_bytes (subarray_from data 1)) by (apply is_bytes_skipn, Hb).
  assert (Hplen : (length (subarray_from data 1) < fuel)%nat).
  { unfold subarray_from. rewrite length_skipn. destruct data; [contradiction|].
    cbn [length] in *. lia. }
  repeat match goal with
    | |- advances _ (if ?c then _ else _) => destruct c eqn:?
    end; reflect_tests; read_cases Hb;
    try (apply advances_finish; [exact Hb|exact Hne|]);
    try (apply advances_finish_reference; [exact Hb|exact Hne|]).
  all: try lia.
  all: try match goal with
    | H : 0 <= ?n |- 1 <= _ + js_round ?n =>
        pose proof (js_round_nonneg n H)
    end.
  all: try match goal with
    | |- 1 <= 1 + Z.shiftl 1 ?x + _ =>
        assert (0 <= Z.shiftl 1 x) by (apply Z.shiftl_nonneg; lia)
    | |- 1 <= 1 + Z.shiftl 1 ?x =>
        assert (0 <= Z.shiftl 1 x) by (apply Z.shiftl_nonneg; lia)
    | |- 1 <= 1 + Z.land ?x ?y + _ =>
        assert (0 <= Z.land x y) by (apply Z.land_nonneg; lia)
    end.
  all: try lia.
  all: try match goal with
    | |- advances _ (bind ?loop _) =>
        let H := fresh "Hloop" in
        assert (H : advances (0 :: subarray_from data 1) loop)
          by (first [apply (array_while_advances number_toString _ fuel IH)
                    |apply (array_for_advances number_toString _ fuel IH)
                    |apply (dict_while_advances number_toString _ fuel IH)
                    |apply (dict_for_advances number_toString _ fuel IH)];
              assumption || lia);
        destruct loop as [[[o r] l]| |]; cbn [bind];
        [apply (advances_loop o data (subarray_from data 1) r l Hne eq_refl H)
        |exact I|exact H]
    end.
  all: exact I.
Qed.

End Adequacy.

(** [unpack] gives its run enough fuel. *)
Lemma unpack_fuel_enough (number_toString : value -> string) (data : Buffer) :
  is_bytes data -> unpack number_toString data <> OutOfFuel.
Proof.
  intros Hb. unfold unpack.
  pose proof (unpackInternal_advances number_toString (unpack_fuel data) data []
                Hb ltac:(unfold unpack_fuel; lia)) as Hadv.
  destruct (unpackInternal number_toString (unpack_fuel data) data [])
    as [[[v rest] ol]| |]; cbn [bind advances] in *; [discriminate|discriminate|].
  contradiction.
Qed.


Lemma findIndex_In (objectList : list Buffer) (b : Buffer) (i : Z) :
  findIndex objectList b = Some i -> In b objectList.
Proof.
  revert i. induction objectList as [|buf rest IH]; intros i; cbn [findIndex]; [discriminate|].
  destruct (Buffer_equals buf b) eqn:Heq.
  - intros _. left. now apply Buffer_equals_eq.
  - destruct (findIndex rest b); [|discriminate]. intros _. right. eapply IH. reflexivity.
Qed.

(** The back-reference rule of the encoder: an encoding of one byte is
    never put in the object list; a new encoding of more than one byte is,
    whatever the type of the value it encodes. *)
Lemma deduplicate_one_byte (packedBytes : Buffer) (objectList : list Buffer) :
  buffer_length packedBytes <= 1 ->
  snd (deduplicate packedBytes objectList) = objectList.
Proof.
  intros Hlen. unfold deduplicate.
  destruct (findIndex objectList packedBytes).
  - repeat match goal with |- context [if ?c then _ else _] => destruct c end; reflexivity.
  - destruct (Z.ltb_spec 1 (buffer_length packedBytes)); [lia|reflexivity].
Qed.

Lemma deduplicate_indexed (packedBytes : Buffer) (objectList : list Buffer) :
  1 < buffer_length packedBytes ->
  In packedBytes (snd (deduplicate packedBytes objectList)).
Proof.
  intros Hlen. unfold deduplicate.
  destruct (findIndex objectList packedBytes) as [i|] eqn:Hfind.
  - apply findIndex_In in Hfind.
    repeat match goal with |- context [if ?c then _ else _] => destruct c end; exact Hfind.
  - destruct (Z.ltb_spec 1 (buffer_length packedBytes)); [|lia].
    cbn [snd]. apply in_or_app. right. left. reflexivity.
Qed.

Lemma deduplicate_nonempty (packedBytes : Buffer) (objectList : list Buffer) :
  packedBytes <> [] -> fst (deduplicate packedBytes objectList) <> [].
Proof.
  intros Hne. unfold deduplicate.
  destruct (findIndex objectList packedBytes);
    repeat match goal with |- context [if ?c then _ else _] => destruct c end;
    cbn [fst]; try exact Hne; discriminate.
Qed.

Lemma packInteger_nonempty (v : Z) (hint : option Z) (b : Buffer) :
  packInteger v hint = Return b -> b <> [].
Proof.
  unfold packInteger.
  repeat match goal with |- context [if ?c then _ else _] => destruct c end;
    try (intros H; injection H as <-; discriminate);
    match goal with |- context [writeUIntLE ?n ?v] => destruct (writeUIntLE n v) end;
    cbn [bind]; intros H; try discriminate; injection H as <-; discriminate.
Qed.

Lemma packString_nonempty (s : string) (b : Buffer) :
  packString s = Return b -> b <> [].
Proof.
  unfold packString.
  repeat match goal with |- context [if ?c then _ else _] => destruct c end;
    try (intros H; injection H as <-; discriminate);
    match goal with |- context [writeUIntLE ?n ?v] => destruct (writeUIntLE n v) end;
    cbn [bind]; intros H; try discriminate; injection H as <-; discriminate.
Qed.

Lemma packBytes_nonempty (d b : Buffer) : packBytes d = Return b -> b <> [].
Proof.
  unfold packBytes.
  repeat match goal with |- context [if ?c then _ else _] => destruct c end;
    try (intros H; injection H as <-; discriminate);
    match goal with |- context [writeUIntLE ?n ?v] => destruct (writeUIntLE n v) end;
    cbn [bind]; intros H; try discriminate; injection H as <-; discriminate.
Qed.

Lemma deduplicate_Return (packedBytes b : Buffer) (objectList objectList' : list Buffer) :
  @Return (Buffer * list Buffer) (deduplicate packedBytes objectList)
  = Return (b, objectList') ->
  b = fst (deduplicate packedBytes objectList)
  /\ objectList' = snd (deduplicate packedBytes objectList).
Proof. intros H. injection H as H. rewrite H. split; reflexivity. Qed.

Ltac nonempty_by lemma :=
  match goal with
  | |- context [bind (bind ?p _) _] =>
      let Hp := fresh "Hp" in
      destruct p eqn:Hp; cbn [bind]; try discriminate;
      let H := fresh "H" in
      intros H; apply deduplicate_Return in H; destruct H as [-> _];
      apply deduplicate_nonempty; eapply lemma; eassumption
  end.

(** Every value is packed to at least one byte. *)
Lemma packInternal_nonempty (data : value) (objectList objectList' : list Buffer)
  (b : Buffer) :
  packInternal data objectList = Return (b, objectList') -> b <> [].
Proof.
  destruct data as [| |flag| |bytes|value_ size|n|bits|s|b0|items|entries|];
    cbn [packInternal bind]; try discriminate.
  all: try (intros H; apply deduplicate_Return in H; destruct H as [-> _];
            apply deduplicate_nonempty;
            unfold Buffer_concat, Buffer_from; cbn [map concat app]; discriminate).
  - nonempty_by packInteger_nonempty.
  - nonempty_by packInteger_nonempty.
  - nonempty_by packString_nonempty.
  - nonempty_by packBytes_nonempty.
  - unfold packArray.
    destruct (pack_items packInternal items objectList) as [[its ol]| |];
      cbn [bind]; try discriminate.
    destruct (15 <=? Z.of_nat (length items)); cbn [bind];
      intros H; apply deduplicate_Return in H; destruct H as [-> _];
      apply deduplicate_nonempty; discriminate.
  - match goal with |- context [pack_items ?f entries objectList] =>
      destruct (pack_items f entries objectList) as [[its ol]| |] end;
      cbn [bind]; try discriminate.
    destruct (15 <=? Z.of_nat (length entries)); cbn [bind];
      intros H; apply deduplicate_Return in H; destruct H as [-> _];
      apply deduplicate_nonempty; discriminate.
Qed.

(** The encoder indexes arrays: when [packInternal] returns from an array
    with at least one item, the encoding of the array, which starts with an
    array tag, is in the object list. *)
Lemma packInternal_indexes_arrays (item : value) (items : list value)
  (objectList objectList' : list Buffer) (b : Buffer) :
  packInternal (VArray (item :: items)) objectList = Return (b, objectList') ->
  exists encoding,
    In encoding objectList' /\
    byte_at encoding 0 = Some (0xd0 + Z.min (Z.of_nat (length (item :: items))) 0xf) /\
    1 < buffer_length encoding.
Proof.
  cbn [packInternal]. unfold packArray. cbn [pack_items].
  destruct (packInternal item objectList) as [[packed ol1]| |] eqn:Hitem;
    cbn [bind]; try discriminate.
  destruct (pack_items packInternal items ol1) as [[rest ol2]| |]; cbn [bind];
    try discriminate.
  pose proof (packInternal_nonempty _ _ _ _ Hitem) as Hne.
  set (count := Z.min (Z.of_nat (length (item :: items))) 15).
  assert (Hcount : 0 <= count <= 15) by (unfold count; lia).
  assert (Hhdr : Buffer_from [208 + count] = [208 + count]).
  { unfold Buffer_from. cbn [map]. rewrite Z.mod_small by lia. reflexivity. }
  rewrite Hhdr. unfold Buffer_concat. cbn [concat app]. rewrite app_nil_r.
  assert (Hlen : forall tail : Buffer, 1 < buffer_length ((208 + count) :: (packed ++ rest) ++ tail)).
  { intros tail. unfold buffer_length. cbn [length]. rewrite !length_app.
    destruct packed; [contradiction|cbn [length]; lia]. }
  destruct (15 <=? Z.of_nat (length (item :: items))); cbn [bind];
    intros H; apply deduplicate_Return in H; destruct H as [_ ->].
  - eexists. split; [apply deduplicate_indexed|split; [reflexivity|]].
    + rewrite app_nil_r. apply Hlen.
    + rewrite app_nil_r. apply Hlen.
  - eexists. split; [apply deduplicate_indexed|split; [reflexivity|]].
    + specialize (Hlen []). now rewrite app_nil_r in Hlen.
    + specialize (Hlen []). now rewrite app_nil_r in Hlen.
Qed.

(** And maps. *)
Lemma packInternal_indexes_maps (key : string) (val : value)
  (entries : list (string * value))
  (objectList objectList' : list Buffer) (b : Buffer) :
  packInternal (VDict ((key, val) :: entries)) objectList = Return (b, objectList') ->
  exists encoding,
    In encoding objectList' /\
    byte_at encoding 0
    = Some (0xe0 + Z.min (Z.of_nat (length ((key, val) :: entries))) 0xf) /\
    1 < buffer_length encoding.
Proof.
  cbn [packInternal pack_items fst snd].
  destruct (packString key) as [pk| |] eqn:Hkey; cbn [bind]; try discriminate.
  pose proof (deduplicate_nonempty pk objectList (packString_nonempty _ _ Hkey)) as Hne.
  destruct (deduplicate pk objectList) as [k ol0]. cbn [fst bind] in *.
  destruct (packInternal val ol0) as [[v ol1]| |]; cbn [bind]; try discriminate.
  match goal with |- context [pack_items ?f entries ol1] =>
    destruct (pack_items f entries ol1) as [[rest ol2]| |] end;
    cbn [bind]; try discriminate.
  set (count := Z.min (Z.of_nat (length ((key, val) :: entries))) 15).
  assert (Hcount : 0 <= count <= 15) by (unfold count; lia).
  assert (Hhdr : Buffer_from [224 + count] = [224 + count]).
  { unfold Buffer_from. cbn [map]. rewrite Z.mod_small by lia. reflexivity. }
  rewrite Hhdr. unfold Buffer_concat. cbn [concat app]. rewrite app_nil_r.
  assert (Hlen : forall tail : Buffer,
             1 < buffer_length ((224 + count) :: ((k ++ v) ++ rest) ++ tail)).
  { intros tail. unfold buffer_length. cbn [length]. rewrite !length_app.
    destruct k; [contradiction|cbn [length]; lia]. }
  destruct (15 <=? Z.of_nat (length ((key, val) :: entries))); cbn [bind];
    intros H; apply deduplicate_Return in H; destruct H as [_ ->].
  - eexists. split; [apply deduplicate_indexed|split; [reflexivity|]].
    + rewrite app_nil_r. apply Hlen.
    + rewrite app_nil_r. apply Hlen.
  - eexists. split; [apply deduplicate_indexed|split; [reflexivity|]].
    + specialize (Hlen []). now rewrite app_nil_r in Hlen.
    + specialize (Hlen []). now rewrite app_nil_r in Hlen.
Qed.

(** ** Round trip of scalar values *)

Lemma land_f0_30 (t : Z) : 0 <= t < 256 -> Z.land t 0xf0 = 0x30 -> 0x30 <= t <= 0x3f.
Proof.
  intros Ht Hl.
  assert (Htable : forallb (fun n => implb (Z.land (Z.of_nat n) 0xf0 =? 0x30)
                                 ((0x30 <=? Z.of_nat n) && (Z.of_nat n <=? 0x3f)))
                     (seq 0 256) = true) by (vm_compute; reflexivity).
  rewrite forallb_forall in Htable.
  specialize (Htable (Z.to_nat t)). rewrite Z2Nat.id in Htable by lia.
  rewrite in_seq in Htable. specialize (Htable ltac:(lia)).
  rewrite Hl in Htable. cbn [Z.eqb Pos.eqb implb] in Htable.
  apply andb_true_iff in Htable. destruct Htable as [H1 H2].
  apply Z.leb_le in H1, H2. lia.
Qed.


Lemma deduplicate_nil (b : Buffer) : fst (deduplicate b []) = b.
Proof. unfold deduplicate. cbn [findIndex]. destruct (1 <? buffer_length b); reflexivity. Qed.

(** Reading back an integer of [k] bytes that follows the tag. *)
Lemma readUIntLE_le_bytes (k : nat) (tag v : Z) (rest : Buffer) :
  0 <= v < 2 ^ (8 * Z.of_nat k) ->
  readUIntLE (tag :: le_bytes k v ++ rest) 1 (Z.of_nat k) = Return v.
Proof.
  intros Hv. unfold readUIntLE.
  assert (Hlen : buffer_length (tag :: le_bytes k v ++ rest)
                 = 1 + Z.of_nat k + buffer_length rest).
  { unfold buffer_length. cbn [length]. rewrite length_app, length_le_bytes. lia. }
  rewrite Hlen. pose proof (buffer_length_nonneg rest).
  destruct (Z.leb_spec (1 + Z.of_nat k) (1 + Z.of_nat k + buffer_length rest)); [|lia].
  f_equal.
  replace 1 with (1 + 0) at 1 by lia.
  rewrite subarray_cons by lia.
  rewrite <- (length_le_bytes' k v) at 1. rewrite subarray_app_l.
  rewrite le_value_le_bytes. apply Z.mod_small. exact Hv.
Qed.


Ltac solve_false :=
  first
    [ apply Z.eqb_neq; lia
    | apply andb_false_iff;
      first [ left; first [apply Z.leb_gt | apply Z.ltb_ge]; lia
            | right; first [apply Z.leb_gt | apply Z.ltb_ge]; lia ]
    | apply Z.eqb_neq;
      let H := fresh in intros H; apply land_f0_30 in H; lia ].

Ltac test_false :=
  match goal with
  | |- (if ?c then _ else _) = _ =>
      replace c with false by (symmetry; solve_false); cbv iota
  end.

Ltac test_true :=
  match goal with
  | |- (if ?c then _ else _) = _ =>
      replace c with true
        by (symmetry; apply andb_true_iff; split;
            first [apply Z.leb_le | apply Z.ltb_lt]; lia);
      cbv iota
  end.

Section Cases.

Variable number_toString : value -> string.

Lemma unpackInternal_small_int fuel n rest ol :
  0 <= n < 0x28 ->
  unpackInternal number_toString (S fuel) ((n + 8) :: rest) ol
  = finish (VInt n) rest false ol.
Proof.
  intros Hn. cbn [unpackInternal]. rewrite byte_at_0.
  repeat test_false. test_true.
  replace (n + 8 - 8) with n by lia. reflexivity.
Qed.

Lemma unpackInternal_uint8 fuel x rest ol :
  0 <= x < 2 ^ 8 ->
  unpackInternal number_toString (S fuel) (0x30 :: le_bytes 1 x ++ rest) ol
  = finish (VSizedInt x 1) rest true ol.
Proof.
  intros Hx. cbn [unpackInternal]. rewrite byte_at_0.
  cbn -[le_bytes readUIntLE subarray_from finish].
  rewrite (readUIntLE_le_bytes 1) by exact Hx. cbn [bind].
  change 2 with (1 + buffer_length (le_bytes 1 x)).
  rewrite subarray_from_cons, subarray_from_app by (unfold buffer_length; lia).
  reflexivity.
Qed.

Lemma unpackInternal_uint16 fuel x rest ol :
  0 <= x < 2 ^ 16 ->
  unpackInternal number_toString (S fuel) (0x31 :: le_bytes 2 x ++ rest) ol
  = finish (VSizedInt x 2) rest true ol.
Proof.
  intros Hx. cbn [unpackInternal]. rewrite byte_at_0.
  cbn -[le_bytes readUIntLE subarray_from finish].
  rewrite (readUIntLE_le_bytes 2) by exact Hx. cbn [bind].
  change 3 with (1 + buffer_length (le_bytes 2 x)).
  rewrite subarray_from_cons, subarray_from_app by (unfold buffer_length; lia).
  reflexivity.
Qed.

Lemma unpackInternal_uint32 fuel x rest ol :
  0 <= x < 2 ^ 32 ->
  unpackInternal number_toString (S fuel) (0x32 :: le_bytes 4 x ++ rest) ol
  = finish (VSizedInt x 4) rest true ol.
Proof.
  intros Hx. cbn [unpackInternal]. rewrite byte_at_0.
  cbn -[le_bytes readUIntLE subarray_from finish].
  rewrite (readUIntLE_le_bytes 4) by exact Hx. cbn [bind].
  change 5 with (1 + buffer_length (le_bytes 4 x)).
  rewrite subarray_from_cons, subarray_from_app by (unfold buffer_length; lia).
  reflexivity.
Qed.

Lemma unpackInternal_uint64 fuel x rest ol :
  0 <= x < 2 ^ 64 ->
  unpackInternal number_toString (S fuel) (0x33 :: le_bytes 8 x ++ rest) ol
  = finish (VSizedInt (js_round x) 8) rest true ol.
Proof.
  intros Hx. cbn [unpackInternal]. rewrite byte_at_0.
  cbn -[le_bytes readUIntLE subarray_from finish js_round].
  rewrite (readUIntLE_le_bytes 8) by exact Hx. cbn [bind].
  change 9 with (1 + buffer_length (le_bytes 8 x)).
  rewrite subarray_from_cons, subarray_from_app by (unfold buffer_length; lia).
  reflexivity.
Qed.

Lemma unpackInternal_float64 fuel bits rest ol :
  0 <= bits < 2 ^ 64 ->
  unpackInternal number_toString (S fuel) (0x36 :: le_bytes 8 bits ++ rest) ol
  = finish (number_of_binary64 bits) rest true ol.
Proof.
  intros Hx. cbn [unpackInternal]. rewrite byte_at_0.
  cbn -[le_bytes readUIntLE subarray_from finish number_of_binary64].
  rewrite (readUIntLE_le_bytes 8) by exact Hx. cbn [bind].
  change 9 with (1 + buffer_length (le_bytes 8 bits)).
  rewrite subarray_from_cons, subarray_from_app by (unfold buffer_length; lia).
  reflexivity.
Qed.


(** The value and the rest after a tag and a header of [k] bytes. *)
Lemma after_header (tag : Z) (k : nat) (header e rest : Buffer) :
  length header = k ->
  subarray (tag :: header ++ e ++ rest) (1 + Z.of_nat k) (1 + Z.of_nat k + buffer_length e)
  = e
  /\ subarray_from (tag :: header ++ e ++ rest) (1 + Z.of_nat k + buffer_length e) = rest.
Proof.
  intros Hk. pose proof (buffer_length_nonneg e). split.
  - replace (1 + Z.of_nat k + buffer_length e) with (1 + (Z.of_nat k + buffer_length e))
      by lia.
    rewrite subarray_cons by lia.
    replace (Z.of_nat k) with (buffer_length header) by (unfold buffer_length; lia).
    replace (buffer_length header) with (buffer_length header + 0) at 1 by lia.
    rewrite subarray_app_r by lia. apply subarray_app_l.
  - replace (1 + Z.of_nat k + buffer_length e) with (1 + (Z.of_nat k + buffer_length e))
      by lia.
    rewrite subarray_from_cons by lia.
    replace (Z.of_nat k + buffer_length e) with (buffer_length (header ++ e))
      by (rewrite buffer_length_app; unfold buffer_length; lia).
    rewrite app_assoc. apply subarray_from_app.
Qed.

Lemma unpackInternal_short_string fuel (e rest : Buffer) ol :
  buffer_length e <= 0x20 ->
  unpackInternal number_toString (S fuel) ((0x40 + buffer_length e) :: e ++ rest) ol
  = finish (VString (Buffer_toString e)) rest true ol.
Proof.
  intros He. pose proof (buffer_length_nonneg e).
  cbn [unpackInternal]. rewrite byte_at_0.
  repeat test_false. test_true.
  replace (64 + buffer_length e - 64) with (buffer_length e) by lia.
  destruct (after_header (64 + buffer_length e) 0 [] e rest eq_refl) as [Hv Hr].
  cbn [app Z.of_nat] in Hv, Hr. rewrite Z.add_0_r in Hv, Hr.
  rewrite Hv, Hr. reflexivity.
Qed.

Lemma unpackInternal_short_bytes fuel (e rest : Buffer) ol :
  buffer_length e <= 0x20 ->
  unpackInternal number_toString (S fuel) ((0x70 + buffer_length e) :: e ++ rest) ol
  = finish (VBytes e) rest true ol.
Proof.
  intros He. pose proof (buffer_length_nonneg e).
  cbn [unpackInternal]. rewrite byte_at_0.
  repeat test_false. test_true.
  replace (112 + buffer_length e - 112) with (buffer_length e) by lia.
  destruct (after_header (112 + buffer_length e) 0 [] e rest eq_refl) as [Hv Hr].
  cbn [app Z.of_nat] in Hv, Hr. rewrite Z.add_0_r in Hv, Hr.
  rewrite Hv, Hr. reflexivity.
Qed.

Lemma unpackInternal_string8 fuel (e rest : Buffer) ol :
  buffer_length e < 2 ^ 8 ->
  unpackInternal number_toString (S fuel)
    (0x61 :: le_bytes 1 (buffer_length e) ++ e ++ rest) ol
  = finish (VString (Buffer_toString e)) rest true ol.
Proof.
  intros He. pose proof (buffer_length_nonneg e).
  cbn [unpackInternal]. rewrite byte_at_0.
  cbn -[le_bytes readUIntLE subarray subarray_from finish Buffer_toString buffer_length
         Z.add].
  rewrite (readUIntLE_le_bytes 1) by (change (Z.of_nat 1) with 1; lia). cbn [bind].
  destruct (after_header 0x61 1 (le_bytes 1 (buffer_length e)) e rest
              (length_le_bytes _ _)) as [Hv Hr].
  change (Z.of_nat 1) with 1 in Hv, Hr. rewrite Hv, Hr. reflexivity.
Qed.

Lemma unpackInternal_string16 fuel (e rest : Buffer) ol :
  buffer_length e < 2 ^ 16 ->
  unpackInternal number_toString (S fuel)
    (0x62 :: le_bytes 2 (buffer_length e) ++ e ++ rest) ol
  = finish (VString (Buffer_toString e)) rest true ol.
Proof.
  intros He. pose proof (buffer_length_nonneg e).
  cbn [unpackInternal]. rewrite byte_at_0.
  cbn -[le_bytes readUIntLE subarray subarray_from finish Buffer_toString buffer_length
         Z.add].
  rewrite (readUIntLE_le_bytes 2) by (change (Z.of_nat 2) with 2; lia). cbn [bind].
  destruct (after_header 0x62 2 (le_bytes 2 (buffer_length e)) e rest
              (length_le_bytes _ _)) as [Hv Hr].
  change (Z.of_nat 2) with 2 in Hv, Hr. rewrite Hv, Hr. reflexivity.
Qed.

Lemma unpackInternal_string24 fuel (e rest : Buffer) ol :
  buffer_length e < 2 ^ 24 ->
  unpackInternal number_toString (S fuel)
    (0x63 :: le_bytes 3 (buffer_length e) ++ e ++ rest) ol
  = finish (VString (Buffer_toString e)) rest true ol.
Proof.
  intros He. pose proof (buffer_length_nonneg e).
  cbn [unpackInternal]. rewrite byte_at_0.
  cbn -[le_bytes readUIntLE subarray subarray_from finish Buffer_toString buffer_length
         Z.add].
  rewrite (readUIntLE_le_bytes 3) by (change (Z.of_nat 3) with 3; lia). cbn [bind].
  destruct (after_header 0x63 3 (le_bytes 3 (buffer_length e)) e rest
              (length_le_bytes _ _)) as [Hv Hr].
  change (Z.of_nat 3) with 3 in Hv, Hr. rewrite Hv, Hr. reflexivity.
Qed.

Lemma unpackInternal_string32 fuel (e rest : Buffer) ol :
  buffer_length e < 2 ^ 32 ->
  unpackInternal number_toString (S fuel)
    (0x64 :: le_bytes 4 (buffer_length e) ++ e ++ rest) ol
  = finish (VString (Buffer_toString e)) rest true ol.
Proof.
  intros He. pose proof (buffer_length_nonneg e).
  cbn [unpackInternal]. rewrite byte_at_0.
  cbn -[le_bytes readUIntLE subarray subarray_from finish Buffer_toString buffer_length
         Z.add].
  rewrite (readUIntLE_le_bytes 4) by (change (Z.of_nat 4) with 4; lia). cbn [bind].
  destruct (after_header 0x64 4 (le_bytes 4 (buffer_length e)) e rest
              (length_le_bytes _ _)) as [Hv Hr].
  change (Z.of_nat 4) with 4 in Hv, Hr. rewrite Hv, Hr. reflexivity.
Qed.

Lemma unpackInternal_bytes8 fuel (e rest : Buffer) ol :
  buffer_length e < 2 ^ 8 ->
  unpackInternal number_toString (S fuel)
    (0x91 :: le_bytes 1 (buffer_length e) ++ e ++ rest) ol
  = finish (VBytes e) rest true ol.
Proof.
  intros He. pose proof (buffer_length_nonneg e).
  cbn [unpackInternal]. rewrite byte_at_0.
  cbn -[le_bytes readUIntLE subarray subarray_from finish buffer_length Z.add].
  change (Z.shiftl 1 (1 - 1)) with 1.
  cbn -[le_bytes readUIntLE subarray subarray_from finish buffer_length Z.add].
  rewrite (readUIntLE_le_bytes 1) by (change (Z.of_nat 1) with 1; lia). cbn [bind].
  destruct (after_header 0x91 1 (le_bytes 1 (buffer_length e)) e rest
              (length_le_bytes _ _)) as [Hv Hr].
  change (Z.of_nat 1) with 1 in Hv, Hr. rewrite Hv, Hr. reflexivity.
Qed.

Lemma unpackInternal_bytes16 fuel (e rest : Buffer) ol :
  buffer_length e < 2 ^ 16 ->
  unpackInternal number_toString (S fuel)
    (0x92 :: le_bytes 2 (buffer_length e) ++ e ++ rest) ol
  = finish (VBytes e) rest true ol.
Proof.
  intros He. pose proof (buffer_length_nonneg e).
  cbn [unpackInternal]. rewrite byte_at_0.
  cbn -[le_bytes readUIntLE subarray subarray_from finish buffer_length Z.add].
  change (Z.shiftl 1 (2 - 1)) with 2.
  cbn -[le_bytes readUIntLE subarray subarray_from finish buffer_length Z.add].
  rewrite (readUIntLE_le_bytes 2) by (change (Z.of_nat 2) with 2; lia). cbn [bind].
  destruct (after_header 0x92 2 (le_bytes 2 (buffer_length e)) e rest
              (length_le_bytes _ _)) as [Hv Hr].
  change (Z.of_nat 2) with 2 in Hv, Hr. rewrite Hv, Hr. reflexivity.
Qed.

Lemma unpackInternal_bytes32 fuel (e rest : Buffer) ol :
  buffer_length e < 2 ^ 32 ->
  unpackInternal number_toString (S fuel)
    (0x93 :: le_bytes 4 (buffer_length e) ++ e ++ rest) ol
  = finish (VBytes e) rest true ol.
Proof.
  intros He. pose proof (buffer_length_nonneg e).
  cbn [unpackInternal]. rewrite byte_at_0.
  cbn -[le_bytes readUIntLE subarray subarray_from finish buffer_length Z.add].
  change (Z.shiftl 1 (3 - 1)) with 4.
  cbn -[le_bytes readUIntLE subarray subarray_from finish buffer_length Z.add].
  rewrite (readUIntLE_le_bytes 4) by (change (Z.of_nat 4) with 4; lia). cbn [bind].
  destruct (after_header 0x93 4 (le_bytes 4 (buffer_length e)) e rest
              (length_le_bytes _ _)) as [Hv Hr].
  change (Z.of_nat 4) with 4 in Hv, Hr. rewrite Hv, Hr. reflexivity.
Qed.


Lemma unpack_finish (data : Buffer) (v : value) (add : bool) :
  unpackInternal number_toString (unpack_fuel data) data [] = finish v [] add [] ->
  unpack number_toString data = Return (v, []).
Proof.
  intros H. unfold unpack. rewrite H. unfold finish.
  destruct (add && negb (includes [] v)); reflexivity.
Qed.

Lemma writeUIntLE_Return (k : nat) (v : Z) :
  0 <= v < 2 ^ (8 * Z.of_nat k) -> writeUIntLE k v = Return (le_bytes k v).
Proof.
  intros Hv. unfold writeUIntLE.
  destruct (Z.leb_spec 0 v); [|lia].
  destruct (Z.ltb_spec v (2 ^ (8 * Z.of_nat k))); [|lia]. reflexivity.
Qed.

Lemma pack_deduplicate (packedBytes : Buffer) :
  (let* (b, _) := Return (deduplicate packedBytes []) in Return b)
  = @Return Buffer packedBytes.
Proof. cbn [bind]. rewrite <- (deduplicate_nil packedBytes) at 2.
  destruct (deduplicate packedBytes []). reflexivity. Qed.

Lemma value_eqb_VFloat (v : value) (bits : Z) :
  value_eqb v (VFloat bits) = true -> v = VFloat bits.
Proof.
  destruct v; cbn; try discriminate. intros H. apply Z.eqb_eq in H. now subst.
Qed.

End Cases.

Ltac by_case lemma arg :=
  match goal with
  | |- unpackInternal ?nts (S ?f) _ _ = _ =>
      let Hu := fresh "Hu" in
      pose proof (lemma nts f arg [] []) as Hu;
      rewrite app_nil_r in Hu; apply Hu; lia
  end.

(** Round trip of one scalar value. *)
Theorem scalar_roundtrip (number_toString : value -> string) (v : value) :
  scalar v = true ->
  exists packed v',
    pack v = Return packed /\
    unpack number_toString packed = Return (v', []) /\
    equal_up_to_width v v' = true /\
    match v with VSizedInt _ _ => v' = v | _ => True end.
Proof.
  destruct v as [| |flag| |bytes|x size|n|bits|s|b|items|entries|];
    cbn [scalar]; try discriminate; intros Hs.
  - exists [0x04], VNull. repeat split; reflexivity.
  - destruct flag; [exists [0x01], (VBool true)|exists [0x02], (VBool false)];
      repeat split; reflexivity.
  - (* SizedInt *)
    apply andb_true_iff in Hs. destruct Hs as [Hs Hround].
    apply andb_true_iff in Hs. destruct Hs as [Hs Hhi].
    apply andb_true_iff in Hs. destruct Hs as [Hsize Hlo].
    apply Z.leb_le in Hlo. apply Z.ltb_lt in Hhi. apply Z.eqb_eq in Hround.
    assert (Hcases : size = 1 \/ size = 2 \/ size = 4 \/ size = 8).
    { repeat (apply orb_true_iff in Hsize; destruct Hsize as [Hsize|Hsize]);
        apply Z.eqb_eq in Hsize; auto. }
    unfold pack. cbn [packInternal]. unfold packInteger.
    destruct Hcases as [ -> | [ -> | [ -> | -> ] ] ];
      cbn [Z.eqb Pos.eqb]; rewrite ?andb_false_r; cbn [orb].
    + rewrite (writeUIntLE_Return 1) by exact (conj Hlo Hhi). cbn [bind].
      rewrite <- (app_nil_r (le_bytes 1 x)).
      eexists _, (VSizedInt x 1). split; [apply pack_deduplicate|].
      split; [|split; [cbn; now rewrite Z.eqb_refl|reflexivity]].
      apply unpack_finish with (add := true). unfold unpack_fuel.
      apply unpackInternal_uint8. lia.
    + rewrite (writeUIntLE_Return 2) by exact (conj Hlo Hhi). cbn [bind].
      rewrite <- (app_nil_r (le_bytes 2 x)).
      eexists _, (VSizedInt x 2). split; [apply pack_deduplicate|].
      split; [|split; [cbn; now rewrite Z.eqb_refl|reflexivity]].
      apply unpack_finish with (add := true). unfold unpack_fuel.
      apply unpackInternal_uint16. lia.
    + rewrite (writeUIntLE_Return 4) by exact (conj Hlo Hhi). cbn [bind].
      rewrite <- (app_nil_r (le_bytes 4 x)).
      eexists _, (VSizedInt x 4). split; [apply pack_deduplicate|].
      split; [|split; [cbn; now rewrite Z.eqb_refl|reflexivity]].
      apply unpack_finish with (add := true). unfold unpack_fuel.
      apply unpackInternal_uint32. lia.
    + rewrite (writeUIntLE_Return 8) by exact (conj Hlo Hhi). cbn [bind].
      rewrite <- (app_nil_r (le_bytes 8 x)).
      eexists _, (VSizedInt x 8). split; [apply pack_deduplicate|].
      split; [|split; [cbn; now rewrite Z.eqb_refl|reflexivity]].
      apply unpack_finish with (add := true). unfold unpack_fuel.
      pose proof (unpackInternal_uint64 number_toString
                    (S (length (51 :: le_bytes 8 x ++ []))) x [] []
                    ltac:(change (8 * 8) with 64 in Hhi; lia)) as Hu.
      rewrite Hround in Hu. exact Hu.
  - (* integer *)
    apply andb_true_iff in Hs. destruct Hs as [Hs Hround].
    apply andb_true_iff in Hs. destruct Hs as [Hlo Hhi].
    apply Z.leb_le in Hlo. apply Z.ltb_lt in Hhi. apply Z.eqb_eq in Hround.
    unfold pack. cbn [packInternal]. unfold packInteger. cbn [andb orb].
    rewrite !andb_true_r, !orb_false_r.
    destruct (Z.ltb_spec n 40).
    { cbn [bind]. unfold Buffer_from. cbn [map]. rewrite Z.mod_small by lia.
      eexists _, (VInt n). split; [apply pack_deduplicate|].
      split; [|split; [cbn; now rewrite Z.eqb_refl|exact I]].
      apply unpack_finish with (add := false). unfold unpack_fuel.
      apply unpackInternal_small_int. lia. }
    destruct (Z.leb_spec n 255).
    { rewrite (writeUIntLE_Return 1) by (change (2 ^ (8 * Z.of_nat 1)) with 256; lia).
      cbn [bind]. rewrite <- (app_nil_r (le_bytes 1 n)).
      eexists _, (VSizedInt n 1). split; [apply pack_deduplicate|].
      split; [|split; [cbn; now rewrite Z.eqb_refl|exact I]].
      apply unpack_finish with (add := true). unfold unpack_fuel.
      apply unpackInternal_uint8. lia. }
    destruct (Z.leb_spec n 65535).
    { rewrite (writeUIntLE_Return 2) by (change (2 ^ (8 * Z.of_nat 2)) with 65536; lia).
      cbn [bind]. rewrite <- (app_nil_r (le_bytes 2 n)).
      eexists _, (VSizedInt n 2). split; [apply pack_deduplicate|].
      split; [|split; [cbn; now rewrite Z.eqb_refl|exact I]].
      apply unpack_finish with (add := true). unfold unpack_fuel.
      apply unpackInternal_uint16. lia. }
    destruct (Z.leb_spec n 4294967295).
    { rewrite (writeUIntLE_Return 4)
        by (change (2 ^ (8 * Z.of_nat 4)) with 4294967296; lia).
      cbn [bind]. rewrite <- (app_nil_r (le_bytes 4 n)).
      eexists _, (VSizedInt n 4). split; [apply pack_deduplicate|].
      split; [|split; [cbn; now rewrite Z.eqb_refl|exact I]].
      apply unpack_finish with (add := true). unfold unpack_fuel.
      apply unpackInternal_uint32. lia. }
    rewrite (writeUIntLE_Return 8) by (change (2 ^ (8 * Z.of_nat 8)) with (2 ^ 64); lia).
    cbn [bind]. rewrite <- (app_nil_r (le_bytes 8 n)).
    eexists _, (VSizedInt n 8). split; [apply pack_deduplicate|].
    split; [|split; [cbn; now rewrite Z.eqb_refl|exact I]].
    apply unpack_finish with (add := true). unfold unpack_fuel.
    pose proof (unpackInternal_uint64 number_toString
                  (S (length (51 :: le_bytes 8 n ++ []))) n [] [] ltac:(lia)) as Hu.
    rewrite Hround in Hu. exact Hu.
  - (* float *)
    apply andb_true_iff in Hs. destruct Hs as [Hs Hfloat].
    apply andb_true_iff in Hs. destruct Hs as [Hlo Hhi].
    apply Z.leb_le in Hlo. apply Z.ltb_lt in Hhi. apply value_eqb_VFloat in Hfloat.
    unfold pack. cbn [packInternal bind]. rewrite <- (app_nil_r (le_bytes 8 bits)).
    eexists _, (VFloat bits). split; [apply pack_deduplicate|].
    split; [|split; [cbn; now rewrite Z.eqb_refl|exact I]].
    apply unpack_finish with (add := true). unfold unpack_fuel.
    pose proof (unpackInternal_float64 number_toString
                  (S (length (54 :: le_bytes 8 bits ++ []))) bits [] [] ltac:(lia)) as Hu.
    rewrite Hfloat in Hu. exact Hu.
  - (* string *)
    apply Z.ltb_lt in Hs. rewrite <- length_Buffer_from_string in Hs.
    unfold pack. cbn [packInternal]. unfold packString.
    set (e := Buffer_from_string s) in *.
    pose proof (buffer_length_nonneg e).
    assert (Hback : forall data,
               unpack number_toString data = Return (VString (Buffer_toString e), []) ->
               unpack number_toString data = Return (VString s, [])).
    { intros data Hd. rewrite Hd. unfold e. now rewrite Buffer_toString_from_string. }
    assert (Heq : equal_up_to_width (VString s) (VString s) = true).
    { cbn. apply String.eqb_refl. }
    destruct (Z.leb_spec (buffer_length e) 32).
    { cbn [bind]. unfold Buffer_from, Buffer_concat. cbn [map concat app].
      rewrite Z.mod_small by lia. rewrite app_nil_r.
      eexists _, (VString s). split; [apply pack_deduplicate|].
      split; [|split; [exact Heq|exact I]]. apply Hback.
      apply unpack_finish with (add := true). unfold unpack_fuel.
      by_case unpackInternal_short_string e. }
    destruct (Z.leb_spec (buffer_length e) 255).
    { rewrite (writeUIntLE_Return 1) by (change (2 ^ (8 * Z.of_nat 1)) with 256; lia).
      cbn [bind]. unfold Buffer_concat. cbn [concat app]. rewrite app_nil_r.
      eexists _, (VString s). split; [apply pack_deduplicate|].
      split; [|split; [exact Heq|exact I]]. apply Hback.
      apply unpack_finish with (add := true). unfold unpack_fuel.
      by_case unpackInternal_string8 e. }
    destruct (Z.leb_spec (buffer_length e) 65535).
    { rewrite (writeUIntLE_Return 2) by (change (2 ^ (8 * Z.of_nat 2)) with 65536; lia).
      cbn [bind]. unfold Buffer_concat. cbn [concat app]. rewrite app_nil_r.
      eexists _, (VString s). split; [apply pack_deduplicate|].
      split; [|split; [exact Heq|exact I]]. apply Hback.
      apply unpack_finish with (add := true). unfold unpack_fuel.
      by_case unpackInternal_string16 e. }
    destruct (Z.leb_spec (buffer_length e) 16777215).
    { rewrite (writeUIntLE_Return 3) by (change (2 ^ (8 * Z.of_nat 3)) with 16777216; lia).
      cbn [bind]. unfold Buffer_concat. cbn [concat app]. rewrite app_nil_r.
      eexists _, (VString s). split; [apply pack_deduplicate|].
      split; [|split; [exact Heq|exact I]]. apply Hback.
      apply unpack_finish with (add := true). unfold unpack_fuel.
      by_case unpackInternal_string24 e. }
    rewrite (writeUIntLE_Return 4) by (change (2 ^ (8 * Z.of_nat 4)) with (2 ^ 32); lia).
    cbn [bind]. unfold Buffer_concat. cbn [concat app]. rewrite app_nil_r.
    eexists _, (VString s). split; [apply pack_deduplicate|].
    split; [|split; [exact Heq|exact I]]. apply Hback.
    apply unpack_finish with (add := true). unfold unpack_fuel.
    by_case unpackInternal_string32 e.
  - (* bytes *)
    apply Z.ltb_lt in Hs.
    unfold pack. cbn [packInternal]. unfold packBytes.
    pose proof (buffer_length_nonneg b).
    assert (Heq : equal_up_to_width (VBytes b) (VBytes b) = true).
    { cbn. apply Buffer_equals_refl. }
    destruct (Z.leb_spec (buffer_length b) 32).
    { cbn [bind]. unfold Buffer_from, Buffer_concat. cbn [map concat app].
      rewrite Z.mod_small by lia. rewrite app_nil_r.
      eexists _, (VBytes b). split; [apply pack_deduplicate|].
      split; [|split; [exact Heq|exact I]].
      apply unpack_finish with (add := true). unfold unpack_fuel.
      by_case unpackInternal_short_bytes b. }
    destruct (Z.leb_spec (buffer_length b) 255).
    { rewrite (writeUIntLE_Return 1) by (change (2 ^ (8 * Z.of_nat 1)) with 256; lia).
      cbn [bind]. unfold Buffer_concat. cbn [concat app]. rewrite app_nil_r.
      eexists _, (VBytes b). split; [apply pack_deduplicate|].
      split; [|split; [exact Heq|exact I]].
      apply unpack_finish with (add := true). unfold unpack_fuel.
      by_case unpackInternal_bytes8 b. }
    destruct (Z.leb_spec (buffer_length b) 65535).
    { rewrite (writeUIntLE_Return 2) by (change (2 ^ (8 * Z.of_nat 2)) with 65536; lia).
      cbn [bind]. unfold Buffer_concat. cbn [concat app]. rewrite app_nil_r.
      eexists _, (VBytes b). split; [apply pack_deduplicate|].
      split; [|split; [exact Heq|exact I]].
      apply unpack_finish with (add := true). unfold unpack_fuel.
      by_case unpackInternal_bytes16 b. }
    destruct (Z.leb_spec (buffer_length b) 4294967295); [|lia].
    rewrite (writeUIntLE_Return 4) by (change (2 ^ (8 * Z.of_nat 4)) with (2 ^ 32); lia).
    cbn [bind]. unfold Buffer_concat. cbn [concat app]. rewrite app_nil_r.
    eexists _, (VBytes b). split; [apply pack_deduplicate|].
    split; [|split; [exact Heq|exact I]].
    apply unpack_finish with (add := true). unfold unpack_fuel.
    by_case unpackInternal_bytes32 b.
Qed.

(** The scenarios of tests/support/opack.test.ts. *)
Example pack_small_int : pack (VInt 0) = Return [0x08] /\ pack (VInt 0x27) = Return [0x2f].
Proof. split; reflexivity. Qed.

Example pack_pointer_references :
  pack (VArray [VString "foo"; VString "bar"; VString "foo"; VString "bar"])
  = Return [0xd4; 0x43; 0x66; 0x6f; 0x6f; 0x43; 0x62; 0x61; 0x72; 0xa0; 0xa1].
Proof. reflexivity. Qed.

Example pack_nested_dict :
  pack (VDict [("a", VString "b"); ("c", VDict [("d", VString "a")]);
               ("d", VBool true)]%string)
  = Return [0xe3; 0x41; 0x61; 0x41; 0x62; 0x41; 0x63; 0xe1; 0x41; 0x64; 0xa0; 0xa3; 0x01].
Proof. reflexivity. Qed.

Example unpack_nested_dict (number_toString : value -> string) :
  unpack number_toString
    [0xe3; 0x41; 0x61; 0x41; 0x62; 0x41; 0x63; 0xe1; 0x41; 0x64; 0xa0; 0xa3; 0x01]
  = Return (VDict [("a", VString "b"); ("c", VDict [("d", VString "a")]);
                   ("d", VBool true)]%string, []).
Proof. reflexivity. Qed.

Example unpack_sized_int_width (number_toString : value -> string) :
  (let* packed := pack (VSizedInt 1 4) in unpack number_toString packed)
  = Return (VSizedInt 1 4, []).
Proof. reflexivity. Qed.

(** C2, at the failing input [[["ab"], "cd", "cd"]].  [pack] puts the
    encoding of the inner array in its object list, at index 1, so the
    second ["cd"] is written as a reference to index 2.  [unpack] does not
    put the array in its list: when it reads that reference its list holds
    the two strings only, and the reference is resolved to [undefined]. *)
Theorem pack_indexes_nested_array (number_toString : value -> string) :
  Opack.pack nested_array = Return nested_array_packed /\
  Opack.pack_objectList nested_array
  = Return [[0x42; 0x61; 0x62]; [0xd1; 0x42; 0x61; 0x62]; [0x42; 0x63; 0x64];
            nested_array_packed] /\
  (let data := [0xd1; 0x42; 0x61; 0x62; 0x42; 0x63; 0x64; 0xa2] in
   Opack.unpackInternal number_toString (Opack.unpack_fuel data) data [])
  = Return (VArray [VString "ab"], [0x42; 0x63; 0x64; 0xa2], [VString "ab"]) /\
  (let data := [0x42; 0x63; 0x64; 0xa2] in
   Opack.unpackInternal number_toString (Opack.unpack_fuel data) data [VString "ab"])
  = Return (VString "cd", [0xa2], [VString "ab"; VString "cd"]) /\
  (let data := [0xa2] in
   Opack.unpackInternal number_toString (Opack.unpack_fuel data) data
     [VString "ab"; VString "cd"])
  = Return (VUndefined, [], [VString "ab"; VString "cd"; VUndefined]) /\
  Opack.unpack_objectList number_toString nested_array_packed
  = Return [VString "ab"; VString "cd"; VUndefined].
Proof. repeat split; reflexivity. Qed.

(** C1, at the failing input [[["ab"], "cd", "cd"]], a value of the
    supported type set.  Unpacking what [pack] returns gives
    [[["ab"], "cd", undefined]], which is not equal to the input, also not
    up to integer width. *)
Theorem roundtrip_fails_after_nested_array (number_toString : value -> string) :
  Opack.supported nested_array = true /\
  (let* packed := Opack.pack nested_array in Opack.unpack number_toString packed)
  = Return (nested_array_unpacked, []) /\
  Opack.equal_up_to_width nested_array nested_array_unpacked = false.
Proof. repeat split; reflexivity. Qed.

(** ** Round trip of values without repetition *)

Lemma value_induction (P : value -> Prop) :
  P VUndefined -> P VNull -> (forall b, P (VBool b)) -> P VDate ->
  (forall bytes, P (VUuid bytes)) -> (forall n size, P (VSizedInt n size)) ->
  (forall n, P (VInt n)) -> (forall bits, P (VFloat bits)) ->
  (forall s, P (VString s)) -> (forall b, P (VBytes b)) ->
  (forall items, Forall P items -> P (VArray items)) ->
  (forall entries, Forall (fun e => P (snd e)) entries -> P (VDict entries)) ->
  P VUnsupported ->
  forall v, P v.
Proof.
  intros Hu Hn Hb Hd Hid Hs Hi Hf Hstr Hby Ha Hdict Hx.
  fix IH 1. intros v.
  destruct v as [| |b| |bytes|n sz|n|bits|s|b|items|entries|].
  - exact Hu.
  - exact Hn.
  - apply Hb.
  - exact Hd.
  - apply Hid.
  - apply Hs.
  - apply Hi.
  - apply Hf.
  - apply Hstr.
  - apply Hby.
  - apply Ha. induction items as [|x items IHl]; constructor; [apply IH|exact IHl].
  - apply Hdict. induction entries as [|[k x] entries IHl]; constructor;
      [apply IH|exact IHl].
  - exact Hx.
Qed.

Section Codec.

Variable number_toString : value -> string.

(** The integers: what [packInteger] returns is the encoding. *)
Lemma codec_integer (v : value) (n : Z) (hint : option Z) (e : Buffer) (v' : value) :
  (v = VInt n /\ hint = None \/ exists size, v = VSizedInt n size /\ hint = Some size) ->
  packInteger n hint = Return e ->
  (exists add, forall fuel rest ol,
      unpackInternal number_toString (S fuel) (e ++ rest) ol = finish v' rest add ol) ->
  (exists t r, e = t :: r /\ t <> 0x03) ->
  codec number_toString v e v'.
Proof.
  intros Hv Hp Hu Hh. split; [|split; [|split; assumption]].
  - intros ol. destruct Hv as [[-> ->]|(size & -> & ->)]; cbn [packInternal];
      rewrite Hp; reflexivity.
  - destruct Hv as [[-> ->]|(size & -> & ->)]; cbn [encoding]; rewrite Hp; reflexivity.
Qed.

Lemma codec_sized (x : Z) (k : nat) (tag : Z) (hint : option Z) (v : value) :
  (v = VInt x /\ hint = None \/
   exists size, v = VSizedInt x size /\ hint = Some size) ->
  packInteger x hint = (let* buf := writeUIntLE k x in Return (tag :: buf)) ->
  0 <= x < 2 ^ (8 * Z.of_nat k) -> js_round x = x ->
  (k = 1%nat /\ tag = 0x30 \/ k = 2%nat /\ tag = 0x31 \/
   k = 4%nat /\ tag = 0x32 \/ k = 8%nat /\ tag = 0x33) ->
  codec number_toString v (tag :: le_bytes k x) (VSizedInt x (Z.of_nat k)).
Proof.
  intros Hv Hp Hx Hround Hk. apply (codec_integer v x hint); [exact Hv| | |].
  - rewrite Hp, writeUIntLE_Return by exact Hx. reflexivity.
  - exists true. intros fuel rest ol. cbn [app].
    destruct Hk as [ [-> ->] | [ [-> ->] | [ [-> ->] | [-> ->] ] ] ].
    + apply unpackInternal_uint8. exact Hx.
    + apply unpackInternal_uint16. exact Hx.
    + apply unpackInternal_uint32. exact Hx.
    + rewrite <- Hround at 2. apply unpackInternal_uint64. exact Hx.
  - exists tag, (le_bytes k x). split; [reflexivity|].
    destruct Hk as [ [_ ->] | [ [_ ->] | [ [_ ->] | [_ ->] ] ] ]; discriminate.
Qed.

Lemma codec_string (s : string) :
  Z.of_nat (String.length s) < 2 ^ 32 ->
  exists e, codec number_toString (VString s) e (VString s) /\ packString s = Return e.
Proof.
  intros Hs. rewrite <- length_Buffer_from_string in Hs.
  assert (Hgen : forall e,
            packString s = Return e ->
            (forall fuel rest ol,
                unpackInternal number_toString (S fuel) (e ++ rest) ol
                = finish (VString (Buffer_toString (Buffer_from_string s))) rest true ol) ->
            (exists t r, e = t :: r /\ t <> 0x03) ->
            exists e, codec number_toString (VString s) e (VString s) /\ packString s = Return e).
  { intros e Hp Hu Hh. exists e. split; [|exact Hp]. split; [|split; [|split]].
    - intros ol. cbn [packInternal]. rewrite Hp. reflexivity.
    - cbn [encoding]. now rewrite Hp.
    - exists true. intros fuel rest ol. rewrite Hu.
      now rewrite Buffer_toString_from_string.
    - exact Hh. }
  unfold packString in *. set (e := Buffer_from_string s) in *.
  pose proof (buffer_length_nonneg e).
  destruct (Z.leb_spec (buffer_length e) 32).
  { eapply Hgen; [reflexivity| |].
    - intros fuel rest ol. unfold Buffer_from, Buffer_concat. cbn [map concat app].
      rewrite Z.mod_small by lia. rewrite ?app_nil_r, <- ?app_assoc.
      apply unpackInternal_short_string. lia.
    - unfold Buffer_from, Buffer_concat. cbn [map concat app].
      rewrite Z.mod_small by lia. eexists _, _. split; [reflexivity|lia]. }
  destruct (Z.leb_spec (buffer_length e) 255).
  { rewrite (writeUIntLE_Return 1) in Hgen |- * by (change (2 ^ (8 * Z.of_nat 1)) with 256; lia).
    eapply Hgen; [reflexivity| |].
    - intros fuel rest ol. unfold Buffer_concat. cbn [concat app bind].
      rewrite ?app_nil_r, <- ?app_assoc. apply unpackInternal_string8. lia.
    - eexists _, _. split; [reflexivity|discriminate]. }
  destruct (Z.leb_spec (buffer_length e) 65535).
  { rewrite (writeUIntLE_Return 2) in Hgen |- * by (change (2 ^ (8 * Z.of_nat 2)) with 65536; lia).
    eapply Hgen; [reflexivity| |].
    - intros fuel rest ol. unfold Buffer_concat. cbn [concat app bind].
      rewrite ?app_nil_r, <- ?app_assoc. apply unpackInternal_string16. lia.
    - eexists _, _. split; [reflexivity|discriminate]. }
  destruct (Z.leb_spec (buffer_length e) 16777215).
  { rewrite (writeUIntLE_Return 3) in Hgen |- *
      by (change (2 ^ (8 * Z.of_nat 3)) with 16777216; lia).
    eapply Hgen; [reflexivity| |].
    - intros fuel rest ol. unfold Buffer_concat. cbn [concat app bind].
      rewrite ?app_nil_r, <- ?app_assoc. apply unpackInternal_string24. lia.
    - eexists _, _. split; [reflexivity|discriminate]. }
  rewrite (writeUIntLE_Return 4) in Hgen |- * by (change (2 ^ (8 * Z.of_nat 4)) with (2 ^ 32); lia).
  eapply Hgen; [reflexivity| |].
  - intros fuel rest ol. unfold Buffer_concat. cbn [concat app bind].
    rewrite ?app_nil_r, <- ?app_assoc. apply unpackInternal_string32. lia.
  - eexists _, _. split; [reflexivity|discriminate].
Qed.

Lemma codec_bytes (b : Buffer) :
  buffer_length b < 2 ^ 32 -> exists e, codec number_toString (VBytes b) e (VBytes b).
Proof.
  intros Hs.
  assert (Hgen : forall e,
            packBytes b = Return e ->
            (forall fuel rest ol,
                unpackInternal number_toString (S fuel) (e ++ rest) ol
                = finish (VBytes b) rest true ol) ->
            (exists t r, e = t :: r /\ t <> 0x03) ->
            exists e, codec number_toString (VBytes b) e (VBytes b)).
  { intros e Hp Hu Hh. exists e. split; [|split; [|split]].
    - intros ol. cbn [packInternal]. rewrite Hp. reflexivity.
    - cbn [encoding]. now rewrite Hp.
    - exists true. exact Hu.
    - exact Hh. }
  unfold packBytes in *. pose proof (buffer_length_nonneg b).
  destruct (Z.leb_spec (buffer_length b) 32).
  { eapply Hgen; [reflexivity| |].
    - intros fuel rest ol. unfold Buffer_from, Buffer_concat. cbn [map concat app].
      rewrite Z.mod_small by lia. rewrite ?app_nil_r, <- ?app_assoc.
      apply unpackInternal_short_bytes. lia.
    - unfold Buffer_from, Buffer_concat. cbn [map concat app].
      rewrite Z.mod_small by lia. eexists _, _. split; [reflexivity|lia]. }
  destruct (Z.leb_spec (buffer_length b) 255).
  { rewrite (writeUIntLE_Return 1) in Hgen by (change (2 ^ (8 * Z.of_nat 1)) with 256; lia).
    eapply Hgen; [reflexivity| |].
    - intros fuel rest ol. unfold Buffer_concat. cbn [concat app bind].
      rewrite ?app_nil_r, <- ?app_assoc. apply unpackInternal_bytes8. lia.
    - eexists _, _. split; [reflexivity|discriminate]. }
  destruct (Z.leb_spec (buffer_length b) 65535).
  { rewrite (writeUIntLE_Return 2) in Hgen by (change (2 ^ (8 * Z.of_nat 2)) with 65536; lia).
    eapply Hgen; [reflexivity| |].
    - intros fuel rest ol. unfold Buffer_concat. cbn [concat app bind].
      rewrite ?app_nil_r, <- ?app_assoc. apply unpackInternal_bytes16. lia.
    - eexists _, _. split; [reflexivity|discriminate]. }
  destruct (Z.leb_spec (buffer_length b) 4294967295); [|lia].
  rewrite (writeUIntLE_Return 4) in Hgen by (change (2 ^ (8 * Z.of_nat 4)) with (2 ^ 32); lia).
  eapply Hgen; [reflexivity| |].
  - intros fuel rest ol. unfold Buffer_concat. cbn [concat app bind].
    rewrite ?app_nil_r, <- ?app_assoc. apply unpackInternal_bytes32. lia.
  - eexists _, _. split; [reflexivity|discriminate].
Qed.

(** Every scalar has its encoding, and comes back as [decoded] says. *)
Lemma codec_scalar (v : value) :
  scalar v = true -> exists e, codec number_toString v e (decoded v).
Proof.
  destruct v as [| |flag| |bytes|x size|n|bits|s|b|items|entries|];
    cbn [scalar decoded]; try discriminate; intros Hs.
  - exists [0x04]. split; [|split; [|split]].
    + intros ol. reflexivity.
    + reflexivity.
    + exists false. intros fuel rest ol. reflexivity.
    + eexists _, _. split; [reflexivity|discriminate].
  - exists [if flag then 0x01 else 0x02]. split; [|split; [|split]].
    + intros ol. destruct flag; reflexivity.
    + reflexivity.
    + exists false. intros fuel rest ol. destruct flag; reflexivity.
    + eexists _, _. split; [reflexivity|destruct flag; discriminate].
  - (* SizedInt *)
    apply andb_true_iff in Hs. destruct Hs as [Hs Hround].
    apply andb_true_iff in Hs. destruct Hs as [Hs Hhi].
    apply andb_true_iff in Hs. destruct Hs as [Hsize Hlo].
    apply Z.leb_le in Hlo. apply Z.ltb_lt in Hhi. apply Z.eqb_eq in Hround.
    assert (Hcases : size = 1 \/ size = 2 \/ size = 4 \/ size = 8).
    { repeat (apply orb_true_iff in Hsize; destruct Hsize as [Hsize|Hsize]);
        apply Z.eqb_eq in Hsize; auto. }
    assert (Hv : VSizedInt x size = VInt x /\ Some size = None \/
                 exists size0, VSizedInt x size = VSizedInt x size0 /\ Some size = Some size0)
      by (right; now exists size).
    destruct Hcases as [ -> | [ -> | [ -> | -> ] ] ].
    + exists (0x30 :: le_bytes 1 x).
      apply (codec_sized x 1 0x30 (Some 1));
        [exact Hv
        |unfold packInteger; cbn [Z.eqb Pos.eqb]; rewrite ?andb_false_r; reflexivity
        |split; assumption|exact Hround|tauto].
    + exists (0x31 :: le_bytes 2 x).
      apply (codec_sized x 2 0x31 (Some 2));
        [exact Hv
        |unfold packInteger; cbn [Z.eqb Pos.eqb]; rewrite ?andb_false_r; reflexivity
        |split; assumption|exact Hround|tauto].
    + exists (0x32 :: le_bytes 4 x).
      apply (codec_sized x 4 0x32 (Some 4));
        [exact Hv
        |unfold packInteger; cbn [Z.eqb Pos.eqb]; rewrite ?andb_false_r; reflexivity
        |split; assumption|exact Hround|tauto].
    + exists (0x33 :: le_bytes 8 x).
      apply (codec_sized x 8 0x33 (Some 8));
        [exact Hv
        |unfold packInteger; cbn [Z.eqb Pos.eqb]; rewrite ?andb_false_r; reflexivity
        |split; assumption|exact Hround|tauto].
  - (* integer *)
    apply andb_true_iff in Hs. destruct Hs as [Hs Hround].
    apply andb_true_iff in Hs. destruct Hs as [Hlo Hhi].
    apply Z.leb_le in Hlo. apply Z.ltb_lt in Hhi. apply Z.eqb_eq in Hround.
    assert (Hv : VInt n = VInt n /\ @None Z = None \/
                 exists size0, VInt n = VSizedInt n size0 /\ None = Some size0)
      by (left; split; reflexivity).
    assert (Hp : forall k tag,
               packInteger n None = (let* buf := writeUIntLE k n in Return (tag :: buf)) ->
               0 <= n < 2 ^ (8 * Z.of_nat k) ->
               (k = 1%nat /\ tag = 0x30 \/ k = 2%nat /\ tag = 0x31 \/
                k = 4%nat /\ tag = 0x32 \/ k = 8%nat /\ tag = 0x33) ->
               exists e, codec number_toString (VInt n) e (VSizedInt n (Z.of_nat k))).
    { intros k tag Hpk Hn Hk. exists (tag :: le_bytes k n).
      now apply (codec_sized n k tag None). }
    unfold packInteger in Hp. cbn [andb orb] in Hp.
    rewrite !andb_true_r, !orb_false_r in Hp.
    destruct (Z.ltb_spec n 40).
    { exists [n + 8]. apply (codec_integer (VInt n) n None); [exact Hv| | |].
      - unfold packInteger. cbn [andb]. rewrite andb_true_r.
        destruct (Z.ltb_spec n 40); [|lia].
        unfold Buffer_from. cbn [map]. now rewrite Z.mod_small by lia.
      - exists false. intros fuel rest ol. cbn [app].
        apply unpackInternal_small_int. lia.
      - eexists _, _. split; [reflexivity|lia]. }
    destruct (Z.leb_spec n 255).
    { apply (Hp 1%nat 0x30); [reflexivity|change (2 ^ (8 * Z.of_nat 1)) with 256; lia|tauto]. }
    destruct (Z.leb_spec n 65535).
    { apply (Hp 2%nat 0x31);
        [reflexivity|change (2 ^ (8 * Z.of_nat 2)) with 65536; lia|tauto]. }
    destruct (Z.leb_spec n 4294967295).
    { apply (Hp 4%nat 0x32);
        [reflexivity|change (2 ^ (8 * Z.of_nat 4)) with 4294967296; lia|tauto]. }
    apply (Hp 8%nat 0x33);
      [reflexivity|change (2 ^ (8 * Z.of_nat 8)) with (2 ^ 64); lia|tauto].
  - (* float *)
    apply andb_true_iff in Hs. destruct Hs as [Hs Hfloat].
    apply andb_true_iff in Hs. destruct Hs as [Hlo Hhi].
    apply Z.leb_le in Hlo. apply Z.ltb_lt in Hhi. apply value_eqb_VFloat in Hfloat.
    exists (0x36 :: le_bytes 8 bits). split; [|split; [|split]].
    + intros ol. reflexivity.
    + reflexivity.
    + exists true. intros fuel rest ol. cbn [app]. rewrite <- Hfloat.
      apply unpackInternal_float64. lia.
    + eexists _, _. split; [reflexivity|discriminate].
  - (* string *)
    apply Z.ltb_lt in Hs. destruct (codec_string s Hs) as (e & He & _). now exists e.
  - (* bytes *)
    apply Z.ltb_lt in Hs. now apply codec_bytes.
Qed.

Lemma finish_Return (v : value) (rest : Buffer) (add : bool) (ol : list value) :
  exists ol', finish v rest add ol = Return (v, rest, ol').
Proof. unfold finish. destruct (add && negb (includes ol v)); eexists; reflexivity. Qed.

Lemma size_pos (v : value) : (1 <= size v)%nat.
Proof. destruct v; cbn [size]; lia. Qed.

(** The tag byte of an array and of a map. *)
Lemma unpackInternal_array_tag (c : Z) (fuel : nat) (ptr : Buffer) (ol : list value) :
  0 <= c <= 15 ->
  unpackInternal number_toString (S fuel) ((0xd0 + c) :: ptr) ol
  = let* (output, ptr, ol) :=
      (if c =? 0xf then array_while (unpackInternal number_toString fuel) fuel ptr ol []
       else array_for (unpackInternal number_toString fuel) (Z.to_nat c) ptr ol []) in
    finish (VArray output) ptr false ol.
Proof.
  intros Hc.
  assert (Hcases : c = 0 \/ c = 1 \/ c = 2 \/ c = 3 \/ c = 4 \/ c = 5 \/ c = 6 \/ c = 7 \/
                   c = 8 \/ c = 9 \/ c = 10 \/ c = 11 \/ c = 12 \/ c = 13 \/ c = 14 \/
                   c = 15) by lia.
  repeat (destruct Hcases as [->|Hcases]; [reflexivity|]). subst c. reflexivity.
Qed.

Lemma unpackInternal_dict_tag (c : Z) (fuel : nat) (ptr : Buffer) (ol : list value) :
  0 <= c <= 15 ->
  unpackInternal number_toString (S fuel) ((0xe0 + c) :: ptr) ol
  = let* (output, ptr, ol) :=
      (if c =? 0xf
       then dict_while number_toString (unpackInternal number_toString fuel) fuel ptr ol []
       else dict_for number_toString (unpackInternal number_toString fuel) (Z.to_nat c)
              ptr ol []) in
    finish (VDict output) ptr false ol.
Proof.
  intros Hc.
  assert (Hcases : c = 0 \/ c = 1 \/ c = 2 \/ c = 3 \/ c = 4 \/ c = 5 \/ c = 6 \/ c = 7 \/
                   c = 8 \/ c = 9 \/ c = 10 \/ c = 11 \/ c = 12 \/ c = 13 \/ c = 14 \/
                   c = 15) by lia.
  repeat (destruct Hcases as [->|Hcases]; [reflexivity|]). subst c. reflexivity.
Qed.

(** The scalars are read back. *)
Lemma decodes_scalar (v : value) : scalar v = true -> decodes number_toString v.
Proof.
  intros Hs. destruct (codec_scalar v Hs) as (e & _ & He & (add & Hu) & Hh).
  split; [now rewrite He|].
  intros fuel rest ol Hfuel. destruct fuel as [|fuel]; [lia|].
  rewrite He, Hu. apply finish_Return.
Qed.

Lemma array_for_decodes (f : nat) (items : list value) :
  Forall (decodes number_toString) items ->
  (list_sum (map size items) < f)%nat ->
  forall rest ol output,
  exists ol',
    array_for (unpackInternal number_toString f) (length items)
      (concat (map encoding items) ++ rest) ol output
    = Return (output ++ map decoded items, rest, ol').
Proof.
  induction 1 as [|item items [_ Hitem] _ IH]; intros Hf rest ol output.
  - cbn. rewrite app_nil_r. now exists ol.
  - change (list_sum (map size (item :: items)))
      with (size item + list_sum (map size items))%nat in Hf.
    cbn [length array_for map concat]. rewrite <- app_assoc.
    destruct (Hitem f (concat (map encoding items) ++ rest) ol) as (ol1 & H1); [lia|].
    rewrite H1. cbn [bind].
    destruct (IH ltac:(lia) rest ol1 (output ++ [decoded item])) as (ol' & H2).
    rewrite H2, <- app_assoc. now exists ol'.
Qed.

Lemma array_while_decodes (f : nat) (items : list value) :
  Forall (decodes number_toString) items ->
  (list_sum (map size items) < f)%nat ->
  forall bound rest ol output,
  (length items < bound)%nat ->
  exists ol',
    array_while (unpackInternal number_toString f) bound
      (concat (map encoding items) ++ 0x03 :: rest) ol output
    = Return (output ++ map decoded items, rest, ol').
Proof.
  induction 1 as [|item items [Hhead Hitem] _ IH]; intros Hf bound rest ol output Hb.
  - destruct bound as [|bound]; [cbn in Hb; lia|].
    cbn. rewrite app_nil_r. now exists ol.
  - destruct bound as [|bound]; [cbn in Hb; lia|].
    change (list_sum (map size (item :: items)))
      with (size item + list_sum (map size items))%nat in Hf.
    cbn [length] in Hb. cbn [length array_while map concat]. rewrite <- app_assoc.
    destruct Hhead as (t & r & He & Ht). rewrite He. cbn [app]. rewrite byte_at_0.
    replace (match Some t with Some 3 => true | _ => false end) with false.
    2:{ destruct t as [|p|p]; try reflexivity.
        repeat (destruct p as [p|p|]; try reflexivity). contradiction. }
    change (t :: r ++ concat (map encoding items) ++ 3 :: rest)
      with ((t :: r) ++ concat (map encoding items) ++ 3 :: rest).
    rewrite <- He.
    destruct (Hitem f (concat (map encoding items) ++ 3 :: rest) ol) as (ol1 & H1);
      [lia|].
    rewrite H1. cbn [bind].
    destruct (IH ltac:(lia) bound rest ol1 (output ++ [decoded item]) ltac:(lia))
      as (ol' & H2).
    rewrite H2, <- app_assoc. now exists ol'.
Qed.

Lemma dict_set_fresh (output : list (string * value)) (key : string) (val : value) :
  ~ In key (map fst output) -> dict_set output key val = output ++ [(key, val)].
Proof.
  induction output as [|[k v] output IH]; cbn [dict_set map fst In app]; intros Hin.
  - reflexivity.
  - destruct (String.eqb_spec k key) as [->|Hne]; [tauto|].
    rewrite IH by tauto. reflexivity.
Qed.

Lemma object_set_fresh (output : list (string * value)) (key : string) (val : value) :
  key <> "__proto__"%string -> ~ In key (map fst output) ->
  object_set output key val = output ++ [(key, val)].
Proof.
  intros Hkey Hin. unfold object_set.
  destruct (String.eqb_spec key "__proto__"); [contradiction|].
  now apply dict_set_fresh.
Qed.

(** Reading the key and the value of an entry. *)
Lemma entry_decoded (f : nat) (e : string * value) (rest : Buffer) (ol : list value) :
  entry_decodes number_toString e -> (S (size (snd e)) <= f)%nat ->
  (exists t r, entry_encoding e ++ rest = t :: r /\ t <> 0x03) /\
  exists ol',
    (let* (key, rest1, ol1) :=
       unpackInternal number_toString f (entry_encoding e ++ rest) ol in
     let* (val, rest2, ol2) := unpackInternal number_toString f rest1 ol1 in
     Return (js_String number_toString key, val, rest2, ol2))
    = Return (fst e, decoded (snd e), rest, ol').
Proof.
  intros [Hkey [_ [_ Hval]]] Hf. unfold entry_encoding.
  destruct (codec_string (fst e) Hkey) as (k & (_ & _ & (add & Hu) & Hh) & Hp).
  rewrite Hp. cbn [written]. split.
  - destruct Hh as (t & r & -> & Ht). exists t, (r ++ encoding (snd e) ++ rest).
    split; [|exact Ht]. cbn [app]. now rewrite <- app_assoc.
  - destruct f as [|f]; [lia|]. rewrite <- app_assoc, Hu.
    destruct (finish_Return (VString (fst e)) (encoding (snd e) ++ rest) add ol)
      as (ol1 & ->).
    cbn [bind].
    destruct (Hval (S f) rest ol1) as (ol2 & ->); [lia|].
    cbn [bind js_String]. now exists ol2.
Qed.

Lemma dict_for_decodes (f : nat) (entries : list (string * value)) :
  Forall (entry_decodes number_toString) entries ->
  (list_sum (map (fun e => S (size (snd e))) entries) < f)%nat ->
  forall rest ol output,
  NoDup (map fst output ++ map fst entries) ->
  exists ol',
    dict_for number_toString (unpackInternal number_toString f) (length entries)
      (concat (map entry_encoding entries) ++ rest) ol output
    = Return (output ++ map (fun e => (fst e, decoded (snd e))) entries, rest, ol').
Proof.
  induction 1 as [|e entries He _ IH]; intros Hf rest ol output Hnd.
  - cbn. rewrite app_nil_r. now exists ol.
  - change (list_sum (map (fun e => S (size (snd e))) (e :: entries)))
      with (S (size (snd e)) + list_sum (map (fun e => S (size (snd e))) entries))%nat
      in Hf.
    cbn [length dict_for map concat]. rewrite <- app_assoc.
    destruct (entry_decoded f e (concat (map entry_encoding entries) ++ rest) ol He)
      as (_ & ol2 & Hentry); [lia|].
    destruct (unpackInternal number_toString f _ ol) as [[[key rest1] ol1]| |];
      cbn [bind] in Hentry |- *; try discriminate.
    destruct (unpackInternal number_toString f rest1 ol1) as [[[val rest2] ol2']| |];
      cbn [bind] in Hentry |- *; try discriminate.
    injection Hentry as -> -> -> ->.
    rewrite object_set_fresh.
    2:{ apply He. }
    2:{ cbn [map] in Hnd. apply NoDup_remove_2 in Hnd. intros Hin. apply Hnd.
        apply in_or_app. now left. }
    destruct (IH ltac:(lia) rest ol2 (output ++ [(fst e, decoded (snd e))])) as (ol' & H2).
    { rewrite map_app. cbn [map fst]. rewrite <- app_assoc. exact Hnd. }
    rewrite H2, <- app_assoc. now exists ol'.
Qed.

Lemma dict_while_decodes (f : nat) (entries : list (string * value)) :
  Forall (entry_decodes number_toString) entries ->
  (list_sum (map (fun e => S (size (snd e))) entries) < f)%nat ->
  forall bound rest ol output,
  (length entries < bound)%nat ->
  NoDup (map fst output ++ map fst entries) ->
  exists ol',
    dict_while number_toString (unpackInternal number_toString f) bound
      (concat (map entry_encoding entries) ++ 0x03 :: rest) ol output
    = Return (output ++ map (fun e => (fst e, decoded (snd e))) entries, rest, ol').
Proof.
  induction 1 as [|e entries He _ IH]; intros Hf bound rest ol output Hb Hnd.
  - destruct bound as [|bound]; [cbn in Hb; lia|].
    cbn. rewrite app_nil_r. now exists ol.
  - destruct bound as [|bound]; [cbn in Hb; lia|].
    change (list_sum (map (fun e => S (size (snd e))) (e :: entries)))
      with (S (size (snd e)) + list_sum (map (fun e => S (size (snd e))) entries))%nat
      in Hf.
    cbn [length] in Hb. cbn [length dict_while map concat]. rewrite <- app_assoc.
    destruct (entry_decoded f e (concat (map entry_encoding entries) ++ 3 :: rest) ol He)
      as ((t & r & Hhead & Ht) & ol2 & Hentry); [lia|].
    assert (Hbyte : byte_at (entry_encoding e ++ concat (map entry_encoding entries)
                             ++ 3 :: rest) 0 = Some t) by (now rewrite Hhead).
    rewrite Hbyte.
    replace (match Some t with Some 3 => true | _ => false end) with false.
    2:{ destruct t as [|p|p]; try reflexivity.
        repeat (destruct p as [p|p|]; try reflexivity). contradiction. }
    destruct (unpackInternal number_toString f _ ol) as [[[key rest1] ol1]| |];
      cbn [bind] in Hentry |- *; try discriminate.
    destruct (unpackInternal number_toString f rest1 ol1) as [[[val rest2] ol2']| |];
      cbn [bind] in Hentry |- *; try discriminate.
    injection Hentry as -> -> -> ->.
    rewrite object_set_fresh.
    2:{ apply He. }
    2:{ cbn [map] in Hnd. apply NoDup_remove_2 in Hnd. intros Hin. apply Hnd.
        apply in_or_app. now left. }
    destruct (IH ltac:(lia) bound rest ol2 (output ++ [(fst e, decoded (snd e))])
                ltac:(lia)) as (ol' & H2).
    { rewrite map_app. cbn [map fst]. rewrite <- app_assoc. exact Hnd. }
    rewrite H2, <- app_assoc. now exists ol'.
Qed.

Lemma distinct_NoDup (keys : list string) : distinct keys = true -> NoDup keys.
Proof.
  induction keys as [|k keys IH]; cbn [distinct]; intros Hd; [constructor|].
  apply andb_true_iff in Hd. destruct Hd as [Hk Hd]. constructor; [|auto].
  intros Hin. apply negb_true_iff in Hk.
  assert (Hex : existsb (String.eqb k) keys = true).
  { apply existsb_exists. exists k. split; [exact Hin|apply String.eqb_refl]. }
  congruence.
Qed.

Lemma length_le_sizes {A : Type} (f : A -> nat) (l : list A) :
  (forall a, 1 <= f a)%nat -> (length l <= list_sum (map f l))%nat.
Proof.
  intros Hf. induction l as [|a l IH]; [cbn; lia|].
  change (list_sum (map f (a :: l))) with (f a + list_sum (map f l))%nat.
  cbn [length]. specialize (Hf a). lia.
Qed.

Lemma container_app (tag : Z) (count : nat) (items rest : Buffer) :
  container tag count items ++ rest
  = (tag + Z.min (Z.of_nat count) 0xf)
      :: items ++ (if 0xf <=? Z.of_nat count then 0x03 :: rest else rest).
Proof.
  unfold container. cbn [app]. rewrite <- app_assoc.
  destruct (0xf <=? Z.of_nat count); reflexivity.
Qed.

(** Every plain value is read back from its encoding. *)
Lemma plain_decodes (v : value) : plain v = true -> decodes number_toString v.
Proof.
  induction v as [| |b| |bytes|n size|n|bits|s|b|items IH|entries IH|]
    using value_induction; try (apply decodes_scalar).
  - (* array *)
    cbn [plain]. intros Hp. rewrite forallb_forall in Hp.
    assert (Hitems : Forall (decodes number_toString) items).
    { rewrite Forall_forall in IH |- *. intros x Hx. apply IH; auto. }
    clear IH Hp. split.
    { cbn [encoding]. unfold container. eexists _, _. split; [reflexivity|lia]. }
    intros fuel rest ol Hfuel. destruct fuel as [|fuel]; [lia|].
    cbn [size] in Hfuel. cbn [encoding decoded]. rewrite container_app.
    rewrite unpackInternal_array_tag by lia.
    pose proof (length_le_sizes size items size_pos) as Hlen.
    destruct (Z.leb_spec 15 (Z.of_nat (length items))) as [Hbig|Hsmall].
    + rewrite Z.min_r by lia. cbn [Z.eqb Pos.eqb].
      destruct (array_while_decodes fuel items Hitems ltac:(lia) fuel rest ol [])
        as (ol' & ->); [lia|].
      cbn [bind app]. apply finish_Return.
    + rewrite Z.min_l by lia.
      destruct (Z.eqb_spec (Z.of_nat (length items)) 15); [lia|].
      rewrite Nat2Z.id.
      destruct (array_for_decodes fuel items Hitems ltac:(lia) rest ol []) as (ol' & ->).
      cbn [bind app]. apply finish_Return.
  - (* map *)
    cbn [plain]. intros Hp. apply andb_true_iff in Hp. destruct Hp as [Hp Hkeys].
    rewrite forallb_forall in Hp. apply distinct_NoDup in Hkeys.
    assert (Hentries : Forall (entry_decodes number_toString) entries).
    { rewrite Forall_forall in IH |- *. intros e He. specialize (Hp e He).
      apply andb_true_iff in Hp. destruct Hp as [Hk Hv].
      apply andb_true_iff in Hk. destruct Hk as [Hk Hown]. apply Z.ltb_lt in Hk.
      apply negb_true_iff, String.eqb_neq in Hown.
      split; [exact Hk|]. split; [exact Hown|]. apply IH; auto. }
    clear IH Hp. split.
    { cbn [encoding]. unfold container. eexists _, _. split; [reflexivity|lia]. }
    intros fuel rest ol Hfuel. destruct fuel as [|fuel]; [lia|].
    cbn [size] in Hfuel. cbn [encoding decoded]. rewrite container_app.
    change (map (fun e => written (packString (fst e)) ++ encoding (snd e)) entries)
      with (map entry_encoding entries).
    rewrite unpackInternal_dict_tag by lia.
    assert (Hlen : (length entries
                    <= list_sum (map (fun e => S (size (snd e))) entries))%nat).
    { apply length_le_sizes. intros e. lia. }
    destruct (Z.leb_spec 15 (Z.of_nat (length entries))) as [Hbig|Hsmall].
    + rewrite Z.min_r by lia. cbn [Z.eqb Pos.eqb].
      destruct (dict_while_decodes fuel entries Hentries ltac:(lia) fuel rest ol [])
        as (ol' & ->); [lia|exact Hkeys|].
      cbn [bind app]. apply finish_Return.
    + rewrite Z.min_l by lia.
      destruct (Z.eqb_spec (Z.of_nat (length entries)) 15); [lia|].
      rewrite Nat2Z.id.
      destruct (dict_for_decodes fuel entries Hentries ltac:(lia) rest ol [])
        as (ol' & ->); [exact Hkeys|].
      cbn [bind app]. apply finish_Return.
Qed.

(** *** The encoder on values without repetition *)

Lemma findIndex_miss (objectList : list Buffer) (b : Buffer) :
  ~ In b objectList -> findIndex objectList b = None.
Proof.
  induction objectList as [|buf rest IH]; cbn [findIndex]; intros Hin; [reflexivity|].
  destruct (Buffer_equals buf b) eqn:Heq.
  - apply Buffer_equals_eq in Heq. exfalso. apply Hin. now left.
  - rewrite IH; [reflexivity|]. intros H. apply Hin. now right.
Qed.

Lemma deduplicate_fresh (b : Buffer) (objectList : list Buffer) :
  Forall long objectList -> NoDup (objectList ++ indexed b) ->
  deduplicate b objectList = (b, objectList ++ indexed b).
Proof.
  intros Hl Hnd. unfold deduplicate, indexed in *.
  assert (Hin : ~ In b objectList).
  { destruct (Z.ltb_spec 1 (buffer_length b)) as [Hlong|Hshort].
    - apply NoDup_remove_2 in Hnd. now rewrite app_nil_r in Hnd.
    - intros Hin. rewrite Forall_forall in Hl. specialize (Hl b Hin).
      unfold long in Hl. lia. }
  rewrite findIndex_miss by exact Hin.
  destruct (1 <? buffer_length b); [reflexivity|now rewrite app_nil_r].
Qed.

Lemma long_indexed (b : Buffer) : Forall long (indexed b).
Proof.
  unfold indexed. destruct (Z.ltb_spec 1 (buffer_length b)); repeat constructor; assumption.
Qed.

Lemma long_concat {A : Type} (f : A -> list Buffer) (l : list A) :
  Forall (fun a => Forall long (f a)) l -> Forall long (concat (map f l)).
Proof.
  induction 1 as [|a l Ha _ IH]; cbn [map concat]; [constructor|].
  apply Forall_app. now split.
Qed.

Lemma long_node_encodings (v : value) : Forall long (node_encodings v).
Proof.
  induction v as [| |b| |bytes|n size|n|bits|s|b|items IH|entries IH|]
    using value_induction; try apply long_indexed.
  - cbn [node_encodings]. apply Forall_app. split; [|apply long_indexed].
    apply long_concat. exact IH.
  - cbn [node_encodings]. apply Forall_app. split; [|apply long_indexed].
    apply long_concat. rewrite Forall_forall in IH |- *. intros e He.
    apply Forall_app. split; [apply long_indexed|now apply IH].
Qed.

Lemma pack_items_cons {A : Type}
  (rec : A -> list Buffer -> outcome (Buffer * list Buffer))
  (item : A) (rest : list A) (objectList : list Buffer) :
  pack_items rec (item :: rest) objectList
  = (let* (packed, objectList) := rec item objectList in
     let* (items, objectList) := pack_items rec rest objectList in
     Return (packed ++ items, objectList)).
Proof. reflexivity. Qed.

Lemma pack_items_array (items : list value) :
  Forall packs items ->
  forall objectList,
    Forall long objectList ->
    NoDup (objectList ++ concat (map node_encodings items)) ->
    pack_items packInternal items objectList
    = Return (concat (map encoding items),
              objectList ++ concat (map node_encodings items)).
Proof.
  induction 1 as [|item items Hitem _ IH]; intros ol Hl Hnd.
  - cbn. now rewrite app_nil_r.
  - rewrite pack_items_cons. cbn [map concat] in Hnd |- *.
    rewrite app_assoc in Hnd.
    rewrite (Hitem ol Hl) by (now apply NoDup_app_remove_r in Hnd).
    cbn [bind]. rewrite IH; [|apply Forall_app; split;
                                [exact Hl|apply long_node_encodings]|exact Hnd].
    cbn [bind]. now rewrite app_assoc.
Qed.

Lemma pack_items_dict (entries : list (string * value)) :
  Forall (fun e => Z.of_nat (String.length (fst e)) < 2 ^ 32 /\ packs (snd e)) entries ->
  forall objectList,
    Forall long objectList ->
    NoDup (objectList
           ++ concat (map (fun e => indexed (written (packString (fst e)))
                                    ++ node_encodings (snd e)) entries)) ->
    pack_items
      (fun (entry : string * value) objectList =>
         let* (key, objectList) :=
           (let* packedBytes := packString (fst entry) in
            Return (deduplicate packedBytes objectList)) in
         let* (val, objectList) := packInternal (snd entry) objectList in
         Return (key ++ val, objectList))
      entries objectList
    = Return (concat (map entry_encoding entries),
              objectList
              ++ concat (map (fun e => indexed (written (packString (fst e)))
                                       ++ node_encodings (snd e)) entries)).
Proof.
  induction 1 as [|e entries [Hkey Hval] _ IH]; intros ol Hl Hnd.
  - cbn. now rewrite app_nil_r.
  - rewrite pack_items_cons. cbn [map concat] in Hnd |- *.
    destruct (codec_string (fst e) Hkey) as (k & _ & Hk). rewrite Hk in Hnd |- *.
    cbn [written] in Hnd. cbn [bind].
    rewrite <- !app_assoc in Hnd. rewrite !app_assoc in Hnd.
    assert (Hnd1 : NoDup (ol ++ indexed k)).
    { now do 2 apply NoDup_app_remove_r in Hnd. }
    rewrite (deduplicate_fresh k ol Hl Hnd1). cbn [bind].
    assert (Hl1 : Forall long (ol ++ indexed k)).
    { apply Forall_app. split; [exact Hl|apply long_indexed]. }
    rewrite (Hval _ Hl1) by (now apply NoDup_app_remove_r in Hnd).
    cbn [bind]. rewrite IH; [|apply Forall_app; split;
                                [exact Hl1|apply long_node_encodings]|exact Hnd].
    cbn [bind]. unfold entry_encoding at 2. rewrite Hk. cbn [written].
    now rewrite <- !app_assoc.
Qed.

(** Every plain value is written as its encoding when none of the
    encodings in it is in the object list or occurs twice. *)
Lemma plain_packs (v : value) : plain v = true -> packs v.
Proof.
  assert (Hscalar : forall w, scalar w = true ->
                              node_encodings w = indexed (encoding w) -> packs w).
  { intros w Hs Hn ol Hl Hnd. destruct (codec_scalar w Hs) as (e & Hpack & He & _).
    rewrite Hpack, Hn in *. rewrite He in *. now rewrite deduplicate_fresh. }
  induction v as [| |b| |bytes|n size|n|bits|s|b|items IH|entries IH|]
    using value_induction; try (intros Hp; now apply Hscalar).
  - (* array *)
    cbn [plain]. intros Hp. rewrite forallb_forall in Hp.
    assert (Hitems : Forall packs items).
    { rewrite Forall_forall in IH |- *. intros x Hx. apply IH; auto. }
    clear IH Hp. intros ol Hl Hnd. cbn [node_encodings] in Hnd |- *.
    rewrite app_assoc in Hnd. cbn [packInternal]. unfold packArray.
    rewrite (pack_items_array items Hitems ol Hl)
      by (now apply NoDup_app_remove_r in Hnd).
    cbn [bind].
    assert (Henc : forall y : list Buffer,
               (if 0xf <=? Z.of_nat (length items)
                then Return (Buffer_concat
                               [Buffer_concat
                                  [Buffer_from [0xd0 + Z.min (Z.of_nat (length items)) 0xf];
                                   concat (map encoding items)];
                                Buffer_from [0x03]], y)
                else Return (Buffer_concat
                               [Buffer_from [0xd0 + Z.min (Z.of_nat (length items)) 0xf];
                                concat (map encoding items)], y))
               = @Return (Buffer * list Buffer) (encoding (VArray items), y)).
    { intros y. cbn [encoding]. unfold container, Buffer_concat, Buffer_from.
      cbn [map concat app]. rewrite ?app_nil_r.
      rewrite (Z.mod_small (0xd0 + _)) by lia.
      destruct (0xf <=? Z.of_nat (length items)); [|now rewrite app_nil_r].
      reflexivity. }
    rewrite Henc. cbn [bind].
    rewrite deduplicate_fresh; [now rewrite app_assoc| |exact Hnd].
    apply Forall_app. split; [exact Hl|]. apply long_concat.
    rewrite Forall_forall. intros x _. apply long_node_encodings.
  - (* map *)
    cbn [plain]. intros Hp. apply andb_true_iff in Hp. destruct Hp as [Hp _].
    rewrite forallb_forall in Hp.
    assert (Hentries : Forall (fun e => Z.of_nat (String.length (fst e)) < 2 ^ 32
                                         /\ packs (snd e)) entries).
    { rewrite Forall_forall in IH |- *. intros e He. specialize (Hp e He).
      apply andb_true_iff in Hp. destruct Hp as [Hk Hv].
      apply andb_true_iff in Hk. destruct Hk as [Hk _]. apply Z.ltb_lt in Hk.
      split; [exact Hk|]. apply IH; auto. }
    clear IH Hp. intros ol Hl Hnd. cbn [node_encodings] in Hnd |- *.
    rewrite app_assoc in Hnd. cbn [packInternal].
    rewrite (pack_items_dict entries Hentries ol Hl)
      by (now apply NoDup_app_remove_r in Hnd).
    cbn [bind].
    assert (Henc : forall y : list Buffer,
                   (if 0xf <=? Z.of_nat (length entries)
                    then Return (Buffer_concat
                                   [Buffer_concat
                                      [Buffer_from
                                         [0xe0 + Z.min (Z.of_nat (length entries)) 0xf];
                                       concat (map entry_encoding entries)];
                                    Buffer_from [0x03]], y)
                    else Return (Buffer_concat
                                   [Buffer_from
                                      [0xe0 + Z.min (Z.of_nat (length entries)) 0xf];
                                    concat (map entry_encoding entries)], y))
                   = @Return (Buffer * list Buffer) (encoding (VDict entries), y)).
    { intros y. cbn [encoding]. unfold container, Buffer_concat, Buffer_from.
      cbn [map concat app]. rewrite ?app_nil_r.
      rewrite (Z.mod_small (0xe0 + _)) by lia.
      destruct (0xf <=? Z.of_nat (length entries)); [|now rewrite app_nil_r].
      reflexivity. }
    rewrite Henc. cbn [bind].
    rewrite deduplicate_fresh; [now rewrite app_assoc| |exact Hnd].
    apply Forall_app. split; [exact Hl|]. apply long_concat.
    rewrite Forall_forall. intros e _.
    apply Forall_app. split; [apply long_indexed|apply long_node_encodings].
Qed.

(** *** Round trip *)

Lemma size_le_encoding (v : value) :
  plain v = true -> (size v <= length (encoding v))%nat.
Proof.
  assert (Hscalar : forall w, scalar w = true -> size w = 1%nat ->
                              (size w <= length (encoding w))%nat).
  { intros w Hs ->. destruct (codec_scalar w Hs) as (e & _ & He & _ & t & r & -> & _).
    rewrite He. cbn [length]. lia. }
  induction v as [| |b| |bytes|n size|n|bits|s|b|items IH|entries IH|]
    using value_induction; try (intros Hp; now apply Hscalar).
  - cbn [plain]. intros Hp. rewrite forallb_forall in Hp.
    cbn [size encoding]. unfold container. cbn [length]. rewrite length_app.
    apply le_n_S.
    assert (Hsum : (list_sum (map size items) <= length (concat (map encoding items)))%nat).
    { induction items as [|x items IHitems]; [cbn; lia|].
      change (list_sum (map size (x :: items)))
        with (size x + list_sum (map size items))%nat.
      cbn [map concat]. rewrite length_app. inversion IH as [|? ? Hx Hrest]; subst.
      specialize (Hx (Hp x (or_introl eq_refl))).
      specialize (IHitems Hrest (fun y Hy => Hp y (or_intror Hy))). lia. }
    lia.
  - cbn [plain]. intros Hp. apply andb_true_iff in Hp. destruct Hp as [Hp _].
    rewrite forallb_forall in Hp.
    cbn [size encoding]. unfold container. cbn [length]. rewrite length_app.
    apply le_n_S.
    assert (Hsum : (list_sum (map (fun e => S (size (snd e))) entries)
                    <= length (concat (map entry_encoding entries)))%nat).
    { induction entries as [|e entries IHentries]; [cbn; lia|].
      change (list_sum (map (fun e => S (size (snd e))) (e :: entries)))
        with (S (size (snd e)) + list_sum (map (fun e => S (size (snd e))) entries))%nat.
      cbn [map concat]. rewrite length_app. inversion IH as [|? ? He Hrest]; subst.
      pose proof (Hp e (or_introl eq_refl)) as Hpe.
      apply andb_true_iff in Hpe. destruct Hpe as [Hk Hv].
      apply andb_true_iff in Hk. destruct Hk as [Hk _]. apply Z.ltb_lt in Hk.
      specialize (He Hv).
      specialize (IHentries Hrest (fun y Hy => Hp y (or_intror Hy))).
      destruct (codec_string (fst e) Hk) as (k & (_ & _ & _ & t & r & -> & _) & Hpk).
      unfold entry_encoding at 1. rewrite Hpk. cbn [written]. rewrite length_app.
      cbn [length]. lia. }
    change (map (fun e => written (packString (fst e)) ++ encoding (snd e)) entries)
      with (map entry_encoding entries).
    lia.
Qed.

Lemma normalize_decoded (v : value) : normalize (decoded v) = normalize v.
Proof.
  induction v as [| |b| |bytes|n size|n|bits|s|b|items IH|entries IH|]
    using value_induction; try reflexivity.
  - cbn [decoded].
    repeat match goal with |- context [if ?c then _ else _] => destruct c end;
      reflexivity.
  - cbn [decoded normalize]. f_equal.
    induction IH as [|x items Hx _ IHitems]; [reflexivity|].
    cbn [map]. now rewrite Hx, IHitems.
  - cbn [decoded normalize]. f_equal.
    induction IH as [|e entries He _ IHentries]; [reflexivity|].
    cbn [map fst snd]. now rewrite He, IHentries.
Qed.

Lemma value_eqb_refl (v : value) : value_eqb v v = true.
Proof.
  induction v as [| |b| |bytes|n size|n|bits|s|b|items IH|entries IH|]
    using value_induction; cbn [value_eqb];
    try reflexivity; try apply Z.eqb_refl; try apply Buffer_equals_refl;
    try apply String.eqb_refl.
  - now destruct b.
  - now rewrite !Z.eqb_refl.
  - induction IH as [|x items Hx _ IHitems]; [reflexivity|].
    cbn [value_eqb] in Hx. now rewrite Hx, IHitems.
  - induction IH as [|[k x] entries He _ IHentries]; [reflexivity|].
    cbn [snd] in He. now rewrite String.eqb_refl, He, IHentries.
Qed.

Lemma equal_up_to_width_decoded (v : value) : equal_up_to_width v (decoded v) = true.
Proof. unfold equal_up_to_width. rewrite normalize_decoded. apply value_eqb_refl. Qed.

Lemma unpack_plain (v : value) (rest : Buffer) :
  plain v = true ->
  exists objectList,
    unpackInternal number_toString (unpack_fuel (encoding v ++ rest))
      (encoding v ++ rest) []
    = Return (decoded v, rest, objectList).
Proof.
  intros Hp. destruct (plain_decodes v Hp) as [_ Hread]. apply Hread.
  pose proof (size_le_encoding v Hp). unfold unpack_fuel. rewrite length_app. lia.
Qed.


(** X18.  [unpack] reads every such value from its encoding without
    back-references, also where [pack] would have written one: the
    back-references are an option of the format that the decoder does not
    depend on. *)
Theorem unpack_encoding (v : value) (rest : Buffer) :
  plain v = true ->
  unpack number_toString (encoding v ++ rest) = Return (decoded v, rest)
  /\ equal_up_to_width v (decoded v) = true.
Proof.
  intros Hp. destruct (unpack_plain v rest Hp) as (ol & Hread).
  unfold unpack. rewrite Hread. cbn [bind].
  split; [reflexivity|apply equal_up_to_width_decoded].
Qed.

End Codec.


Lemma unpack_encoding_witness :
  unpack (fun _ => EmptyString) (encoding nested_array ++ [])
  = Return (decoded nested_array, [])
  /\ equal_up_to_width nested_array (decoded nested_array) = true.
Proof.
  apply (unpack_encoding (fun _ => EmptyString) nested_array []). reflexivity.
Defined.

End OpackFacts.

(** * SRPAuthHandler *)

Module SrpFacts.
Import Chacha20 Srp.







Lemma length_uuidv4 (rnds : Buffer) : String.length (uuidv4 rnds) = 36%nat.
Proof. reflexivity. Qed.

Lemma step4_clientId `{Crypto} (h : SRPAuthHandler) (encryptedData : Buffer)
  (credentials : HapCredentials) :
  step4 h encryptedData = Return credentials -> clientId credentials = pairingId h.
Proof.
  unfold step4. intros Hret.
  destruct (sessionKey h); [|discriminate].
  destruct (signingKey h); [|discriminate].
  destruct (snd (decrypt _ encryptedData (nonce_string "PS-Msg06") None))
    as [bytes| |]; try discriminate.
  cbn [bind] in Hret.
  destruct (buffer_length bytes =? 0); [discriminate|].
  destruct (Tlv8.readTlv bytes) as [tlv| |]; try discriminate. cbn [bind] in Hret.
  destruct (tlv_get tlv Tlv8.Identifier); [|discriminate].
  destruct (tlv_get tlv Tlv8.PublicKey); [|discriminate].
  injection Hret as <-. reflexivity.
Qed.

(** C9, as amended.  In every credential set that [step4] returns, on a
    handler made by the constructor, [clientId] is the [pairingId] of the
    handler: the UTF-8 bytes of the text form of a version 4 UUID, which
    are 36 bytes. *)
Theorem step4_clientId_length `{Crypto} (h : SRPAuthHandler) (encryptedData : Buffer)
  (credentials : HapCredentials) :
  constructed h ->
  step4 h encryptedData = Return credentials ->
  exists rnds,
    clientId credentials = Buffer_from_string (uuidv4 rnds) /\
    buffer_length (clientId credentials) = 36.
Proof.
  intros [rnds Hid] Hret. exists rnds.
  rewrite (step4_clientId h encryptedData credentials Hret), Hid.
  cbn [pairingId new_SRPAuthHandler]. split; [reflexivity|].
  rewrite length_Buffer_from_string, length_uuidv4. reflexivity.
Qed.

Lemma step4_clientId_length_witness :
  exists rnds,
    clientId {| ltpk := Examples.device_ltpk; ltsk := [0x03];
                atvId := Examples.device_id;
                clientId := pairingId Examples.pairing_handler |}
    = Buffer_from_string (uuidv4 rnds) /\
    buffer_length
      (clientId {| ltpk := Examples.device_ltpk; ltsk := [0x03];
                   atvId := Examples.device_id;
                   clientId := pairingId Examples.pairing_handler |}) = 36.
Proof.
  apply (@step4_clientId_length Toy.crypto Examples.pairing_handler Examples.device_m6).
  - exists (repeat 0 16). reflexivity.
  - vm_compute. reflexivity.
Defined.

Lemma step4_clientId_is_36_bytes :
  exists credentials,
    @step4 Toy.crypto Examples.pairing_handler Examples.device_m6 = Return credentials /\
    clientId credentials = Buffer_from_string "00000000-0000-4000-8000-000000000000" /\
    buffer_length (clientId credentials) = 36 /\
    buffer_length (clientId credentials) <> 16.
Proof.
  eexists. split; [vm_compute; reflexivity|].
  split; [reflexivity|]. split; [reflexivity|]. discriminate.
Qed.

Lemma modPow_loop_correct (m : Z) (fuel : nat) :
  1 < m ->
  forall result base exp,
  0 <= result < m -> 0 <= base < m -> 0 <= exp ->
  exp < 2 ^ Z.of_nat fuel ->
  modPow_loop (S fuel) result base exp m = Return ((result * base ^ exp) mod m).
Proof.
  intros Hm. induction fuel as [|fuel IH]; intros result base exp Hr Hb He Hf.
  - assert (exp = 0) by (change (2 ^ Z.of_nat 0) with 1 in Hf; lia). subst exp.
    cbn [modPow_loop Z.ltb Z.compare]. rewrite Z.pow_0_r, Z.mul_1_r.
    now rewrite Z.mod_small.
  - remember (S fuel) as f eqn:Hfs. cbn [modPow_loop].
    destruct (Z.ltb_spec 0 exp) as [Hpos|Hzero].
    2:{ assert (exp = 0) by lia. subst exp. rewrite Z.pow_0_r, Z.mul_1_r.
        now rewrite Z.mod_small. }
    subst f.
    rewrite (Z.rem_mod_nonneg exp 2) by lia.
    rewrite (Z.rem_mod_nonneg (result * base) m) by nia.
    rewrite (Z.rem_mod_nonneg (base * base) m) by nia.
    rewrite Z.quot_div_nonneg by lia.
    assert (Hhalf : exp / 2 < 2 ^ Z.of_nat fuel).
    { apply Z.div_lt_upper_bound; [lia|].
      rewrite Nat2Z.inj_succ, Z.pow_succ_r in Hf by lia. lia. }
    assert (Hhalf0 : 0 <= exp / 2) by (apply Z.div_pos; lia).
    assert (Hsq : 0 <= base * base mod m < m) by (apply Z.mod_pos_bound; lia).
    assert (Hbit : 0 <= exp mod 2 < 2) by (apply Z.mod_pos_bound; lia).
    assert (Hexp : exp = 2 * (exp / 2) + exp mod 2) by (apply Z.div_mod; lia).
    assert (Hpow : base ^ exp = (base * base) ^ (exp / 2) * base ^ (exp mod 2)).
    { rewrite Hexp at 1. rewrite Z.pow_add_r, Z.pow_mul_r by lia.
      now rewrite Z.pow_2_r. }
    assert (Hstep : forall r, 0 <= r < m ->
              modPow_loop (S fuel) r (base * base mod m) (exp / 2) m
              = Return ((r * (base * base) ^ (exp / 2)) mod m)).
    { intros r Hrm. rewrite IH by assumption. f_equal.
      rewrite Z.mul_mod, Z.mod_pow_l, <- Z.mul_mod by lia. reflexivity. }
    destruct (Z.eqb_spec (exp mod 2) 1) as [Hodd|Heven].
    + rewrite Hstep by (apply Z.mod_pos_bound; lia). f_equal.
      rewrite Hpow, Hodd, Z.pow_1_r.
      rewrite Z.mul_mod, Z.mod_mod, <- Z.mul_mod by lia. f_equal. ring.
    + rewrite Hstep by assumption. f_equal.
      assert (H0 : exp mod 2 = 0) by lia.
      rewrite Hpow, H0, Z.pow_0_r. f_equal. ring.
Qed.

Lemma log2_fuel (exp : Z) : 0 <= exp -> exp < 2 ^ Z.of_nat (S (Z.to_nat (Z.log2 exp))).
Proof.
  intros He. rewrite Nat2Z.inj_succ, Z2Nat.id by apply Z.log2_nonneg.
  destruct (Z.eq_dec exp 0) as [->|Hne]; [reflexivity|].
  apply Z.log2_spec. lia.
Qed.

(** X10.  [modPow] computes the modular power: for a base and an exponent
    that are not negative and a modulus above one it returns
    [base ^ exp mod m], after one turn of its loop for each bit of the
    exponent. *)
Theorem modPow_correct (base exp m : Z) :
  0 <= base -> 0 <= exp -> 1 < m ->
  modPow base exp m = Return (base ^ exp mod m).
Proof.
  intros Hb He Hm. unfold modPow.
  destruct (Z.eqb_spec m 0); [lia|].
  rewrite Z.rem_mod_nonneg by lia.
  rewrite modPow_loop_correct; [|exact Hm|lia|apply Z.mod_pos_bound; lia|exact He
                                |now apply log2_fuel].
  f_equal. rewrite Z.mul_1_l. apply Z.mod_pow_l.
Qed.

Lemma modPow_correct_witness : modPow 5 117 1019 = Return (5 ^ 117 mod 1019).
Proof. apply (modPow_correct 5 117 1019); lia. Defined.

Lemma hex_digit_value_hex_digit (d : Z) :
  0 <= d < 16 -> hex_digit_value (hex_digit d) = Some d.
Proof.
  intros Hd.
  assert (Htable : forallb (fun n => match hex_digit_value (hex_digit (Z.of_nat n)) with
                                     | Some d' => d' =? Z.of_nat n
                                     | None => false
                                     end) (seq 0 16) = true) by (vm_compute; reflexivity).
  rewrite forallb_forall in Htable.
  specialize (Htable (Z.to_nat d)). rewrite Z2Nat.id in Htable by lia.
  rewrite in_seq in Htable. specialize (Htable ltac:(lia)).
  destruct (hex_digit_value (hex_digit d)); [|discriminate].
  apply Z.eqb_eq in Htable. now subst.
Qed.

Lemma hex_value_append (s t : string) : forall k,
  hex_value (append s t) k
  = match hex_value s k with Some k' => hex_value t k' | None => None end.
Proof.
  induction s as [|c s IH]; intros k; cbn [append hex_value]; [reflexivity|].
  destruct (hex_digit_value c); [apply IH|reflexivity].
Qed.

Lemma be_value_cons (x : Z) (b : Buffer) :
  be_value (x :: b) = x * 256 ^ buffer_length b + be_value b.
Proof.
  unfold be_value. cbn [rev].
  assert (Happ : forall l r, le_value (l ++ r) = le_value l + 256 ^ buffer_length l * le_value r).
  { induction l as [|y l IHl]; intros r.
    - cbn [app le_value]. change (buffer_length []) with 0. lia.
    - cbn [app le_value]. rewrite IHl.
      replace (buffer_length (y :: l)) with (buffer_length l + 1)
        by (unfold buffer_length; cbn [length]; lia).
      rewrite Z.pow_add_r by (pose proof (buffer_length_nonneg l); lia). ring. }
  rewrite Happ. cbn [le_value].
  replace (buffer_length (rev b)) with (buffer_length b)
    by (unfold buffer_length; now rewrite length_rev).
  ring.
Qed.

(** The hexadecimal form of a buffer reads as its big-endian number. *)
Lemma hex_value_hex (b : Buffer) : is_bytes b -> forall k,
  hex_value (hex b) k = Some (k * 256 ^ buffer_length b + be_value b).
Proof.
  induction 1 as [|x b Hx Hb IH]; intros k.
  - cbn. f_equal. lia.
  - cbn [hex]. unfold byteToHex. cbn [append hex_value].
    rewrite (Z.mod_small x 256) by lia.
    assert (H1 : 0 <= x / 16 < 16).
    { split; [apply Z.div_pos; lia|apply Z.div_lt_upper_bound; lia]. }
    assert (H2 : 0 <= x mod 16 < 16) by (apply Z.mod_pos_bound; lia).
    rewrite !hex_digit_value_hex_digit by assumption. rewrite IH, be_value_cons. f_equal.
    replace (buffer_length (x :: b)) with (buffer_length b + 1)
      by (unfold buffer_length; cbn [length]; lia).
    rewrite Z.pow_add_r by (pose proof (buffer_length_nonneg b); lia).
    assert (Hx16 : x = 16 * (x / 16) + x mod 16) by (apply Z.div_mod; lia).
    lia.
Qed.

(** The digits that [toString(16)] writes: at least one, no zero in front
    of a number of two digits or more, and they read as the number. *)
Lemma toString16_loop_digits (fuel : nat) : forall n acc,
  0 <= n < 16 ^ Z.of_nat (S fuel) ->
  exists L : nat,
    (1 <= L)%nat /\
    (L = 1%nat \/ 16 ^ (Z.of_nat L - 1) <= n) /\
    String.length (toString16_loop (S fuel) n acc) = (L + String.length acc)%nat /\
    forall k, hex_value (toString16_loop (S fuel) n acc) k
              = hex_value acc (k * 16 ^ Z.of_nat L + n).
Proof.
  assert (Hone : forall n acc, 0 <= n < 16 ->
            exists L : nat,
              (1 <= L)%nat /\
              (L = 1%nat \/ 16 ^ (Z.of_nat L - 1) <= n) /\
              String.length (String (hex_digit n) acc) = (L + String.length acc)%nat /\
              forall k, hex_value (String (hex_digit n) acc) k
                        = hex_value acc (k * 16 ^ Z.of_nat L + n)).
  { intros n acc Hn. exists 1%nat. split; [lia|]. split; [now left|].
    split; [reflexivity|].
    intros k. cbn [hex_value]. rewrite hex_digit_value_hex_digit by lia.
    f_equal. change (16 ^ Z.of_nat 1) with 16. lia. }
  induction fuel as [|fuel IH]; intros n acc Hn.
  - change (16 ^ Z.of_nat 1) with 16 in Hn. cbn [toString16_loop].
    destruct (Z.ltb_spec n 16); [|lia]. now apply Hone.
  - remember (S fuel) as f eqn:Hf. cbn [toString16_loop].
    destruct (Z.ltb_spec n 16) as [Hsmall|Hbig]; [apply Hone; lia|].
    assert (Hq : 0 <= n / 16 < 16 ^ Z.of_nat f).
    { split; [apply Z.div_pos; lia|]. apply Z.div_lt_upper_bound; [lia|].
      rewrite Nat2Z.inj_succ, Z.pow_succ_r in Hn by lia. lia. }
    subst f.
    destruct (IH (n / 16) (String (hex_digit (n mod 16)) acc) Hq)
      as (L & HL & Hmin & Hlen & Hval).
    assert (Hn16 : n = 16 * (n / 16) + n mod 16) by (apply Z.div_mod; lia).
    assert (Hr : 0 <= n mod 16 < 16) by (apply Z.mod_pos_bound; lia).
    exists (S L). split; [lia|]. split; [|split].
    + right. replace (Z.of_nat (S L) - 1) with (Z.of_nat L) by lia.
      destruct Hmin as [->|Hmin]; [change (16 ^ Z.of_nat 1) with 16; lia|].
      replace (Z.of_nat L) with (Z.of_nat L - 1 + 1) by lia.
      rewrite Z.pow_add_r by lia. lia.
    + rewrite Hlen. cbn [String.length]. lia.
    + intros k. rewrite Hval. cbn [hex_value].
      rewrite hex_digit_value_hex_digit by exact Hr. f_equal.
      rewrite Nat2Z.inj_succ, Z.pow_succ_r by lia. lia.
Qed.

Lemma length_zeros (n : nat) : String.length (zeros n) = n.
Proof. induction n; cbn; auto. Qed.

Lemma hex_value_zeros (n : nat) : hex_value (zeros n) 0 = Some 0.
Proof. induction n; cbn; auto. Qed.

Lemma length_append (s t : string) :
  String.length (append s t) = (String.length s + String.length t)%nat.
Proof. induction s; cbn; auto. Qed.

Lemma N_bounds : 1 < N < 16 ^ 768.
Proof. split; vm_compute; reflexivity. Qed.

(** X11.  For the hexadecimal form of a private key of at least one byte
    [computePublicEphemeral] returns 768 hexadecimal digits, and they read
    as [5 ^ a mod N], where [a] is the number that the key holds in
    big-endian order and [N] the 3072-bit prime of RFC 5054: the public
    value [A = g^a mod N] of SRP, always in the full width of the group. *)
Theorem computePublicEphemeral_correct (key : Buffer) :
  is_bytes key -> key <> [] ->
  exists A : string,
    computePublicEphemeral (hex key) = Return A /\
    String.length A = 768%nat /\
    BigInt_hex A = Return (G ^ be_value key mod N).
Proof.
  intros Hb Hne. unfold computePublicEphemeral.
  assert (Ha : BigInt_hex (hex key) = Return (be_value key)).
  { unfold BigInt_hex. rewrite (hex_value_hex key Hb 0), Z.mul_0_l, Z.add_0_l.
    destruct key as [|x key]; [contradiction|]. reflexivity. }
  rewrite Ha. cbn [bind].
  pose proof N_bounds as HN.
  assert (Hkey : 0 <= be_value key) by now apply be_value_nonneg.
  unfold modPow. destruct (Z.eqb_spec N 0) as [HN0|_]; [lia|].
  rewrite (Z.rem_mod_nonneg G N) by (unfold G; lia).
  rewrite modPow_loop_correct;
    [|lia|lia|apply Z.mod_pos_bound; lia|exact Hkey|now apply log2_fuel].
  rewrite Z.mul_1_l, Z.mod_pow_l. cbn [bind].
  set (A := G ^ be_value key mod N).
  assert (HA : 0 <= A < N) by (apply Z.mod_pos_bound; lia).
  destruct (toString16_loop_digits (Z.to_nat (Z.log2 A)) A EmptyString)
    as (L & HL & Hmin & Hlen & Hval).
  { split; [lia|]. eapply Z.lt_le_trans; [apply (log2_fuel A); lia|].
    apply Z.pow_le_mono_l. lia. }
  fold (toString16 A) in Hlen, Hval. cbn [String.length] in Hlen.
  assert (HL768 : (L <= 768)%nat).
  { destruct Hmin as [->|Hmin]; [lia|].
    destruct (Nat.le_gt_cases L 768) as [|Hgt]; [assumption|exfalso].
    assert (16 ^ 768 <= 16 ^ (Z.of_nat L - 1)) by (apply Z.pow_le_mono_r; lia).
    lia. }
  exists (padStart 768 (toString16 A)). split; [reflexivity|]. split.
  - unfold padStart. rewrite length_append, length_zeros, Hlen. lia.
  - unfold BigInt_hex, padStart.
    rewrite hex_value_append, hex_value_zeros, Hval. cbn [hex_value].
    rewrite Z.mul_0_l, Z.add_0_l.
    rewrite length_append, length_zeros, Hlen.
    destruct (Nat.eqb_spec (768 - (L + 0) + (L + 0)) 0); [lia|reflexivity].
Qed.

Lemma computePublicEphemeral_correct_witness :
  exists A : string,
    computePublicEphemeral (hex [0x12; 0x34]) = Return A /\
    String.length A = 768%nat /\
    BigInt_hex A = Return (G ^ be_value [0x12; 0x34] mod N).
Proof.
  apply (computePublicEphemeral_correct [0x12; 0x34]).
  - unfold is_bytes. repeat constructor; lia.
  - discriminate.
Defined.

Import Examples.

(** What was sealed under a label opens under that label, for a cipher
    object that opens with the key the other seals with. *)
Lemma label_opens `{Crypto} (c c' d : Chacha20Cipher) (data sealed : Buffer)
  (label : string) :
  aead_opens -> inKey d = outKey c ->
  encrypt c data (nonce_string label) None = (c', Return sealed) ->
  snd (decrypt d sealed (nonce_string label) None) = Return data.
Proof.
  intros Hopens Hkey Henc. unfold encrypt in Henc. injection Henc as _ Hsealed.
  unfold decrypt. cbn [snd]. rewrite Hkey. now apply Hopens.
Qed.

Lemma readTlv_written (M : Tlv8.TlvData) :
  Tlv8.well_keyed M -> (forall tag, In tag (map fst M) -> 0 <= tag <= 255) ->
  exists k, Tlv8.parses (Tlv8.writeTlv M) [] M k.
Proof.
  intros Hk Ht. destruct (Tlv8Facts.parses_writeTlv M [] Hk) as (k & Hp).
  - intros tag Hin. split; [auto|reflexivity].
  - now exists k.
Qed.

(** X12.  The message of the third pairing step reaches the device: under
    the session key that [step3] derives and stores, and the nonce label
    PS-Msg05, it opens to a TLV whose [Identifier] is the pairing id of the
    handler, whose [PublicKey] is the Ed25519 public key of the handler and
    whose [Signature] is the Ed25519 signature, under the matching private
    key, of the derived value [iosDeviceX], the pairing id and the public
    key. *)
Theorem step3_message `{Crypto} (h h' : SRPAuthHandler) (sealed : Buffer) :
  aead_opens ->
  step3 h None None = (h', Return sealed) ->
  exists session signing signature,
    srpSession h = Some session /\ signingKey h = Some signing /\
    let k := hkdfExpand "Pair-Setup-Encrypt-Salt" "Pair-Setup-Encrypt-Info"
               (key session) in
    let iosDeviceX := hkdfExpand "Pair-Setup-Controller-Sign-Salt"
                        "Pair-Setup-Controller-Sign-Info" (key session) in
    sessionKey h' = Some k /\
    ed25519Sign (privateKey signing) (iosDeviceX ++ pairingId h ++ publicKey signing)
    = Return signature /\
    (let* opened :=
       snd (decrypt (new_Chacha20Cipher8byteNonce k k) sealed
              (nonce_string "PS-Msg05") None) in
     Tlv8.readTlv opened)
    = Return [(0x01, pairingId h); (0x03, publicKey signing); (0x0a, signature)].
Proof.
  intros Hopens Hstep. unfold step3 in Hstep.
  destruct (srpSession h) as [session|]; [|discriminate].
  destruct (signingKey h) as [signing|]; [|discriminate].
  exists session, signing. injection Hstep as <- Hsealed.
  unfold Buffer_concat in Hsealed. cbn [concat] in Hsealed. rewrite app_nil_r in Hsealed.
  destruct (ed25519Sign (privateKey signing) _) as [signature| |] eqn:Hsign;
    try discriminate.
  cbn [bind] in Hsealed. exists signature.
  split; [reflexivity|]. split; [reflexivity|]. cbv zeta.
  split; [reflexivity|]. split; [exact Hsign|].
  unfold encrypt in Hsealed. cbn [snd] in Hsealed.
  unfold decrypt. cbn [snd new_Chacha20Cipher8byteNonce new_Chacha20Cipher inKey outKey]
    in Hsealed |- *.
  rewrite (Hopens _ _ _ _ _ Hsealed). cbn [bind].
  destruct (readTlv_written
              [(Tlv8.TlvValue_value Tlv8.Identifier, pairingId h);
               (Tlv8.TlvValue_value Tlv8.PublicKey, publicKey signing);
               (Tlv8.TlvValue_value Tlv8.Signature, signature)]) as (k & Hp).
  - unfold Tlv8.well_keyed. cbn. repeat constructor; cbn; intuition lia.
  - cbn. intros tag Htag. intuition lia.
  - exact (Tlv8Facts.readTlv_parses _ _ _ Hp).
Qed.

Lemma step3_message_witness :
  exists session signing signature,
    srpSession pairing_start = Some session /\
    signingKey pairing_start = Some signing /\
    sessionKey pairing_handler
    = Some (@hkdfExpand Toy.crypto "Pair-Setup-Encrypt-Salt" "Pair-Setup-Encrypt-Info"
              (key session)) /\
    @ed25519Sign Toy.crypto (privateKey signing)
      (@hkdfExpand Toy.crypto "Pair-Setup-Controller-Sign-Salt"
         "Pair-Setup-Controller-Sign-Info" (key session)
       ++ pairingId pairing_start ++ publicKey signing)
    = Return signature /\
    (let* opened :=
       snd (@decrypt Toy.crypto
              (new_Chacha20Cipher8byteNonce
                 (@hkdfExpand Toy.crypto "Pair-Setup-Encrypt-Salt"
                    "Pair-Setup-Encrypt-Info" (key session))
                 (@hkdfExpand Toy.crypto "Pair-Setup-Encrypt-Salt"
                    "Pair-Setup-Encrypt-Info" (key session)))
              pairing_m5 (nonce_string "PS-Msg05") None) in
     Tlv8.readTlv opened)
    = Return [(0x01, pairingId pairing_start);
              (0x03, publicKey signing); (0x0a, signature)].
Proof.
  apply (@step3_message Toy.crypto pairing_start pairing_handler
           pairing_m5).
  - exact Toy_aead_opens.
  - reflexivity.
Defined.

Lemma writeTlv_nonempty (entry : Z * Buffer) (M : Tlv8.TlvData) :
  (buffer_length (Tlv8.writeTlv (entry :: M)) =? 0) = false.
Proof.
  destruct entry as [tag v]. unfold Tlv8.writeTlv, Buffer_concat.
  cbn [flat_map Tlv8.writeTlv_entry]. rewrite Tlv8Facts.writeTlv_chunks_S.
  rewrite Z.eqb_refl, orb_true_r.
  destruct (buffer_length v =? 0); cbn [app concat Buffer_from map];
    apply Z.eqb_neq; unfold buffer_length; cbn [length app]; lia.
Qed.

(** X13.  The fourth pairing step returns what the device sent: for a TLV
    with an [Identifier] and a [PublicKey] that a peer sealed under the
    session key of the handler and the nonce label PS-Msg06, [step4]
    returns the credentials made of that public key as [ltpk], that
    identifier as [atvId], the private signing key of the handler as
    [ltsk] and its pairing id as [clientId]. *)
Theorem step4_credentials `{Crypto} (h : SRPAuthHandler) (k : Buffer)
  (signing : KeyPair) (M : Tlv8.TlvData) (id pk sealed : Buffer) :
  aead_opens ->
  sessionKey h = Some k -> signingKey h = Some signing ->
  Tlv8.well_keyed M -> (forall tag, In tag (map fst M) -> 0 <= tag <= 255) ->
  tlv_get M Tlv8.Identifier = Some id -> tlv_get M Tlv8.PublicKey = Some pk ->
  snd (encrypt (new_Chacha20Cipher8byteNonce k k) (Tlv8.writeTlv M)
         (nonce_string "PS-Msg06") None) = Return sealed ->
  step4 h sealed
  = Return {| ltpk := pk; ltsk := privateKey signing; atvId := id;
              clientId := pairingId h |}.
Proof.
  intros Hopens Hk Hs Hkeys Htags Hid Hpk Hsealed. unfold step4. rewrite Hk, Hs.
  destruct (encrypt (new_Chacha20Cipher8byteNonce k k) (Tlv8.writeTlv M)
              (nonce_string "PS-Msg06") None) as [c' o] eqn:Henc.
  cbn [snd] in Hsealed. subst o.
  rewrite (label_opens (new_Chacha20Cipher8byteNonce k k) c'
             (new_Chacha20Cipher8byteNonce k k) _ _ _ Hopens eq_refl Henc).
  cbn [bind].
  destruct M as [|entry M]; [discriminate|].
  rewrite writeTlv_nonempty.
  destruct (readTlv_written (entry :: M) Hkeys Htags) as (n & Hp).
  rewrite (Tlv8Facts.readTlv_parses _ _ _ Hp). cbn [bind].
  rewrite Hid, Hpk. reflexivity.
Qed.

Lemma step4_credentials_witness :
  @step4 Toy.crypto pairing_handler device_m6
  = Return {| ltpk := device_ltpk;
              ltsk := privateKey client_signing;
              atvId := device_id;
              clientId := pairingId pairing_handler |}.
Proof.
  apply (@step4_credentials Toy.crypto pairing_handler
           (@hkdfExpand Toy.crypto "Pair-Setup-Encrypt-Salt" "Pair-Setup-Encrypt-Info"
              [0x0b])
           client_signing
           [(0x01, device_id); (0x03, device_ltpk)]).
  - exact Toy_aead_opens.
  - reflexivity.
  - reflexivity.
  - unfold Tlv8.well_keyed. cbn. repeat constructor; cbn; intuition lia.
  - cbn. intros tag Htag. intuition lia.
  - reflexivity.
  - reflexivity.
  - reflexivity.
Defined.

(** X14.  When [verify1] returns, its result reaches the device and the
    session keys are ready: the result opens, under the key derived from
    the X25519 secret and the nonce label PV-Msg03, to a TLV whose
    [Identifier] is the client id of the credentials and whose [Signature]
    is the Ed25519 signature under the client's long-term key of the
    handler's public key, the client id and the device's session key; the
    handler has stored the secret, and [verify2] returns the two keys
    derived from it by HKDF. *)
Theorem verify1_then_verify2 `{Crypto} (h h' : SRPAuthHandler)
  (credentials : HapCredentials) (sessionPubKey encrypted response : Buffer) :
  aead_opens ->
  verify1 h credentials sessionPubKey encrypted = (h', Return response) ->
  exists vk shared signature,
    verifyKey h = Some vk /\
    x25519SharedSecret (privateKey vk) sessionPubKey = Return shared /\
    ed25519Sign (ltsk credentials)
      (publicKey vk ++ clientId credentials ++ sessionPubKey) = Return signature /\
    (let k := hkdfExpand "Pair-Verify-Encrypt-Salt" "Pair-Verify-Encrypt-Info" shared in
     let* opened :=
       snd (decrypt (new_Chacha20Cipher8byteNonce k k) response
              (nonce_string "PV-Msg03") None) in
     Tlv8.readTlv opened)
    = Return [(0x01, clientId credentials); (0x0a, signature)] /\
    forall salt outputInfo inputInfo,
      verify2 h' salt outputInfo inputInfo
      = Return (hkdfExpand salt outputInfo shared, hkdfExpand salt inputInfo shared).
Proof.
  intros Hopens Hv. unfold verify1 in Hv.
  destruct (verifyKey h) as [vk|]; [|discriminate].
  destruct (x25519SharedSecret (privateKey vk) sessionPubKey) as [shared| |] eqn:Hx;
    try discriminate.
  injection Hv as <- Hresp. exists vk, shared.
  unfold verify1_response in Hresp.
  destruct (decrypt _ encrypted (nonce_string "PV-Msg02") None) as [chacha dec] eqn:Hdec.
  assert (Hchacha : outKey chacha
                    = hkdfExpand "Pair-Verify-Encrypt-Salt" "Pair-Verify-Encrypt-Info"
                        shared).
  { unfold decrypt in Hdec. injection Hdec as <- _. reflexivity. }
  destruct dec as [bytes| |]; try discriminate. cbn [bind] in Hresp.
  destruct (Tlv8.readTlv bytes) as [tlv| |]; try discriminate. cbn [bind] in Hresp.
  destruct (tlv_get tlv Tlv8.Identifier) as [identifier|]; [|discriminate].
  destruct (tlv_get tlv Tlv8.Signature) as [sig|]; [|discriminate].
  destruct (negb (Buffer_equals identifier (atvId credentials))); [discriminate|].
  destruct (negb (ed25519Verify _ _ sig)); [discriminate|].
  unfold Buffer_concat in Hresp. cbn [concat] in Hresp. rewrite app_nil_r in Hresp.
  destruct (ed25519Sign (ltsk credentials) _) as [signature| |] eqn:Hsign;
    try discriminate.
  cbn [bind] in Hresp. exists signature.
  split; [reflexivity|]. split; [exact Hx|]. split; [reflexivity|]. split.
  - cbv zeta.
    destruct (encrypt chacha _ (nonce_string "PV-Msg03") None) as [c' o] eqn:Henc.
    cbn [snd] in Hresp. subst o.
    rewrite (label_opens chacha c'
               (new_Chacha20Cipher8byteNonce
                  (hkdfExpand "Pair-Verify-Encrypt-Salt" "Pair-Verify-Encrypt-Info" shared)
                  (hkdfExpand "Pair-Verify-Encrypt-Salt" "Pair-Verify-Encrypt-Info" shared))
               _ _ _ Hopens (eq_sym Hchacha) Henc).
    cbn [bind].
    destruct (readTlv_written
                [(Tlv8.TlvValue_value Tlv8.Identifier, clientId credentials);
                 (Tlv8.TlvValue_value Tlv8.Signature, signature)]) as (n & Hp).
    + unfold Tlv8.well_keyed. cbn. repeat constructor; cbn; intuition lia.
    + cbn. intros tag Htag. intuition lia.
    + exact (Tlv8Facts.readTlv_parses _ _ _ Hp).
  - intros salt outputInfo inputInfo. reflexivity.
Qed.

Lemma verify1_then_verify2_witness :
  exists vk shared signature,
    verifyKey verifying_handler = Some vk /\
    @x25519SharedSecret Toy.crypto (privateKey vk) device_eph_pub = Return shared /\
    @ed25519Sign Toy.crypto (ltsk credentials)
      (publicKey vk ++ clientId credentials ++ device_eph_pub) = Return signature /\
    (let k := @hkdfExpand Toy.crypto "Pair-Verify-Encrypt-Salt"
                "Pair-Verify-Encrypt-Info" shared in
     let* opened :=
       snd (@decrypt Toy.crypto (new_Chacha20Cipher8byteNonce k k) client_m3
              (nonce_string "PV-Msg03") None) in
     Tlv8.readTlv opened)
    = Return [(0x01, clientId credentials); (0x0a, signature)] /\
    forall salt outputInfo inputInfo,
      @verify2 Toy.crypto verified_handler salt outputInfo inputInfo
      = Return (@hkdfExpand Toy.crypto salt outputInfo shared,
                @hkdfExpand Toy.crypto salt inputInfo shared).
Proof.
  apply (@verify1_then_verify2 Toy.crypto verifying_handler verified_handler
           credentials device_eph_pub (device_response device_signature) client_m3).
  - exact Toy_aead_opens.
  - vm_compute. reflexivity.
Defined.

End SrpFacts.

(** * The scanner *)

Module ScannerFacts.
Import Scanner.

Lemma same_identifier_eq (d device : AppleTVDevice) :
  same_identifier d device = true <-> identifier d = identifier device.
Proof.
  unfold same_identifier.
  destruct (identifier d) as [a|], (identifier device) as [b|]; split;
    try discriminate; try reflexivity.
  - intros Heq. apply String.eqb_eq in Heq. now subst.
  - intros Heq. injection Heq as ->. apply String.eqb_refl.
Qed.

Lemma serviceToDevice_host (service : Service) (device : AppleTVDevice) :
  serviceToDevice service = Some device ->
  is_ipv4 (host device) = true /\ identifier device <> None /\
  name device = service_name service.
Proof.
  unfold serviceToDevice.
  destruct (find is_ipv4 _) as [ipv4|] eqn:Hfind; [|discriminate].
  intros Hd. injection Hd as <-. cbn [host identifier name].
  apply find_some in Hfind. split; [apply Hfind|]. split; [discriminate|reflexivity].
Qed.

(** X15.  The devices that [scan] resolves to have pairwise different
    identifiers, whatever the browser reported and however often; each of
    them was made by [serviceToDevice] from a service that came up, its
    host is an address with a dot that does not start with 169.254, and
    its identifier is defined. *)
Theorem scan_distinct (events : list browser_event) :
  NoDup (map identifier (scan events)) /\
  Forall (fun device =>
            (exists service,
                In (up service) events /\ serviceToDevice service = Some device) /\
            is_ipv4 (host device) = true /\ identifier device <> None)
    (scan events).
Proof.
  unfold scan.
  assert (Hgen : forall seen devices,
            NoDup (map identifier devices) ->
            Forall (fun device =>
                      (exists service,
                          In (up service) (seen ++ events) /\
                          serviceToDevice service = Some device) /\
                      is_ipv4 (host device) = true /\ identifier device <> None)
              devices ->
            let result :=
              fold_left
                (fun devices event =>
                   match event with
                   | up service =>
                       match serviceToDevice service with
                       | Some device => scan_on_device devices device
                       | None => devices
                       end
                   | down _ => devices
                   end) events devices in
            NoDup (map identifier result) /\
            Forall (fun device =>
                      (exists service,
                          In (up service) (seen ++ events) /\
                          serviceToDevice service = Some device) /\
                      is_ipv4 (host device) = true /\ identifier device <> None)
              result).
  { induction events as [|event events IH]; intros seen devices Hnd Hall.
    - cbn. split; assumption.
    - cbn [fold_left].
      replace (seen ++ event :: events) with ((seen ++ [event]) ++ events) in *
        by (rewrite <- app_assoc; reflexivity).
      destruct event as [service|service]; [|now apply IH].
      destruct (serviceToDevice service) as [device|] eqn:Hdev; [|now apply IH].
      apply IH.
      + unfold scan_on_device.
        destruct (existsb (fun d => same_identifier d device) devices) eqn:Hex;
          [exact Hnd|].
        rewrite map_app. apply NoDup_app; [exact Hnd|repeat constructor; cbn; tauto|].
        intros id Hin [<-|[]]. apply in_map_iff in Hin as (d & Hid & Hd).
        assert (Hsame : existsb (fun d => same_identifier d device) devices = true).
        { apply existsb_exists. exists d. split; [exact Hd|].
          now apply same_identifier_eq. }
        congruence.
      + unfold scan_on_device.
        destruct (existsb (fun d => same_identifier d device) devices); [exact Hall|].
        apply Forall_app. split; [exact Hall|]. constructor; [|constructor].
        destruct (serviceToDevice_host _ _ Hdev) as (Hhost & Hid & _).
        split; [|split; assumption].
        exists service. split; [|exact Hdev].
        apply in_or_app. left. apply in_or_app. right. now left. }
  apply (Hgen [] []); constructor.
Qed.

Lemma land_pow2 (a k : Z) :
  0 <= k -> Z.land a (2 ^ k) = if Z.testbit a k then 2 ^ k else 0.
Proof.
  intros Hk. apply Z.bits_inj'. intros i Hi.
  rewrite Z.land_spec, Z.pow2_bits_eqb by exact Hk.
  destruct (Z.eqb_spec k i) as [->|Hne].
  - destruct (Z.testbit a i); [now rewrite Z.pow2_bits_true|now rewrite Z.bits_0].
  - rewrite andb_false_r.
    destruct (Z.testbit a k); [now rewrite Z.pow2_bits_false|now rewrite Z.bits_0].
Qed.

(** [x & 2^k] looks at bit [k] of the number, also when the number is
    negative or does not fit 32 bits. *)
Lemma bitand_pow2 (n k : Z) :
  0 <= k < 31 -> (bitand (Some n) (2 ^ k) =? 0) = negb (Z.testbit n k).
Proof.
  intros Hk. unfold bitand.
  assert (Hpow : 0 < 2 ^ k < 2 ^ 31).
  { split; [apply Z.pow_pos_nonneg; lia|apply Z.pow_lt_mono_r; lia]. }
  rewrite (Z.mod_small (2 ^ k)) by (change (2 ^ 32) with (2 * 2 ^ 31); lia).
  rewrite land_pow2 by lia. rewrite Z.mod_pow2_bits_low by lia.
  destruct (Z.testbit n k); cbn [negb].
  - rewrite Z.mod_small by (change (2 ^ 32) with (2 * 2 ^ 31); lia).
    apply Z.eqb_neq. lia.
  - reflexivity.
Qed.

(** X16.  The two pairing tests read two bits of the number that
    [parseInt] makes of the flags property, bit 1 (pairing disabled) and
    bit 9 (pairing with PIN), also when that number is negative or wider
    than 32 bits: [isPairingDisabled] is bit 1, and [supportsPairing] is
    bit 9 with bit 1 clear, so it is never true of a device whose pairing
    is disabled.  Without a number both are false. *)
Theorem pairing_flags (parseInt16 : string -> option Z) (device : AppleTVDevice) :
  isPairingDisabled parseInt16 device
  = match parseInt16 (flagsStr device) with
    | Some flags => Z.testbit flags 1
    | None => false
    end /\
  supportsPairing parseInt16 device
  = match parseInt16 (flagsStr device) with
    | Some flags => negb (Z.testbit flags 1) && Z.testbit flags 9
    | None => false
    end /\
  (supportsPairing parseInt16 device = true ->
   isPairingDisabled parseInt16 device = false).
Proof.
  unfold supportsPairing, isPairingDisabled. cbv zeta.
  destruct (parseInt16 (flagsStr device)) as [flags|].
  - change PAIRING_DISABLED_MASK with (2 ^ 1).
    change PAIRING_WITH_PIN_SUPPORTED_MASK with (2 ^ 9).
    rewrite !bitand_pow2 by lia. rewrite !negb_involutive.
    destruct (Z.testbit flags 1); cbn [negb andb]; repeat split;
      first [reflexivity | discriminate].
  - cbn. repeat split; first [reflexivity | discriminate].
Qed.

(** ** The devices of the scanner *)

Lemma key_eqb_eq (a b : option string) : key_eqb a b = true <-> a = b.
Proof.
  destruct a as [x|], b as [y|]; cbn [key_eqb]; split; try discriminate; try reflexivity.
  - intros Heq. apply String.eqb_eq in Heq. now subst.
  - intros Heq. injection Heq as ->. apply String.eqb_refl.
Qed.

Lemma key_eqb_neq (a b : option string) : key_eqb a b = false <-> a <> b.
Proof.
  rewrite <- key_eqb_eq. destruct (key_eqb a b); split; congruence.
Qed.

Lemma In_devices_set (m : list (option string * AppleTVDevice)) (key : option string)
  (device : AppleTVDevice) (e : option string * AppleTVDevice) :
  In e (devices_set m key device) -> e = (key, device) \/ In e m.
Proof.
  induction m as [|[k x] m IH]; cbn [devices_set In].
  - intros [<-|[]]. now left.
  - destruct (key_eqb k key) eqn:Hk; cbn [In].
    + apply key_eqb_eq in Hk. subst k. intros [<-|Hin]; [now left|right; now right].
    + intros [<-|Hin]; [right; now left|].
      destruct (IH Hin); [now left|right; now right].
Qed.

Lemma NoDup_devices_set (m : list (option string * AppleTVDevice)) (key : option string)
  (device : AppleTVDevice) :
  NoDup (map fst m) -> NoDup (map fst (devices_set m key device)).
Proof.
  induction m as [|[k x] m IH]; cbn [devices_set map fst]; intros Hnd.
  - repeat constructor. intros [].
  - inversion Hnd as [|? ? Hnotin Hrest]; subst.
    destruct (key_eqb k key) eqn:Hk; cbn [map fst]; [exact Hnd|].
    apply key_eqb_neq in Hk. constructor; [|auto].
    intros Hin. apply in_map_iff in Hin. destruct Hin as (e & He & Hin).
    destruct (In_devices_set _ _ _ _ Hin) as [->|Hm].
    + cbn in He. congruence.
    + apply Hnotin. rewrite <- He. now apply in_map.
Qed.

(** A [Map] whose keys differ from each other and are the identifiers of
    its devices. *)
Lemma values_devices_set (m : list (option string * AppleTVDevice))
  (device d : AppleTVDevice) :
  NoDup (map fst m) ->
  (forall k x, In (k, x) m -> identifier x = k) ->
  In d (map snd (devices_set m (identifier device) device))
  <-> d = device \/ (In d (map snd m) /\ identifier d <> identifier device).
Proof.
  induction m as [|[k x] m IH]; cbn [devices_set map fst snd In]; intros Hnd Hkeys.
  - split; [intros [<-|[]]; now left|intros [->|[[] _]]; now left].
  - inversion Hnd as [|? ? Hnotin Hrest]; subst.
    assert (Hx : identifier x = k) by (apply Hkeys; now left).
    assert (Hm : forall k' x', In (k', x') m -> identifier x' = k').
    { intros k' x' Hin. apply Hkeys. now right. }
    specialize (IH Hrest Hm).
    destruct (key_eqb k (identifier device)) eqn:Hk; cbn [map snd In].
    + apply key_eqb_eq in Hk. split.
      * intros [<-|Hin]; [now left|right]. split; [now right|].
        intros Heq. apply Hnotin. apply in_map_iff in Hin.
        destruct Hin as ([k' d'] & Hd & Hin). cbn in Hd. subst d'.
        rewrite Hk, <- Heq, (Hm _ _ Hin).
        change k' with (fst (k', d)). now apply in_map.
      * intros [->|[[<-|Hin] Hne]]; [now left|congruence|now right].
    + apply key_eqb_neq in Hk. rewrite IH. split.
      * intros [<-|[->|[Hin Hne]]].
        -- right. split; [now left|congruence].
        -- now left.
        -- right. split; [now right|exact Hne].
      * intros [->|[[<-|Hin] Hne]]; [right; now left|now left|right; right; now split].
Qed.

Lemma values_devices_delete (m : list (option string * AppleTVDevice))
  (key : option string) (d : AppleTVDevice) :
  (forall k x, In (k, x) m -> identifier x = k) ->
  In d (map snd (devices_delete m key))
  <-> In d (map snd m) /\ identifier d <> key.
Proof.
  intros Hkeys. unfold devices_delete. rewrite !in_map_iff. split.
  - intros ([k x] & Hd & Hin). cbn in Hd. subst x. apply filter_In in Hin.
    destruct Hin as [Hin Hne]. cbn [fst] in Hne. apply negb_true_iff, key_eqb_neq in Hne.
    split; [now exists (k, d)|]. now rewrite (Hkeys _ _ Hin).
  - intros (([k x] & Hd & Hin) & Hne). cbn in Hd. subst x. exists (k, d).
    split; [reflexivity|]. apply filter_In. split; [exact Hin|].
    cbn [fst]. apply negb_true_iff, key_eqb_neq. now rewrite <- (Hkeys _ _ Hin).
Qed.

(** The last event of a list that is cut at one of its events. *)
Lemma cut_last {A : Type} (before after events : list A) (x last : A) :
  before ++ x :: after = events ++ [last] ->
  (after = [] /\ x = last /\ before = events)
  \/ exists after', after = after' ++ [last] /\ events = before ++ x :: after'.
Proof.
  destruct (exists_last (l := x :: after) ltac:(discriminate)) as (l & y & Hl).
  intros Heq. destruct after as [|a after].
  - left. apply app_inj_tail in Heq. destruct Heq as [-> ->]. auto.
  - right. destruct (exists_last (l := a :: after) ltac:(discriminate)) as (l' & z & Hl').
    rewrite Hl' in Heq |- *. change (x :: l' ++ [z]) with ((x :: l') ++ [z]) in Heq.
    rewrite app_assoc in Heq. apply app_inj_tail in Heq. destruct Heq as [<- ->].
    now exists l'.
Qed.

(** X23.  [getDevices] gives the devices that are up: after [start], and
    whatever the browser has reported since, the devices of the scanner
    have identifiers that differ from each other, and a device is among
    them when, and only when, a service that came up gave this device and
    no later event, up or down, was about a device with its identifier. *)
Theorem getDevices_latest (m : list (option string * AppleTVDevice))
  (events : list browser_event) (d : AppleTVDevice) :
  NoDup (map identifier
           (getDevices (reported events (start {| browser := false; devices := m |}))))
  /\ (In d (getDevices (reported events (start {| browser := false; devices := m |})))
      <-> exists before service after,
            events = before ++ up service :: after
            /\ serviceToDevice service = Some d
            /\ forall event d', In event after -> event_device event = Some d' ->
                                identifier d' <> identifier d).
Proof.
  unfold start. cbn [browser]. unfold getDevices.
  assert (Hinv : forall events,
            let s := reported events {| browser := true; devices := [] |} in
            NoDup (map fst (devices s))
            /\ (forall k x, In (k, x) (devices s) -> identifier x = k)
            /\ forall d, In d (map snd (devices s))
                 <-> exists before service after,
                       events = before ++ up service :: after
                       /\ serviceToDevice service = Some d
                       /\ forall event d', In event after ->
                            event_device event = Some d' ->
                            identifier d' <> identifier d).
  { clear events d. induction events as [|event events IH] using rev_ind; cbv zeta.
    - cbn. split; [constructor|]. split; [intros k x []|].
      intros d. split; [intros []|]. intros (before & service & after & Heq & _).
      destruct before; discriminate.
    - unfold reported in *. rewrite fold_left_app. cbn [fold_left].
      cbv zeta in IH. destruct IH as (Hnd & Hkeys & Hlast).
      set (s := fold_left _ events _) in *.
      assert (Hstay : forall d,
                (exists before service after,
                    events = before ++ up service :: after
                    /\ serviceToDevice service = Some d
                    /\ forall ev d', In ev after -> event_device ev = Some d' ->
                                     identifier d' <> identifier d)
                /\ (forall d', event_device event = Some d' ->
                               identifier d' <> identifier d)
                <-> exists before service after,
                      events ++ [event] = before ++ up service :: after
                      /\ after <> []
                      /\ serviceToDevice service = Some d
                      /\ forall ev d', In ev after -> event_device ev = Some d' ->
                                       identifier d' <> identifier d).
      { intros d. split.
        - intros ((before & service & after & -> & Hd & Hafter) & Hev).
          exists before, service, (after ++ [event]). rewrite <- app_assoc.
          split; [reflexivity|]. split; [now destruct after|]. split; [exact Hd|].
          intros ev d' Hin. apply in_app_or in Hin.
          destruct Hin as [Hin|[<-|[]]]; [now apply Hafter|apply Hev].
        - intros (before & service & after & Heq & Hne & Hd & Hafter).
          symmetry in Heq. destruct (cut_last _ _ _ _ _ Heq) as [[-> _]|(a & -> & ->)];
            [contradiction|].
          split.
          + exists before, service, a. split; [reflexivity|]. split; [exact Hd|].
            intros ev d' Hin. apply Hafter, in_or_app. now left.
          + intros d'. apply Hafter, in_or_app. right. now left. }
      assert (Hnew : forall service d,
                event = up service -> serviceToDevice service = Some d ->
                exists before service' after,
                  events ++ [event] = before ++ up service' :: after
                  /\ serviceToDevice service' = Some d
                  /\ forall ev d', In ev after -> event_device ev = Some d' ->
                                   identifier d' <> identifier d).
      { intros service d -> Hd. exists events, service, []. repeat split; [exact Hd|].
        intros ev d' []. }
      assert (Hcases : forall d,
                (exists before service after,
                    events ++ [event] = before ++ up service :: after
                    /\ serviceToDevice service = Some d
                    /\ forall ev d', In ev after -> event_device ev = Some d' ->
                                     identifier d' <> identifier d)
                -> (exists service, event = up service /\ serviceToDevice service = Some d)
                   \/ exists before service after,
                        events ++ [event] = before ++ up service :: after
                        /\ after <> []
                        /\ serviceToDevice service = Some d
                        /\ forall ev d', In ev after -> event_device ev = Some d' ->
                                         identifier d' <> identifier d).
      { intros d (before & service & after & Heq & Hd & Hafter).
        destruct after as [|a after].
        - left. exists service. split; [|exact Hd].
          apply app_inj_tail in Heq. now destruct Heq.
        - right. exists before, service, (a :: after). repeat split; auto. discriminate. }
      destruct event as [service|service]; unfold on_up, on_down;
        destruct (serviceToDevice service) as [device|] eqn:Hdevice; cbn [fst devices].
      + (* a device comes up *)
        split; [now apply NoDup_devices_set|]. split.
        * intros k x Hin. destruct (In_devices_set _ _ _ _ Hin) as [Heq|Hold]; [|auto].
          now injection Heq as -> ->.
        * intros d. rewrite (values_devices_set _ _ _ Hnd Hkeys). split.
          -- intros [->|[Hin Hne]]; [now apply (Hnew service)|].
             apply Hlast in Hin.
             destruct (proj1 (Hstay d)) as (b & sv & a & Heq & _ & Hd & Ha).
             ++ split; [exact Hin|]. cbn [event_device]. rewrite Hdevice.
                intros d' Hd'. injection Hd' as <-. congruence.
             ++ now exists b, sv, a.
          -- intros Hex. destruct (Hcases d Hex) as [(sv & Hsv & Hd)|Hold].
             ++ injection Hsv as <-. left. congruence.
             ++ apply Hstay in Hold. destruct Hold as [Hin Hev]. right.
                split; [now apply Hlast|].
                intros Heq. apply (Hev device); [cbn; exact Hdevice|now symmetry].
      + (* a service without a usable address comes up *)
        split; [exact Hnd|]. split; [exact Hkeys|].
        intros d. rewrite Hlast. split.
        -- intros Hin. destruct (proj1 (Hstay d)) as (b & sv & a & Heq & _ & Hd & Ha).
           ++ split; [exact Hin|]. cbn [event_device]. rewrite Hdevice. discriminate.
           ++ now exists b, sv, a.
        -- intros Hex. destruct (Hcases d Hex) as [(sv & Hsv & Hd)|Hold].
           ++ injection Hsv as <-. congruence.
           ++ apply Hstay in Hold. tauto.
      + (* a device goes down *)
        split; [now apply NoDup_map_filter|]. split.
        * intros k x Hin. apply filter_In in Hin. apply Hkeys. tauto.
        * intros d. rewrite (values_devices_delete _ _ _ Hkeys). split.
          -- intros [Hin Hne]. apply Hlast in Hin.
             destruct (proj1 (Hstay d)) as (b & sv & a & Heq & _ & Hd & Ha).
             ++ split; [exact Hin|]. cbn [event_device]. rewrite Hdevice.
                intros d' Hd'. injection Hd' as <-. congruence.
             ++ now exists b, sv, a.
          -- intros Hex. destruct (Hcases d Hex) as [(sv & Hsv & Hd)|Hold];
               [discriminate|].
             apply Hstay in Hold. destruct Hold as [Hin Hev].
             split; [now apply Hlast|].
             intros Heq. apply (Hev device); [cbn; exact Hdevice|now symmetry].
      + (* a service without a usable address goes down *)
        split; [exact Hnd|]. split; [exact Hkeys|].
        intros d. rewrite Hlast. split.
        -- intros Hin. destruct (proj1 (Hstay d)) as (b & sv & a & Heq & _ & Hd & Ha).
           ++ split; [exact Hin|]. cbn [event_device]. rewrite Hdevice. discriminate.
           ++ now exists b, sv, a.
        -- intros Hex. destruct (Hcases d Hex) as [(sv & Hsv & Hd)|Hold];
             [discriminate|].
           apply Hstay in Hold. tauto. }
  destruct (Hinv events) as (Hnd & Hkeys & Hlast). cbv zeta in *.
  split; [|apply Hlast].
  replace (map identifier (map snd (devices (reported events
             {| browser := true; devices := [] |}))))
    with (map fst (devices (reported events {| browser := true; devices := [] |})));
    [exact Hnd|].
  revert Hkeys. generalize (devices (reported events {| browser := true; devices := [] |})).
  intros l Hl. induction l as [|[k x] l IHl]; [reflexivity|].
  cbn [map fst snd]. rewrite (Hl k x) by now left. f_equal. apply IHl.
  intros k' x' Hin. apply Hl. now right.
Qed.

End ScannerFacts.

(** * The protocol *)

Module ProtocolFacts.

Import Chacha20 Connection Opack Protocol.
Import Chacha20Facts ConnectionFacts OpackFacts.

(** ** The queue *)

Lemma Map_get_In (m : list (Z * PendingRequest)) (k : Z) (q : PendingRequest) :
  Map_get m k = Some q -> In (k, q) m.
Proof.
  induction m as [|[k0 v] m IH]; cbn [Map_get]; [discriminate|].
  destruct (Z.eqb_spec k0 k) as [->|Hne].
  - intros Hq. injection Hq as ->. now left.
  - intros Hq. right. auto.
Qed.





Lemma In_Map_set (m : list (Z * PendingRequest)) (k : Z) (q : PendingRequest)
  (e : Z * PendingRequest) :
  In e (Map_set m k q) -> e = (k, q) \/ In e m.
Proof.
  induction m as [|[k0 v] m IH]; cbn [Map_set In].
  - intros [<-|[]]. now left.
  - destruct (Z.eqb_spec k0 k) as [->|Hne]; cbn [In].
    + intros [<-|Hin]; [now left|right; now right].
    + intros [<-|Hin]; [right; now left|]. destruct (IH Hin); [now left|right; now right].
Qed.

Lemma keys_Map_set (m : list (Z * PendingRequest)) (k : Z) (q : PendingRequest) (x : Z) :
  In x (map fst (Map_set m k q)) -> x = k \/ In x (map fst m).
Proof.
  intros Hin. apply in_map_iff in Hin. destruct Hin as (e & <- & He).
  destruct (In_Map_set _ _ _ _ He) as [->|Hm]; [now left|right].
  now apply in_map.
Qed.

Lemma NoDup_keys_set (m : list (Z * PendingRequest)) (k : Z) (q : PendingRequest) :
  NoDup (map fst m) -> NoDup (map fst (Map_set m k q)).
Proof.
  induction m as [|[k0 v] m IH]; cbn [Map_set map fst]; intros Hnd.
  - repeat constructor. intros [].
  - inversion Hnd as [|? ? Hnotin Hrest]; subst.
    destruct (Z.eqb_spec k0 k) as [->|Hne]; cbn [map fst]; [exact Hnd|].
    constructor; [|auto]. intros Hin. destruct (keys_Map_set _ _ _ _ Hin); congruence.
Qed.

Lemma NoDup_values_set (m : list (Z * PendingRequest)) (k : Z) (q : PendingRequest) :
  NoDup (map snd m) -> ~ In q (map snd m) -> NoDup (map snd (Map_set m k q)).
Proof.
  induction m as [|[k0 v] m IH]; cbn [Map_set map snd]; intros Hnd Hq.
  - repeat constructor. intros [].
  - inversion Hnd as [|? ? Hnotin Hrest]; subst.
    destruct (Z.eqb_spec k0 k) as [->|Hne]; cbn [map snd].
    + constructor; [|exact Hrest]. intros Hin. apply Hq. now right.
    + constructor.
      * intros Hin. apply in_map_iff in Hin. destruct Hin as (e & He & Hin).
        destruct (In_Map_set _ _ _ _ Hin) as [->|Hm].
        -- cbn in He. subst v. apply Hq. now left.
        -- apply Hnotin. rewrite <- He. now apply in_map.
      * apply IH; [exact Hrest|]. intros Hin. apply Hq. now right.
Qed.

Lemma values_unique (m : list (Z * PendingRequest)) (k k' : Z) (q : PendingRequest) :
  NoDup (map snd m) -> In (k, q) m -> In (k', q) m -> k = k'.
Proof.
  induction m as [|[k0 v] m IH]; cbn [map snd In]; intros Hnd Hk Hk'; [contradiction|].
  inversion Hnd as [|? ? Hnotin Hrest]; subst.
  destruct Hk as [Hk|Hk], Hk' as [Hk'|Hk'].
  - congruence.
  - injection Hk as -> ->. exfalso. apply Hnotin.
    change q with (snd (k', q)). now apply in_map.
  - injection Hk' as -> ->. exfalso. apply Hnotin.
    change q with (snd (k, q)). now apply in_map.
  - auto.
Qed.

(** A promise that was looked up and deleted by its key is gone. *)
Lemma deleted_promise (m : list (Z * PendingRequest)) (k : Z) (q : PendingRequest) :
  NoDup (map snd m) -> Map_get m k = Some q -> ~ In q (map snd (Map_delete m k)).
Proof.
  intros Hnd Hget Hin. apply Map_get_In in Hget.
  apply in_map_iff in Hin. destruct Hin as ([k' q'] & Hq & Hin). cbn in Hq. subst q'.
  unfold Map_delete in Hin. apply filter_In in Hin. destruct Hin as [Hin Hne].
  cbn [fst] in Hne. apply negb_true_iff in Hne. apply Z.eqb_neq in Hne.
  apply Hne. exact (values_unique m k' k q Hnd Hin Hget).
Qed.

(** ** The effects *)

Lemma resolved_app (a b : list effect) : resolved (a ++ b) = resolved a ++ resolved b.
Proof. unfold resolved. apply flat_map_app. Qed.

Lemma In_resolved (done : list effect) (q : PendingRequest) :
  In q (resolved done) <-> exists data, In (resolve q data) done.
Proof.
  unfold resolved. rewrite in_flat_map. split.
  - intros (e & He & Hq). destruct e; cbn in Hq; try contradiction.
    destruct Hq as [->|[]]. now exists data.
  - intros (data & Hin). exists (resolve q data). split; [exact Hin|now left].
Qed.

(** ** Runs *)

Lemma pairs_unique {A B : Type} (l : list (A * B)) (a : A) (b b' : B) :
  NoDup (map fst l) -> In (a, b) l -> In (a, b') l -> b = b'.
Proof.
  induction l as [|[a0 b0] l IH]; cbn [map fst In]; intros Hnd Hb Hb'; [contradiction|].
  inversion Hnd as [|? ? Hnotin Hrest]; subst.
  destruct Hb as [Hb|Hb], Hb' as [Hb'|Hb'].
  - congruence.
  - injection Hb as -> ->. exfalso. apply Hnotin.
    change a with (fst (a, b')). now apply in_map.
  - injection Hb' as -> ->. exfalso. apply Hnotin.
    change a with (fst (a, b)). now apply in_map.
  - auto.
Qed.

Lemma NoDup_app_disjoint {A : Type} (l l' : list A) (a : A) :
  NoDup (l ++ l') -> In a l -> In a l' -> False.
Proof.
  induction l as [|x l IH]; cbn [app In]; intros Hnd Ha Ha'; [contradiction|].
  inversion Hnd as [|? ? Hnotin Hrest]; subst. destruct Ha as [->|Ha].
  - apply Hnotin, in_or_app. now right.
  - now apply IH.
Qed.

Section RunFacts.

Context `{Crypto}.
Variable opackUnpack : Buffer -> outcome (value * Buffer).
Variable number_toString : value -> string.
Variable object_toNumber : value -> outcome (option Z).
Variable object_toString : value -> outcome string.
Variable listening : bool.
Variable connection_listening : bool.

(** A call that changes nothing but the connection or the [xid]. *)
Lemma drains_nothing (p p' : CompanionProtocol) :
  xid p <= xid p' -> promises p' = promises p -> queues p' = queues p ->
  drains object_toNumber p p' [].
Proof.
  intros Hx Hp Hq. split; [exact Hx|]. split; [exact Hp|].
  split; [exists (fun _ => true); rewrite Hq; apply filter_all|].
  split; [constructor|]. intros q data [].
Qed.

Lemma invariant_drains (p p' : CompanionProtocol) (h : history) (done : list effect) :
  invariant object_toNumber p h -> drains object_toNumber p p' done ->
  invariant object_toNumber p'
    {| effects := effects h ++ done; requests := requests h; auths := auths h |}.
Proof.
  intros [Hreg Hkeys Hvals Hxids Hdist Hpd Hcreated Honce Hleft Hans]
         (Hx & Hp & (keep & Hq) & Hnd & Hres).
  assert (Hsub : forall e, In e (queues p') -> In e (queues p)).
  { intros e. rewrite Hq, filter_In. tauto. }
  assert (Hsubv : forall q, In q (map snd (queues p')) -> In q (map snd (queues p))).
  { intros q Hin. apply in_map_iff in Hin. destruct Hin as (e & <- & He).
    apply in_map. auto. }
  constructor; cbn [effects requests auths].
  - intros k q Hin. apply Hreg. auto.
  - rewrite Hq. now apply NoDup_map_filter.
  - rewrite Hq. now apply NoDup_map_filter.
  - intros q k Hin. specialize (Hxids q k Hin). lia.
  - exact Hdist.
  - exact Hpd.
  - intros q Hin. rewrite Hp. auto.
  - rewrite resolved_app. apply NoDup_app; [exact Honce|exact Hnd|].
    intros q Hold Hnew. apply In_resolved in Hnew. destruct Hnew as (data & Hnew).
    destruct (Hres q data Hnew) as (Hin & _). now destruct (Hleft q Hold).
  - intros q Hin. rewrite resolved_app in Hin. apply in_app_or in Hin.
    destruct Hin as [Hold|Hnew].
    + destruct (Hleft q Hold) as [Hr Hout]. split; [exact Hr|]. auto.
    + apply In_resolved in Hnew. destruct Hnew as (data & Hnew).
      destruct (Hres q data Hnew) as (Hin & Hout & _). split; [|exact Hout].
      apply in_map_iff in Hin. destruct Hin as ([k q'] & Hq' & Hin). cbn in Hq'. subst q'.
      apply in_or_app. destruct (Hreg k q Hin) as [Hr|[Ha _]]; [left|now right].
      change q with (fst (q, k)). now apply in_map.
  - intros q data Hin. apply in_app_or in Hin. destruct Hin as [Hold|Hnew]; [auto|].
    destruct (Hres q data Hnew) as (Hin & _ & Hk).
    apply in_map_iff in Hin. destruct Hin as ([k q'] & Hq' & Hin). cbn in Hq'. subst q'.
    destruct (Hreg k q Hin) as [Hr|[Ha _]]; [|now left].
    right. exists k. split; [exact Hr|].
    destruct (Hk k Hin) as [Hsmall|Hanswer]; [|exact Hanswer].
    specialize (Hxids q k Hr). lia.
Qed.

Lemma drains_delete (p : CompanionProtocol) (k : Z) (done : list effect) :
  resolved done = [] ->
  drains object_toNumber p (set_queues p (Map_delete (queues p) k)) done.
Proof.
  intros Hnone. split; [cbn; lia|]. split; [reflexivity|].
  split; [now exists (fun entry => negb (fst entry =? k))|].
  rewrite Hnone. split; [constructor|].
  intros q data Hin.
  assert (Hq : In q (resolved done)) by (apply In_resolved; now exists data).
  rewrite Hnone in Hq. contradiction.
Qed.

(** Taking one promise out of the queue by its key and resolving it. *)
Lemma drains_resolve (p : CompanionProtocol) (k : Z) (q : PendingRequest) (data : value) :
  NoDup (map snd (queues p)) ->
  Map_get (queues p) k = Some q ->
  k <= 34 \/ answers object_toNumber data k ->
  drains object_toNumber p (set_queues p (Map_delete (queues p) k))
    [clearTimeout q; resolve q data].
Proof.
  intros Hvals Hget Hk. split; [cbn; lia|]. split; [reflexivity|].
  split; [now exists (fun entry => negb (fst entry =? k))|].
  split; [cbn; repeat constructor; intros []|].
  intros q' data' [Hin|[Hin|[]]]; [discriminate|]. injection Hin as <- <-.
  pose proof (Map_get_In _ _ _ Hget) as Hentry.
  split; [change q with (snd (k, q)); now apply in_map|].
  split; [now apply deleted_promise|].
  intros k' Hk'. now rewrite (values_unique _ _ _ _ Hvals Hk' Hentry).
Qed.

Lemma includes_AUTH_FRAMES (frameType : Z) :
  includes_frame AUTH_FRAMES frameType = true -> 3 <= frameType <= 6.
Proof.
  unfold includes_frame, AUTH_FRAMES. cbn [existsb FrameType_value].
  rewrite !orb_true_iff, !Z.eqb_eq. lia.
Qed.

Lemma handleAuth_drains (p p' : CompanionProtocol) (frameType : Z) (data : value)
  (done : list effect) :
  NoDup (map snd (queues p)) -> 3 <= frameType <= 6 ->
  handleAuth p frameType data = (p', done) ->
  drains object_toNumber p p' done.
Proof.
  intros Hvals Hft. unfold handleAuth.
  destruct (Map_get (queues p) frameType) as [q|] eqn:Hget; intros Heq;
    injection Heq as <- <-.
  - apply drains_resolve; [exact Hvals|exact Hget|left; lia].
  - apply drains_nothing; [lia|reflexivity|reflexivity].
Qed.

(** A call that settles nothing and leaves the fields as they are. *)
Lemma drains_same (p : CompanionProtocol) (done : list effect) :
  resolved done = [] -> drains object_toNumber p p done.
Proof.
  intros Hnone. split; [lia|]. split; [reflexivity|].
  split; [exists (fun _ => true); apply filter_all|].
  rewrite Hnone. split; [constructor|]. intros q x Hin.
  assert (Hq : In q (resolved done)) by (apply In_resolved; now exists x).
  rewrite Hnone in Hq. contradiction.
Qed.

(** An ['error'] event behind the effects of a call. *)
Lemma drains_error (p p' : CompanionProtocol) (done : list effect) (e : js_error) :
  drains object_toNumber p p' done ->
  drains object_toNumber p p' (done ++ [emit_error e]).
Proof.
  intros (Hx & Hp & Hq & Hnd & Hr).
  assert (Hsame : resolved (done ++ [emit_error e]) = resolved done).
  { rewrite resolved_app. cbn. now rewrite app_nil_r. }
  split; [exact Hx|]. split; [exact Hp|]. split; [exact Hq|].
  rewrite Hsame. split; [exact Hnd|].
  intros q x Hin. apply in_app_or in Hin. destruct Hin as [Hin|[Hin|[]]];
    [auto|discriminate].
Qed.

Lemma handleOpack_drains (p p' : CompanionProtocol) (data : value)
  (done : list effect) (thrown : outcome unit) :
  NoDup (map snd (queues p)) -> is_object data = true ->
  handleOpack number_toString object_toNumber object_toString p data
  = (p', done, thrown) ->
  drains object_toNumber p p' done.
Proof.
  intros Hvals Hobj. unfold handleOpack.
  assert (Hsame : forall d t, (p, d, t) = (p', done, thrown) -> resolved d = [] ->
                    drains object_toNumber p p' done).
  { intros d t Heq Hd. injection Heq as <- <- <-. now apply drains_same. }
  destruct (Number object_toNumber (property data "_t")) as [[t|]| |] eqn:Ht;
    try (intros Heq; now apply (Hsame _ _ Heq)).
  destruct t as [|t|t]; try (intros Heq; now apply (Hsame _ _ Heq)).
  destruct t as [t|t|]; try (intros Heq; now apply (Hsame _ _ Heq)).
  destruct t as [t|t|]; try (intros Heq; now apply (Hsame _ _ Heq)).
  (* a response *)
  destruct (Number object_toNumber (property data "_x")) as [[x|]| |] eqn:Hx;
    try (intros Heq; now apply (Hsame _ _ Heq)).
  destruct (Map_get (queues p) x) as [q|] eqn:Hget;
    try (intros Heq; now apply (Hsame _ _ Heq)).
  cbv zeta. destruct (has_property data "_em") eqn:Hem.
  - destruct (template number_toString object_toString (property data "_em"));
      intros Heq; injection Heq as <- <- <-; apply drains_delete; reflexivity.
  - intros Heq. injection Heq as <- <- <-.
    apply drains_resolve; [exact Hvals|exact Hget|right]. repeat split; assumption.
Qed.

Lemma handleFrame_try_drains (p p' : CompanionProtocol) (frameType : Z) (data : Buffer)
  (done : list effect) (thrown : outcome unit) :
  NoDup (map snd (queues p)) ->
  includes_frame OPACK_FRAMES frameType = true
  \/ includes_frame AUTH_FRAMES frameType = true ->
  handleFrame_try opackUnpack number_toString object_toNumber object_toString
    p frameType data = (p', done, thrown) ->
  drains object_toNumber p p' done.
Proof.
  intros Hvals Hframes. unfold handleFrame_try.
  assert (Hsame : forall t, (p, [], t) = (p', done, thrown) ->
                    drains object_toNumber p p' done).
  { intros t Heq. injection Heq as <- <- <-. now apply drains_same. }
  destruct (opackUnpack data) as [[opackData rest]|e|]; try apply Hsame.
  destruct (is_object opackData) eqn:Hobj; cbn [negb]; [|apply Hsame].
  destruct (includes_frame AUTH_FRAMES frameType) eqn:Hauth.
  - destruct (handleAuth p frameType opackData) as [p1 d1] eqn:Hhandled.
    intros Heq. injection Heq as <- <- <-.
    apply (handleAuth_drains p p1 frameType opackData d1);
      [exact Hvals|now apply includes_AUTH_FRAMES|exact Hhandled].
  - now apply handleOpack_drains.
Qed.

Lemma handleFrame_drains (p p' : CompanionProtocol) (frameType : Z) (data : Buffer)
  (done : list effect) (thrown : outcome unit) :
  NoDup (map snd (queues p)) ->
  handleFrame opackUnpack number_toString object_toNumber object_toString listening
    p frameType data = (p', done, thrown) ->
  drains object_toNumber p p' done.
Proof.
  intros Hvals. unfold handleFrame.
  destruct (includes_frame OPACK_FRAMES frameType) eqn:Hopack;
    destruct (includes_frame AUTH_FRAMES frameType) eqn:Hauth; cbn [negb andb];
    try (intros Heq; injection Heq as <- <- <-; now apply drains_same);
    (destruct (handleFrame_try opackUnpack number_toString object_toNumber
                 object_toString p frameType data) as [[p1 d1] returned] eqn:Htry;
     assert (Hd : drains object_toNumber p p1 d1)
       by (apply (handleFrame_try_drains p p1 frameType data d1 returned Hvals);
           [rewrite Hopack, Hauth; auto|exact Htry]);
     destruct returned as [u|e|]; [| destruct listening |];
     intros Heq; injection Heq as <- <- <-; auto using drains_error).
Qed.

Lemma handleOpack_xid (p : CompanionProtocol) (data : value) :
  xid (fst (fst (handleOpack number_toString object_toNumber object_toString p data)))
  = xid p.
Proof.
  unfold handleOpack.
  destruct (Number object_toNumber (property data "_t")) as [[[|[t|t|]|t]|]| |];
    try reflexivity.
  destruct t as [t|t|]; try reflexivity.
  destruct (Number object_toNumber (property data "_x")) as [[x|]| |]; try reflexivity.
  destruct (Map_get (queues p) x); [|reflexivity]. cbv zeta.
  destruct (has_property data "_em"); [|reflexivity].
  destruct (template number_toString object_toString (property data "_em"));
    reflexivity.
Qed.

Lemma handleFrame_xid (p : CompanionProtocol) (frameType : Z) (data : Buffer) :
  xid (fst (fst (handleFrame opackUnpack number_toString object_toNumber
                   object_toString listening p frameType data))) = xid p.
Proof.
  unfold handleFrame.
  destruct (negb (includes_frame OPACK_FRAMES frameType)
            && negb (includes_frame AUTH_FRAMES frameType)); [reflexivity|].
  assert (Htry : xid (fst (fst (handleFrame_try opackUnpack number_toString
                                  object_toNumber object_toString p frameType data)))
                 = xid p).
  { unfold handleFrame_try.
    destruct (opackUnpack data) as [[opackData rest]|e|]; try reflexivity.
    destruct (negb (is_object opackData)); [reflexivity|].
    destruct (includes_frame AUTH_FRAMES frameType); [|apply handleOpack_xid].
    unfold handleAuth. destruct (Map_get (queues p) frameType); reflexivity. }
  destruct (handleFrame_try opackUnpack number_toString object_toNumber
              object_toString p frameType data) as [[p1 d1] [u|e|]];
    [exact Htry| |exact Htry].
  destruct listening; exact Htry.
Qed.

Lemma history_eta (h : history) :
  h = {| effects := effects h; requests := requests h; auths := auths h |}.
Proof. now destruct h. Qed.

Lemma invariant_connection (p : CompanionProtocol) (conn : CompanionConnection)
  (h : history) :
  invariant object_toNumber p h -> invariant object_toNumber (set_connection p conn) h.
Proof. intros [? ? ? ? ? ? ? ? ? ?]. constructor; assumption. Qed.

(** The listeners of the connection keep the invariant and the [xid],
    and so does the call of the socket, whether it returns or throws. *)
Lemma socket_data_invariant (p : CompanionProtocol) (h : history) (data : Buffer) :
  invariant object_toNumber p h ->
  let state :=
    fst (socket_data opackUnpack number_toString object_toNumber object_toString
           listening connection_listening p data) in
  invariant object_toNumber (fst state)
    {| effects := effects h ++ snd state; requests := requests h; auths := auths h |}
  /\ xid (fst state) = xid p.
Proof.
  intros Hinv. cbv zeta. unfold socket_data, handleData.
  pose (P := fun state : CompanionProtocol * list effect =>
               invariant object_toNumber (fst state)
                 {| effects := effects h ++ snd state; requests := requests h;
                    auths := auths h |}
               /\ xid (fst state) = xid p).
  assert (Hloop : forall fuel conn,
            P (snd (fst (handleData_loop
                           (frame_listener opackUnpack number_toString object_toNumber
                              object_toString listening)
                           (error_listener connection_listening) fuel conn (p, []))))).
  { intros fuel conn. apply (handleData_loop_invariant _ _ P).
    - intros [p0 done0] frameType payload [Hinv0 Hx0]. unfold frame_listener.
      cbn [fst snd] in *.
      pose proof (handleFrame_xid p0 frameType payload) as Hxid.
      destruct (handleFrame opackUnpack number_toString object_toNumber object_toString
                  listening p0 frameType payload) as [[p1 done1] returned] eqn:Hframe.
      cbn [fst snd] in *. unfold P. cbn [fst snd]. split; [|congruence].
      rewrite app_assoc.
      apply (invariant_drains p0 p1
               {| effects := effects h ++ done0; requests := requests h;
                  auths := auths h |} done1 Hinv0).
      apply (handleFrame_drains p0 p1 frameType payload done1 returned);
        [now destruct Hinv0|exact Hframe].
    - intros listener [p0 done0] e Hlistener [Hinv0 Hx0]. unfold error_listener in Hlistener.
      destruct connection_listening; [|discriminate]. injection Hlistener as <-.
      cbn [fst snd] in *. unfold P. cbn [fst snd]. split; [|exact Hx0].
      rewrite app_assoc.
      apply (invariant_drains p0 p0
               {| effects := effects h ++ done0; requests := requests h;
                  auths := auths h |} [emit_connection_error e] Hinv0).
      now apply drains_same.
    - unfold P. cbn [fst snd]. split; [|reflexivity].
      now rewrite app_nil_r, <- history_eta. }
  match goal with |- context [handleData_loop ?f ?g ?n ?c (p, [])] =>
    specialize (Hloop n c); destruct (handleData_loop f g n c (p, []))
      as [[conn' [p' done]] returned]
  end.
  unfold P in Hloop. cbn [fst snd] in *. destruct Hloop as [Hinv' Hxid].
  split; [|exact Hxid]. now apply invariant_connection.
Qed.

(** A request enters the queue. *)
Lemma invariant_request (p : CompanionProtocol) (h : history)
  (conn : CompanionConnection) (done : list effect) :
  invariant object_toNumber p h -> 34 < xid p -> resolved done = [] ->
  invariant object_toNumber
    {| connection := conn; xid := xid p + 1;
       queues := Map_set (queues p) (xid p) (promises p);
       isStarted := isStarted p; promises := S (promises p) |}
    {| effects := effects h ++ done;
       requests := requests h ++ [(promises p, xid p)]; auths := auths h |}.
Proof.
  intros [Hreg Hkeys Hvals Hxids Hdist Hpd Hcreated Honce Hleft Hans] Hx Hnone.
  assert (Hfresh : ~ In (promises p) (map snd (queues p))).
  { intros Hin. apply in_map_iff in Hin. destruct Hin as ([k q] & Hq & Hin).
    cbn in Hq. subst q. assert (Hlt : (promises p < promises p)%nat); [|lia].
    apply Hcreated. apply in_or_app.
    destruct (Hreg k _ Hin) as [Hr|[Ha _]]; [left|now right].
    change (promises p) with (fst (promises p, k)). now apply in_map. }
  assert (Hnew : ~ In (promises p) (map fst (requests h) ++ auths h)).
  { intros Hin. specialize (Hcreated _ Hin). lia. }
  constructor; cbn [effects requests auths queues xid promises].
  - intros k q Hin. destruct (In_Map_set _ _ _ _ Hin) as [Heq|Hold].
    + injection Heq as -> ->. left. apply in_or_app. right. now left.
    + destruct (Hreg k q Hold) as [Hr|Ha]; [left|now right]. apply in_or_app. now left.
  - now apply NoDup_keys_set.
  - now apply NoDup_values_set.
  - intros q k Hin. apply in_app_or in Hin. destruct Hin as [Hin|[Heq|[]]].
    + specialize (Hxids q k Hin). lia.
    + injection Heq as <- <-. lia.
  - rewrite map_app. cbn [map snd]. apply NoDup_app; [exact Hdist|repeat constructor; intros []|].
    intros k Hin [<-|[]]. apply in_map_iff in Hin. destruct Hin as ([q k'] & Hk & Hin).
    cbn in Hk. subst k'. specialize (Hxids q _ Hin). lia.
  - rewrite map_app. cbn [map fst]. rewrite <- app_assoc. cbn [app].
    apply (NoDup_Add (Add_app (promises p) (map fst (requests h)) (auths h))).
    split; assumption.
  - intros q Hin. rewrite map_app in Hin. cbn [map fst] in Hin.
    rewrite <- app_assoc in Hin. cbn [app] in Hin.
    apply in_app_or in Hin. destruct Hin as [Hin|[<-|Hin]]; [|lia|].
    + assert (q < promises p)%nat; [|lia]. apply Hcreated, in_or_app. now left.
    + assert (q < promises p)%nat; [|lia]. apply Hcreated, in_or_app. now right.
  - rewrite resolved_app, Hnone, app_nil_r. exact Honce.
  - intros q Hin. rewrite resolved_app, Hnone, app_nil_r in Hin.
    destruct (Hleft q Hin) as [Hr Hout]. split.
    + rewrite map_app. cbn [map fst]. rewrite <- app_assoc. cbn [app].
      apply in_app_or in Hr. apply in_or_app.
      destruct Hr; [now left|right; now right].
    + intros Hq. apply in_map_iff in Hq. destruct Hq as (e & He & Hq).
      destruct (In_Map_set _ _ _ _ Hq) as [->|Hold].
      * cbn in He. subst q. contradiction.
      * apply Hout. rewrite <- He. now apply in_map.
  - intros q data Hin. apply in_app_or in Hin. destruct Hin as [Hin|Hin].
    + destruct (Hans q data Hin) as [Ha|(x & Hr & Hx')]; [now left|right].
      exists x. split; [apply in_or_app; now left|exact Hx'].
    + assert (Hq : In q (resolved done)) by (apply In_resolved; now exists data).
      rewrite Hnone in Hq. contradiction.
Qed.

(** An exchange of an auth frame enters the queue under a frame type. *)
Lemma invariant_auth (p : CompanionProtocol) (h : history)
  (conn : CompanionConnection) (identifier : Z) (done : list effect) :
  invariant object_toNumber p h -> identifier <= 34 -> resolved done = [] ->
  invariant object_toNumber
    {| connection := conn; xid := xid p;
       queues := Map_set (queues p) identifier (promises p);
       isStarted := isStarted p; promises := S (promises p) |}
    {| effects := effects h ++ done; requests := requests h;
       auths := auths h ++ [promises p] |}.
Proof.
  intros [Hreg Hkeys Hvals Hxids Hdist Hpd Hcreated Honce Hleft Hans] Hid Hnone.
  assert (Hfresh : ~ In (promises p) (map snd (queues p))).
  { intros Hin. apply in_map_iff in Hin. destruct Hin as ([k q] & Hq & Hin).
    cbn in Hq. subst q. assert (Hlt : (promises p < promises p)%nat); [|lia].
    apply Hcreated. apply in_or_app.
    destruct (Hreg k _ Hin) as [Hr|[Ha _]]; [left|now right].
    change (promises p) with (fst (promises p, k)). now apply in_map. }
  assert (Hnew : ~ In (promises p) (map fst (requests h) ++ auths h)).
  { intros Hin. specialize (Hcreated _ Hin). lia. }
  constructor; cbn [effects requests auths queues xid promises].
  - intros k q Hin. destruct (In_Map_set _ _ _ _ Hin) as [Heq|Hold].
    + injection Heq as -> ->. right. split; [|exact Hid]. apply in_or_app. right. now left.
    + destruct (Hreg k q Hold) as [Hr|[Ha Hk]]; [now left|right].
      split; [|exact Hk]. apply in_or_app. now left.
  - now apply NoDup_keys_set.
  - now apply NoDup_values_set.
  - exact Hxids.
  - exact Hdist.
  - rewrite app_assoc. apply NoDup_app; [exact Hpd|repeat constructor; intros []|].
    intros q Hin [<-|[]]. contradiction.
  - intros q Hin. rewrite app_assoc in Hin.
    apply in_app_or in Hin. destruct Hin as [Hin|[<-|[]]]; [|lia].
    specialize (Hcreated q Hin). lia.
  - rewrite resolved_app, Hnone, app_nil_r. exact Honce.
  - intros q Hin. rewrite resolved_app, Hnone, app_nil_r in Hin.
    destruct (Hleft q Hin) as [Hr Hout]. split.
    + rewrite app_assoc. apply in_or_app. now left.
    + intros Hq. apply in_map_iff in Hq. destruct Hq as (e & He & Hq).
      destruct (In_Map_set _ _ _ _ Hq) as [->|Hold].
      * cbn in He. subst q. contradiction.
      * apply Hout. rewrite <- He. now apply in_map.
  - intros q data Hin. apply in_app_or in Hin. destruct Hin as [Hin|Hin].
    + destruct (Hans q data Hin) as [Ha|Hx]; [left|now right].
      apply in_or_app. now left.
    + assert (Hq : In q (resolved done)) by (apply In_resolved; now exists data).
      rewrite Hnone in Hq. contradiction.
Qed.

Lemma resolved_stop (queue : list (Z * PendingRequest)) :
  resolved (flat_map (fun entry => [clearTimeout (snd entry);
                                    reject (snd entry) (Error "Protocol stopped")])
              queue) = [].
Proof. induction queue as [|e queue IH]; [reflexivity|exact IH]. Qed.

Lemma FrameType_value_bound (frameType : FrameType) : FrameType_value frameType <= 34.
Proof. destruct frameType; cbn; lia. Qed.

(** One call keeps the invariant, and moves [xid] up by one at most. *)
Lemma step_invariant (p : CompanionProtocol) (h : history) (c : call) :
  invariant object_toNumber p h -> 34 < xid p < 2 ^ 53 ->
  let state :=
    step opackUnpack number_toString object_toNumber object_toString listening
      connection_listening (p, h) c in
  invariant object_toNumber (fst state) (snd state)
  /\ xid p <= xid (fst state) <= xid p + 1.
Proof.
  intros Hinv Hx. pose proof Hinv as Hinv0.
  assert (Hinc : js_increment (xid p) = xid p + 1).
  { apply js_increment_safe. unfold safe_counter. lia. }
  assert (Hfields : forall q : CompanionProtocol,
            xid q = xid p -> queues q = queues p -> promises q = promises p ->
            invariant object_toNumber q h /\ xid p <= xid q <= xid p + 1).
  { intros q Hqx Hqq Hqp. split; [|lia].
    destruct Hinv as [? ? ? ? ? ? ? ? ? ?].
    constructor; rewrite ?Hqx, ?Hqq, ?Hqp; assumption. }
  destruct c as [|frameType data timeout|frameType data timeout|frameType data
                |data|identifier promise timeout|conn|]; cbn [step].
  - (* start *)
    unfold start. destruct (isStarted p); cbn [fst snd]; now apply Hfields.
  - (* exchangeAuth *)
    unfold exchangeAuth, exchangeGenericOpack.
    destruct (send_packed (connection p) frameType (VDict data)) as [conn sent].
    cbn [fst snd xid]. split; [|lia].
    apply invariant_auth; [exact Hinv|apply FrameType_value_bound|].
    now destruct sent.
  - (* exchangeOpack *)
    unfold exchangeOpack, exchangeGenericOpack. cbn [set_xid connection xid queues
                                                       isStarted promises].
    destruct (send_packed (connection p) frameType
                (VDict (dict_set data "_x" (VInt (xid p))))) as [conn sent].
    cbn [fst snd xid]. rewrite Hinc. split; [|lia].
    apply invariant_request; [exact Hinv|lia|]. now destruct sent.
  - (* sendOpack *)
    unfold sendOpack.
    destruct (negb (has_property (VDict data) "_x"));
      match goal with
      | |- context [send_packed ?conn ?ft ?v] =>
          destruct (send_packed conn ft v) as [conn' sent]
      end; cbn [fst snd set_connection set_xid xid];
      (split; [|lia]);
      rewrite (history_eta h), <- (app_nil_r (effects h));
      (apply (invariant_drains p); [exact Hinv|]);
      (apply drains_nothing; cbn; [lia|reflexivity|reflexivity]).
  - (* data from the socket *)
    pose proof (socket_data_invariant p h data Hinv) as Hdata. cbv zeta in Hdata.
    destruct (socket_data opackUnpack number_toString object_toNumber object_toString
                listening connection_listening p data) as [[p' done] returned].
    cbn [fst snd] in *. destruct Hdata as [Hinv' Hxid]. split; [exact Hinv'|lia].
  - (* a timer *)
    unfold timer_fires. cbn [fst snd set_queues xid]. split; [|lia].
    apply (invariant_drains p); [exact Hinv|]. apply drains_delete. reflexivity.
  - (* the connection *)
    cbn [fst snd]. now apply Hfields.
  - (* stop *)
    unfold stop. cbn [fst snd xid]. split; [|lia].
    apply (invariant_drains p); [exact Hinv|].
    split; [cbn; lia|]. split; [reflexivity|].
    split; [exists (fun _ => false); apply filter_none|].
    rewrite resolved_stop. split; [constructor|].
    intros q x Hin.
    assert (Hq : In q (resolved
                         (flat_map (fun entry => [clearTimeout (snd entry);
                                                  reject (snd entry)
                                                    (Error "Protocol stopped")])
                            (queues p)))) by (apply In_resolved; now exists x).
    rewrite resolved_stop in Hq. contradiction.
Qed.

Lemma run_invariant (calls : list call) :
  forall (p : CompanionProtocol) (h : history),
    invariant object_toNumber p h -> 34 < xid p ->
    xid p + Z.of_nat (length calls) <= 2 ^ 53 ->
    let state :=
      fold_left
        (step opackUnpack number_toString object_toNumber object_toString listening
           connection_listening) calls (p, h) in
    invariant object_toNumber (fst state) (snd state).
Proof.
  induction calls as [|c calls IH]; intros p h Hinv Hlow Hhigh; cbn [fold_left].
  - exact Hinv.
  - cbn [length] in Hhigh.
    destruct (step_invariant p h c Hinv ltac:(lia)) as [Hinv' Hxid].
    destruct (step opackUnpack number_toString object_toNumber object_toString
                listening connection_listening (p, h) c) as [p' h'].
    cbn [fst snd] in *. apply IH; [exact Hinv'|lia|lia].
Qed.

(** An object with an empty queue, before any call. *)
Lemma invariant_start (p : CompanionProtocol) :
  queues p = [] ->
  invariant object_toNumber p {| effects := []; requests := []; auths := [] |}.
Proof.
  intros Hq. constructor; cbn [effects requests auths resolved flat_map map app];
    rewrite ?Hq; try constructor; intros; contradiction.
Qed.

(** X22.  However the calls of [start], [exchangeOpack], [exchangeAuth],
    [sendOpack] and [stop], the data from the socket, the timers and the
    calls that change the connection follow each other on an object that
    started with an empty queue and an [xid] above the frame type values:
    every [exchangeOpack] has got an [xid] of its own and every exchange a
    promise of its own, [resolve] was called once at most for a promise
    and for promises of these exchanges only, and the [resolve] of the
    promise of an [exchangeOpack] was called with nothing but objects that
    have, themselves or from their prototypes, [_t] = 3 (a response), the
    [xid] of that request as [_x], and no [_em].  This holds for every
    decoder in the place of [unpack], for every bytes of the socket, with
    and without listeners of the ['error'] events, and for the calls of
    the socket that throw as for those that return.  The timers of a run
    need not be timers that were set, and the connection may change in
    every way, so the runs of the statement include those of the
    program. *)
Theorem requests_resolved_by_their_response (calls : list call)
  (p p' : CompanionProtocol) (h : history) :
  queues p = [] -> 34 < xid p -> xid p + Z.of_nat (length calls) <= 2 ^ 53 ->
  run opackUnpack number_toString object_toNumber object_toString listening
    connection_listening calls p = (p', h) ->
  NoDup (map snd (requests h))
  /\ NoDup (map fst (requests h) ++ auths h)
  /\ NoDup (resolved (effects h))
  /\ (forall promise data,
         In (resolve promise data) (effects h) ->
         In promise (map fst (requests h) ++ auths h))
  /\ (forall promise x data,
         In (promise, x) (requests h) ->
         In (resolve promise data) (effects h) ->
         answers object_toNumber data x).
Proof.
  intros Hq Hlow Hhigh Hrun.
  pose proof (run_invariant calls p _ (invariant_start p Hq) Hlow Hhigh) as Hinv.
  cbv zeta in Hinv. unfold run in Hrun. rewrite Hrun in Hinv. cbn [fst snd] in Hinv.
  destruct Hinv as [_ _ _ _ Hdist Hpd _ Honce Hleft Hans].
  split; [exact Hdist|]. split; [exact Hpd|]. split; [exact Honce|]. split.
  - intros promise data Hin. apply Hleft. apply In_resolved. now exists data.
  - intros promise x data Hrequest Hin.
    assert (Hfirst : In promise (map fst (requests h))).
    { change promise with (fst (promise, x)). now apply in_map. }
    destruct (Hans promise data Hin) as [Hauth|(x' & Hrequest' & Hanswers)].
    + exfalso. exact (NoDup_app_disjoint _ _ promise Hpd Hfirst Hauth).
    + assert (Hnd : NoDup (map fst (requests h))).
      { apply NoDup_app_remove_r in Hpd. exact Hpd. }
      now rewrite (pairs_unique _ _ _ _ Hnd Hrequest Hrequest').
Qed.

End RunFacts.

(** ** Messages from the other end *)

(** An object without an entry under [__proto__] inherits no key of the
    protocol. *)
Lemma plain_no_prototype (entries : list (string * value)) :
  plain (VDict entries) = true ->
  forallb (fun e => negb (String.eqb (fst e) "__proto__")) entries = true.
Proof.
  cbn [plain]. rewrite andb_true_iff. intros [Hall _].
  rewrite forallb_forall in *. intros e He. specialize (Hall e He).
  rewrite !andb_true_iff in Hall. tauto.
Qed.

Lemma property_own (entries : list (string * value)) (key : string) :
  forallb (fun e => negb (String.eqb (fst e) "__proto__")) entries = true ->
  property (VDict entries) key
  = match find (fun e => String.eqb (fst e) key) entries with
    | Some e => snd e
    | None => VUndefined
    end.
Proof.
  intros Hown. cbn [property].
  destruct (find (fun e => String.eqb (fst e) key) entries); [reflexivity|].
  induction entries as [|[k x] entries IH]; [reflexivity|].
  cbn [forallb fst] in Hown. apply andb_true_iff in Hown. destruct Hown as [Hk Hown].
  apply negb_true_iff in Hk. rewrite Hk. now apply IH.
Qed.


Lemma decoded_no_prototype (entries : list (string * value)) :
  forallb (fun e => negb (String.eqb (fst e) "__proto__")) entries = true ->
  forallb (fun e => negb (String.eqb (fst e) "__proto__"))
    (map (fun e => (fst e, decoded (snd e))) entries) = true.
Proof.
  intros Hown. rewrite forallb_forall in *. intros e He.
  apply in_map_iff in He. destruct He as (e0 & <- & He0). cbn [fst]. auto.
Qed.

Lemma property_decoded (entries : list (string * value)) (key : string) :
  plain (VDict entries) = true ->
  property (decoded (VDict entries)) key = decoded (property (VDict entries) key).
Proof.
  intros Hp. apply plain_no_prototype in Hp. cbn [decoded].
  rewrite (property_own _ key (decoded_no_prototype _ Hp)), (property_own _ key Hp).
  clear Hp. induction entries as [|[k x] entries IH]; cbn [map find fst snd]; [reflexivity|].
  destruct (String.eqb k key); [reflexivity|exact IH].
Qed.



Lemma pack_plain (number_toString : value -> string) (v : value) :
  plain v = true -> NoDup (node_encodings v) -> pack v = Return (encoding v).
Proof.
  intros Hp Hnd. unfold pack.
  rewrite (plain_packs number_toString v Hp [] (Forall_nil _) Hnd). reflexivity.
Qed.

Lemma unpack_plain_encoding (number_toString : value -> string) (v : value) :
  plain v = true -> unpack number_toString (encoding v) = Return (decoded v, []).
Proof.
  intros Hp. destruct (unpack_plain number_toString v [] Hp) as (ol & Hread).
  rewrite app_nil_r in Hread. unfold unpack. rewrite Hread. reflexivity.
Qed.

Lemma includes_OPACK_FRAMES (frameType : FrameType) :
  In frameType OPACK_FRAMES ->
  includes_frame OPACK_FRAMES (FrameType_value frameType) = true
  /\ includes_frame AUTH_FRAMES (FrameType_value frameType) = false.
Proof. intros [<-|[<-|[<-|[]]]]; split; reflexivity. Qed.

Section Transport.

(** The two ends of a connection, with [Opack.unpack] as the decoder of
    the receiver and a ChaCha20-Poly1305 that opens what it sealed and
    appends a tag of 16 bytes; with and without listeners of ['error']. *)
Context `{Crypto}.
Variable number_toString : value -> string.
Variable object_toNumber : value -> outcome (option Z).
Variable object_toString : value -> outcome string.
Variable listening : bool.
Variable connection_listening : bool.
Hypothesis Hopens : aead_opens.
Hypothesis Htag : aead_appends_tag.

(** The frame of a message that the other end sent with
    [connection.send(frameType, pack(message))] comes to [handleFrame]
    with the encoding of the message; when [handleFrame] returns, so does
    the call of the socket. *)
Lemma sent_message_handled (tx tx' : CompanionConnection) (rx : CompanionProtocol)
  (frameType : FrameType) (message : value) (written : list Buffer) (bytes : Buffer) :
  peers tx (connection rx) -> buffer (connection rx) = [] ->
  plain message = true -> NoDup (node_encodings message) ->
  send_packed tx frameType message = (tx', Return tt) ->
  socket tx = Some written -> socket tx' = Some (written ++ [bytes]) ->
  exists conn,
    (forall rx' done,
        handleFrame (unpack number_toString) number_toString object_toNumber
          object_toString listening rx (FrameType_value frameType) (encoding message)
        = (rx', done, Return tt) ->
        socket_data (unpack number_toString) number_toString object_toNumber
          object_toString listening connection_listening rx bytes
        = (set_connection rx' conn, done, Return tt))
    /\ buffer conn = [] /\ peers tx' conn.
Proof.
  intros Hpeers Hbuf Hp Hnd Hsend Hsock Hsock'.
  unfold send_packed in Hsend. rewrite (pack_plain number_toString message Hp Hnd) in Hsend.
  destruct (send_handleData
              (frame_listener (unpack number_toString) number_toString object_toNumber
                 object_toString listening)
              (error_listener connection_listening)
              tx tx' (connection rx) frameType (encoding message)
              written bytes Hopens Htag Hpeers Hbuf Hsend Hsock Hsock')
    as (conn & Hrun & Hb & _ & Hstep).
  exists conn. split; [|now split].
  intros rx' done Hframe. unfold socket_data. rewrite Hrun.
  cbn [frame_emitted]. unfold frame_listener. cbn [fst snd]. rewrite Hframe.
  reflexivity.
Qed.

(** X19.  An event that the other end sends arrives as an ['event']: for
    a message with [_t] = 1, given to [connection.send] as an OPACK frame
    by a sender in step with the receiver, the bytes that reach the socket
    of the receiver make it emit one ['event'] with the [_i] and the [_c]
    of the message, read back up to the width of their integers, and the
    call of the socket returns.  The queue and the [xid] of the receiver
    stay as they are, and the two ends stay in step.
    The message is [plain] and no encoding of more than one
    byte occurs twice in it, so that [pack] writes no reference; the
    sender is in step with the receiver, whose buffer is empty; the cipher
    opens what it sealed and appends a tag of 16 bytes. *)
Theorem sent_event_emitted (tx tx' : CompanionConnection) (rx : CompanionProtocol)
  (frameType : FrameType) (message : list (string * value))
  (written : list Buffer) (bytes : Buffer) :
  peers tx (connection rx) -> buffer (connection rx) = [] ->
  In frameType OPACK_FRAMES ->
  property (VDict message) "_t" = VInt 1 ->
  plain (VDict message) = true -> NoDup (node_encodings (VDict message)) ->
  send_packed tx frameType (VDict message) = (tx', Return tt) ->
  socket tx = Some written -> socket tx' = Some (written ++ [bytes]) ->
  exists rx',
    socket_data (unpack number_toString) number_toString object_toNumber
      object_toString listening connection_listening rx bytes
    = (rx', [emit_event (decoded (property (VDict message) "_i"))
                        (decoded (property (VDict message) "_c"))], Return tt)
    /\ queues rx' = queues rx /\ xid rx' = xid rx
    /\ buffer (connection rx') = [] /\ peers tx' (connection rx').
Proof.
  intros Hpeers Hbuf Hft Htype Hp Hnd Hsend Hsock Hsock'.
  destruct (sent_message_handled tx tx' rx frameType (VDict message) written bytes
              Hpeers Hbuf Hp Hnd Hsend Hsock Hsock') as (conn & Hdata & Hb & Hstep).
  destruct (includes_OPACK_FRAMES frameType Hft) as [Hopack Hauth].
  exists (set_connection rx conn). split; [|repeat split; assumption].
  apply Hdata. unfold handleFrame, handleFrame_try. rewrite Hopack, Hauth.
  cbn [negb andb].
  rewrite (unpack_plain_encoding number_toString _ Hp).
  change (is_object (decoded (VDict message))) with true. cbn [negb].
  unfold handleOpack. rewrite !(property_decoded _ _ Hp), Htype. reflexivity.
Qed.



End Transport.

Import Examples.

Lemma sent_event_emitted_witness :
  exists rx',
    @socket_data (unpack (fun _ => EmptyString)) (fun _ => EmptyString)
      (fun _ => Return None) (fun _ => Return EmptyString) false false Toy.crypto client
      (@sent_bytes Toy.crypto device E_OPACK (VDict volume_event))
    = (rx', [emit_event (decoded (property (VDict volume_event) "_i"))
                        (decoded (property (VDict volume_event) "_c"))], Return tt)
    /\ queues rx' = queues client /\ xid rx' = xid client
    /\ buffer (connection rx') = []
    /\ peers (fst (@send_packed Toy.crypto device E_OPACK (VDict volume_event)))
         (connection rx').
Proof.
  apply (@sent_event_emitted Toy.crypto (fun _ => EmptyString) (fun _ => Return None)
           (fun _ => Return EmptyString) false false
           Toy_aead_opens Toy_aead_appends_tag device
           (fst (@send_packed Toy.crypto device E_OPACK (VDict volume_event)))
           client E_OPACK volume_event []).
  - unfold peers, in_step. simpl. repeat split.
  - reflexivity.
  - right. now left.
  - reflexivity.
  - reflexivity.
  - cbv. repeat (constructor; [simpl; intuition discriminate|]). constructor.
  - reflexivity.
  - reflexivity.
  - reflexivity.
Defined.



(** A response whose fields come from a prototype: the map on the wire has
    the one key [__proto__], [unpack] makes its value the prototype of the
    object it builds, and [handleOpack] reads [_t] and [_x] through it. *)
Lemma response_through_prototype :
  let result :=
    @socket_data (unpack (fun _ => EmptyString)) (fun _ => EmptyString)
      (fun _ => Return None) (fun _ => Return EmptyString) false false Toy.crypto
      (fst (fst (@exchangeOpack Toy.crypto client E_OPACK launch_command 5000)))
      (@sent_bytes Toy.crypto device E_OPACK (VDict inherited_response)) in
  snd (fst result)
  = [clearTimeout 0%nat;
     resolve 0%nat
       (VDict [("__proto__"%string,
                VDict [("_t"%string, VInt 3); ("_x"%string, VSizedInt 1234 2)])])]
  /\ snd result = Return tt
  /\ queues (fst (fst result)) = [].
Proof. repeat split; vm_compute; reflexivity. Qed.

(** A frame that [unpack] cannot read, followed by a frame that it can,
    without a listener of ['error'] on the protocol or on the connection:
    the [TypeError] of [unpack] leaves [handleFrame] and [handleData], and
    the second frame stays in the buffer.  With the two listeners the
    error is emitted and the second frame is handled. *)
Lemma undecodable_frame_is_thrown :
  let plain_client :=
    set_connection client {| socket := Some []; buffer := []; chacha := None |} in
  let bytes := [8; 0; 0; 1; 0xff] ++ [8; 0; 0; 4; 0xe1; 0x41; 0x61; 0x01] in
  @socket_data (unpack (fun _ => EmptyString)) (fun _ => EmptyString)
    (fun _ => Return None) (fun _ => Return EmptyString) false false Toy.crypto
    plain_client bytes
  = (set_connection client
       {| socket := Some []; buffer := [8; 0; 0; 4; 0xe1; 0x41; 0x61; 0x01];
          chacha := None |},
     [], Throw (TypeError "Unknown OPACK tag"))
  /\
  snd (fst (@socket_data (unpack (fun _ => EmptyString)) (fun _ => EmptyString)
              (fun _ => Return None) (fun _ => Return EmptyString) true true Toy.crypto
              plain_client bytes))
  = [emit_error (TypeError "Unknown OPACK tag")].
Proof. split; vm_compute; reflexivity. Qed.

Lemma requests_resolved_by_their_response_witness :
  let h :=
    snd (@run Toy.crypto (unpack (fun _ => EmptyString)) (fun _ => EmptyString)
           (fun _ => Return None) (fun _ => Return EmptyString) false false
           [call_start;
            call_exchangeOpack E_OPACK launch_command 5000;
            call_socket_data rejected_frame;
            call_socket_data (@sent_bytes Toy.crypto device E_OPACK
                                (VDict inherited_response));
            call_socket_data (@sent_bytes Toy.crypto device E_OPACK
                                (VDict launch_response))]
           client) in
  NoDup (map snd (requests h))
  /\ NoDup (map fst (requests h) ++ auths h)
  /\ NoDup (resolved (effects h))
  /\ (forall promise data,
         In (resolve promise data) (effects h) ->
         In promise (map fst (requests h) ++ auths h))
  /\ (forall promise x data,
         In (promise, x) (requests h) ->
         In (resolve promise data) (effects h) ->
         answers (fun _ => Return None) data x).
Proof.
  apply (@requests_resolved_by_their_response Toy.crypto
           (unpack (fun _ => EmptyString)) (fun _ => EmptyString)
           (fun _ => Return None) (fun _ => Return EmptyString) false false
           [call_start;
            call_exchangeOpack E_OPACK launch_command 5000;
            call_socket_data rejected_frame;
            call_socket_data (@sent_bytes Toy.crypto device E_OPACK
                                (VDict inherited_response));
            call_socket_data (@sent_bytes Toy.crypto device E_OPACK
                                (VDict launch_response))]
           client
           (fst (@run Toy.crypto (unpack (fun _ => EmptyString)) (fun _ => EmptyString)
                   (fun _ => Return None) (fun _ => Return EmptyString) false false
                   [call_start;
                    call_exchangeOpack E_OPACK launch_command 5000;
                    call_socket_data rejected_frame;
                    call_socket_data (@sent_bytes Toy.crypto device E_OPACK
                                        (VDict inherited_response));
                    call_socket_data (@sent_bytes Toy.crypto device E_OPACK
                                        (VDict launch_response))]
                   client))).
  - reflexivity.
  - reflexivity.
  - vm_compute. discriminate.
  - apply surjective_pairing.
Defined.

End ProtocolFacts.
